(** * PMFS/NOVA core: a shallow embedding of [pmfs.h], [dir.c] and [inode.c]

    The development follows the three source files.  Persistent memory is a
    byte-addressed region reached by offset from the superblock base; the
    on-media structures whose layout [pmfs.h] gives (directory log entries,
    log page tails) are read and written byte by byte, little-endian.  The
    persistent inode, whose declaration lives in [pmfs_def.h], is a record.

    External collaborators (block allocator, slab caches, kernel red-black
    tree rebalancing) are modelled by their narrow contracts: the allocator
    answers from an oracle kept in the state and every block handed back is
    recorded in a trace. *)

From Stdlib Require Import ZArith List Bool Lia.
Import ListNotations.
Open Scope Z_scope.

(* ====================================================================== *)
(** ** Machine integers *)

Definition u8  (x : Z) : Z := x mod 2 ^ 8.
Definition u16 (x : Z) : Z := x mod 2 ^ 16.
Definition u32 (x : Z) : Z := x mod 2 ^ 32.
Definition u64 (x : Z) : Z := x mod 2 ^ 64.

(** [int] values are kept as mathematical integers; errno values of
    <errno.h>. *)
Definition ENOMEM : Z := 12.
Definition EEXIST : Z := 17.
Definition EINVAL : Z := 22.
Definition ENOSPC : Z := 28.

(** [BUG()] stops the kernel thread: a computation either finishes or hits
    a [BUG]. *)
Inductive result (A : Type) : Type :=
| Done (a : A)
| Bug.
Arguments Done {A} a.
Arguments Bug {A}.

Definition bind {A B : Type} (r : result A) (k : A -> result B) : result B :=
  match r with
  | Done a => k a
  | Bug => Bug
  end.

Notation "x <- c ;; k" := (bind c (fun x => k))
  (at level 61, c at next level, right associativity).
Notation "' p <- c ;; k" := (bind c (fun p => k))
  (at level 61, p pattern, c at next level, right associativity).

(* ====================================================================== *)
(** ** Byte-addressed memory *)

Definition mem : Type := Z -> Z.

Definition load8 (m : mem) (a : Z) : Z := m a.

Definition store8 (m : mem) (a v : Z) : mem :=
  fun x => if x =? a then u8 v else m x.

(** Little-endian accessors over [n] bytes. *)
Fixpoint load_le (n : nat) (m : mem) (a : Z) : Z :=
  match n with
  | O => 0
  | S k => m a + 2 ^ 8 * load_le k m (a + 1)
  end.

Fixpoint store_le (n : nat) (m : mem) (a v : Z) : mem :=
  match n with
  | O => m
  | S k => store_le k (store8 m a v) (a + 1) (v / 2 ^ 8)
  end.

Definition load16 := load_le 2.
Definition load32 := load_le 4.
Definition load64 := load_le 8.
Definition store16 := store_le 2.
Definition store32 := store_le 4.
Definition store64 := store_le 8.

(** [memcpy]-style copy of a byte string. *)
Fixpoint store_bytes (m : mem) (a : Z) (bs : list Z) : mem :=
  match bs with
  | [] => m
  | b :: tl => store_bytes (store8 m a b) (a + 1) tl
  end.

Fixpoint load_bytes (n : nat) (m : mem) (a : Z) : list Z :=
  match n with
  | O => []
  | S k => m a :: load_bytes k m (a + 1)
  end.

(** Zero-fill of [len] bytes (what the allocator does when [zero] is set). *)
Definition mem_zero (m : mem) (a len : Z) : mem :=
  fun x => if (a <=? x) && (x <? a + len) then 0 else m x.

Definition mem_empty : mem := fun _ => 0.

(** A NUL-terminated string read in place: the bytes before the first NUL,
    looking at most [fuel] bytes ahead. *)
Fixpoint cstring (fuel : nat) (m : mem) (a : Z) : list Z :=
  match fuel with
  | O => []
  | S k => if m a =? 0 then [] else m a :: cstring k m (a + 1)
  end.

(* ====================================================================== *)
(** ** Constants of [pmfs_def.h] and the kernel

    [pmfs_def.h] is not part of the sources at hand; its constants are
    parameters.  The page size is the kernel's 4 KiB, on which
    [INVALID_MASK] and [LAST_ENTRY] of [pmfs.h] rely. *)

Class PmfsDef : Type := {
  META_BLK_SHIFT : Z;
  CACHELINE_SIZE : Z;
  PMFS_INODE_SIZE : Z;
  PMFS_INODE_BITS : Z;
  PMFS_FREE_INODE_HINT_START : Z;
  PMFS_DEFAULT_BLOCK_TYPE : Z
}.

Definition PAGE_SHIFT : Z := 12.
Definition PAGE_SIZE : Z := 4096.
Definition PAGE_MASK : Z := Z.lnot (PAGE_SIZE - 1).

(* ====================================================================== *)
(** ** pmfs.h *)

Module Hdr.

Definition INVALID_MASK : Z := 4095.
Definition BLOCK_OFF (p : Z) : Z := Z.land p (Z.lnot INVALID_MASK).
Definition ENTRY_LOC (p : Z) : Z := Z.land p INVALID_MASK.

(** enum pmfs_entry_type *)
Definition FILE_WRITE : Z := 1.
Definition DIR_LOG : Z := 2.
Definition SET_ATTR : Z := 3.
Definition LINK_CHANGE : Z := 4.

Definition pmfs_get_entry_type (m : mem) (p : Z) : Z := load8 m p.

Definition ENTRIES_PER_PAGE : Z := 127.
Definition LAST_ENTRY : Z := 4064.
Definition PAGE_TAIL (p : Z) : Z := Z.land p (Z.lnot INVALID_MASK) + LAST_ENTRY.

(** struct pmfs_inode_page_tail (packed): three paddings, then [next_page]. *)
Definition off_next_page : Z := 24.

(** struct pmfs_dir_logentry (packed): byte offsets of the fields. *)
Definition de_entry_type : Z := 0.
Definition de_name_len : Z := 1.
Definition de_file_type : Z := 2.
Definition de_new_inode : Z := 3.
Definition de_de_len : Z := 4.
Definition de_links_count : Z := 6.
Definition de_mtime : Z := 8.
Definition de_ino : Z := 12.
Definition de_size : Z := 20.
Definition de_name : Z := 28.

Definition PMFS_DIR_PAD : Z := 4.
Definition PMFS_DIR_ROUND : Z := PMFS_DIR_PAD - 1.
Definition PMFS_DIR_LOG_REC_LEN (name_len : Z) : Z :=
  Z.land (name_len + 28 + PMFS_DIR_ROUND) (Z.lnot PMFS_DIR_ROUND).

(** sizeof(struct pmfs_setattr_logentry), sizeof(struct pmfs_link_change_entry) *)
Definition sizeof_setattr_logentry : Z := 32.
Definition sizeof_link_change_entry : Z := 32.

(** [char] is signed on the x86-64 target: a byte above 127 is added as a
    negative [int], modulo 2^32. *)
Definition char_to_uint (c : Z) : Z :=
  if c <? 128 then c else u32 (c - 256).

(** BKDRHash: the loop [while ( *str ) hash = hash * seed + ( *str++ )] over
    the bytes of [str]; it stops at the first NUL byte. *)
Fixpoint BKDR_loop (hash : Z) (str : list Z) : Z :=
  match str with
  | [] => hash
  | c :: tl =>
      if c =? 0 then hash
      else BKDR_loop (u32 (hash * 131 + char_to_uint c)) tl
  end.

Definition BKDRHash (str : list Z) : Z :=
  Z.land (BKDR_loop 0 str) 2147483647 (* 0x7FFFFFFF *).

(** The hash of a name that sits in persistent memory: the C string that
    starts at [a]. *)
Definition BKDRHash_at (fuel : nat) (m : mem) (a : Z) : Z :=
  BKDRHash (cstring fuel m a).

(** next_log_page: the [next_page] field of the tail of the page that holds
    [curr_p]. *)
Definition next_log_page (m : mem) (curr_p : Z) : Z :=
  load64 m (Z.land curr_p (Z.lnot INVALID_MASK) + LAST_ENTRY + off_next_page).

Section WithDef.
Context {D : PmfsDef}.

Definition CACHE_ALIGN (p : Z) : Z := Z.land p (Z.lnot (CACHELINE_SIZE - 1)).

(** The cacheline boundary at or after [p] as the code computes it. *)
Definition inode_align (p : Z) : Z :=
  if Z.land p (CACHELINE_SIZE - 1) =? 0 then p
  else CACHE_ALIGN p + CACHELINE_SIZE.

(** is_last_entry (the three-argument version of pmfs.h); [entry_end] and
    [inode_start] are [unsigned int]. *)
Definition is_last_entry (curr_p size new_inode : Z) : bool :=
  let entry_end := u32 (ENTRY_LOC curr_p + size) in
  if (new_inode =? 0) || (LAST_ENTRY <? entry_end) then LAST_ENTRY <? entry_end
  else
    let inode_start := u32 (inode_align entry_end) in
    LAST_ENTRY <? u32 (inode_start + PMFS_INODE_SIZE).

End WithDef.

Definition is_last_dir_entry (m : mem) (curr_p : Z) : bool :=
  if LAST_ENTRY <? ENTRY_LOC curr_p + PMFS_DIR_LOG_REC_LEN 0 then true
  else if load8 m (curr_p + de_name_len) =? 0 then true
  else false.

End Hdr.

(* ====================================================================== *)
(** ** Shared state *)

(** The persistent inode (struct pmfs_inode of [pmfs_def.h]), with the
    fields the code at hand reads or writes. *)
Record pmfs_inode : Type := mk_pmfs_inode {
  i_mode : Z;
  i_links_count : Z;
  i_flags : Z;
  i_size : Z;
  i_blocks : Z;
  i_ctime : Z;
  i_mtime : Z;
  i_dtime : Z;
  height : Z;
  root : Z;
  i_blk_type : Z;
  log_head : Z;
  log_tail : Z;
  log_pages : Z;
  pmfs_ino : Z
}.

Definition zero_inode : pmfs_inode :=
  mk_pmfs_inode 0 0 0 0 0 0 0 0 0 0 0 0 0 0 0.

Definition set_i_mode v (pi : pmfs_inode) :=
  mk_pmfs_inode v (i_links_count pi) (i_flags pi) (i_size pi) (i_blocks pi)
    (i_ctime pi) (i_mtime pi) (i_dtime pi) (height pi) (root pi)
    (i_blk_type pi) (log_head pi) (log_tail pi) (log_pages pi) (pmfs_ino pi).
Definition set_i_links_count v (pi : pmfs_inode) :=
  mk_pmfs_inode (i_mode pi) v (i_flags pi) (i_size pi) (i_blocks pi)
    (i_ctime pi) (i_mtime pi) (i_dtime pi) (height pi) (root pi)
    (i_blk_type pi) (log_head pi) (log_tail pi) (log_pages pi) (pmfs_ino pi).
Definition set_i_flags v (pi : pmfs_inode) :=
  mk_pmfs_inode (i_mode pi) (i_links_count pi) v (i_size pi) (i_blocks pi)
    (i_ctime pi) (i_mtime pi) (i_dtime pi) (height pi) (root pi)
    (i_blk_type pi) (log_head pi) (log_tail pi) (log_pages pi) (pmfs_ino pi).
Definition set_i_size v (pi : pmfs_inode) :=
  mk_pmfs_inode (i_mode pi) (i_links_count pi) (i_flags pi) v (i_blocks pi)
    (i_ctime pi) (i_mtime pi) (i_dtime pi) (height pi) (root pi)
    (i_blk_type pi) (log_head pi) (log_tail pi) (log_pages pi) (pmfs_ino pi).
Definition set_i_blocks v (pi : pmfs_inode) :=
  mk_pmfs_inode (i_mode pi) (i_links_count pi) (i_flags pi) (i_size pi) v
    (i_ctime pi) (i_mtime pi) (i_dtime pi) (height pi) (root pi)
    (i_blk_type pi) (log_head pi) (log_tail pi) (log_pages pi) (pmfs_ino pi).
Definition set_i_ctime v (pi : pmfs_inode) :=
  mk_pmfs_inode (i_mode pi) (i_links_count pi) (i_flags pi) (i_size pi)
    (i_blocks pi) v (i_mtime pi) (i_dtime pi) (height pi) (root pi)
    (i_blk_type pi) (log_head pi) (log_tail pi) (log_pages pi) (pmfs_ino pi).
Definition set_i_mtime v (pi : pmfs_inode) :=
  mk_pmfs_inode (i_mode pi) (i_links_count pi) (i_flags pi) (i_size pi)
    (i_blocks pi) (i_ctime pi) v (i_dtime pi) (height pi) (root pi)
    (i_blk_type pi) (log_head pi) (log_tail pi) (log_pages pi) (pmfs_ino pi).
Definition set_height v (pi : pmfs_inode) :=
  mk_pmfs_inode (i_mode pi) (i_links_count pi) (i_flags pi) (i_size pi)
    (i_blocks pi) (i_ctime pi) (i_mtime pi) (i_dtime pi) v (root pi)
    (i_blk_type pi) (log_head pi) (log_tail pi) (log_pages pi) (pmfs_ino pi).
Definition set_root v (pi : pmfs_inode) :=
  mk_pmfs_inode (i_mode pi) (i_links_count pi) (i_flags pi) (i_size pi)
    (i_blocks pi) (i_ctime pi) (i_mtime pi) (i_dtime pi) (height pi) v
    (i_blk_type pi) (log_head pi) (log_tail pi) (log_pages pi) (pmfs_ino pi).
Definition set_log_head v (pi : pmfs_inode) :=
  mk_pmfs_inode (i_mode pi) (i_links_count pi) (i_flags pi) (i_size pi)
    (i_blocks pi) (i_ctime pi) (i_mtime pi) (i_dtime pi) (height pi) (root pi)
    (i_blk_type pi) v (log_tail pi) (log_pages pi) (pmfs_ino pi).
Definition set_log_tail v (pi : pmfs_inode) :=
  mk_pmfs_inode (i_mode pi) (i_links_count pi) (i_flags pi) (i_size pi)
    (i_blocks pi) (i_ctime pi) (i_mtime pi) (i_dtime pi) (height pi) (root pi)
    (i_blk_type pi) (log_head pi) v (log_pages pi) (pmfs_ino pi).
Definition set_log_pages v (pi : pmfs_inode) :=
  mk_pmfs_inode (i_mode pi) (i_links_count pi) (i_flags pi) (i_size pi)
    (i_blocks pi) (i_ctime pi) (i_mtime pi) (i_dtime pi) (height pi) (root pi)
    (i_blk_type pi) (log_head pi) (log_tail pi) v (pmfs_ino pi).

(** The fields of [struct super_block] the core reads. *)
Record super_block : Type := mk_sb {
  s_blocksize : Z;
  s_blocksize_bits : Z
}.

(** pmfs_update_tail (pmfs.h): barrier, store of the new tail, flush. *)
Definition pmfs_update_tail (pi : pmfs_inode) (new_tail : Z) : pmfs_inode :=
  set_log_tail new_tail pi.

(** The file-system state the core works on: the mapped region, the
    allocator's pending answers (in call order, [None] for ENOSPC), the
    blocks handed back to it as (blocknr, btype), and the number of
    directory-index nodes the slab cache can still provide. *)
Record fs : Type := mk_fs {
  pmem : mem;
  balloc : list (option Z);
  freed : list (Z * Z);
  dirnodes : nat
}.

Definition set_pmem (m : mem) (s : fs) : fs :=
  mk_fs m (balloc s) (freed s) (dirnodes s).
Definition set_balloc (l : list (option Z)) (s : fs) : fs :=
  mk_fs (pmem s) l (freed s) (dirnodes s).
Definition set_freed (l : list (Z * Z)) (s : fs) : fs :=
  mk_fs (pmem s) (balloc s) l (dirnodes s).
Definition set_dirnodes (n : nat) (s : fs) : fs :=
  mk_fs (pmem s) (balloc s) (freed s) n.

Definition PMFS_BLOCK_TYPE_4K : Z := 0.
Definition PMFS_BLOCK_TYPE_2M : Z := 1.
Definition PMFS_BLOCK_TYPE_1G : Z := 2.

(** inode.c: blk_type_to_shift and blk_type_to_size *)
Definition blk_type_to_shift (bt : Z) : Z := nth (Z.to_nat bt) [12; 21; 30] 0.
Definition blk_type_to_size (bt : Z) : Z :=
  nth (Z.to_nat bt) [4096; 2097152; 1073741824] 0.

(** pmfs.h: pmfs_get_block_off and pmfs_get_blocknr ignore the block type. *)
Definition pmfs_get_block_off (blocknr : Z) : Z := u64 (Z.shiftl blocknr PAGE_SHIFT).
Definition pmfs_get_blocknr (block : Z) : Z := Z.shiftr block PAGE_SHIFT.

(** Modelled from the spec: the block allocator, whose code is outside the
    core ("allocate(count, kind) -> base_blocknr | ENOSPC").  The answer is
    taken from the oracle; with [zero] set the blocks come back zero-filled.
    On failure the caller's [blocknr] is not written (0 here). *)
Definition pmfs_new_data_blocks (s : fs) (num btype zero : Z) : (Z * Z) * fs :=
  match balloc s with
  | [] => ((- ENOSPC, 0), s)
  | None :: tl => ((- ENOSPC, 0), set_balloc tl s)
  | Some blocknr :: tl =>
      let m := if zero =? 0 then pmem s
               else mem_zero (pmem s) (pmfs_get_block_off blocknr)
                      (num * blk_type_to_size btype) in
      ((0, blocknr), set_pmem m (set_balloc tl s))
  end.

(** Modelled from the spec: meta (interior node) blocks come from the same
    allocator; the answer is the address of one zero-filled 4 KiB node. *)
Definition pmfs_new_meta_blocks (s : fs) (num zero : Z) : (Z * Z) * fs :=
  match balloc s with
  | [] => ((- ENOSPC, 0), s)
  | None :: tl => ((- ENOSPC, 0), set_balloc tl s)
  | Some addr :: tl =>
      let m := if zero =? 0 then pmem s
               else mem_zero (pmem s) addr (num * PAGE_SIZE) in
      ((0, addr), set_pmem m (set_balloc tl s))
  end.

(** Modelled from the spec: "free(blocknr, count, kind)"; the call is
    recorded. *)
Definition pmfs_free_data_block (s : fs) (blocknr btype : Z) : fs :=
  set_freed (freed s ++ [(blocknr, btype)]) s.

Definition pmfs_free_meta_block (s : fs) (page_addr : Z) : fs :=
  set_freed (freed s ++ [(page_addr, -1)]) s.

(* ====================================================================== *)
(** ** inode.c: the inode log *)

Module Inode.

(** Modelled from the spec: struct pmfs_inode_entry is declared in
    [pmfs_def.h]; it is the 32-byte FILE_WRITE record that fills a log page
    ([ENTRIES_PER_PAGE] of them reach [LAST_ENTRY]), with [block] first,
    then [pgoff] and [num_pages]. *)
Definition sizeof_inode_entry : Z := 32.
Definition ie_block : Z := 0.
Definition ie_pgoff : Z := 8.
Definition ie_num_pages : Z := 12.

(** Modelled from the spec: GET_INVALID, the invalidation counter kept in
    the low bits of [block]. *)
Definition GET_INVALID (block : Z) : Z := Z.land block Hdr.INVALID_MASK.

(** Offset of [page_tail.next_page] inside struct pmfs_inode_log_page. *)
Definition page_next_off : Z := Hdr.LAST_ENTRY + Hdr.off_next_page.

(** inode.c's own next_log_page: [curr_p] is read as the address of a page
    tail. *)
Definition next_log_page (m : mem) (curr_p : Z) : Z :=
  load64 m (curr_p + Hdr.off_next_page).

(** inode.c's own is_last_entry. *)
Definition is_last_entry (curr_p : Z) : bool :=
  Hdr.ENTRY_LOC curr_p =? Hdr.LAST_ENTRY.

(** The coalescing loop of pmfs_allocate_inode_log_pages: [n] iterations,
    each storing the offset of the next block in the tail of the current
    page. *)
Fixpoint link_pages (n : nat) (m : mem) (curr_page next_blocknr : Z) : mem :=
  match n with
  | O => m
  | S k =>
      link_pages k
        (store64 m (curr_page + page_next_off) (pmfs_get_block_off next_blocknr))
        (curr_page + PAGE_SIZE) (next_blocknr + 1)
  end.

(** pmfs_allocate_inode_log_pages: result and [*new_block].  The loop bound
    [num_pages - 1] is computed in [unsigned long]. *)
Definition pmfs_allocate_inode_log_pages (s : fs) (num_pages : Z)
  : (Z * Z) * fs :=
  let '((errval, new_inode_blocknr), s1) :=
    pmfs_new_data_blocks s num_pages PMFS_BLOCK_TYPE_4K 1 in
  if negb (errval =? 0) then ((errval, 0), s1)
  else
    let next_blocknr := new_inode_blocknr + 1 in
    let curr_block := pmfs_get_block_off new_inode_blocknr in
    let m := link_pages (Z.to_nat (u64 (num_pages - 1))) (pmem s1)
               curr_block next_blocknr in
    ((0, pmfs_get_block_off new_inode_blocknr), set_pmem m s1).

(** curr_page_invalid: every one of the [ENTRIES_PER_PAGE] slots has
    [num_pages == GET_INVALID(block)]. *)
Definition entry_invalid (m : mem) (entry : Z) : bool :=
  load32 m (entry + ie_num_pages) =? GET_INVALID (load64 m (entry + ie_block)).

Definition curr_page_invalid (m : mem) (curr_page : Z) : bool :=
  forallb (fun i => entry_invalid m (curr_page + sizeof_inode_entry * Z.of_nat i))
          (seq 0 (Z.to_nat Hdr.ENTRIES_PER_PAGE)).

(** free_curr_page *)
Definition free_curr_page (s : fs) (pi : pmfs_inode)
    (curr_page last_page curr_head : Z) : fs :=
  let btype := i_blk_type pi in
  let m := store64 (pmem s) (last_page + page_next_off)
             (load64 (pmem s) (curr_page + page_next_off)) in
  pmfs_free_data_block (set_pmem m s) (pmfs_get_blocknr curr_head) btype.

(** The local variables of pmfs_inode_log_garbage_collection that live
    across iterations of its [while (1)] loop. *)
Record gc_vars : Type := mk_gc_vars {
  gc_curr : Z;
  gc_possible_head : Z;
  gc_found_head : bool;
  gc_last_page : Z;
  gc_first_need_free : bool
}.

(** One iteration of the loop; [inl] carries the state at a [break],
    [inr] the state at the end of the body. *)
Definition gc_step (s : fs) (pi : pmfs_inode) (v : gc_vars)
  : (fs * gc_vars) + (fs * gc_vars) :=
  let curr := gc_curr v in
  if u64 (Z.shiftl curr PAGE_SHIFT) =? u64 (Z.shiftl (log_tail pi) PAGE_SHIFT) then
    (* Don't recycle tail page *)
    inl (s, if gc_found_head v then v
            else mk_gc_vars curr curr (gc_found_head v) (gc_last_page v)
                   (gc_first_need_free v))
  else
    let curr_page := curr in
    let next := load64 (pmem s) (curr_page + page_next_off) in
    let '(s1, v1) :=
      if curr_page_invalid (pmem s) curr_page then
        if curr =? log_head pi then
          (* Free first page later *)
          (s, mk_gc_vars curr (gc_possible_head v) (gc_found_head v)
                curr_page true)
        else
          (free_curr_page s pi curr_page (gc_last_page v) curr, v)
      else
        (s, mk_gc_vars curr
              (if gc_found_head v then gc_possible_head v else curr)
              true curr_page (gc_first_need_free v)) in
    let v2 := mk_gc_vars next (gc_possible_head v1) (gc_found_head v1)
                (gc_last_page v1) (gc_first_need_free v1) in
    if next =? 0 then inl (s1, v2) else inr (s1, v2).

Fixpoint gc_loop (fuel : nat) (s : fs) (pi : pmfs_inode) (v : gc_vars)
  : option (fs * gc_vars) :=
  match fuel with
  | O => None
  | S k =>
      match gc_step s pi v with
      | inl r => Some r
      | inr (s1, v1) => gc_loop k s1 pi v1
      end
  end.

(** pmfs_inode_log_garbage_collection; [None] when [fuel] iterations did
    not reach the end of the chain. *)
Definition pmfs_inode_log_garbage_collection (fuel : nat) (s : fs)
    (pi : pmfs_inode) (new_block num_pages : Z) : option (fs * pmfs_inode) :=
  let btype := i_blk_type pi in
  match gc_loop fuel s pi (mk_gc_vars (log_head pi) 0 false 0 false) with
  | None => None
  | Some (s1, v) =>
      let curr := log_tail pi in
      let s2 := set_pmem (store64 (pmem s1) (curr + Hdr.off_next_page) new_block) s1 in
      let curr := log_head pi in
      let pi1 := set_log_pages (log_pages pi + num_pages)
                   (set_log_tail new_block
                      (set_log_head (gc_possible_head v) pi)) in
      let s3 := if gc_first_need_free v
                then pmfs_free_data_block s2 (pmfs_get_blocknr curr) btype
                else s2 in
      Some (s3, pi1)
  end.

(** The page chain of a log: the pages met from [curr] by following
    [next_page] until 0, as pmfs_free_inode_log walks it. *)
Fixpoint log_chain (fuel : nat) (m : mem) (curr : Z) : option (list Z) :=
  match fuel with
  | O => None
  | S k =>
      if curr =? 0 then Some []
      else option_map (cons curr) (log_chain k m (load64 m (curr + page_next_off)))
  end.

Definition log_page_reachable (fuel : nat) (m : mem) (head page : Z) : bool :=
  match log_chain fuel m head with
  | Some l => existsb (Z.eqb page) l
  | None => false
  end.

Fixpoint distinct (l : list Z) : bool :=
  match l with
  | [] => true
  | x :: tl => negb (existsb (Z.eqb x) tl) && distinct tl
  end.

Definition page_aligned (p : Z) : bool := Z.land p (PAGE_SIZE - 1) =? 0.

(** The pages of a batch of [n] contiguous pages that starts at
    [new_block]. *)
Definition batch_pages (new_block : Z) (n : nat) : list Z :=
  map (fun i => new_block + 4096 * Z.of_nat i) (seq 0 n).

(** Writing the entry body in pmfs_append_inode_entry. *)
Definition write_inode_entry (m : mem) (curr_p start_blk num_blocks block : Z)
  : mem :=
  let m := store32 m (curr_p + ie_pgoff) start_blk in
  let m := store32 m (curr_p + ie_num_pages) num_blocks in
  store64 m (curr_p + ie_block) block.

(** pmfs_append_inode_entry: the returned position (0 on failure), the
    state and the inode. *)
Definition pmfs_append_inode_entry (fuel : nat) (s : fs) (pi : pmfs_inode)
    (blocknr start_blk num_blocks : Z) : option (Z * fs * pmfs_inode) :=
  let block := pmfs_get_block_off blocknr in
  let curr_p := log_tail pi in
  let finish (curr_p : Z) (s : fs) (pi : pmfs_inode) :=
    let curr_p := if is_last_entry curr_p
                  then next_log_page (pmem s) curr_p else curr_p in
    Some (curr_p,
          set_pmem (write_inode_entry (pmem s) curr_p start_blk num_blocks block) s,
          pi) in
  if (curr_p =? 0) ||
     (is_last_entry curr_p && (next_log_page (pmem s) curr_p =? 0)) then
    if curr_p =? 0 then
      let '((errval, new_block), s1) := pmfs_allocate_inode_log_pages s 1 in
      if negb (errval =? 0) then Some (0, s1, pi)
      else finish new_block s1 (set_log_pages 1 (set_log_head new_block pi))
    else
      let num_pages := if 256 <=? log_pages pi then 256 else log_pages pi in
      let '((errval, new_block), s1) :=
        pmfs_allocate_inode_log_pages s num_pages in
      if negb (errval =? 0) then Some (0, s1, pi)
      else
        match pmfs_inode_log_garbage_collection fuel s1 pi new_block num_pages with
        | None => None
        | Some (s2, pi2) => finish new_block s2 pi2
        end
  else finish curr_p s pi.

(* --------------------------- The block map --------------------------- *)

Section BlockMap.
Context {D : PmfsDef}.

Definition PMFS_EOFBLOCKS_FL : Z := 536870912 (* 0x20000000 *).

(** A [for (i = first_index; i <= last_index; i++)] loop whose body may
    leave the function: the body answers [Some errval] to return [errval]
    and [None] to go on. *)
Definition index_range (first_index last_index : Z) : list Z :=
  map (fun k => first_index + Z.of_nat k)
      (seq 0 (Z.to_nat (last_index - first_index + 1))).

Fixpoint for_each {S : Type} (idx : list Z)
    (body : Z -> S -> option Z * S) (st : S) : option Z * S :=
  match idx with
  | [] => (None, st)
  | i :: tl =>
      match body i st with
      | (Some errval, st1) => (Some errval, st1)
      | (None, st1) => for_each tl body st1
      end
  end.

(** allocate a data block for inode and return it's absolute blocknr *)
Definition pmfs_new_data_block (sb : super_block) (s : fs) (pi : pmfs_inode)
    (zero : Z) : (Z * Z) * (fs * pmfs_inode) :=
  let data_bits := blk_type_to_shift (i_blk_type pi) in
  let '((errval, blocknr), s) := pmfs_new_data_blocks s 1 (i_blk_type pi) zero in
  if errval =? 0 then
    ((errval, blocknr),
     (s, set_i_blocks
           (u64 (i_blocks pi + Z.shiftl 1 (data_bits - s_blocksize_bits sb))) pi))
  else ((errval, blocknr), (s, pi)).

(** The loop of pmfs_increase_btree_height, [n] levels to go. *)
Fixpoint increase_height_loop (n : nat) (s : fs) (prev_root height : Z)
  : Z * fs * Z * Z :=
  match n with
  | O => (0, s, prev_root, height)
  | S k =>
      (* allocate the meta block *)
      let '((errval, page_addr), s1) := pmfs_new_meta_blocks s 1 1 in
      if negb (errval =? 0) then (errval, s1, prev_root, height)
      else
        let s2 := set_pmem (store64 (pmem s1) page_addr prev_root) s1 in
        increase_height_loop k s2 page_addr (height + 1)
  end.

Definition pmfs_increase_btree_height (s : fs) (pi : pmfs_inode)
    (new_height : Z) : Z * fs * pmfs_inode :=
  let '(errval, s, prev_root, height) :=
    increase_height_loop (Z.to_nat (new_height - height pi)) s (root pi)
      (height pi) in
  (errval, s, set_height height (set_root prev_root pi)).

Definition node_slot (node i : Z) : Z := node + 8 * i.

Definition low_bits (blocknr node_bits : Z) : Z :=
  Z.land blocknr (Z.shiftl 1 node_bits - 1).

(** recursive_alloc_blocks; [lvl] is [height - 1], the number of interior
    levels below [block] (the function is entered with [height >= 1]). *)
Fixpoint recursive_alloc_blocks (lvl : nat) (sb : super_block)
    (block first_blocknr last_blocknr zero : Z) (st : fs * pmfs_inode)
  : Z * (fs * pmfs_inode) :=
  let node := block in
  let node_bits := Z.of_nat lvl * META_BLK_SHIFT in
  let first_index := u32 (Z.shiftr first_blocknr node_bits) in
  let last_index := u32 (Z.shiftr last_blocknr node_bits) in
  let body (i : Z) (st : fs * pmfs_inode) : option Z * (fs * pmfs_inode) :=
    let '(s, pi) := st in
    match lvl with
    | O =>
        if load64 (pmem s) (node_slot node i) =? 0 then
          let '((errval, blocknr), (s, pi)) := pmfs_new_data_block sb s pi zero in
          if negb (errval =? 0) then
            (* For later recovery in truncate... *)
            (Some errval,
             (s, set_i_flags (Z.lor (i_flags pi) PMFS_EOFBLOCKS_FL) pi))
          else
            (None,
             (set_pmem (store64 (pmem s) (node_slot node i)
                          (pmfs_get_block_off blocknr)) s, pi))
        else (None, (s, pi))
    | S lvl' =>
        let '(alloc_err, s) :=
          if load64 (pmem s) (node_slot node i) =? 0 then
            (* allocate the meta block *)
            let '((errval, blocknr), s) := pmfs_new_meta_blocks s 1 1 in
            if negb (errval =? 0) then (Some errval, s)
            else (None, set_pmem (store64 (pmem s) (node_slot node i) blocknr) s)
          else (None, s) in
        match alloc_err with
        | Some errval => (Some errval, (s, pi))
        | None =>
            let first_blk := if i =? first_index
                             then low_bits first_blocknr node_bits else 0 in
            let last_blk := if i =? last_index
                            then low_bits last_blocknr node_bits
                            else Z.shiftl 1 node_bits - 1 in
            let '(errval, st) :=
              recursive_alloc_blocks lvl' sb (load64 (pmem s) (node_slot node i))
                first_blk last_blk zero (s, pi) in
            if errval <? 0 then (Some errval, st) else (None, st)
        end
    end in
  match for_each (index_range first_index last_index) body st with
  | (Some errval, st) => (errval, st)
  | (None, st) => (0, st)
  end.

(** The leaf case of recursive_assign_blocks when the slot is taken: the
    entry it points to loses one page. *)
Definition supersede_entry (s : fs) (pi : pmfs_inode) (entry start_pgoff i : Z)
  : result (fs * pmfs_inode) :=
  let m := pmem s in
  let blocknr := Z.shiftr (load64 m (entry + ie_block)) PAGE_SHIFT in
  let pgoff := load32 m (entry + ie_pgoff) in
  let num_pages := load32 m (entry + ie_num_pages) in
  if (start_pgoff + i <? pgoff) || (pgoff + num_pages <=? start_pgoff + i)
  then Bug
  else
    let entry_off := start_pgoff + i - pgoff in
    let blocknr := blocknr + entry_off in
    let m := if GET_INVALID (load64 m (entry + ie_block)) <? 4000
             then store64 m (entry + ie_block) (load64 m (entry + ie_block) + 1)
             else m in
    let s := pmfs_free_data_block (set_pmem m s) blocknr (i_blk_type pi) in
    (* FIXME: garbage collection *)
    Done (s, set_i_blocks (u64 (i_blocks pi - 1)) pi).

Fixpoint for_each_r {S : Type} (idx : list Z)
    (body : Z -> S -> result (option Z * S)) (st : S) : result (option Z * S) :=
  match idx with
  | [] => Done (None, st)
  | i :: tl =>
      r <- body i st ;;
      match r with
      | (Some errval, st1) => Done (Some errval, st1)
      | (None, st1) => for_each_r tl body st1
      end
  end.

Fixpoint recursive_assign_blocks (lvl : nat) (sb : super_block)
    (block first_blocknr last_blocknr curr_entry start_pgoff : Z)
    (st : fs * pmfs_inode) : result (Z * (fs * pmfs_inode)) :=
  let node := block in
  let node_bits := Z.of_nat lvl * META_BLK_SHIFT in
  let first_index := u32 (Z.shiftr first_blocknr node_bits) in
  let last_index := u32 (Z.shiftr last_blocknr node_bits) in
  let body (i : Z) (st : fs * pmfs_inode)
    : result (option Z * (fs * pmfs_inode)) :=
    let '(s, pi) := st in
    match lvl with
    | O =>
        r <- (if negb (load64 (pmem s) (node_slot node i) =? 0)
              then supersede_entry s pi (load64 (pmem s) (node_slot node i))
                     start_pgoff i
              else Done (s, pi)) ;;
        let '(s, pi) := r in
        Done (None,
              (set_pmem (store64 (pmem s) (node_slot node i) curr_entry) s, pi))
    | S lvl' =>
        let '(alloc_err, s) :=
          if load64 (pmem s) (node_slot node i) =? 0 then
            let '((errval, blocknr), s) := pmfs_new_meta_blocks s 1 1 in
            if negb (errval =? 0) then (Some errval, s)
            else (None, set_pmem (store64 (pmem s) (node_slot node i) blocknr) s)
          else (None, s) in
        match alloc_err with
        | Some errval => Done (Some errval, (s, pi))
        | None =>
            let first_blk := if i =? first_index
                             then low_bits first_blocknr node_bits else 0 in
            let last_blk := if i =? last_index
                            then low_bits last_blocknr node_bits
                            else Z.shiftl 1 node_bits - 1 in
            let pgoff := start_pgoff + Z.shiftl i node_bits in
            r <- recursive_assign_blocks lvl' sb
                   (load64 (pmem s) (node_slot node i)) first_blk last_blk
                   curr_entry pgoff (s, pi) ;;
            let '(errval, st) := r in
            if errval <? 0 then Done (Some errval, st) else Done (None, st)
        end
    end in
  r <- for_each_r (index_range first_index last_index) body st ;;
  match r with
  | (Some errval, st) => Done (errval, st)
  | (None, st) => Done (0, st)
  end.

(** [while (total_blocks > 0) { total_blocks >>= meta_bits; height++; }]:
    [total_blocks] is an [unsigned long], so 64 rounds exhaust it. *)
Fixpoint height_loop (fuel : nat) (total_blocks height : Z) : Z :=
  match fuel with
  | O => height
  | S k =>
      if 0 <? total_blocks
      then height_loop k (Z.shiftr total_blocks META_BLK_SHIFT) (height + 1)
      else height
  end.

(** The height the request needs, or ENOSPC: the common head of
    __pmfs_alloc_blocks and __pmfs_assign_blocks. *)
Definition grown_height (pi : pmfs_inode) (last_blocknr : Z) : option Z :=
  let height := height pi in
  let blk_shift := height * META_BLK_SHIFT in
  let max_blocks := u64 (Z.shiftl 1 blk_shift) in
  if u64 (max_blocks - 1) <? last_blocknr then
    (* B-tree height increases as a result of this allocation *)
    let total_blocks := Z.shiftr last_blocknr blk_shift in
    let height := height_loop 64 total_blocks height in
    if 3 <? height then None else Some height
  else Some height.

Definition __pmfs_alloc_blocks (sb : super_block) (s : fs) (pi : pmfs_inode)
    (file_blocknr num zero : Z) : Z * (fs * pmfs_inode) :=
  let data_bits := blk_type_to_shift (i_blk_type pi) in
  (* convert the 4K blocks into the actual blocks the inode is using *)
  let blk_shift := data_bits - s_blocksize_bits sb in
  let first_blocknr := Z.shiftr file_blocknr blk_shift in
  let last_blocknr := Z.shiftr (u64 (file_blocknr + num - 1)) blk_shift in
  match grown_height pi last_blocknr with
  | None => (- ENOSPC, (s, pi))
  | Some height' =>
      if root pi =? 0 then
        if height' =? 0 then
          let '((errval, blocknr), (s, pi)) := pmfs_new_data_block sb s pi zero in
          if negb (errval =? 0) then (errval, (s, pi))
          else
            let root := pmfs_get_block_off blocknr in
            (0, (s, set_height height' (set_root root pi)))
        else
          let '(errval, s, pi) := pmfs_increase_btree_height s pi height' in
          if negb (errval =? 0) then (errval, (s, pi))
          else
            let '(errval, st) :=
              recursive_alloc_blocks (Z.to_nat (height pi - 1)) sb
                (root pi) first_blocknr last_blocknr zero (s, pi) in
            if errval <? 0 then (errval, st) else (0, st)
      else
        (* Go forward only if the height of the tree is non-zero. *)
        if height' =? 0 then (0, (s, pi))
        else
          let '(errval, s, pi) :=
            if height pi <? height'
            then pmfs_increase_btree_height s pi height'
            else (0, s, pi) in
          if negb (errval =? 0) then (errval, (s, pi))
          else
            let '(errval, st) :=
              recursive_alloc_blocks (Z.to_nat (height' - 1)) sb (root pi)
                first_blocknr last_blocknr zero (s, pi) in
            if errval <? 0 then (errval, st) else (0, st)
  end.

Definition __pmfs_assign_blocks (sb : super_block) (s : fs) (pi : pmfs_inode)
    (file_blocknr num curr_entry : Z) : result (Z * (fs * pmfs_inode)) :=
  let data_bits := blk_type_to_shift (i_blk_type pi) in
  let blk_shift := data_bits - s_blocksize_bits sb in
  let first_blocknr := Z.shiftr file_blocknr blk_shift in
  let last_blocknr := Z.shiftr (u64 (file_blocknr + num - 1)) blk_shift in
  match grown_height pi last_blocknr with
  | None => Done (- ENOSPC, (s, pi))
  | Some height' =>
      if root pi =? 0 then
        if height' =? 0 then
          Done (0, (s, set_height height' (set_root curr_entry pi)))
        else
          let '(errval, s, pi) := pmfs_increase_btree_height s pi height' in
          if negb (errval =? 0) then Done (errval, (s, pi))
          else
            r <- recursive_assign_blocks (Z.to_nat (height pi - 1)) sb
                   (root pi) first_blocknr last_blocknr curr_entry 0 (s, pi) ;;
            let '(errval, st) := r in
            if errval <? 0 then Done (errval, st) else Done (0, st)
      else
        if height' =? 0 then
          (* With cow we need to re-assign the root *)
          let m := pmem s in
          let entry := root pi in
          let blocknr := pmfs_get_blocknr (load64 m (entry + ie_block)) in
          let m := if GET_INVALID (load64 m (entry + ie_block)) <? 4000
                   then store64 m (entry + ie_block)
                          (load64 m (entry + ie_block) + 1)
                   else m in
          let s := pmfs_free_data_block (set_pmem m s) blocknr (i_blk_type pi) in
          let pi := set_i_blocks (u64 (i_blocks pi - 1)) pi in
          Done (0, (s, set_height height' (set_root curr_entry pi)))
        else
          let '(errval, s, pi) :=
            if height pi <? height'
            then pmfs_increase_btree_height s pi height'
            else (0, s, pi) in
          if negb (errval =? 0) then Done (errval, (s, pi))
          else
            r <- recursive_assign_blocks (Z.to_nat (height' - 1)) sb (root pi)
                   first_blocknr last_blocknr curr_entry 0 (s, pi) ;;
            let '(errval, st) := r in
            if errval <? 0 then Done (errval, st) else Done (0, st)
  end.


End BlockMap.

(* --------------------------- The inode table -------------------------- *)

Section InodeTable.
Context {D : PmfsDef}.




(** pmfs.h: pmfs_mask_flags, with the flag values of <linux/fs.h>. *)
Definition S_IFMT : Z := 61440.
Definition S_IFDIR : Z := 16384.
Definition S_IFREG : Z := 32768.
Definition PMFS_FL_INHERITED : Z :=
  fold_right Z.lor 0 [1; 2; 4; 8; 64; 128; 512; 1024; 16384; 32768; 65536].
Definition PMFS_REG_FLMASK : Z := u32 (Z.lnot (Z.lor 65536 131072)).
Definition PMFS_OTHER_FLMASK : Z := Z.lor 64 128.

Definition pmfs_mask_flags (mode flags : Z) : Z :=
  let flags := Z.land flags PMFS_FL_INHERITED in
  if Z.land mode S_IFMT =? S_IFDIR then flags
  else if Z.land mode S_IFMT =? S_IFREG then Z.land flags PMFS_REG_FLMASK
  else Z.land flags PMFS_OTHER_FLMASK.









End InodeTable.

(* --------------------------- The truncate list ------------------------ *)

(** The persistent words of the truncate list: the head's
    [i_next_truncate] and, per inode, the two fields of its
    struct pmfs_inode_truncate_item. *)
Inductive pm_loc : Type :=
| HeadNext
| ItemNext (ino : Z)
| ItemSize (ino : Z).

Definition pm_loc_eqb (a b : pm_loc) : bool :=
  match a, b with
  | HeadNext, HeadNext => true
  | ItemNext i, ItemNext j => i =? j
  | ItemSize i, ItemSize j => i =? j
  | _, _ => false
  end.

(** What the processor is asked to do, in program order: a store, a
    cacheline flush ([pmfs_flush_buffer] without fence), PERSISTENT_MARK
    (empty in [pmfs.h]) and PERSISTENT_BARRIER ([sfence]). *)
Inductive pm_event : Type :=
| Store (l : pm_loc) (v : Z)
| Flush (l : pm_loc)
| Mark
| Barrier.

(** The truncate list as the running kernel sees it: the current value of
    every persistent word, the inodes on the DRAM list [s_truncate] (head
    first) and the events issued so far. *)
Record truncate_state : Type := mk_ts {
  ts_word : pm_loc -> Z;
  s_truncate : list Z;
  ts_events : list pm_event
}.

Definition ts_store (l : pm_loc) (v : Z) (t : truncate_state) : truncate_state :=
  mk_ts (fun x => if pm_loc_eqb x l then v else ts_word t x)
        (s_truncate t) (ts_events t ++ [Store l v]).

Definition ts_emit (e : pm_event) (t : truncate_state) : truncate_state :=
  mk_ts (ts_word t) (s_truncate t) (ts_events t ++ [e]).

(** [list_empty(&PMFS_I(inode)->i_truncated)] *)
Definition on_truncate_list (t : truncate_state) (ino : Z) : bool :=
  existsb (Z.eqb ino) (s_truncate t).

(** pmfs_truncate_add; [in_transaction] tells whether
    pmfs_current_transaction() is non-NULL. *)
Definition pmfs_truncate_add (t : truncate_state) (i_ino truncate_size : Z)
    (in_transaction : bool) : truncate_state :=
  if on_truncate_list t i_ino then t
  else
    let t := ts_store (ItemNext i_ino) (ts_word t HeadNext) t in
    let t := ts_store (ItemSize i_ino) (u64 truncate_size) t in
    let t := ts_emit (Flush (ItemNext i_ino)) t in
    let t := ts_emit (Flush (ItemSize i_ino)) t in
    (* make sure above is persistent before changing the head pointer *)
    let t := ts_emit Mark t in
    let t := ts_emit Barrier t in
    (* Atomically insert this inode at the head of the truncate list. *)
    let t := ts_store HeadNext i_ino t in
    let t := ts_emit (Flush HeadNext) t in
    let t := if in_transaction then t
             else ts_emit Barrier (ts_emit Mark t) in
    mk_ts (ts_word t) (i_ino :: s_truncate t) (ts_events t).

(** The events one pmfs_truncate_add issues for an inode that is not on
    the list, [head_next] being the head's [i_next_truncate] it reads. *)
Definition truncate_add_events (head_next i_ino truncate_size : Z)
    (in_transaction : bool) : list pm_event :=
  [Store (ItemNext i_ino) head_next; Store (ItemSize i_ino) (u64 truncate_size);
   Flush (ItemNext i_ino); Flush (ItemSize i_ino); Mark; Barrier;
   Store HeadNext i_ino; Flush HeadNext]
  ++ (if in_transaction then [] else [Mark; Barrier]).

(* --------------------------- Freeing the log --------------------------- *)

(** Modelled from the spec: __pmfs_free_log_block of [balloc.c] hands one
    log page back to the allocator, as pmfs_free_data_block does. *)
Definition __pmfs_free_log_block (s : fs) (blocknr btype : Z) : fs :=
  pmfs_free_data_block s blocknr btype.

(** The loop of pmfs_free_inode_log: [next_page] is read before the page is
    given back. *)
Fixpoint free_log_loop (fuel : nat) (s : fs) (btype curr_block : Z)
  : option fs :=
  match fuel with
  | O => None
  | S k =>
      if curr_block =? 0 then Some s
      else
        let blocknr := pmfs_get_blocknr curr_block in
        let next := load64 (pmem s) (curr_block + page_next_off) in
        free_log_loop k (__pmfs_free_log_block s blocknr btype) btype next
  end.

(** pmfs_free_inode_log; [None] when [fuel] pages did not reach the end of
    the chain. *)
Definition pmfs_free_inode_log (fuel : nat) (s : fs) (pi : pmfs_inode)
  : option (fs * pmfs_inode) :=
  if (log_head pi =? 0) || (log_tail pi =? 0) then Some (s, pi)
  else
    match free_log_loop fuel s (i_blk_type pi) (log_head pi) with
    | None => None
    | Some s' =>
        Some (s', set_log_pages 0 (set_log_tail 0 (set_log_head 0 pi)))
    end.

(* ------------------------ Leaving the truncate list ------------------------ *)

(** [si->i_truncated.prev] on the DRAM list [l] (head first): the inode
    queued in front of [ino], or [prev] when [ino] is the first one.  At
    the top [prev] is [None], which stands for [&sbi->s_truncate]. *)
Fixpoint truncate_prev (prev : option Z) (l : list Z) (ino : Z) : option Z :=
  match l with
  | [] => prev
  | a :: tl => if a =? ino then prev else truncate_prev (Some a) tl ino
  end.

(** [list_del_init(&si->i_truncated)]: the node of [ino] leaves the list. *)
Fixpoint list_del_init (l : list Z) (ino : Z) : list Z :=
  match l with
  | [] => []
  | a :: tl => if a =? ino then tl else a :: list_del_init tl ino
  end.

(** pmfs_truncate_del *)
Definition pmfs_truncate_del (t : truncate_state) (i_ino : Z)
  : truncate_state :=
  if negb (on_truncate_list t i_ino) then t
  else
    (* Make sure all truncate operation is persistent before removing the
       inode from the truncate list *)
    let t := ts_emit Mark t in
    let ino_next := ts_word t (ItemNext i_ino) in
    let prev := truncate_prev None (s_truncate t) i_ino in
    let t := mk_ts (ts_word t) (list_del_init (s_truncate t) i_ino)
               (ts_events t) in
    let t := ts_emit Barrier t in
    (* Atomically delete the inode from the truncate list *)
    let t :=
      match prev with
      | None => ts_emit (Flush HeadNext) (ts_store HeadNext ino_next t)
      | Some i_prv =>
          ts_emit (Flush (ItemNext i_prv))
            (ts_store (ItemNext i_prv) ino_next t)
      end in
    ts_emit Barrier (ts_emit Mark t).

(** The word the unlink stores to. *)
Definition truncate_link (prev : option Z) : pm_loc :=
  match prev with
  | None => HeadNext
  | Some i_prv => ItemNext i_prv
  end.

(** The events one pmfs_truncate_del issues for an inode that is on the
    list. *)
Definition truncate_del_events (prev : option Z) (ino_next : Z)
  : list pm_event :=
  [Mark; Barrier; Store (truncate_link prev) ino_next;
   Flush (truncate_link prev); Mark; Barrier].

(* --------------------------- Shrinking the tree --------------------------- *)

Section BlockShrink.
Context {D : PmfsDef}.

(** The second loop of pmfs_decrease_btree_height, [n] levels to go:
    [newroot] is read as the address of the node to give back. *)
Fixpoint decrease_height_loop (n : nat) (s : fs) (newroot : Z) : fs * Z :=
  match n with
  | O => (s, newroot)
  | S k =>
      (* freeing the meta block *)
      let page_addr := newroot in
      let newroot := load64 (pmem s) (node_slot newroot 0) in
      decrease_height_loop k (pmfs_free_meta_block s page_addr) newroot
  end.

(** pmfs_decrease_btree_height; the BUG_ON is [Bug].  The closing
    cmpxchg_double_local stores [(u8)new_height] in the height byte of the
    inode and [newroot] in its root. *)
Definition pmfs_decrease_btree_height (s : fs) (pi : pmfs_inode)
    (newsize newroot : Z) : result (fs * pmfs_inode) :=
  let height := height pi in
  if (i_blocks pi =? 0) || (newsize =? 0) then
    (* root must be NULL *)
    if negb (newroot =? 0) then Bug
    else Done (s, set_height (u8 0) (set_root newroot pi))
  else
    let last_blocknr :=
      u64 (Z.shiftr (u64 (newsize + blk_type_to_size (i_blk_type pi) - 1))
                    (blk_type_to_shift (i_blk_type pi)) - 1) in
    let new_height := height_loop 64 last_blocknr 0 in
    if height =? new_height then Done (s, pi)
    else
      let '(s, newroot) :=
        decrease_height_loop (Z.to_nat (height - new_height)) s newroot in
      Done (s, set_height (u8 new_height) (set_root newroot pi)).

End BlockShrink.

(* ------------------------------ Inode flags ------------------------------ *)

(** The flag values of <linux/fs.h>. *)
Definition S_SYNC : Z := 1.
Definition S_NOATIME : Z := 2.
Definition S_APPEND : Z := 4.
Definition S_IMMUTABLE : Z := 8.
Definition S_DIRSYNC : Z := 64.
Definition S_DAX : Z := 8192.
Definition FS_SYNC_FL : Z := 8.
Definition FS_IMMUTABLE_FL : Z := 16.
Definition FS_APPEND_FL : Z := 32.
Definition FS_NOATIME_FL : Z := 128.
Definition FS_DIRSYNC_FL : Z := 65536.

Section InodeFlags.

(** inode_has_no_xattr of <linux/fs.h>, as a function of [inode->i_flags]. *)
Variable inode_has_no_xattr : Z -> Z.

(** pmfs_set_inode_flags: the new [inode->i_flags]; [vfs_flags] is the old
    one and [i_xattr] the field of the persistent inode. *)
Definition pmfs_set_inode_flags (vfs_flags : Z) (pi : pmfs_inode)
    (i_xattr : Z) : Z :=
  let flags := i_flags pi in
  let f := Z.land vfs_flags
             (u32 (Z.lnot (Z.lor S_SYNC (Z.lor S_APPEND (Z.lor S_IMMUTABLE
                             (Z.lor S_NOATIME S_DIRSYNC)))))) in
  let f := if negb (Z.land flags FS_SYNC_FL =? 0) then Z.lor f S_SYNC else f in
  let f := if negb (Z.land flags FS_APPEND_FL =? 0)
           then Z.lor f S_APPEND else f in
  let f := if negb (Z.land flags FS_IMMUTABLE_FL =? 0)
           then Z.lor f S_IMMUTABLE else f in
  let f := if negb (Z.land flags FS_NOATIME_FL =? 0)
           then Z.lor f S_NOATIME else f in
  let f := if negb (Z.land flags FS_DIRSYNC_FL =? 0)
           then Z.lor f S_DIRSYNC else f in
  let f := if i_xattr =? 0 then inode_has_no_xattr f else f in
  Z.lor f S_DAX.

End InodeFlags.

(** pmfs_get_inode_flags: the persistent inode with its [i_flags] brought
    up to date from [inode->i_flags]. *)
Definition pmfs_get_inode_flags (vfs_flags : Z) (pi : pmfs_inode)
  : pmfs_inode :=
  let flags := vfs_flags in
  let pmfs_flags := i_flags pi in
  let pmfs_flags :=
    Z.land pmfs_flags
      (u32 (Z.lnot (Z.lor FS_SYNC_FL (Z.lor FS_APPEND_FL (Z.lor FS_IMMUTABLE_FL
                      (Z.lor FS_NOATIME_FL FS_DIRSYNC_FL)))))) in
  let pmfs_flags := if negb (Z.land flags S_SYNC =? 0)
                    then Z.lor pmfs_flags FS_SYNC_FL else pmfs_flags in
  let pmfs_flags := if negb (Z.land flags S_APPEND =? 0)
                    then Z.lor pmfs_flags FS_APPEND_FL else pmfs_flags in
  let pmfs_flags := if negb (Z.land flags S_IMMUTABLE =? 0)
                    then Z.lor pmfs_flags FS_IMMUTABLE_FL else pmfs_flags in
  let pmfs_flags := if negb (Z.land flags S_NOATIME =? 0)
                    then Z.lor pmfs_flags FS_NOATIME_FL else pmfs_flags in
  let pmfs_flags := if negb (Z.land flags S_DIRSYNC =? 0)
                    then Z.lor pmfs_flags FS_DIRSYNC_FL else pmfs_flags in
  set_i_flags pmfs_flags pi.

(* ---------------------------- Freeing an inode ---------------------------- *)

Section FreeInode.
Context {D : PmfsDef}.


End FreeInode.

End Inode.

(* ====================================================================== *)
(** ** dir.c *)

Module Dir.

(** struct pmfs_dir_node: a node of the in-DRAM directory index. *)
Record pmfs_dir_node : Type := mk_dir_node {
  nvmm : Z;
  ino : Z;
  hash : Z
}.

(** The index is the kernel's red-black tree ([struct rb_root]).  The
    kernel's rebalancing ([rb_insert_color], the recolouring of [rb_erase])
    changes the shape of the tree and never its in-order sequence; the
    embedding keeps the search tree and leaves the colours out. *)
Inductive rb_root : Type :=
| RB_ROOT
| rb_node (rb_left : rb_root) (n : pmfs_dir_node) (rb_right : rb_root).

Fixpoint rb_elements (t : rb_root) : list pmfs_dir_node :=
  match t with
  | RB_ROOT => []
  | rb_node l n r => rb_elements l ++ n :: rb_elements r
  end.

(** The search-tree invariant of the index: hashes grow from left to right
    and every node points at a log entry. *)
Fixpoint rb_all (P : pmfs_dir_node -> bool) (t : rb_root) : bool :=
  match t with
  | RB_ROOT => true
  | rb_node l n r => P n && rb_all P l && rb_all P r
  end.

Fixpoint rb_ordered (t : rb_root) : bool :=
  match t with
  | RB_ROOT => true
  | rb_node l n r =>
      rb_all (fun x => hash x <? hash n) l
      && rb_all (fun x => hash n <? hash x) r
      && rb_ordered l && rb_ordered r
  end.

Definition rb_mapped (t : rb_root) : bool :=
  rb_all (fun x => negb (nvmm x =? 0)) t.

(** struct pmfs_inode_info_header *)
Record pmfs_inode_info_header : Type := mk_sih {
  sih_log_pages : Z;
  sih_i_size : Z;
  sih_i_mode : Z;
  sih_pi_addr : Z;
  dir_tree : rb_root
}.

Definition set_dir_tree (t : rb_root) (sih : pmfs_inode_info_header) :=
  mk_sih (sih_log_pages sih) (sih_i_size sih) (sih_i_mode sih) (sih_pi_addr sih) t.
Definition set_sih_log_pages (v : Z) (sih : pmfs_inode_info_header) :=
  mk_sih v (sih_i_size sih) (sih_i_mode sih) (sih_pi_addr sih) (dir_tree sih).

(** The fields of the VFS [struct inode] of the directory that dir.c uses. *)
Record vfs_inode : Type := mk_vfs_inode {
  i_nlink : Z;
  vi_mtime : Z;
  vi_ctime : Z;
  vi_size : Z;
  vi_blocks : Z
}.

(** [struct dentry]: the name ([d_name.name], the bytes before its NUL) and
    [d_name.len]. *)
Record dentry : Type := mk_dentry {
  d_name : list Z;
  d_len : Z
}.

(** The [len] first bytes at [name], NUL beyond the end of the string. *)
Definition name_bytes (name : list Z) (len : Z) : list Z :=
  map (fun i => nth i name 0) (seq 0 (Z.to_nat len)).

(** The scan bitmap handed over by recovery ([bbuild.c]): the 4K bits set so
    far and the inline inodes passed to pmfs_recover_inode. *)
Record scan_bitmap : Type := mk_bm {
  bm_4K : list Z;
  bm_inodes : list Z
}.

(* ------------------------- RB tree operations ------------------------- *)

Definition pmfs_rbtree_compare_find_by_name (curr : pmfs_dir_node)
    (hash : Z) : result Z :=
  if nvmm curr =? 0 then Bug
  else if hash <? Dir.hash curr then Done (-1)
  else if Dir.hash curr <? hash then Done 1
  else (* FIXME: Ignore hash collision *) Done 0.

Fixpoint find_walk (temp : rb_root) (hash : Z) : result (option pmfs_dir_node) :=
  match temp with
  | RB_ROOT => Done None
  | rb_node l curr r =>
      compVal <- pmfs_rbtree_compare_find_by_name curr hash ;;
      if compVal =? -1 then find_walk l hash
      else if compVal =? 1 then find_walk r hash
      else Done (Some curr)
  end.

Definition pmfs_find_dir_node_by_name (sih : pmfs_inode_info_header)
    (name : list Z) : result (option pmfs_dir_node) :=
  find_walk (dir_tree sih) (Hdr.BKDRHash name).

(** The descent of pmfs_insert_dir_node_by_name: [None] when a node compares
    equal, otherwise the tree with [new] linked at the empty slot reached. *)
Fixpoint insert_walk (temp : rb_root) (hash : Z) (new : pmfs_dir_node)
  : result (option rb_root) :=
  match temp with
  | RB_ROOT => Done (Some (rb_node RB_ROOT new RB_ROOT))
  | rb_node l curr r =>
      compVal <- pmfs_rbtree_compare_find_by_name curr hash ;;
      if compVal =? -1 then
        o <- insert_walk l hash new ;;
        Done (option_map (fun l' => rb_node l' curr r) o)
      else if compVal =? 1 then
        o <- insert_walk r hash new ;;
        Done (option_map (fun r' => rb_node l curr r') o)
      else Done None
  end.

Definition pmfs_insert_dir_node_by_name (s : fs)
    (sih : pmfs_inode_info_header) (ino : Z) (name : list Z) (dir_entry : Z)
  : result (Z * fs * pmfs_inode_info_header) :=
  let hash := Hdr.BKDRHash name in
  o <- insert_walk (dir_tree sih) hash (mk_dir_node dir_entry ino hash) ;;
  match o with
  | None => Done (- EINVAL, s, sih)
  | Some t =>
      (* pmfs_alloc_dirnode *)
      match dirnodes s with
      | O => Done (- ENOMEM, s, sih)
      | S k => Done (0, set_dirnodes k s, set_dir_tree t sih)
      end
  end.

(** rb_erase of a node with two children puts its in-order successor in its
    place. *)
Fixpoint rb_first_split (t : rb_root) : option (pmfs_dir_node * rb_root) :=
  match t with
  | RB_ROOT => None
  | rb_node l n r =>
      match rb_first_split l with
      | None => Some (n, r)
      | Some (m, l') => Some (m, rb_node l' n r)
      end
  end.

Definition rb_erase_root (l r : rb_root) : rb_root :=
  match l with
  | RB_ROOT => r
  | _ =>
      match rb_first_split r with
      | None => l
      | Some (m, r') => rb_node l m r'
      end
  end.

(** The descent of pmfs_remove_dir_node_by_name: [None] when no node
    compares equal, otherwise the tree without the node found. *)
Fixpoint remove_walk (temp : rb_root) (hash : Z) : result (option rb_root) :=
  match temp with
  | RB_ROOT => Done None
  | rb_node l curr r =>
      compVal <- pmfs_rbtree_compare_find_by_name curr hash ;;
      if compVal =? -1 then
        o <- remove_walk l hash ;;
        Done (option_map (fun l' => rb_node l' curr r) o)
      else if compVal =? 1 then
        o <- remove_walk r hash ;;
        Done (option_map (fun r' => rb_node l curr r') o)
      else Done (Some (rb_erase_root l r))
  end.

Definition pmfs_remove_dir_node_by_name (s : fs)
    (sih : pmfs_inode_info_header) (name : list Z)
  : result (fs * pmfs_inode_info_header) :=
  o <- remove_walk (dir_tree sih) (Hdr.BKDRHash name) ;;
  match o with
  | None => Done (s, sih)
  | Some t =>
      (* pmfs_free_dirnode *)
      Done (set_dirnodes (S (dirnodes s)) s, set_dir_tree t sih)
  end.

(* -------------------------- Entry operations -------------------------- *)

Section Entries.
Context {D : PmfsDef}.

(** dir.c is written against the prototypes of [pmfs.h].  It reads the
    result of pmfs_allocate_inode_log_pages as the number of pages obtained,
    and pmfs_get_append_head, pmfs_apply_setattr_entry and
    pmfs_apply_link_change_entry are defined in files that are not at hand:
    the four are parameters of the directory code. *)
Variable pmfs_allocate_inode_log_pages : fs -> Z -> (Z * Z) * fs.
Variable pmfs_get_append_head :
  fs -> pmfs_inode -> pmfs_inode_info_header -> Z -> Z -> Z -> Z ->
  Z * fs * pmfs_inode * pmfs_inode_info_header.
Variable pmfs_apply_setattr_entry : mem -> pmfs_inode -> Z -> pmfs_inode.
Variable pmfs_apply_link_change_entry : mem -> pmfs_inode -> Z -> pmfs_inode.

(** The [links_count] that pmfs_append_dir_inode_entry records
    ([unsigned short] arithmetic). *)
Definition logged_links_count (i_nlink link_change : Z) : Z :=
  let links_count := u16 i_nlink in
  if (links_count =? 0) && (link_change =? -1) then 0
  else u16 (links_count + link_change).

(** The stores of pmfs_append_dir_inode_entry into the entry at [curr_p], in
    program order. *)
Definition write_dir_logentry (m : mem) (curr_p ino : Z) (d : dentry)
    (mtime size new_inode links_count de_len : Z) : mem :=
  let m := store8 m (curr_p + Hdr.de_entry_type) Hdr.DIR_LOG in
  let m := store64 m (curr_p + Hdr.de_ino) ino in
  let m := store8 m (curr_p + Hdr.de_name_len) (d_len d) in
  let m := store_bytes m (curr_p + Hdr.de_name) (name_bytes (d_name d) (d_len d)) in
  let m := store8 m (curr_p + Hdr.de_file_type) 0 in
  let m := store32 m (curr_p + Hdr.de_mtime) mtime in
  let m := store64 m (curr_p + Hdr.de_size) size in
  let m := store8 m (curr_p + Hdr.de_new_inode) new_inode in
  let m := store16 m (curr_p + Hdr.de_links_count) links_count in
  store16 m (curr_p + Hdr.de_de_len) de_len.

(** What pmfs_append_dir_inode_entry hands back: the entry position, the
    values left in [*pi_addr] (when asked for) and [*curr_tail], and the
    objects it updated. *)
Record appended : Type := mk_appended {
  ap_curr_p : Z;
  ap_pi_addr : option Z;
  ap_curr_tail : Z;
  ap_fs : fs;
  ap_pidir : pmfs_inode;
  ap_dir : vfs_inode;
  ap_sih : pmfs_inode_info_header
}.

Definition pmfs_append_dir_inode_entry (s : fs) (pidir : pmfs_inode)
    (dir : vfs_inode) (sih : pmfs_inode_info_header) (want_pi_addr : bool)
    (ino : Z) (d : dentry) (de_len tail link_change new_inode : Z)
  : result appended :=
  let size := de_len in
  let '(curr_p, s, pidir, sih) :=
    pmfs_get_append_head s pidir sih tail size new_inode 0 in
  if curr_p =? 0 then Bug
  else
    let links_count := logged_links_count (i_nlink dir) link_change in
    let m := write_dir_logentry (pmem s) curr_p ino d (vi_mtime dir)
               (vi_size dir) new_inode links_count de_len in
    let curr_tail := u64 (curr_p + de_len) in
    (* [*pi_addr] and [*curr_tail] *)
    let out :=
      if negb (new_inode =? 0) then
        (* Allocate space for the new inode *)
        let inode_start :=
          if Hdr.is_last_entry curr_p de_len new_inode
          then Hdr.next_log_page m curr_p
          else Hdr.inode_align curr_tail in
        (if want_pi_addr then Some inode_start else None,
         u64 (inode_start + PMFS_INODE_SIZE))
      else (None, curr_tail) in
    let dir := mk_vfs_inode (i_nlink dir) (vi_mtime dir) (vi_ctime dir)
                 (vi_size dir) (i_blocks pidir) in
    Done (mk_appended curr_p (fst out) (snd out) (set_pmem m s) pidir dir sih).

(** Append . and .. entries *)
Definition pmfs_append_dir_init_entries (sb : super_block) (now : Z) (s : fs)
    (pi : pmfs_inode) (self_ino parent_ino : Z) : Z * fs * pmfs_inode :=
  if negb (log_head pi =? 0) then (- EINVAL, s, pi)
  else
    let '((allocated, new_block), s) := pmfs_allocate_inode_log_pages s 1 in
    if negb (allocated =? 1) then (- ENOMEM, s, pi)
    else
      let pi := set_i_blocks 1 (set_log_tail new_block (set_log_head new_block pi)) in
      let de_entry := new_block in
      let m := pmem s in
      let m := store8 m (de_entry + Hdr.de_entry_type) Hdr.DIR_LOG in
      let m := store64 m (de_entry + Hdr.de_ino) self_ino in
      let m := store8 m (de_entry + Hdr.de_name_len) 1 in
      let m := store16 m (de_entry + Hdr.de_de_len) (Hdr.PMFS_DIR_LOG_REC_LEN 1) in
      let m := store32 m (de_entry + Hdr.de_mtime) now in
      let m := store64 m (de_entry + Hdr.de_size) (s_blocksize sb) in
      let m := store16 m (de_entry + Hdr.de_links_count) 1 in
      let m := store_bytes m (de_entry + Hdr.de_name) [46] in
      let curr_p := new_block + Hdr.PMFS_DIR_LOG_REC_LEN 1 in
      let de_entry := de_entry + load16 m (de_entry + Hdr.de_de_len) in
      let m := store8 m (de_entry + Hdr.de_entry_type) Hdr.DIR_LOG in
      let m := store64 m (de_entry + Hdr.de_ino) parent_ino in
      let m := store8 m (de_entry + Hdr.de_name_len) 2 in
      let m := store16 m (de_entry + Hdr.de_de_len) (Hdr.PMFS_DIR_LOG_REC_LEN 2) in
      let m := store32 m (de_entry + Hdr.de_mtime) now in
      let m := store64 m (de_entry + Hdr.de_size) (s_blocksize sb) in
      let m := store16 m (de_entry + Hdr.de_links_count) 2 in
      let m := store_bytes m (de_entry + Hdr.de_name) [46; 46] in
      let curr_p := curr_p + Hdr.PMFS_DIR_LOG_REC_LEN 2 in
      (0, set_pmem m s, pmfs_update_tail pi curr_p).

(** What pmfs_add_entry and pmfs_remove_entry hand back: the return value,
    [*pi_addr], [*new_tail] and the objects updated. *)
Record entry_done : Type := mk_entry_done {
  ed_ret : Z;
  ed_pi_addr : option Z;
  ed_new_tail : Z;
  ed_fs : fs;
  ed_pidir : pmfs_inode;
  ed_dir : vfs_inode;
  ed_sih : pmfs_inode_info_header
}.

(** adds a directory entry pointing to the inode *)
Definition pmfs_add_entry (now : Z) (s : fs) (pidir : pmfs_inode)
    (dir : vfs_inode) (sih : pmfs_inode_info_header) (d : dentry)
    (want_pi_addr : bool) (ino inc_link new_inode tail : Z)
  : result entry_done :=
  let namelen := d_len d in
  if namelen =? 0 then Done (mk_entry_done (- EINVAL) None 0 s pidir dir sih)
  else
    let dir := mk_vfs_inode (i_nlink dir) now now (vi_size dir) (vi_blocks dir) in
    let loglen := u16 (Hdr.PMFS_DIR_LOG_REC_LEN namelen) in
    a <- pmfs_append_dir_inode_entry s pidir dir sih want_pi_addr ino d
           loglen tail inc_link new_inode ;;
    (* the result of pmfs_insert_dir_node is not looked at *)
    r <- pmfs_insert_dir_node_by_name (ap_fs a) (ap_sih a) ino (d_name d)
           (ap_curr_p a) ;;
    let '(_, s, sih) := r in
    Done (mk_entry_done 0 (ap_pi_addr a) (ap_curr_tail a) s (ap_pidir a)
            (ap_dir a) sih).

(** removes a directory entry pointing to the inode *)
Definition pmfs_remove_entry (now : Z) (s : fs) (pidir : pmfs_inode)
    (dir : vfs_inode) (sih : pmfs_inode_info_header) (d : dentry)
    (dec_link tail : Z) : result entry_done :=
  if d_len d =? 0 then Done (mk_entry_done (- EINVAL) None 0 s pidir dir sih)
  else
    let dir := mk_vfs_inode (i_nlink dir) now now (vi_size dir) (vi_blocks dir) in
    let loglen := u16 (Hdr.PMFS_DIR_LOG_REC_LEN (d_len d)) in
    a <- pmfs_append_dir_inode_entry s pidir dir sih false 0 d
           loglen tail dec_link 0 ;;
    r <- pmfs_remove_dir_node_by_name (ap_fs a) (ap_sih a) (d_name d) ;;
    let '(s, sih) := r in
    Done (mk_entry_done 0 None (ap_curr_tail a) s (ap_pidir a) (ap_dir a) sih).

(* ------------------------------ Replay ------------------------------- *)

Definition pmfs_replay_add_entry (strfuel : nat) (s : fs)
    (sih : pmfs_inode_info_header) (entry curr_p : Z)
  : result (Z * fs * pmfs_inode_info_header) :=
  let m := pmem s in
  if load8 m (entry + Hdr.de_name_len) =? 0 then Done (- EINVAL, s, sih)
  else
    (* entry->name is handed over as a C string *)
    pmfs_insert_dir_node_by_name s sih (load64 m (entry + Hdr.de_ino))
      (cstring strfuel m (entry + Hdr.de_name)) curr_p.

Definition pmfs_replay_remove_entry (strfuel : nat) (s : fs)
    (sih : pmfs_inode_info_header) (entry : Z)
  : result (Z * fs * pmfs_inode_info_header) :=
  r <- pmfs_remove_dir_node_by_name s sih
         (cstring strfuel (pmem s) (entry + Hdr.de_name)) ;;
  let '(s, sih) := r in
  Done (0, s, sih).

Definition pmfs_rebuild_dir_time_and_size (m : mem) (pi : pmfs_inode)
    (entry : Z) : pmfs_inode :=
  let pi := set_i_ctime (load32 m (entry + Hdr.de_mtime)) pi in
  let pi := set_i_mtime (load32 m (entry + Hdr.de_mtime)) pi in
  let pi := set_i_size (load64 m (entry + Hdr.de_size)) pi in
  set_i_links_count (load16 m (entry + Hdr.de_links_count)) pi.

(** [if (bm) { BUG_ON(curr_p & (PAGE_SIZE - 1)); set_bm(curr_p >> PAGE_SHIFT, bm, BM_4K); }] *)
Definition mark_log_page (bm : option scan_bitmap) (curr_p : Z)
  : result (option scan_bitmap) :=
  match bm with
  | None => Done None
  | Some b =>
      if negb (Z.land curr_p (PAGE_SIZE - 1) =? 0) then Bug
      else Done (Some (mk_bm (bm_4K b ++ [Z.shiftr curr_p PAGE_SHIFT])
                         (bm_inodes b)))
  end.

(** [if (bm) pmfs_recover_inode(sb, curr_p, bm, ...)] *)
Definition recover_inline_inode (bm : option scan_bitmap) (curr_p : Z)
  : option scan_bitmap :=
  match bm with
  | None => None
  | Some b => Some (mk_bm (bm_4K b) (bm_inodes b ++ [curr_p]))
  end.

(** The objects pmfs_rebuild_dir_inode_tree works on while it walks. *)
Record rebuild_vars : Type := mk_rv {
  rv_fs : fs;
  rv_pi : pmfs_inode;
  rv_sih : pmfs_inode_info_header;
  rv_bm : option scan_bitmap;
  rv_curr_p : Z
}.

(** One iteration of [while (curr_p != pi->log_tail)]: [true] to go on
    ([continue] or the end of the body), [false] at the [break]. *)
Definition rebuild_step (strfuel : nat) (v : rebuild_vars)
  : result (bool * rebuild_vars) :=
  let s := rv_fs v in
  let m := pmem s in
  let pi := rv_pi v in
  '(curr_p, sih, bm) <-
    (if Hdr.is_last_dir_entry m (rv_curr_p v) then
       let sih := set_sih_log_pages (sih_log_pages (rv_sih v) + 1) (rv_sih v) in
       let curr_p := Hdr.next_log_page m (rv_curr_p v) in
       bm <- mark_log_page (rv_bm v) curr_p ;;
       Done (curr_p, sih, bm)
     else Done (rv_curr_p v, rv_sih v, rv_bm v)) ;;
  if curr_p =? 0 then Bug
  else
    let type := Hdr.pmfs_get_entry_type m curr_p in
    if type =? Hdr.SET_ATTR then
      Done (true, mk_rv s (pmfs_apply_setattr_entry m pi curr_p) sih bm
                    (u64 (curr_p + Hdr.sizeof_setattr_logentry)))
    else if type =? Hdr.LINK_CHANGE then
      Done (true, mk_rv s (pmfs_apply_link_change_entry m pi curr_p) sih bm
                    (u64 (curr_p + Hdr.sizeof_link_change_entry)))
    else
      (* DIR_LOG; any other type only trips PMFS_ASSERT, which warns *)
      let entry := curr_p in
      r <- (if 0 <? load64 m (entry + Hdr.de_ino)
            then pmfs_replay_add_entry strfuel s sih entry curr_p
            else pmfs_replay_remove_entry strfuel s sih entry) ;;
      let '(ret, s, sih) := r in
      if negb (ret =? 0) then Done (false, mk_rv s pi sih bm curr_p)
      else
        let pi := pmfs_rebuild_dir_time_and_size m pi entry in
        let de_len := load16 m (entry + Hdr.de_de_len) in
        let curr_p := u64 (curr_p + de_len) in
        if negb (load8 m (entry + Hdr.de_new_inode) =? 0) then
          '(curr_p, sih, bm) <-
            (if Hdr.is_last_entry (curr_p - de_len) de_len 1 then
               let sih := set_sih_log_pages (sih_log_pages sih + 1) sih in
               let curr_p := Hdr.next_log_page m curr_p in
               bm <- mark_log_page bm curr_p ;;
               Done (curr_p, sih, bm)
             else Done (Hdr.inode_align curr_p, sih, bm)) ;;
          let bm := recover_inline_inode bm curr_p in
          Done (true, mk_rv s pi sih bm (u64 (curr_p + PMFS_INODE_SIZE)))
        else Done (true, mk_rv s pi sih bm curr_p).

Fixpoint rebuild_loop (fuel strfuel : nat) (v : rebuild_vars)
  : result (option rebuild_vars) :=
  match fuel with
  | O => Done None
  | S k =>
      if rv_curr_p v =? log_tail (rv_pi v) then Done (Some v)
      else
        r <- rebuild_step strfuel v ;;
        let '(go_on, v) := r in
        if go_on then rebuild_loop k strfuel v else Done (Some v)
  end.

(** "Keep traversing until log ends" *)
Fixpoint rebuild_count_pages (fuel : nat) (m : mem) (curr_page : Z)
    (sih : pmfs_inode_info_header) (bm : option scan_bitmap)
  : result (option (pmfs_inode_info_header * option scan_bitmap)) :=
  match fuel with
  | O => Done None
  | S k =>
      let next := load64 m (curr_page + Hdr.LAST_ENTRY + Hdr.off_next_page) in
      if next =? 0 then Done (Some (sih, bm))
      else
        let sih := set_sih_log_pages (sih_log_pages sih + 1) sih in
        bm <- mark_log_page bm next ;;
        rebuild_count_pages k m next sih bm
  end.

(** pmfs_rebuild_dir_inode_tree; [None] when [fuel] iterations of one of
    its loops did not reach the end. *)
Definition pmfs_rebuild_dir_inode_tree (fuel strfuel : nat) (s : fs)
    (pi : pmfs_inode) (pi_addr : Z) (sih : pmfs_inode_info_header)
    (bm : option scan_bitmap)
  : result (option (Z * fs * pmfs_inode * pmfs_inode_info_header
                    * option scan_bitmap)) :=
  let sih := mk_sih (sih_log_pages sih) (sih_i_size sih) (sih_i_mode sih)
               pi_addr RB_ROOT in
  let curr_p := log_head pi in
  if curr_p =? 0 then Bug
  else
    bm <- mark_log_page bm curr_p ;;
    let sih := set_sih_log_pages 1 sih in
    o <- rebuild_loop fuel strfuel (mk_rv s pi sih bm curr_p) ;;
    match o with
    | None => Done None
    | Some v =>
        let pi := rv_pi v in
        let sih := rv_sih v in
        let sih := mk_sih (sih_log_pages sih) (i_size pi) (i_mode pi)
                     (sih_pi_addr sih) (dir_tree sih) in
        let curr_p := Z.land (rv_curr_p v) PAGE_MASK in
        o <- rebuild_count_pages fuel (pmem (rv_fs v)) curr_p sih (rv_bm v) ;;
        match o with
        | None => Done None
        | Some (sih, bm) =>
            let pi := match bm with
                      | Some _ => set_i_blocks (i_blocks pi + sih_log_pages sih) pi
                      | None => pi
                      end in
            Done (Some (0, rv_fs v, pi, sih, bm))
        end
    end.

End Entries.

(* ---------------------------- Whole-tree walks ------------------------- *)

(** pmfs_delete_dir_tree: from [rb_first], every node is erased and handed
    back to the slab cache, its successor having been fetched before.
    Erasing the leftmost node leaves its right subtree in its place.  [None]
    when [fuel] rounds did not empty the tree. *)
Fixpoint delete_loop (fuel : nat) (s : fs) (t : rb_root) : option (fs * rb_root) :=
  match fuel with
  | O => None
  | S k =>
      match rb_first_split t with
      | None => Some (s, t)
      | Some (_, t') =>
          (* pmfs_free_dirnode *)
          delete_loop k (set_dirnodes (S (dirnodes s)) s) t'
      end
  end.

Definition pmfs_delete_dir_tree (fuel : nat) (s : fs)
    (sih : pmfs_inode_info_header) : option (fs * pmfs_inode_info_header) :=
  option_map (fun r => (fst r, set_dir_tree (snd r) sih))
             (delete_loop fuel s (dir_tree sih)).

End Dir.

(* ====================================================================== *)
(** ** The callees of dir.c that are not at hand, and its callers *)

Module Log.

Section WithDef.
Context {D : PmfsDef}.

(** Modelled from the spec: pmfs_allocate_inode_log_pages as dir.c reads its
    prototype, the pages of inode.c's allocation with the number of pages
    obtained as the result ("written to a freshly allocated first page"). *)
Definition pmfs_allocate_inode_log_pages (s : fs) (num_pages : Z)
  : (Z * Z) * fs :=
  let '((errval, new_block), s1) := Inode.pmfs_allocate_inode_log_pages s num_pages in
  ((if errval =? 0 then num_pages else errval, new_block), s1).

(** Modelled from the spec: pmfs_get_append_head, the page management of
    the inode log (4.B).  With no log yet one page is allocated and becomes
    head and tail.  When the entry (with its inline inode, if any) does not
    fit before LAST_ENTRY the next page is followed; when there is none a
    batch of min(log_pages, 256) linked pages is allocated and published
    after the current page.  A directory log holds no FILE_WRITE entry, so
    the collection pass finds no page to recycle.  A nonzero [tail] is the
    position left by the caller's previous, not yet published append. *)
Definition pmfs_get_append_head (s : fs) (pi : pmfs_inode)
    (sih : Dir.pmfs_inode_info_header) (tail size new_inode is_file : Z)
  : Z * fs * pmfs_inode * Dir.pmfs_inode_info_header :=
  let curr_p := if tail =? 0 then log_tail pi else tail in
  if curr_p =? 0 then
    let '((errval, new_block), s1) := Inode.pmfs_allocate_inode_log_pages s 1 in
    if negb (errval =? 0) then (0, s1, pi, sih)
    else (new_block, s1,
          set_log_tail new_block (set_log_head new_block pi),
          Dir.set_sih_log_pages 1 sih)
  else if Hdr.is_last_entry curr_p size new_inode then
    let next := Hdr.next_log_page (pmem s) curr_p in
    if next =? 0 then
      let num_pages := Z.min (Dir.sih_log_pages sih) 256 in
      let '((errval, new_block), s1) :=
        Inode.pmfs_allocate_inode_log_pages s num_pages in
      if negb (errval =? 0) then (0, s1, pi, sih)
      else
        let m := store64 (pmem s1)
                   (Hdr.PAGE_TAIL curr_p + Hdr.off_next_page) new_block in
        (new_block, set_pmem m s1, pi,
         Dir.set_sih_log_pages (Dir.sih_log_pages sih + num_pages) sih)
    else (next, s, pi, sih)
  else (curr_p, s, pi, sih).

(** Modelled from the spec: pmfs_apply_setattr_entry and
    pmfs_apply_link_change_entry, "SET_ATTR and LINK_CHANGE entries update
    the persistent inode in place during replay", with the entry layouts of
    [pmfs.h]. *)
Definition pmfs_apply_setattr_entry (m : mem) (pi : pmfs_inode) (entry : Z)
  : pmfs_inode :=
  let pi := set_i_mode (load16 m (entry + 2)) pi in
  let pi := set_i_mtime (load32 m (entry + 16)) pi in
  let pi := set_i_ctime (load32 m (entry + 20)) pi in
  set_i_size (load64 m (entry + 24)) pi.

Definition pmfs_apply_link_change_entry (m : mem) (pi : pmfs_inode) (entry : Z)
  : pmfs_inode :=
  let pi := set_i_links_count (load16 m (entry + 2)) pi in
  let pi := set_i_ctime (load32 m (entry + 4)) pi in
  set_i_flags (load32 m (entry + 8)) pi.

(** The directory code with its callees plugged in. *)
Definition append_dir_init_entries :=
  Dir.pmfs_append_dir_init_entries pmfs_allocate_inode_log_pages.
Definition add_entry := Dir.pmfs_add_entry pmfs_get_append_head.
Definition remove_entry := Dir.pmfs_remove_entry pmfs_get_append_head.
Definition rebuild_dir_inode_tree :=
  Dir.pmfs_rebuild_dir_inode_tree pmfs_apply_setattr_entry
    pmfs_apply_link_change_entry.

(** A directory as the operations see it. *)
Record directory : Type := mk_directory {
  dir_fs : fs;
  dir_pi : pmfs_inode;
  dir_inode : Dir.vfs_inode;
  dir_sih : Dir.pmfs_inode_info_header
}.

(** Directory operations as the namei layer issues them. *)
Inductive dir_op : Type :=
| Add (name : list Z) (ino : Z)
| Remove (name : list Z).

Definition dentry_of (name : list Z) : Dir.dentry :=
  Dir.mk_dentry name (Z.of_nat (length name)).

(** Modelled from the spec: the caller of pmfs_add_entry and
    pmfs_remove_entry appends at the published tail and then publishes the
    new tail ("invokes publish_tail(inode, new_tail)"). *)
Definition apply_op (now : Z) (d : directory) (op : dir_op)
  : result (Z * directory) :=
  r <- match op with
       | Add name ino =>
           add_entry now (dir_fs d) (dir_pi d) (dir_inode d) (dir_sih d)
             (dentry_of name) false ino 0 0 (log_tail (dir_pi d))
       | Remove name =>
           remove_entry now (dir_fs d) (dir_pi d) (dir_inode d) (dir_sih d)
             (dentry_of name) 0 (log_tail (dir_pi d))
       end ;;
  let pi := if Dir.ed_ret r =? 0
            then pmfs_update_tail (Dir.ed_pidir r) (Dir.ed_new_tail r)
            else Dir.ed_pidir r in
  Done (Dir.ed_ret r,
        mk_directory (Dir.ed_fs r) pi (Dir.ed_dir r) (Dir.ed_sih r)).

(** A run of operations, every one of which returns 0. *)
Fixpoint apply_ops (now : Z) (d : directory) (ops : list dir_op)
  : result (option directory) :=
  match ops with
  | [] => Done (Some d)
  | op :: tl =>
      r <- apply_op now d op ;;
      let '(ret, d) := r in
      if ret =? 0 then apply_ops now d tl else Done None
  end.

(** Modelled from the spec: a freshly initialized directory, the two init
    entries on a first page and the index rebuilt from them ("the tree is
    rebuilt from the log at mount; in steady state it mirrors the live
    names"). *)
Definition fresh_directory (fuel : nat) (sb : super_block) (now : Z) (s : fs)
    (self_ino parent_ino : Z) : result (option directory) :=
  let '(ret, s, pi) :=
    append_dir_init_entries sb now s zero_inode self_ino parent_ino in
  if negb (ret =? 0) then Done None
  else
    o <- rebuild_dir_inode_tree fuel fuel s pi 0
           (Dir.mk_sih 0 0 0 0 Dir.RB_ROOT) None ;;
    match o with
    | None => Done None
    | Some (_, s, pi, sih, _) =>
        Done (Some (mk_directory s pi (Dir.mk_vfs_inode 2 now now 0 0) sih))
    end.

(** The index obtained by replaying the log of [d]. *)
Definition replayed_index (fuel : nat) (d : directory)
  : result (option Dir.rb_root) :=
  o <- rebuild_dir_inode_tree fuel fuel (dir_fs d) (dir_pi d)
         (Dir.sih_pi_addr (dir_sih d)) (dir_sih d) None ;;
  Done (option_map (fun '(_, _, _, sih, _) => Dir.dir_tree sih) o).

(** The name-to-inode mappings of an index: for every node the name of its
    log entry ([name_len] bytes at [name]) and its inode number. *)
Definition index_mappings (m : mem) (t : Dir.rb_root) : list (list Z * Z) :=
  map (fun n =>
         (load_bytes (Z.to_nat (load8 m (Dir.nvmm n + Hdr.de_name_len))) m
            (Dir.nvmm n + Hdr.de_name),
          Dir.ino n))
      (Dir.rb_elements t).

(** The DIR_LOG records between [curr_p] and [tail] as the replay walk
    meets them: position, name ([name_len] bytes) and inode number. *)
Fixpoint dir_log_entries (fuel : nat) (m : mem) (curr_p tail : Z)
  : list (Z * list Z * Z) :=
  match fuel with
  | O => []
  | S k =>
      if curr_p =? tail then []
      else
        let curr_p := if Hdr.is_last_dir_entry m curr_p
                      then Hdr.next_log_page m curr_p else curr_p in
        if curr_p =? 0 then []
        else
          let type := Hdr.pmfs_get_entry_type m curr_p in
          if type =? Hdr.SET_ATTR then
            dir_log_entries k m (curr_p + Hdr.sizeof_setattr_logentry) tail
          else if type =? Hdr.LINK_CHANGE then
            dir_log_entries k m (curr_p + Hdr.sizeof_link_change_entry) tail
          else
            let de_len := load16 m (curr_p + Hdr.de_de_len) in
            let next :=
              if load8 m (curr_p + Hdr.de_new_inode) =? 0 then curr_p + de_len
              else
                (if Hdr.is_last_entry curr_p de_len 1
                 then Hdr.next_log_page m (curr_p + de_len)
                 else Hdr.inode_align (curr_p + de_len)) + PMFS_INODE_SIZE in
            (curr_p,
             load_bytes (Z.to_nat (load8 m (curr_p + Hdr.de_name_len))) m
               (curr_p + Hdr.de_name),
             load64 m (curr_p + Hdr.de_ino))
            :: dir_log_entries k m next tail
  end.

End WithDef.

End Log.

(* ====================================================================== *)
(** ** Persistence of the truncate list *)

Module Persist.

(** Modelled from the spec: the flush and fence primitives
    ("flush_cachelines(addr, len, fence?)", "sfence_and_persist()").  A
    store sits in the cache until its line is written back; a flushed store
    is durable once the next barrier has passed; a line may also be written
    back at any moment on its own. *)
Record pm_machine : Type := mk_pm {
  durable : Inode.pm_loc -> Z;
  pending : list (Inode.pm_loc * Z * bool)
}.

Definition pm_flush (l : Inode.pm_loc) (p : Inode.pm_loc * Z * bool)
  : Inode.pm_loc * Z * bool :=
  let '(l1, v, f) := p in (l1, v, f || Inode.pm_loc_eqb l1 l).

Definition pm_commit (d : Inode.pm_loc -> Z) (p : Inode.pm_loc * Z * bool)
  : Inode.pm_loc -> Z :=
  let '(l1, v, f) := p in
  if f then fun x => if Inode.pm_loc_eqb x l1 then v else d x else d.

Definition pm_step (m : pm_machine) (e : Inode.pm_event) : pm_machine :=
  match e with
  | Inode.Store l v => mk_pm (durable m) (pending m ++ [(l, v, false)])
  | Inode.Flush l => mk_pm (durable m) (map (pm_flush l) (pending m))
  | Inode.Mark => m
  | Inode.Barrier =>
      mk_pm (fold_left pm_commit (pending m) (durable m))
            (filter (fun p => negb (snd p)) (pending m))
  end.

Definition pm_run (m : pm_machine) (es : list Inode.pm_event) : pm_machine :=
  fold_left pm_step es m.

(** What the medium may hold after a crash: for every word its durable
    value or the value of a store still pending. *)
Definition crash_image (m : pm_machine) (img : Inode.pm_loc -> Z) : Prop :=
  forall l,
    img l = durable m l \/
    exists v f, In (l, v, f) (pending m) /\ img l = v.

(** The truncate list as recovery reads it from the medium: inode numbers
    and truncate sizes from the head on, [None] when [fuel] items did not
    reach the end. *)
Fixpoint truncate_list (fuel : nat) (img : Inode.pm_loc -> Z) (ino : Z)
  : option (list (Z * Z)) :=
  match fuel with
  | O => None
  | S k =>
      if ino =? 0 then Some []
      else option_map (cons (ino, img (Inode.ItemSize ino)))
             (truncate_list k img (img (Inode.ItemNext ino)))
  end.

(** The words one pmfs_truncate_add on [ino] may store to. *)
Definition touches (ino : Z) (l : Inode.pm_loc) : bool :=
  match l with
  | Inode.HeadNext => true
  | Inode.ItemNext i | Inode.ItemSize i => i =? ino
  end.

End Persist.

(* ====================================================================== *)
(** ** Concrete configurations *)

(** The constants of the x86-64 build of PMFS: 512-slot nodes, 64-byte
    cachelines, 128-byte inodes. *)
Definition pmfs_def_x86 : PmfsDef :=
  {| META_BLK_SHIFT := 9;
     CACHELINE_SIZE := 64;
     PMFS_INODE_SIZE := 128;
     PMFS_INODE_BITS := 7;
     PMFS_FREE_INODE_HINT_START := 3;
     PMFS_DEFAULT_BLOCK_TYPE := 0 |}.

Definition sb_4k : super_block := mk_sb 4096 12.

(** *** Directories *)

(** An empty region whose allocator will hand out block 1, with room for 16
    index nodes. *)
Definition fs_boot : fs := mk_fs mem_empty [Some 1] [] 16.

Definition directory_or_empty (r : result (option Log.directory))
  : Log.directory :=
  match r with
  | Done (Some d) => d
  | _ => Log.mk_directory fs_boot zero_inode (Dir.mk_vfs_inode 0 0 0 0 0)
           (Dir.mk_sih 0 0 0 0 Dir.RB_ROOT)
  end.

(** The directory "." = inode 2 under parent inode 1, freshly initialized
    at time 7; operations are issued at time 8. *)
Definition dir0 : Log.directory :=
  directory_or_empty
    (Log.fresh_directory (D := pmfs_def_x86) 16 sb_4k 7 fs_boot 2 1).

Definition run_ops (ops : list Log.dir_op) : Log.directory :=
  directory_or_empty (Log.apply_ops (D := pmfs_def_x86) 8 dir0 ops).

Definition name_a : list Z := [97].
Definition name_b : list Z := [98].
Definition name_abcd : list Z := [97; 98; 99; 100].

(** [dir0] after link("a") to inode 5. *)
Definition dir_a : Log.directory := run_ops [Log.Add name_a 5].

(** The name-to-inode mappings of the index kept online, of the index
    replayed from the log, and the records of the log. *)
Definition online_mappings (d : Log.directory) : list (list Z * Z) :=
  Log.index_mappings (pmem (Log.dir_fs d)) (Dir.dir_tree (Log.dir_sih d)).

Definition replayed_mappings (d : Log.directory) : option (list (list Z * Z)) :=
  match Log.replayed_index (D := pmfs_def_x86) 16 d with
  | Done (Some t) => Some (Log.index_mappings (pmem (Log.dir_fs d)) t)
  | _ => None
  end.

(** The value pmfs_rebuild_dir_inode_tree returns on the log of [d]. *)
Definition replayed_ret (d : Log.directory) : option Z :=
  match Log.rebuild_dir_inode_tree (D := pmfs_def_x86) 16 16 (Log.dir_fs d)
          (Log.dir_pi d) (Dir.sih_pi_addr (Log.dir_sih d)) (Log.dir_sih d)
          None with
  | Done (Some (ret, _, _, _, _)) => Some ret
  | _ => None
  end.

Definition logged_entries (d : Log.directory) : list (list Z * Z) :=
  map (fun e => (snd (fst e), snd e))
      (Log.dir_log_entries (D := pmfs_def_x86) 16 (pmem (Log.dir_fs d))
         (log_head (Log.dir_pi d)) (log_tail (Log.dir_pi d))).

(** The second link("a"), to inode 6, on [dir_a]: the entry appended and
    the outcome of the index insert that follows. *)
Definition dentry_a : Dir.dentry := Log.dentry_of name_a.

Definition appended_or_empty (r : result Dir.appended) : Dir.appended :=
  match r with
  | Done a => a
  | Bug => Dir.mk_appended 0 None 0 fs_boot zero_inode
             (Dir.mk_vfs_inode 0 0 0 0 0) (Dir.mk_sih 0 0 0 0 Dir.RB_ROOT)
  end.

Definition dir_a_inode : Dir.vfs_inode :=
  Dir.mk_vfs_inode (Dir.i_nlink (Log.dir_inode dir_a)) 8 8
    (Dir.vi_size (Log.dir_inode dir_a)) (Dir.vi_blocks (Log.dir_inode dir_a)).

Definition appended_a6 : Dir.appended :=
  appended_or_empty
    (Dir.pmfs_append_dir_inode_entry (D := pmfs_def_x86)
       (Log.pmfs_get_append_head (D := pmfs_def_x86))
       (Log.dir_fs dir_a) (Log.dir_pi dir_a) dir_a_inode (Log.dir_sih dir_a)
       false 6 dentry_a 32 (log_tail (Log.dir_pi dir_a)) 0 0).

(** *** An inode log of two pages *)

Fixpoint write_entries (m : mem) (entry : Z) (es : list (Z * Z * Z)) : mem :=
  match es with
  | [] => m
  | (block, pgoff, num_pages) :: tl =>
      write_entries (Inode.write_inode_entry m entry pgoff num_pages block)
        (entry + Inode.sizeof_inode_entry) tl
  end.

Definition log_page (m : mem) (page : Z) (es : list (Z * Z * Z)) (next : Z)
  : mem :=
  store64 (write_entries m page es) (page + Inode.page_next_off) next.

(** [n] entries for file block 1, each superseded: one page, counter 1. *)
Definition dead_entries (n : nat) (first_block : Z) : list (Z * Z * Z) :=
  map (fun i => (Z.shiftl (first_block + Z.of_nat i) 12 + 1, 1, 1)) (seq 0 n).

(** A file whose block 0 was written once and whose block 1 was written 253
    times and then truncated away: the head page at 0x1000 holds the live
    entry of block 0 and 126 dead ones, the tail page at 0x2000 holds 127
    dead ones, and the tail stands at the last entry position of the tail
    page. *)
Definition gc_mem : mem :=
  log_page
    (log_page mem_empty 4096 ((Z.shiftl 7 12, 0, 1) :: dead_entries 126 8) 8192)
    8192 (dead_entries 127 200) 0.

Definition gc_fs : fs := mk_fs gc_mem [Some 5] [] 0.

Definition gc_pi : pmfs_inode :=
  set_log_pages 2 (set_log_tail (8192 + 4064) (set_log_head 4096 zero_inode)).

(** *** An inode table of one block *)




(** *** A truncate list with one inode *)

Definition truncate_words (l : Inode.pm_loc) : Z :=
  match l with
  | Inode.HeadNext => 3
  | Inode.ItemNext _ => 0
  | Inode.ItemSize i => if i =? 3 then 100 else 0
  end.

Definition truncate0 : Inode.truncate_state :=
  Inode.mk_ts truncate_words [3] [].

(** *** Observations *)

(** Whether every operation of a run on [dir0] returned 0. *)
Definition run_succeeds (ops : list Log.dir_op) : bool :=
  match Log.apply_ops (D := pmfs_def_x86) 8 dir0 ops with
  | Done (Some _) => true
  | _ => false
  end.

(** The value returned by an index insert. *)
Definition insert_ret
    (r : result (Z * fs * Dir.pmfs_inode_info_header)) : option Z :=
  match r with
  | Done (ret, _, _) => Some ret
  | Bug => None
  end.

(** What a collection pass leaves: the blocks handed back to the allocator,
    the new head and tail, and the pages reachable from the new head. *)
Definition collected (r : option (fs * pmfs_inode))
  : option (list (Z * Z) * Z * Z * option (list Z)) :=
  match r with
  | Some (s, pi) =>
      Some (freed s, log_head pi, log_tail pi,
            Inode.log_chain 8 (pmem s) (log_head pi))
  | None => None
  end.

(** The same for an append: the position of the entry comes first. *)
Definition appended_log (r : option (Z * fs * pmfs_inode))
  : option (Z * (list (Z * Z) * Z * Z * option (list Z))) :=
  match r with
  | Some (curr_p, s, pi) =>
      option_map (pair curr_p) (collected (Some (s, pi)))
  | None => None
  end.

(** *** Shapes used in the statements about the index *)

(** The nodes whose hash is not [h]. *)
Definition other_hash (h : Z) (x : Dir.pmfs_dir_node) : bool :=
  negb (Dir.hash x =? h).



(** *** Shapes used in the statements about the block tree *)

(** Two pages that do not overlap. *)
Definition apart (a b : Z) : Prop := a + PAGE_SIZE <= b \/ b + PAGE_SIZE <= a.

(** The interior nodes [nodes], lowest first, stacked over [below]: slot 0
    of each holds the one under it and the other slots are empty. *)
Fixpoint stacked (m : mem) (below : Z) (nodes : list Z) : Prop :=
  match nodes with
  | [] => True
  | a :: tl =>
      load64 m (Inode.node_slot a 0) = below /\
      (forall i, 1 <= i < 512 -> load64 m (Inode.node_slot a i) = 0) /\
      stacked m a tl
  end.

(** An inode of height 0 with one block, and an allocator with two node
    pages to give. *)
Definition grow_pi : pmfs_inode :=
  set_i_blocks 1 (set_root 4096 zero_inode).

Definition grow_fs : fs := mk_fs mem_empty [Some 8192; Some 16384] [] 0.


(** *** A file of two pages behind one interior node *)

(** The log entry at 4096 maps pages 0 and 1 to the blocks 16 and 17; the
    node at 8192 points both slots at it. *)
Definition cow_mem : mem :=
  store64 (store64
    (store32 (store32 (store64 mem_empty (4096 + Inode.ie_block) 65536)
                (4096 + Inode.ie_pgoff) 0)
       (4096 + Inode.ie_num_pages) 2)
    (Inode.node_slot 8192 0) 4096)
    (Inode.node_slot 8192 1) 4096.

Definition cow_fs : fs := mk_fs cow_mem [] [] 0.

Definition cow_pi : pmfs_inode :=
  set_i_blocks 2 (set_height 1 (set_root 8192 zero_inode)).

(** *** A sparse file behind one interior node *)

(** Slot 0 of the node at 8192 is mapped, slots 1 and 2 are holes; the
    allocator has the blocks 20 and 21 to give. *)
Definition sparse_fs : fs :=
  mk_fs (store64 mem_empty (Inode.node_slot 8192 0) 65536)
        [Some 20; Some 21] [] 0.

Definition sparse_pi : pmfs_inode :=
  set_i_blocks 1 (set_height 1 (set_root 8192 zero_inode)).

(* ====================================================================== *)
(** * Facts *)

(** ** Memory *)

Lemma store8_same (m : mem) (a v : Z) : store8 m a v a = u8 v.
Proof. unfold store8. now rewrite Z.eqb_refl. Qed.

Lemma store8_other (m : mem) (a v x : Z) : x <> a -> store8 m a v x = m x.
Proof.
  intros H. unfold store8.
  destruct (Z.eqb_spec x a); [contradiction | reflexivity].
Qed.

Lemma store_le_outside (n : nat) : forall (m : mem) (a v x : Z),
  x < a \/ a + Z.of_nat n <= x -> store_le n m a v x = m x.
Proof.
  induction n as [|n IH]; intros m a v x H; simpl; [reflexivity|].
  rewrite IH by lia. apply store8_other. lia.
Qed.

Lemma store_le_inside (n : nat) : forall (m : mem) (a v : Z) (k : nat),
  (k < n)%nat ->
  store_le n m a v (a + Z.of_nat k) = u8 (v / 2 ^ (8 * Z.of_nat k)).
Proof.
  induction n as [|n IH]; intros m a v k H; [lia|].
  simpl store_le. destruct k as [|k].
  - rewrite Z.add_0_r. rewrite store_le_outside by lia.
    rewrite store8_same. simpl. now rewrite Z.div_1_r.
  - replace (a + Z.of_nat (S k)) with (a + 1 + Z.of_nat k) by lia.
    rewrite IH by lia. f_equal.
    rewrite Z.div_div by lia. f_equal.
    replace (8 * Z.of_nat (S k)) with (8 + 8 * Z.of_nat k) by lia.
    rewrite Z.pow_add_r by lia. reflexivity.
Qed.

Lemma load_le_ext (n : nat) : forall (m1 m2 : mem) (a : Z),
  (forall x, a <= x < a + Z.of_nat n -> m1 x = m2 x) ->
  load_le n m1 a = load_le n m2 a.
Proof.
  induction n as [|n IH]; intros m1 m2 a H; simpl; [reflexivity|].
  rewrite (H a) by lia. rewrite (IH m1 m2 (a + 1)); [reflexivity|].
  intros x Hx. apply H. lia.
Qed.

Lemma load_store_disjoint (n1 n2 : nat) (m : mem) (a1 a2 v : Z) :
  a1 + Z.of_nat n1 <= a2 \/ a2 + Z.of_nat n2 <= a1 ->
  load_le n1 (store_le n2 m a2 v) a1 = load_le n1 m a1.
Proof.
  intros H. apply load_le_ext. intros x Hx. apply store_le_outside. lia.
Qed.

Lemma load_le_bytes (n : nat) : forall (m : mem) (a v : Z),
  (forall k, (k < n)%nat -> m (a + Z.of_nat k) = u8 (v / 2 ^ (8 * Z.of_nat k))) ->
  load_le n m a = v mod 2 ^ (8 * Z.of_nat n).
Proof.
  induction n as [|n IH]; intros m a v H.
  - simpl. now rewrite Z.mod_1_r.
  - simpl load_le.
    assert (H0 := H O ltac:(lia)). simpl in H0.
    rewrite Z.add_0_r, Z.div_1_r in H0. rewrite H0.
    rewrite (IH m (a + 1) (v / 2 ^ 8)).
    + replace (8 * Z.of_nat (S n)) with (8 + 8 * Z.of_nat n) by lia.
      rewrite Z.pow_add_r by lia. unfold u8.
      rewrite Z.rem_mul_r by lia. reflexivity.
    + intros k Hk. specialize (H (S k) ltac:(lia)).
      replace (a + 1 + Z.of_nat k) with (a + Z.of_nat (S k)) by lia.
      rewrite H. f_equal. rewrite Z.div_div by lia. f_equal.
      replace (8 * Z.of_nat (S k)) with (8 + 8 * Z.of_nat k) by lia.
      rewrite Z.pow_add_r by lia. reflexivity.
Qed.

Lemma load_store_same (n : nat) (m : mem) (a v : Z) :
  load_le n (store_le n m a v) a = v mod 2 ^ (8 * Z.of_nat n).
Proof.
  apply load_le_bytes. intros k Hk. now apply store_le_inside.
Qed.

Lemma store_bytes_outside (bs : list Z) : forall (m : mem) (a x : Z),
  x < a \/ a + Z.of_nat (length bs) <= x -> store_bytes m a bs x = m x.
Proof.
  induction bs as [|b bs IH]; intros m a x H; simpl; [reflexivity|].
  simpl length in H. rewrite IH by lia. apply store8_other. lia.
Qed.

Lemma load_store8_disjoint (n : nat) (m : mem) (a1 a v : Z) :
  a < a1 \/ a1 + Z.of_nat n <= a ->
  load_le n (store8 m a v) a1 = load_le n m a1.
Proof.
  intros H. apply load_le_ext. intros x Hx. apply store8_other. lia.
Qed.

Lemma load_store_bytes_disjoint (n : nat) (m : mem) (a1 a : Z) (bs : list Z) :
  a1 + Z.of_nat n <= a \/ a + Z.of_nat (length bs) <= a1 ->
  load_le n (store_bytes m a bs) a1 = load_le n m a1.
Proof.
  intros H. apply load_le_ext. intros x Hx. apply store_bytes_outside. lia.
Qed.

(** Reads through a sequence of stores. *)
Ltac mem_step :=
  first
    [ rewrite store8_same
    | rewrite store8_other by lia
    | rewrite store_le_outside by (simpl; lia)
    | rewrite store_bytes_outside by (simpl; lia)
    | rewrite load_store_same
    | rewrite load_store_disjoint by (simpl; lia)
    | rewrite load_store8_disjoint by (simpl; lia)
    | rewrite load_store_bytes_disjoint by (simpl; lia) ].

Ltac mem_simpl :=
  unfold load8, load16, load32, load64, store16, store32, store64 in *;
  repeat mem_step.

(* ====================================================================== *)
(** ** dir.c *)

Section DirFacts.
Context {D : PmfsDef}.
Variable pmfs_allocate_inode_log_pages : fs -> Z -> (Z * Z) * fs.
Variable pmfs_get_append_head :
  fs -> pmfs_inode -> Dir.pmfs_inode_info_header -> Z -> Z -> Z -> Z ->
  Z * fs * pmfs_inode * Dir.pmfs_inode_info_header.

Lemma logged_links_count_range (n c : Z) :
  0 <= Dir.logged_links_count n c < 2 ^ 16.
Proof.
  unfold Dir.logged_links_count, u16.
  destruct ((n mod 2 ^ 16 =? 0) && (c =? -1)); [lia|].
  apply Z.mod_pos_bound. lia.
Qed.

(** C10: when pmfs_append_dir_inode_entry gets a position from
    pmfs_get_append_head it returns, and the [links_count] it leaves in the
    DIR_LOG entry is 0 when the directory's link count is 0 and
    [link_change] is -1 (no wrap to 65535); in every other case it is the
    link count plus [link_change], in the 16 bits of the field, hence the
    exact sum whenever the sum fits. *)
Theorem links_count_logged_without_wrap
    (s : fs) (pidir : pmfs_inode) (dir : Dir.vfs_inode)
    (sih : Dir.pmfs_inode_info_header) (want : bool) (ino : Z) (d : Dir.dentry)
    (de_len tail link_change new_inode : Z)
    (curr_p : Z) (s1 : fs) (pi1 : pmfs_inode) (sih1 : Dir.pmfs_inode_info_header) :
  pmfs_get_append_head s pidir sih tail de_len new_inode 0
  = (curr_p, s1, pi1, sih1) ->
  curr_p <> 0 ->
  0 <= Dir.i_nlink dir < 2 ^ 16 ->
  exists a,
    Dir.pmfs_append_dir_inode_entry pmfs_get_append_head s pidir dir sih want
      ino d de_len tail link_change new_inode = Done a /\
    Dir.ap_curr_p a = curr_p /\
    let recorded := load16 (pmem (Dir.ap_fs a)) (curr_p + Hdr.de_links_count) in
    (Dir.i_nlink dir = 0 /\ link_change = -1 -> recorded = 0) /\
    (~ (Dir.i_nlink dir = 0 /\ link_change = -1) ->
     recorded = (Dir.i_nlink dir + link_change) mod 2 ^ 16) /\
    (~ (Dir.i_nlink dir = 0 /\ link_change = -1) ->
     0 <= Dir.i_nlink dir + link_change < 2 ^ 16 ->
     recorded = Dir.i_nlink dir + link_change).
Proof.
  intros Hhead Hp Hn.
  unfold Dir.pmfs_append_dir_inode_entry. rewrite Hhead.
  destruct (Z.eqb_spec curr_p 0) as [|_]; [contradiction|].
  eexists. split; [reflexivity|]. split; [reflexivity|].
  cbv zeta. simpl Dir.ap_fs. simpl pmem.
  assert (Hrec : load16
      (Dir.write_dir_logentry (pmem s1) curr_p ino d (Dir.vi_mtime dir)
         (Dir.vi_size dir) new_inode
         (Dir.logged_links_count (Dir.i_nlink dir) link_change) de_len)
      (curr_p + Hdr.de_links_count)
      = Dir.logged_links_count (Dir.i_nlink dir) link_change).
  { unfold Dir.write_dir_logentry, Hdr.de_de_len, Hdr.de_links_count.
    mem_simpl. apply Z.mod_small. apply logged_links_count_range. }
  rewrite Hrec. unfold Dir.logged_links_count.
  assert (Hu : u16 (Dir.i_nlink dir) = Dir.i_nlink dir)
    by (apply Z.mod_small; exact Hn).
  rewrite Hu.
  repeat split.
  - intros [H0 H1]. rewrite H0, H1. reflexivity.
  - intros Hne.
    destruct (Z.eqb_spec (Dir.i_nlink dir) 0);
      destruct (Z.eqb_spec link_change (-1));
      simpl; try reflexivity. exfalso. apply Hne. split; assumption.
  - intros Hne Hr.
    destruct (Z.eqb_spec (Dir.i_nlink dir) 0);
      destruct (Z.eqb_spec link_change (-1));
      simpl; try (apply Z.mod_small; exact Hr).
    exfalso. apply Hne. split; assumption.
Qed.

(** C9: on an inode whose [log_head] is nonzero
    pmfs_append_dir_init_entries returns -EINVAL and leaves the inode and
    the region as they were.  Only with [log_head == 0] does it ask for a
    first page; when it is given one, the page becomes head and tail of the
    log and holds the "." and ".." entries, and otherwise the call fails
    with -ENOMEM. *)
Theorem dir_init_entries_guarded_by_log_head (sb : super_block) (now : Z)
    (s : fs) (pi : pmfs_inode) (self_ino parent_ino : Z) :
  (log_head pi <> 0 ->
   Dir.pmfs_append_dir_init_entries pmfs_allocate_inode_log_pages sb now s pi
     self_ino parent_ino = (- EINVAL, s, pi)) /\
  (log_head pi = 0 ->
   forall allocated new_block s1,
   pmfs_allocate_inode_log_pages s 1 = ((allocated, new_block), s1) ->
   (allocated <> 1 ->
    Dir.pmfs_append_dir_init_entries pmfs_allocate_inode_log_pages sb now s pi
      self_ino parent_ino = (- ENOMEM, s1, pi)) /\
   (allocated = 1 ->
    exists s2 pi2,
      Dir.pmfs_append_dir_init_entries pmfs_allocate_inode_log_pages sb now s
        pi self_ino parent_ino = (0, s2, pi2) /\
      log_head pi2 = new_block /\
      log_tail pi2 = new_block + 64 /\
      let m := pmem s2 in
      Hdr.pmfs_get_entry_type m new_block = Hdr.DIR_LOG /\
      load8 m (new_block + Hdr.de_name_len) = 1 /\
      load_bytes 1 m (new_block + Hdr.de_name) = [46] /\
      load64 m (new_block + Hdr.de_ino) = u64 self_ino /\
      load16 m (new_block + Hdr.de_de_len) = 32 /\
      Hdr.pmfs_get_entry_type m (new_block + 32) = Hdr.DIR_LOG /\
      load8 m (new_block + 32 + Hdr.de_name_len) = 2 /\
      load_bytes 2 m (new_block + 32 + Hdr.de_name) = [46; 46] /\
      load64 m (new_block + 32 + Hdr.de_ino) = u64 parent_ino /\
      load16 m (new_block + 32 + Hdr.de_de_len) = 32)).
Proof.
  split.
  - intros H. unfold Dir.pmfs_append_dir_init_entries.
    destruct (Z.eqb_spec (log_head pi) 0); [contradiction | reflexivity].
  - intros H allocated new_block s1 Ha.
    unfold Dir.pmfs_append_dir_init_entries.
    rewrite H, Ha. simpl negb at 1. cbv iota.
    split.
    + intros Hne. destruct (Z.eqb_spec allocated 1); [contradiction | reflexivity].
    + intros ->. simpl (negb (1 =? 1)). cbv iota zeta.
      change (Hdr.PMFS_DIR_LOG_REC_LEN 1) with 32.
      change (Hdr.PMFS_DIR_LOG_REC_LEN 2) with 32.
      unfold Hdr.de_entry_type, Hdr.de_ino, Hdr.de_name_len, Hdr.de_de_len,
        Hdr.de_mtime, Hdr.de_size, Hdr.de_links_count, Hdr.de_name,
        Hdr.pmfs_get_entry_type, Hdr.DIR_LOG.
      match goal with
      | |- context [new_block + load16 ?m ?a] =>
          replace (load16 m a) with 32
            by (symmetry; simpl store_bytes; mem_simpl; reflexivity)
      end.
      eexists. eexists. split; [reflexivity|].
      split; [reflexivity|]. split; [simpl; lia|].
      simpl pmem. simpl store_bytes. simpl load_bytes. rewrite ?Z.add_0_r.
      repeat split; mem_simpl; reflexivity.
Qed.

Lemma insert_failure_changes_nothing (s : fs)
    (sih : Dir.pmfs_inode_info_header) (ino : Z) (name : list Z)
    (dir_entry ret : Z) (s' : fs) (sih' : Dir.pmfs_inode_info_header) :
  Dir.pmfs_insert_dir_node_by_name s sih ino name dir_entry
  = Done (ret, s', sih') ->
  ret <> 0 -> s' = s /\ sih' = sih.
Proof.
  unfold Dir.pmfs_insert_dir_node_by_name.
  destruct (Dir.insert_walk _ _ _) as [[t|]|]; simpl; try discriminate.
  - destruct (dirnodes s); intros H Hr; inversion H; subst; auto. contradiction.
  - intros H Hr; inversion H; subst; auto.
Qed.

(** pmfs_add_entry does not read what pmfs_insert_dir_node returns: when
    the insert that follows the append fails, pmfs_add_entry still returns
    0, hands back the tail that ends the one entry it appended, and leaves
    the region and the index as they were after that append. *)
Lemma add_entry_ignores_failed_insert (now : Z) (s : fs)
    (pidir : pmfs_inode) (dir : Dir.vfs_inode)
    (sih : Dir.pmfs_inode_info_header) (d : Dir.dentry)
    (want : bool) (ino inc_link new_inode tail : Z)
    (a : Dir.appended) (ret : Z) (s' : fs)
    (sih' : Dir.pmfs_inode_info_header) :
  Dir.d_len d <> 0 ->
  Dir.pmfs_append_dir_inode_entry pmfs_get_append_head s pidir
    (Dir.mk_vfs_inode (Dir.i_nlink dir) now now (Dir.vi_size dir)
       (Dir.vi_blocks dir))
    sih want ino d (u16 (Hdr.PMFS_DIR_LOG_REC_LEN (Dir.d_len d))) tail
    inc_link new_inode = Done a ->
  Dir.pmfs_insert_dir_node_by_name (Dir.ap_fs a) (Dir.ap_sih a) ino
    (Dir.d_name d) (Dir.ap_curr_p a) = Done (ret, s', sih') ->
  ret <> 0 ->
  exists r,
    Dir.pmfs_add_entry pmfs_get_append_head now s pidir dir sih d want ino
      inc_link new_inode tail = Done r /\
    Dir.ed_ret r = 0 /\
    Dir.ed_new_tail r = Dir.ap_curr_tail a /\
    Dir.ed_fs r = Dir.ap_fs a /\
    Dir.ed_sih r = Dir.ap_sih a /\
    Dir.ed_pidir r = Dir.ap_pidir a.
Proof.
  intros Hlen Happ Hins Hret.
  unfold Dir.pmfs_add_entry.
  destruct (Z.eqb_spec (Dir.d_len d) 0); [contradiction|].
  cbv zeta. rewrite Happ. simpl bind. rewrite Hins. simpl bind.
  destruct (insert_failure_changes_nothing _ _ _ _ _ _ _ _ Hins Hret) as [-> ->].
  eexists. split; [reflexivity|]. simpl. auto.
Qed.

End DirFacts.

(** *** The index *)

Lemma rb_all_In (P : Dir.pmfs_dir_node -> bool) (t : Dir.rb_root)
    (n : Dir.pmfs_dir_node) :
  Dir.rb_all P t = true -> In n (Dir.rb_elements t) -> P n = true.
Proof.
  induction t as [|l IHl c r IHr]; simpl; intros H Hin; [contradiction|].
  apply andb_prop in H as [H Hr]. apply andb_prop in H as [Hc Hl].
  apply in_app_or in Hin as [Hin|[->|Hin]]; auto.
Qed.

Lemma compare_mapped (c : Dir.pmfs_dir_node) (h : Z) :
  Dir.nvmm c <> 0 ->
  Dir.pmfs_rbtree_compare_find_by_name c h
  = Done (if h <? Dir.hash c then -1 else if Dir.hash c <? h then 1 else 0).
Proof.
  intros H. unfold Dir.pmfs_rbtree_compare_find_by_name.
  destruct (Z.eqb_spec (Dir.nvmm c) 0); [contradiction|].
  destruct (h <? Dir.hash c); [reflexivity|].
  destruct (Dir.hash c <? h); reflexivity.
Qed.

Lemma insert_walk_existing (t : Dir.rb_root) (h : Z)
    (new n : Dir.pmfs_dir_node) :
  Dir.rb_ordered t = true ->
  Dir.rb_mapped t = true ->
  In n (Dir.rb_elements t) ->
  Dir.hash n = h ->
  Dir.insert_walk t h new = Done None.
Proof.
  induction t as [|l IHl c r IHr]; simpl; intros Ho Hm Hin Hh; [contradiction|].
  unfold Dir.rb_mapped in *. simpl in Hm.
  apply andb_prop in Hm as [Hm Hmr]. apply andb_prop in Hm as [Hc Hml].
  apply andb_prop in Ho as [Ho Hor]. apply andb_prop in Ho as [Ho Hol].
  apply andb_prop in Ho as [Hlt Hgt].
  rewrite compare_mapped by (intros E; rewrite E in Hc; discriminate).
  simpl bind.
  apply in_app_or in Hin as [Hin|[E|Hin]].
  - pose proof (rb_all_In _ _ _ Hlt Hin) as Hn. simpl in Hn.
    apply Z.ltb_lt in Hn. rewrite Hh in Hn.
    destruct (Z.ltb_spec h (Dir.hash c)); [|lia]. simpl.
    rewrite IHl by assumption. reflexivity.
  - subst n. rewrite Hh. rewrite Z.ltb_irrefl. reflexivity.
  - pose proof (rb_all_In _ _ _ Hgt Hin) as Hn. simpl in Hn.
    apply Z.ltb_lt in Hn. rewrite Hh in Hn.
    destruct (Z.ltb_spec h (Dir.hash c)); [lia|].
    destruct (Z.ltb_spec (Dir.hash c) h); [|lia]. simpl.
    rewrite IHr by assumption. reflexivity.
Qed.

(** C5 (amended): inserting into the index a name whose hash is that of a
    node already present (so, in particular, a name that is present) fails
    with -EINVAL, and neither the tree nor the slab cache changes: no
    duplicate node is created. *)
Theorem insert_existing_name_fails_einval (s : fs)
    (sih : Dir.pmfs_inode_info_header) (ino : Z) (name : list Z)
    (dir_entry : Z) (n : Dir.pmfs_dir_node) :
  Dir.rb_ordered (Dir.dir_tree sih) = true ->
  Dir.rb_mapped (Dir.dir_tree sih) = true ->
  In n (Dir.rb_elements (Dir.dir_tree sih)) ->
  Dir.hash n = Hdr.BKDRHash name ->
  Dir.pmfs_insert_dir_node_by_name s sih ino name dir_entry
  = Done (- EINVAL, s, sih).
Proof.
  intros Ho Hm Hin Hh. unfold Dir.pmfs_insert_dir_node_by_name.
  rewrite (insert_walk_existing _ _ _ n Ho Hm Hin Hh). reflexivity.
Qed.

Lemma rb_all_forall (P : Dir.pmfs_dir_node -> bool) (t : Dir.rb_root) :
  Dir.rb_all P t = true <-> (forall x, In x (Dir.rb_elements t) -> P x = true).
Proof.
  induction t as [|l IHl c r IHr]; simpl.
  - split; [intros _ x [] | reflexivity].
  - rewrite !andb_true_iff, IHl, IHr. split.
    + intros [[Hc Hl] Hr] x Hx. apply in_app_or in Hx as [Hx|[<-|Hx]]; auto.
    + intros H. repeat split.
      * apply H. apply in_or_app. right. left. reflexivity.
      * intros x Hx. apply H. apply in_or_app. left. exact Hx.
      * intros x Hx. apply H. apply in_or_app. right. right. exact Hx.
Qed.

Lemma insert_walk_elements (t : Dir.rb_root) (h : Z) (new : Dir.pmfs_dir_node) :
  forall t',
    Dir.insert_walk t h new = Done (Some t') ->
    forall x, In x (Dir.rb_elements t') <-> x = new \/ In x (Dir.rb_elements t).
Proof.
  induction t as [|l IHl c r IHr]; intros t' H x.
  - simpl in H. inversion H; subst. simpl. intuition congruence.
  - simpl in H.
    destruct (Dir.pmfs_rbtree_compare_find_by_name c h) as [cv|];
      simpl in H; [|discriminate].
    destruct (cv =? -1).
    + destruct (Dir.insert_walk l h new) as [[l'|]|] eqn:El; simpl in H;
        try discriminate.
      inversion H; subst. simpl. rewrite !in_app_iff. simpl.
      rewrite (IHl l' eq_refl x). tauto.
    + destruct (cv =? 1); [|discriminate].
      destruct (Dir.insert_walk r h new) as [[r'|]|] eqn:Er; simpl in H;
        try discriminate.
      inversion H; subst. simpl. rewrite !in_app_iff. simpl.
      rewrite (IHr r' eq_refl x). tauto.
Qed.

Lemma insert_walk_fresh (t : Dir.rb_root) (h : Z) (new : Dir.pmfs_dir_node) :
  Dir.rb_mapped t = true ->
  (forall x, In x (Dir.rb_elements t) -> Dir.hash x <> h) ->
  exists t', Dir.insert_walk t h new = Done (Some t').
Proof.
  induction t as [|l IHl c r IHr]; intros Hm Hfresh.
  - eexists. reflexivity.
  - unfold Dir.rb_mapped in *. simpl in Hm.
    apply andb_prop in Hm as [Hm Hmr]. apply andb_prop in Hm as [Hc Hml].
    simpl Dir.insert_walk.
    unfold Dir.pmfs_rbtree_compare_find_by_name.
    apply negb_true_iff in Hc. rewrite Hc.
    assert (Hch : Dir.hash c <> h)
      by (apply Hfresh; simpl; apply in_or_app; right; left; reflexivity).
    destruct (Z.ltb_spec h (Dir.hash c)) as [Hlt|Hge].
    + simpl bind. change (-1 =? -1) with true. cbv iota.
      destruct IHl as (l' & El); [exact Hml| |].
      { intros x Hx. apply Hfresh. simpl. apply in_or_app. left. exact Hx. }
      rewrite El. simpl. eexists. reflexivity.
    + destruct (Z.ltb_spec (Dir.hash c) h) as [Hlt|Hge']; [|lia].
      simpl bind. change (1 =? -1) with false. change (1 =? 1) with true.
      cbv iota.
      destruct IHr as (r' & Er); [exact Hmr| |].
      { intros x Hx. apply Hfresh. simpl. apply in_or_app. right. right. exact Hx. }
      rewrite Er. simpl. eexists. reflexivity.
Qed.

Lemma insert_walk_ordered (t : Dir.rb_root) (h : Z) (new : Dir.pmfs_dir_node) :
  forall t',
    Dir.hash new = h ->
    Dir.rb_mapped t = true ->
    Dir.rb_ordered t = true ->
    Dir.insert_walk t h new = Done (Some t') ->
    Dir.rb_ordered t' = true.
Proof.
  induction t as [|l IHl c r IHr]; intros t' Hh Hm Ho H.
  - simpl in H. inversion H. reflexivity.
  - unfold Dir.rb_mapped in *. simpl in Hm.
    apply andb_prop in Hm as [Hm Hmr]. apply andb_prop in Hm as [Hc Hml].
    simpl in Ho.
    apply andb_prop in Ho as [Ho Hor]. apply andb_prop in Ho as [Ho Hol].
    apply andb_prop in Ho as [Hlt Hgt].
    simpl Dir.insert_walk in H.
    unfold Dir.pmfs_rbtree_compare_find_by_name in H.
    apply negb_true_iff in Hc. rewrite Hc in H.
    destruct (Z.ltb_spec h (Dir.hash c)) as [Hlt'|Hge].
    + simpl bind in H. change (-1 =? -1) with true in H. cbv iota in H.
      destruct (Dir.insert_walk l h new) as [[l'|]|] eqn:El; simpl in H;
        try discriminate.
      inversion H; subst t'. simpl.
      rewrite (IHl l' Hh Hml Hol eq_refl), Hor, Hgt.
      rewrite !andb_true_r.
      apply rb_all_forall. intros x Hx.
      apply (insert_walk_elements _ _ _ _ El) in Hx as [->|Hx].
      * apply Z.ltb_lt. lia.
      * exact (proj1 (rb_all_forall _ _) Hlt x Hx).
    + destruct (Z.ltb_spec (Dir.hash c) h) as [Hlt'|Hge'].
      2:{ simpl in H. discriminate. }
      simpl bind in H. change (1 =? -1) with false in H.
      change (1 =? 1) with true in H. cbv iota in H.
      destruct (Dir.insert_walk r h new) as [[r'|]|] eqn:Er; simpl in H;
        try discriminate.
      inversion H; subst t'. simpl.
      rewrite (IHr r' Hh Hmr Hor eq_refl), Hol, Hlt.
      rewrite !andb_true_r. simpl.
      apply rb_all_forall. intros x Hx.
      apply (insert_walk_elements _ _ _ _ Er) in Hx as [->|Hx].
      * apply Z.ltb_lt. lia.
      * exact (proj1 (rb_all_forall _ _) Hgt x Hx).
Qed.

(** X2: inserting a name whose hash no node of the index carries, with a
    node left in the slab cache, returns 0 and links one node for it: the
    index stays ordered by hash, every node still points at a log entry,
    and the nodes are the old ones and the new one. *)
Theorem insert_fresh_hash_links_node (s : fs)
    (sih : Dir.pmfs_inode_info_header) (ino : Z) (name : list Z)
    (dir_entry : Z) (k : nat) :
  Dir.rb_ordered (Dir.dir_tree sih) = true ->
  Dir.rb_mapped (Dir.dir_tree sih) = true ->
  (forall x, In x (Dir.rb_elements (Dir.dir_tree sih)) ->
             Dir.hash x <> Hdr.BKDRHash name) ->
  dirnodes s = S k ->
  dir_entry <> 0 ->
  exists t',
    Dir.pmfs_insert_dir_node_by_name s sih ino name dir_entry
    = Done (0, set_dirnodes k s, Dir.set_dir_tree t' sih) /\
    Dir.rb_ordered t' = true /\
    Dir.rb_mapped t' = true /\
    (forall x, In x (Dir.rb_elements t') <->
               x = Dir.mk_dir_node dir_entry ino (Hdr.BKDRHash name) \/
               In x (Dir.rb_elements (Dir.dir_tree sih))).
Proof.
  intros Ho Hm Hfresh Hk Hde.
  set (new := Dir.mk_dir_node dir_entry ino (Hdr.BKDRHash name)).
  destruct (insert_walk_fresh (Dir.dir_tree sih) (Hdr.BKDRHash name) new Hm Hfresh)
    as (t' & Et).
  exists t'. unfold Dir.pmfs_insert_dir_node_by_name. fold new.
  rewrite Et. simpl bind. rewrite Hk.
  split; [reflexivity|].
  split; [exact (insert_walk_ordered (Dir.dir_tree sih) (Hdr.BKDRHash name) new t' eq_refl Hm Ho Et)|].
  pose proof (insert_walk_elements _ _ _ _ Et) as Hel.
  split; [|exact Hel].
  unfold Dir.rb_mapped. apply rb_all_forall. intros x Hx.
  apply Hel in Hx as [->|Hx].
  - simpl. apply negb_true_iff. apply Z.eqb_neq. exact Hde.
  - exact (proj1 (rb_all_forall _ _) Hm x Hx).
Qed.

(* ====================================================================== *)
(** ** inode.c: the block map *)

Section BlockMapFacts.
Context {D : PmfsDef}.

Lemma height_loop_mono (fuel : nat) : forall total h,
  h <= Inode.height_loop fuel total h.
Proof.
  induction fuel as [|f IH]; intros total h; simpl; [lia|].
  destruct (0 <? total); [|lia].
  specialize (IH (Z.shiftr total META_BLK_SHIFT) (h + 1)). lia.
Qed.

Lemma height_loop_digits (k : nat) : forall (fuel : nat) total h,
  0 < META_BLK_SHIFT ->
  (k < fuel)%nat ->
  2 ^ (Z.of_nat k * META_BLK_SHIFT) <= total ->
  h + Z.of_nat k + 1 <= Inode.height_loop fuel total h.
Proof.
  induction k as [|k IH]; intros fuel total h Hm Hf Ht.
  - destruct fuel as [|f]; [lia|]. simpl Inode.height_loop.
    simpl in Ht.
    destruct (Z.ltb_spec 0 total); [|lia].
    pose proof (height_loop_mono f (Z.shiftr total META_BLK_SHIFT) (h + 1)). lia.
  - destruct fuel as [|f]; [lia|]. simpl Inode.height_loop.
    assert (Hpos : 0 < 2 ^ (Z.of_nat (S k) * META_BLK_SHIFT))
      by (apply Z.pow_pos_nonneg; lia).
    destruct (Z.ltb_spec 0 total); [|lia].
    specialize (IH f (Z.shiftr total META_BLK_SHIFT) (h + 1) Hm ltac:(lia)).
    assert (2 ^ (Z.of_nat k * META_BLK_SHIFT) <= Z.shiftr total META_BLK_SHIFT).
    { rewrite Z.shiftr_div_pow2 by lia.
      apply Z.div_le_lower_bound; [apply Z.pow_pos_nonneg; lia|].
      rewrite <- Z.pow_add_r by lia.
      replace (META_BLK_SHIFT + Z.of_nat k * META_BLK_SHIFT)
        with (Z.of_nat (S k) * META_BLK_SHIFT) by lia.
      exact Ht. }
    specialize (IH H0). lia.
Qed.

Lemma grown_height_overflow (pi : pmfs_inode) (last_blocknr : Z) :
  0 < META_BLK_SHIFT ->
  3 * META_BLK_SHIFT < 64 ->
  0 <= height pi <= 3 ->
  2 ^ (3 * META_BLK_SHIFT) <= last_blocknr ->
  Inode.grown_height pi last_blocknr = None.
Proof.
  intros Hm H64 Hh Hl.
  unfold Inode.grown_height.
  set (h := height pi) in *.
  assert (Hpow : u64 (Z.shiftl 1 (h * META_BLK_SHIFT)) = 2 ^ (h * META_BLK_SHIFT)).
  { rewrite Z.shiftl_1_l. apply Z.mod_small. split; [apply Z.pow_nonneg; lia|].
    apply Z.pow_lt_mono_r; nia. }
  rewrite Hpow.
  assert (Hle : 2 ^ (h * META_BLK_SHIFT) <= 2 ^ (3 * META_BLK_SHIFT))
    by (apply Z.pow_le_mono_r; nia).
  assert (Hp : 0 < 2 ^ (h * META_BLK_SHIFT)) by (apply Z.pow_pos_nonneg; nia).
  assert (H264 : 2 ^ (h * META_BLK_SHIFT) < 2 ^ 64)
    by (apply Z.pow_lt_mono_r; nia).
  assert (Hu : u64 (2 ^ (h * META_BLK_SHIFT) - 1) = 2 ^ (h * META_BLK_SHIFT) - 1)
    by (apply Z.mod_small; lia).
  rewrite Hu.
  destruct (Z.ltb_spec (2 ^ (h * META_BLK_SHIFT) - 1) last_blocknr); [|lia].
  assert (Hk : h + Z.of_nat (Z.to_nat (3 - h)) + 1
               <= Inode.height_loop 64
                    (Z.shiftr last_blocknr (h * META_BLK_SHIFT)) h).
  { apply height_loop_digits; [exact Hm | lia |].
    rewrite Z2Nat.id by lia.
    rewrite Z.shiftr_div_pow2 by nia.
    apply Z.div_le_lower_bound; [exact Hp|].
    rewrite <- Z.pow_add_r by nia.
    replace (h * META_BLK_SHIFT + (3 - h) * META_BLK_SHIFT)
      with (3 * META_BLK_SHIFT) by lia.
    exact Hl. }
  rewrite Z2Nat.id in Hk by lia.
  destruct (Z.ltb_spec 3 (Inode.height_loop 64
              (Z.shiftr last_blocknr (h * META_BLK_SHIFT)) h)); [reflexivity | lia].
Qed.

(** C4: a request of __pmfs_alloc_blocks or __pmfs_assign_blocks whose last
    block index, in blocks of the inode's block type, is at least
    fanout^3 = 2^(3 * META_BLK_SHIFT) needs a height above 3: both fail with
    -ENOSPC and hand back the inode (root and height included) and the
    region exactly as they received them. *)
Theorem height_ceiling_enospc (sb : super_block) (s : fs) (pi : pmfs_inode)
    (file_blocknr num zero curr_entry : Z) :
  0 < META_BLK_SHIFT ->
  3 * META_BLK_SHIFT < 64 ->
  0 <= height pi <= 3 ->
  2 ^ (3 * META_BLK_SHIFT)
    <= Z.shiftr (u64 (file_blocknr + num - 1))
         (blk_type_to_shift (i_blk_type pi) - s_blocksize_bits sb) ->
  Inode.__pmfs_alloc_blocks sb s pi file_blocknr num zero = (- ENOSPC, (s, pi)) /\
  Inode.__pmfs_assign_blocks sb s pi file_blocknr num curr_entry
    = Done (- ENOSPC, (s, pi)).
Proof.
  intros Hm H64 Hh Hl.
  unfold Inode.__pmfs_alloc_blocks, Inode.__pmfs_assign_blocks.
  rewrite (grown_height_overflow pi _ Hm H64 Hh Hl). split; reflexivity.
Qed.

End BlockMapFacts.

(* ====================================================================== *)
(** ** inode.c: the truncate list *)

Section TruncateFacts.
Import Inode Persist.

Lemma pm_loc_eqb_eq (a b : pm_loc) : pm_loc_eqb a b = true <-> a = b.
Proof.
  destruct a, b; simpl; split; intros H; try discriminate; try reflexivity;
    try (apply Z.eqb_eq in H; congruence);
    try (inversion H; apply Z.eqb_refl).
Qed.

Lemma commit_frame (ino : Z) (p : list (pm_loc * Z * bool)) :
  forall d l,
    (forall l1 v f, In (l1, v, f) p -> touches ino l1 = true) ->
    touches ino l = false ->
    fold_left pm_commit p d l = d l.
Proof.
  induction p as [|[[l1 v] f] p IH]; intros d l Hp Hl; simpl; [reflexivity|].
  rewrite IH; [| intros; eapply Hp; right; eassumption | assumption].
  destruct f; [|reflexivity].
  destruct (pm_loc_eqb l l1) eqn:E; [|reflexivity].
  apply pm_loc_eqb_eq in E. subst l1.
  rewrite (Hp l v true (or_introl eq_refl)) in Hl. discriminate.
Qed.

Lemma run_frame (ino : Z) (es : list pm_event) :
  forall m,
    (forall l v, In (Store l v) es -> touches ino l = true) ->
    (forall l v f, In (l, v, f) (pending m) -> touches ino l = true) ->
    (forall l, touches ino l = false -> durable (pm_run m es) l = durable m l) /\
    (forall l v f, In (l, v, f) (pending (pm_run m es)) -> touches ino l = true).
Proof.
  induction es as [|e es IH]; intros m Hes Hm; simpl; [split; auto|].
  assert (Hstep : (forall l, touches ino l = false ->
                     durable (pm_step m e) l = durable m l) /\
                  (forall l v f, In (l, v, f) (pending (pm_step m e)) ->
                     touches ino l = true)).
  { destruct e as [l0 v0|l0| |]; simpl.
    - split; [reflexivity|]. intros l v f Hin.
      apply in_app_or in Hin as [Hin|[E|[]]]; [eauto|].
      inversion E; subst. apply (Hes l v). left. reflexivity.
    - split; [reflexivity|]. intros l v f Hin.
      apply in_map_iff in Hin as ([[l1 v1] f1] & E & Hin). simpl in E.
      inversion E; subst. eauto.
    - split; auto.
    - split.
      + intros l Hl. apply (commit_frame ino); assumption.
      + intros l v f Hin. apply filter_In in Hin as [Hin _]. eauto. }
  destruct Hstep as [Hd Hp].
  destruct (IH (pm_step m e)) as [Hd' Hp'];
    [intros; eapply Hes; right; eassumption | assumption |].
  split; [|assumption].
  intros l Hl. rewrite Hd' by assumption. apply Hd. assumption.
Qed.

Lemma truncate_list_frame (fuel : nat) : forall (img img' : pm_loc -> Z) start L,
  truncate_list fuel img start = Some L ->
  (forall j, In j (map fst L) ->
     img' (ItemNext j) = img (ItemNext j) /\ img' (ItemSize j) = img (ItemSize j)) ->
  truncate_list fuel img' start = Some L.
Proof.
  induction fuel as [|k IH]; intros img img' start L H Hf; simpl in *; [discriminate|].
  destruct (start =? 0); [assumption|].
  destruct (truncate_list k img (img (ItemNext start))) as [L1|] eqn:E;
    simpl in H; [|discriminate].
  inversion H; subst L. 
  destruct (Hf start (or_introl eq_refl)) as [Hn Hs].
  rewrite Hn, Hs. rewrite (IH img img' _ L1 E); [reflexivity|].
  intros j Hj. apply Hf. right. exact Hj.
Qed.

Lemma truncate_list_fuel (fuel : nat) : forall (img : pm_loc -> Z) start L,
  truncate_list fuel img start = Some L ->
  truncate_list (S fuel) img start = Some L.
Proof.
  induction fuel as [|k IH]; intros img start L H; [discriminate|].
  simpl in H. change (truncate_list (S (S k)) img start) with
    (if start =? 0 then Some []
     else option_map (cons (start, img (ItemSize start)))
            (truncate_list (S k) img (img (ItemNext start)))).
  destruct (start =? 0); [assumption|].
  destruct (truncate_list k img (img (ItemNext start))) as [L1|] eqn:E;
    simpl in H; [|discriminate].
  rewrite (IH _ _ _ E). exact H.
Qed.

Lemma truncate_add_emits (t : truncate_state) (i_ino size : Z) (tx : bool) :
  on_truncate_list t i_ino = false ->
  ts_events (pmfs_truncate_add t i_ino size tx)
  = ts_events t ++ truncate_add_events (ts_word t HeadNext) i_ino size tx.
Proof.
  intros H. unfold pmfs_truncate_add. rewrite H.
  unfold truncate_add_events. destruct tx; simpl; repeat rewrite <- app_assoc; reflexivity.
Qed.

Lemma prefix_firstn {A : Type} (l pre post : list A) :
  l = pre ++ post -> pre = firstn (length pre) l.
Proof. intros ->. rewrite firstn_app, Nat.sub_diag, firstn_all. simpl. now rewrite app_nil_r. Qed.


Ltac loc_cases H l Hx :=
  pose proof (H l) as Hx; cbn in Hx;
  repeat (rewrite Z.eqb_refl in Hx; cbn in Hx);
  let v := fresh "v" in let f := fresh "f" in let Hin := fresh "Hin" in
  destruct Hx as [Hx | (v & f & Hin & Hx)];
  [ | cbn in Hin;
      repeat (destruct Hin as [Hin|Hin]; [ inversion Hin; subst; clear Hin | ]);
      try contradiction ].

Ltac crash_solve H ino :=
  let Hn := fresh "Hn" in let Hs := fresh "Hs" in let Hh := fresh "Hh" in
  loc_cases H (ItemNext ino) Hn; loc_cases H (ItemSize ino) Hs;
  loc_cases H HeadNext Hh;
  first [ left; exact Hh
        | right; repeat split; first [assumption | reflexivity | congruence] ].

Lemma crash_head_or_item (w : pm_loc -> Z) (ino size : Z) (tx : bool) (k : nat)
    (img : pm_loc -> Z) :
  crash_image (pm_run (mk_pm w [])
                 (firstn k (truncate_add_events (w HeadNext) ino size tx))) img ->
  img HeadNext = w HeadNext \/
  (img HeadNext = ino /\ img (ItemNext ino) = w HeadNext /\
   img (ItemSize ino) = u64 size).
Proof.
  intros H. unfold truncate_add_events in H.
  do 7 (destruct k as [|k]; [ loc_cases H HeadNext Hh; left; exact Hh | ]).
  destruct tx; cbn [app] in H.
  - do 1 (destruct k as [|k]; [ crash_solve H ino | ]).
    cbn [firstn] in H; rewrite ?firstn_nil in H. crash_solve H ino.
  - do 3 (destruct k as [|k]; [ crash_solve H ino | ]).
    cbn [firstn] in H; rewrite ?firstn_nil in H. crash_solve H ino.
Qed.

Lemma head_store_after_item_durable (w : pm_loc -> Z) (ino size : Z) (tx : bool)
    (pre post : list pm_event) (v : Z) :
  truncate_add_events (w HeadNext) ino size tx = pre ++ Store HeadNext v :: post ->
  let m := pm_run (mk_pm w []) pre in
  v = ino /\
  durable m (ItemNext ino) = w HeadNext /\
  durable m (ItemSize ino) = u64 size /\
  pending m = [].
Proof.
  intros E. unfold truncate_add_events in E.
  do 6 (destruct pre as [|? pre]; [discriminate E | injection E as <- E]).
  destruct pre as [|? pre].
  - injection E as <- _. cbn. repeat (rewrite Z.eqb_refl; cbn). auto.
  - exfalso. injection E as _ E.
    destruct tx; cbn [app] in E;
      repeat (destruct pre as [|? pre]; [discriminate E | injection E as _ E]);
      destruct pre; discriminate E.
Qed.

Lemma truncate_add_words (t : truncate_state) (i_ino size : Z) (tx : bool) :
  on_truncate_list t i_ino = false ->
  ts_word (pmfs_truncate_add t i_ino size tx)
  = (fun x => if pm_loc_eqb x HeadNext then i_ino
              else if pm_loc_eqb x (ItemSize i_ino) then u64 size
              else if pm_loc_eqb x (ItemNext i_ino) then ts_word t HeadNext
              else ts_word t x).
Proof.
  intros H. unfold pmfs_truncate_add. rewrite H. destruct tx; reflexivity.
Qed.

Lemma truncate_add_dram (t : truncate_state) (i_ino size : Z) (tx : bool) :
  on_truncate_list t i_ino = false ->
  s_truncate (pmfs_truncate_add t i_ino size tx) = i_ino :: s_truncate t.
Proof.
  intros H. unfold pmfs_truncate_add. rewrite H. destruct tx; reflexivity.
Qed.

(** C8: pmfs_truncate_add on an inode that is not on the truncate list
    issues exactly these events, in this order: the store of the item's
    [next] (the head's current next) and of its [size] (truncate_size),
    the flushes of both, a persist mark and a barrier, then the store of
    the inode number into the head and its flush, and, outside a
    transaction, a second mark and barrier.  Afterwards the inode is first
    on the DRAM list, the head names it, its item holds the old head and
    the size, no word of another inode has changed and the list read from
    the head is the old list with the new item in front.  When the first
    barrier has passed, both words of the item are durable, the head is
    still the old one and nothing is pending; outside a transaction the
    head is durable too when the function returns.  At the store into the
    head both words of the item are durable.  Whatever prefix of the
    events a crash cuts, and whichever pending stores reached the medium,
    the list read back from the head is the old list or the old list with
    the new item in front. *)
Theorem truncate_add_persists_item_before_head (t : truncate_state) (i_ino truncate_size : Z)
    (in_transaction : bool) (fuel : nat) (L : list (Z * Z)) :
  on_truncate_list t i_ino = false ->
  i_ino <> 0 ->
  truncate_list fuel (ts_word t) (ts_word t HeadNext) = Some L ->
  ~ In i_ino (map fst L) ->
  let t' := pmfs_truncate_add t i_ino truncate_size in_transaction in
  let item := [Store (ItemNext i_ino) (ts_word t HeadNext);
               Store (ItemSize i_ino) (u64 truncate_size);
               Flush (ItemNext i_ino); Flush (ItemSize i_ino);
               Mark; Barrier] in
  let evs := item ++ [Store HeadNext i_ino; Flush HeadNext]
             ++ (if in_transaction then [] else [Mark; Barrier]) in
  ts_events t' = ts_events t ++ evs /\
  s_truncate t' = i_ino :: s_truncate t /\
  ts_word t' HeadNext = i_ino /\
  ts_word t' (ItemNext i_ino) = ts_word t HeadNext /\
  ts_word t' (ItemSize i_ino) = u64 truncate_size /\
  (forall l, touches i_ino l = false -> ts_word t' l = ts_word t l) /\
  truncate_list (S fuel) (ts_word t') (ts_word t' HeadNext)
  = Some ((i_ino, u64 truncate_size) :: L) /\
  (let m := pm_run (mk_pm (ts_word t) []) item in
   durable m (ItemNext i_ino) = ts_word t HeadNext /\
   durable m (ItemSize i_ino) = u64 truncate_size /\
   durable m HeadNext = ts_word t HeadNext /\
   pending m = []) /\
  (in_transaction = false ->
   let m := pm_run (mk_pm (ts_word t) []) evs in
   durable m HeadNext = i_ino /\ pending m = []) /\
  (forall pre post v,
     evs = pre ++ Store HeadNext v :: post ->
     let m := pm_run (mk_pm (ts_word t) []) pre in
     v = i_ino /\
     durable m (ItemNext i_ino) = ts_word t HeadNext /\
     durable m (ItemSize i_ino) = u64 truncate_size /\
     pending m = []) /\
  (forall pre post img,
     evs = pre ++ post ->
     crash_image (pm_run (mk_pm (ts_word t) []) pre) img ->
     truncate_list (S fuel) img (img HeadNext) = Some L \/
     truncate_list (S fuel) img (img HeadNext)
     = Some ((i_ino, u64 truncate_size) :: L)).
Proof.
  intros Hoff Hino HL Hnin t' item evs.
  assert (Hevs : evs = truncate_add_events (ts_word t HeadNext) i_ino
                         truncate_size in_transaction) by reflexivity.
  assert (Hw : ts_word t' = _) by (apply truncate_add_words; exact Hoff).
  assert (Hhead : ts_word t' HeadNext = i_ino) by (rewrite Hw; reflexivity).
  assert (Hnext : ts_word t' (ItemNext i_ino) = ts_word t HeadNext).
  { rewrite Hw. cbn. rewrite Z.eqb_refl. reflexivity. }
  assert (Hsize : ts_word t' (ItemSize i_ino) = u64 truncate_size).
  { rewrite Hw. cbn. rewrite Z.eqb_refl. reflexivity. }
  assert (Hother : forall l, touches i_ino l = false -> ts_word t' l = ts_word t l).
  { intros l Hl. rewrite Hw.
    destruct l as [|j|j]; cbn in Hl |- *; [discriminate Hl| |];
      rewrite Hl; reflexivity. }
  split; [rewrite Hevs; apply truncate_add_emits; exact Hoff|].
  split; [apply truncate_add_dram; exact Hoff|].
  split; [exact Hhead|]. split; [exact Hnext|]. split; [exact Hsize|].
  split; [exact Hother|].
  split.
  { rewrite Hhead.
    change (truncate_list (S fuel) (ts_word t') i_ino) with
      (if i_ino =? 0 then Some []
       else option_map (cons (i_ino, ts_word t' (ItemSize i_ino)))
              (truncate_list fuel (ts_word t') (ts_word t' (ItemNext i_ino)))).
    destruct (Z.eqb_spec i_ino 0); [contradiction|].
    rewrite Hnext, Hsize.
    rewrite (truncate_list_frame fuel (ts_word t) (ts_word t') _ L HL);
      [reflexivity|].
    intros j Hj.
    assert (Hji : (j =? i_ino) = false)
      by (apply Z.eqb_neq; intros ->; contradiction).
    split; apply Hother; exact Hji. }
  split.
  { unfold item. cbn. repeat (rewrite Z.eqb_refl; cbn). auto. }
  split.
  { intros ->. unfold evs, item. cbn. repeat (rewrite Z.eqb_refl; cbn). auto. }
  rewrite Hevs. clear Hevs Hw Hhead Hnext Hsize Hother. clear t' item evs.
  split; [intros pre post v E; apply (head_store_after_item_durable _ _ _ _ _ _ _ E)|].
  intros pre post img E Hc.
  set (w := ts_word t) in *.
  (* words of other inodes are never touched *)
  assert (Hframe : forall j, j <> i_ino ->
            img (ItemNext j) = w (ItemNext j) /\ img (ItemSize j) = w (ItemSize j)).
  { intros j Hj.
    destruct (run_frame i_ino pre (mk_pm w [])) as [Hd Hp].
    - intros l v Hin.
      assert (Hin' : In (Store l v)
                (truncate_add_events (w HeadNext) i_ino truncate_size in_transaction))
        by (rewrite E; apply in_or_app; left; exact Hin).
      unfold truncate_add_events in Hin'. apply in_app_or in Hin'.
      destruct Hin' as [Hin'|Hin'].
      + simpl in Hin'.
        repeat (destruct Hin' as [Hin'|Hin']; [inversion Hin'; subst; simpl;
                 try apply Z.eqb_refl; reflexivity|]).
        contradiction.
      + destruct in_transaction; simpl in Hin';
          repeat (destruct Hin' as [Hin'|Hin']; [discriminate|]); contradiction.
    - simpl. intros l v f [].
    - assert (Ht : forall l, (l = ItemNext j \/ l = ItemSize j) -> img l = w l).
      { intros l Hl.
        assert (Hno : touches i_ino l = false)
          by (destruct Hl as [-> | ->]; simpl; apply Z.eqb_neq; exact Hj).
        destruct (Hc l) as [Himg|(v & f & Hin & _)].
        - rewrite Himg. apply Hd. exact Hno.
        - rewrite (Hp l v f Hin) in Hno. discriminate. }
      split; apply Ht; auto. }
  rewrite (prefix_firstn _ _ _ E) in Hc.
  apply crash_head_or_item in Hc.
  destruct Hc as [Hh | (Hh & Hn & Hs)].
  - left. rewrite Hh. apply truncate_list_fuel.
    apply (truncate_list_frame fuel w img _ L HL).
    intros j Hj. apply Hframe. intros ->. contradiction.
  - right. rewrite Hh.
    change (truncate_list (S fuel) img i_ino) with
      (if i_ino =? 0 then Some []
       else option_map (cons (i_ino, img (ItemSize i_ino)))
              (truncate_list fuel img (img (ItemNext i_ino)))).
    destruct (Z.eqb_spec i_ino 0); [contradiction|].
    rewrite Hn, Hs.
    rewrite (truncate_list_frame fuel w img _ L HL); [reflexivity|].
    intros j Hj. apply Hframe. intros ->. contradiction.
Qed.

End TruncateFacts.

(* ====================================================================== *)
(** ** inode.c: the inode table *)

Section InodeTableFacts.
Context {D : PmfsDef}.















End InodeTableFacts.

(* ====================================================================== *)
(** ** inode.c: the inode log *)

Lemma get_block_off_small (b : Z) :
  0 <= b -> b * 4096 < 2 ^ 64 -> pmfs_get_block_off b = b * 4096.
Proof.
  intros H0 H1. unfold pmfs_get_block_off, PAGE_SHIFT, u64.
  rewrite Z.shiftl_mul_pow2 by lia. change (2 ^ 12) with 4096.
  apply Z.mod_small. lia.
Qed.

Lemma link_pages_outside (k : nat) : forall (m : mem) (cp nb x : Z),
  (forall j, 0 <= j < Z.of_nat k ->
     x < cp + j * 4096 + 4088 \/ cp + j * 4096 + 4096 <= x) ->
  Inode.link_pages k m cp nb x = m x.
Proof.
  induction k as [|k IH]; intros m cp nb x H; simpl; [reflexivity|].
  rewrite IH.
  - unfold store64. apply store_le_outside.
    specialize (H 0 ltac:(lia)). unfold Inode.page_next_off, Hdr.LAST_ENTRY, Hdr.off_next_page. simpl. lia.
  - intros j Hj. specialize (H (j + 1) ltac:(lia)). unfold PAGE_SIZE. lia.
Qed.

Lemma link_pages_field (k : nat) : forall (m : mem) (cp nb j : Z),
  0 <= j < Z.of_nat k ->
  load64 (Inode.link_pages k m cp nb) (cp + j * 4096 + 4088)
  = pmfs_get_block_off (nb + j).
Proof.
  induction k as [|k IH]; intros m cp nb j Hj; [lia|].
  simpl Inode.link_pages.
  destruct (Z.eq_dec j 0) as [->|Hne].
  - unfold load64. erewrite load_le_ext.
    2:{ intros x Hx. apply link_pages_outside. intros i Hi. unfold PAGE_SIZE. simpl in Hx. lia. }
    replace (cp + 0 * 4096 + 4088) with (cp + Inode.page_next_off)
      by (unfold Inode.page_next_off, Hdr.LAST_ENTRY, Hdr.off_next_page; lia).
    unfold store64. rewrite load_store_same. rewrite Z.add_0_r.
    unfold pmfs_get_block_off, u64. simpl (8 * Z.of_nat 8).
    apply Z.mod_small. apply Z.mod_pos_bound. lia.
  - replace (cp + j * 4096 + 4088) with (cp + PAGE_SIZE + (j - 1) * 4096 + 4088)
      by (unfold PAGE_SIZE; lia).
    rewrite IH by lia. f_equal. lia.
Qed.

Lemma batch_pages_S (new_block : Z) (n : nat) :
  Inode.batch_pages new_block (S n) = new_block :: Inode.batch_pages (new_block + 4096) n.
Proof.
  unfold Inode.batch_pages. change (seq 0 (S n)) with (0%nat :: seq 1 n).
  rewrite map_cons. f_equal; [simpl; lia|].
  rewrite <- seq_shift, map_map. apply map_ext. intros i.
  rewrite Nat2Z.inj_succ. lia.
Qed.

Lemma log_chain_batch (n : nat) : forall (m : mem) (p : Z),
  0 < p ->
  (forall j, 0 <= j < Z.of_nat n - 1 ->
     load64 m (p + j * 4096 + 4088) = p + (j + 1) * 4096) ->
  (0 < Z.of_nat n -> load64 m (p + (Z.of_nat n - 1) * 4096 + 4088) = 0) ->
  Inode.log_chain (S n) m (if (0 <? Z.of_nat n) then p else 0)
  = Some (Inode.batch_pages p n).
Proof.
  induction n as [|n IH]; intros m p Hp Hl Hz; [reflexivity|].
  rewrite batch_pages_S.
  change (0 <? Z.of_nat (S n)) with true. cbv iota.
  change (Inode.log_chain (S (S n)) m p) with
    (if p =? 0 then Some []
     else option_map (cons p)
            (Inode.log_chain (S n) m (load64 m (p + Inode.page_next_off)))).
  destruct (Z.eqb_spec p 0); [lia|].
  replace (p + Inode.page_next_off) with (p + 0 * 4096 + 4088)
    by (unfold Inode.page_next_off, Hdr.LAST_ENTRY, Hdr.off_next_page; lia).
  destruct n as [|n'].
  - pose proof (Hz ltac:(lia)) as Hz'. change (Z.of_nat 1 - 1) with 0 in Hz'.
    rewrite Hz'. reflexivity.
  - rewrite Hl by lia.
    specialize (IH m (p + (0 + 1) * 4096) ltac:(lia)).
    change (0 <? Z.of_nat (S n')) with true in IH. cbv iota in IH.
    rewrite IH; [reflexivity| |].
    + intros j Hj. replace (p + (0 + 1) * 4096 + j * 4096 + 4088)
        with (p + (j + 1) * 4096 + 4088) by lia.
      rewrite Hl by lia. lia.
    + intros _. replace (p + (0 + 1) * 4096 + (Z.of_nat (S n') - 1) * 4096 + 4088)
        with (p + (Z.of_nat (S (S n')) - 1) * 4096 + 4088) by lia.
      apply Hz. lia.
Qed.

Lemma allocate_links_batch (s : fs) (n b : Z) (rest : list (option Z)) :
  balloc s = Some b :: rest ->
  1 <= n ->
  0 < b -> (b + n) * 4096 < 2 ^ 64 ->
  exists s1,
    Inode.pmfs_allocate_inode_log_pages s n = ((0, b * 4096), s1) /\
    balloc s1 = rest /\ freed s1 = freed s /\
    Inode.log_chain (S (Z.to_nat n)) (pmem s1) (b * 4096)
    = Some (Inode.batch_pages (b * 4096) (Z.to_nat n)) /\
    (forall x, x < b * 4096 \/ (b + n) * 4096 <= x -> pmem s1 x = pmem s x).
Proof.
  intros Hb Hn Hb0 Hb1.
  unfold Inode.pmfs_allocate_inode_log_pages, pmfs_new_data_blocks.
  rewrite Hb. simpl negb. cbv iota.
  change (1 =? 0) with false. cbv iota.
  rewrite (get_block_off_small b) by lia.
  eexists. split; [reflexivity|]. split; [reflexivity|]. split; [reflexivity|].
  simpl pmem.
  assert (Hu : u64 (n - 1) = n - 1) by (apply Z.mod_small; lia).
  rewrite Hu.
  set (m0 := mem_zero (pmem s) (b * 4096) (n * blk_type_to_size PMFS_BLOCK_TYPE_4K)).
  split.
  - pose proof (log_chain_batch (Z.to_nat n)
                  (Inode.link_pages (Z.to_nat (n - 1)) m0 (b * 4096) (b + 1))
                  (b * 4096) ltac:(lia)) as Hc.
    rewrite Z2Nat.id in Hc by lia.
    destruct (Z.ltb_spec 0 n); [|lia].
    apply Hc.
    + intros j Hj. rewrite link_pages_field by lia.
      rewrite get_block_off_small by nia. lia.
    + intros _. unfold load64. erewrite load_le_ext.
      2:{ intros x Hx. apply link_pages_outside. intros i Hi. simpl in Hx. lia. }
      apply (load_le_ext 8 _ mem_empty). intros x Hx. unfold m0, mem_zero, mem_empty.
      change (blk_type_to_size PMFS_BLOCK_TYPE_4K) with 4096.
      simpl in Hx.
      destruct (Z.leb_spec (b * 4096) x); destruct (Z.ltb_spec x (b * 4096 + n * 4096));
        simpl; try reflexivity; lia.
  - intros x Hx. rewrite link_pages_outside by (intros; lia).
    unfold m0, mem_zero. change (blk_type_to_size PMFS_BLOCK_TYPE_4K) with 4096.
    destruct (Z.leb_spec (b * 4096) x); destruct (Z.ltb_spec x (b * 4096 + n * 4096));
      simpl; try reflexivity; lia.
Qed.

Lemma aligned_apart (p q : Z) :
  Inode.page_aligned p = true -> Inode.page_aligned q = true -> p <> q ->
  p + 4096 <= q \/ q + 4096 <= p.
Proof.
  unfold Inode.page_aligned, PAGE_SIZE. intros Hp Hq Hne.
  apply Z.eqb_eq in Hp, Hq.
  change (4096 - 1) with (Z.ones 12) in *.
  rewrite Z.land_ones in Hp, Hq by lia.
  change (2 ^ 12) with 4096 in *.
  pose proof (Z.div_mod p 4096 ltac:(lia)).
  pose proof (Z.div_mod q 4096 ltac:(lia)). lia.
Qed.

Lemma log_chain_frame (k : nat) : forall (m m' : mem) (c : Z) (l : list Z),
  Inode.log_chain k m c = Some l ->
  (forall q, In q l ->
     load64 m' (q + Inode.page_next_off) = load64 m (q + Inode.page_next_off)) ->
  Inode.log_chain k m' c = Some l.
Proof.
  induction k as [|k IH]; intros m m' c l H Hf; simpl in *; [discriminate|].
  destruct (c =? 0); [assumption|].
  destruct (Inode.log_chain k m _) as [l1|] eqn:E; simpl in H; [|discriminate].
  inversion H; subst l.
  rewrite (Hf c (or_introl eq_refl)).
  rewrite (IH m m' _ l1 E); [reflexivity|].
  intros q Hq. apply Hf. right. exact Hq.
Qed.

Lemma existsb_eqb_In (x : Z) (l : list Z) :
  existsb (Z.eqb x) l = false -> ~ In x l.
Proof.
  induction l as [|y l IH]; simpl; intros H Hin; [assumption|].
  apply orb_false_elim in H as [Hy Hl].
  destruct Hin as [->|Hin]; [rewrite Z.eqb_refl in Hy; discriminate|].
  exact (IH Hl Hin).
Qed.

Lemma free_curr_page_mem (s : fs) (pi : pmfs_inode) (cp lp ch x : Z) :
  x < lp + Inode.page_next_off \/ lp + Inode.page_next_off + 8 <= x ->
  pmem (Inode.free_curr_page s pi cp lp ch) x = pmem s x.
Proof.
  intros H. unfold Inode.free_curr_page, pmfs_free_data_block. simpl.
  unfold store64. apply store_le_outside. simpl. lia.
Qed.

Lemma gc_loop_terminates (pi : pmfs_inode) (suffix : list Z) :
  forall (s : fs) (v : Inode.gc_vars),
    suffix <> [] ->
    Inode.log_chain (S (length suffix)) (pmem s) (Inode.gc_curr v) = Some suffix ->
    forallb Inode.page_aligned suffix = true ->
    Inode.distinct suffix = true ->
    Inode.page_aligned (Inode.gc_last_page v) = true ->
    ~ In (Inode.gc_last_page v) suffix ->
    exists r, Inode.gc_loop (length suffix) s pi v = Some r.
Proof.
  induction suffix as [|p rest IH]; intros s v Hne Hchain Hal Hd Hlp Hnin;
    [contradiction|].
  simpl length. simpl Inode.gc_loop.
  change (Inode.log_chain (S (length (p :: rest))) (pmem s) (Inode.gc_curr v))
    with (if Inode.gc_curr v =? 0 then Some []
          else option_map (cons (Inode.gc_curr v))
                 (Inode.log_chain (S (length rest)) (pmem s)
                    (load64 (pmem s) (Inode.gc_curr v + Inode.page_next_off))))
    in Hchain.
  destruct (Z.eqb_spec (Inode.gc_curr v) 0) as [|Hc0]; [discriminate|].
  destruct (Inode.log_chain (S (length rest)) (pmem s) _) as [l1|] eqn:Erest;
    simpl in Hchain; [|discriminate].
  inversion Hchain as [[Hcur Hl1]]. subst l1. clear Hchain.
  simpl in Hal. apply andb_prop in Hal as [Hap Har].
  simpl in Hd. apply andb_prop in Hd as [Hpn Hdr].
  apply negb_true_iff in Hpn. apply existsb_eqb_In in Hpn.
  unfold Inode.gc_step. rewrite Hcur. rewrite Hcur in Erest.
  destruct (_ =? _); [eexists; reflexivity|].
  set (next := load64 (pmem s) (p + Inode.page_next_off)) in *.
  destruct (Inode.curr_page_invalid (pmem s) p) eqn:Einv.
  - destruct (p =? log_head pi) eqn:Ehead.
    + destruct (Z.eqb_spec next 0); [eexists; reflexivity|].
      destruct rest as [|q rest'].
      { simpl in Erest. destruct (Z.eqb_spec next 0); [contradiction | discriminate]. }
      apply IH; simpl; try assumption; try discriminate.
    + destruct (Z.eqb_spec next 0); [eexists; reflexivity|].
      destruct rest as [|q rest'].
      { simpl in Erest. destruct (Z.eqb_spec next 0); [contradiction | discriminate]. }
      apply IH; try assumption; try discriminate.
      * simpl Inode.gc_curr.
        apply (log_chain_frame _ (pmem s)); [exact Erest|].
        intros q0 Hq0. unfold load64. apply load_le_ext. intros x Hx.
        apply free_curr_page_mem.
        assert (Hq0a : Inode.page_aligned q0 = true)
          by (rewrite forallb_forall in Har; apply Har; exact Hq0).
        assert (Hq0n : q0 <> Inode.gc_last_page v)
          by (intros ->; apply Hnin; right; exact Hq0).
        destruct (aligned_apart _ _ Hq0a Hlp Hq0n);
          unfold Inode.page_next_off, Hdr.LAST_ENTRY, Hdr.off_next_page in *;
          simpl in Hx; lia.
      * simpl. intros Hin. apply Hnin. right. exact Hin.
  - destruct (Z.eqb_spec next 0); [eexists; reflexivity|].
    destruct rest as [|q rest'].
    { simpl in Erest. destruct (Z.eqb_spec next 0); [contradiction | discriminate]. }
    apply IH; simpl; try assumption; try discriminate.
Qed.

Lemma log_chain_nonzero (k : nat) : forall (m : mem) (c : Z) (l : list Z),
  Inode.log_chain k m c = Some l -> ~ In 0 l.
Proof.
  induction k as [|k IH]; intros m c l H; simpl in H; [discriminate|].
  destruct (Z.eqb_spec c 0).
  - inversion H. intros [].
  - destruct (Inode.log_chain k m _) as [l1|] eqn:E; simpl in H; [|discriminate].
    inversion H; subst. intros [E0|Hin]; [congruence|]. exact (IH _ _ _ E Hin).
Qed.

Lemma existsb_eqb_true (x : Z) (l : list Z) :
  existsb (Z.eqb x) l = true -> In x l.
Proof.
  intros H. apply existsb_exists in H as (y & Hy & E).
  apply Z.eqb_eq in E. subst. exact Hy.
Qed.

(** C7: an append to a non-empty log whose tail stands at the last entry
    position of a page with next_page == 0 asks the allocator for
    min(log_pages, 256) pages; given them it links them into one chain that
    starts at the first new page and ends with a zero next_page, then runs
    garbage collection while the old tail page's next_page is still 0, and
    only at the end of the collection is the new chain hooked behind the old
    tail page, log_tail moved to the first new page and log_pages raised by
    the batch.  The entry is written at the first new page. *)
Theorem append_allocates_links_then_collects (s : fs) (pi : pmfs_inode)
    (blocknr start_blk num_blocks b : Z) (rest : list (option Z))
    (pages : list Z) :
  log_tail pi <> 0 ->
  Inode.is_last_entry (log_tail pi) = true ->
  Inode.next_log_page (pmem s) (log_tail pi) = 0 ->
  1 <= log_pages pi ->
  balloc s = Some b :: rest ->
  0 < b ->
  (b + Z.min (log_pages pi) 256) * 4096 < 2 ^ 64 ->
  log_head pi <> 0 ->
  Inode.log_chain (S (length pages)) (pmem s) (log_head pi) = Some pages ->
  forallb Inode.page_aligned pages = true ->
  Inode.distinct pages = true ->
  existsb (Z.eqb (log_tail pi - Hdr.LAST_ENTRY)) pages = true ->
  forallb (fun p => (p + 4096 <=? b * 4096)
                    || ((b + Z.min (log_pages pi) 256) * 4096 <=? p)) pages = true ->
  let n := Z.min (log_pages pi) 256 in
  let new_block := b * 4096 in
  exists s1 s2 pi2,
    Inode.pmfs_allocate_inode_log_pages s n = ((0, new_block), s1) /\
    Inode.log_chain (S (Z.to_nat n)) (pmem s1) new_block
    = Some (Inode.batch_pages new_block (Z.to_nat n)) /\
    Inode.log_chain (S (length pages)) (pmem s1) (log_head pi) = Some pages /\
    Inode.next_log_page (pmem s1) (log_tail pi) = 0 /\
    Inode.pmfs_inode_log_garbage_collection (length pages) s1 pi new_block n
    = Some (s2, pi2) /\
    log_tail pi2 = new_block /\
    log_pages pi2 = log_pages pi + n /\
    Inode.next_log_page (pmem s2) (log_tail pi) = new_block /\
    Inode.pmfs_append_inode_entry (length pages) s pi blocknr start_blk num_blocks
    = Some (new_block,
            set_pmem (Inode.write_inode_entry (pmem s2) new_block start_blk
                        num_blocks (pmfs_get_block_off blocknr)) s2,
            pi2).
Proof.
  intros Ht Hlast Hnext Hlp Hb Hb0 Hb1 Hh Hchain Hal Hd Htail Hdisj n new_block.
  assert (Hn : 1 <= n <= 256) by (unfold n; lia).
  destruct (allocate_links_batch s n b rest Hb ltac:(lia) Hb0 Hb1)
    as (s1 & Halloc & Hrest & Hfreed & Hbatch & Hout).
  assert (Hpage : forall p x, In p pages -> p <= x < p + 4096 -> pmem s1 x = pmem s x).
  { intros p x Hp Hx. apply Hout.
    rewrite forallb_forall in Hdisj. specialize (Hdisj p Hp).
    apply orb_prop in Hdisj as [H|H]; [apply Z.leb_le in H | apply Z.leb_le in H];
      fold n in H; lia. }
  assert (Hchain1 : Inode.log_chain (S (length pages)) (pmem s1) (log_head pi) = Some pages).
  { apply (log_chain_frame _ (pmem s)); [exact Hchain|].
    intros q Hq. unfold load64. apply load_le_ext. intros x Hx.
    apply (Hpage q); [exact Hq|].
    unfold Inode.page_next_off, Hdr.LAST_ENTRY, Hdr.off_next_page in Hx. simpl in Hx. lia. }
  assert (Hnext1 : Inode.next_log_page (pmem s1) (log_tail pi) = 0).
  { rewrite <- Hnext. unfold Inode.next_log_page, load64. apply load_le_ext.
    intros x Hx. apply (Hpage (log_tail pi - Hdr.LAST_ENTRY));
      [apply existsb_eqb_true; exact Htail|].
    unfold Hdr.LAST_ENTRY, Hdr.off_next_page in *. simpl in Hx. lia. }
  assert (Hpne : pages <> []).
  { intros ->. simpl in Hchain. destruct (Z.eqb_spec (log_head pi) 0);
      [contradiction | discriminate]. }
  destruct (gc_loop_terminates pi pages s1
              (Inode.mk_gc_vars (log_head pi) 0 false 0 false))
    as [[s1' v] Hloop]; try assumption; try reflexivity.
  { simpl. apply (log_chain_nonzero _ _ _ _ Hchain). }
  assert (Hgc : exists s2 pi2,
            Inode.pmfs_inode_log_garbage_collection (length pages) s1 pi new_block n
            = Some (s2, pi2) /\
            log_tail pi2 = new_block /\
            log_pages pi2 = log_pages pi + n /\
            Inode.next_log_page (pmem s2) (log_tail pi) = new_block).
  { unfold Inode.pmfs_inode_log_garbage_collection. rewrite Hloop.
    eexists. eexists. split; [reflexivity|]. split; [reflexivity|].
    split; [reflexivity|].
    unfold Inode.next_log_page.
    assert (Hu : new_block mod 2 ^ (8 * Z.of_nat 8) = new_block)
      by (apply Z.mod_small; unfold new_block; simpl; lia).
    destruct (Inode.gc_first_need_free v); simpl pmem;
      unfold load64, store64; rewrite load_store_same; exact Hu. }
  destruct Hgc as (s2 & pi2 & Hgc & Hpt & Hpp & Hpn).
  exists s1, s2, pi2.
  repeat (split; [assumption|]).
  unfold Inode.pmfs_append_inode_entry.
  destruct (Z.eqb_spec (log_tail pi) 0); [contradiction|].
  rewrite Hlast, Hnext, Z.eqb_refl. simpl orb. cbv iota.
  assert (Hmin : (if 256 <=? log_pages pi then 256 else log_pages pi) = n)
    by (unfold n; destruct (Z.leb_spec 256 (log_pages pi)); lia).
  rewrite Hmin, Halloc. simpl negb. cbv iota. fold new_block. rewrite Hgc.
  assert (Hnl : Inode.is_last_entry new_block = false).
  { unfold Inode.is_last_entry, Hdr.ENTRY_LOC, Hdr.INVALID_MASK, new_block.
    change 4095 with (Z.ones 12). rewrite Z.land_ones by lia.
    change (2 ^ 12) with 4096. rewrite Z.mod_mul by lia. reflexivity. }
  rewrite Hnl. reflexivity.
Qed.

Lemma gc_guard_false (curr tail : Z) :
  Inode.page_aligned curr = true ->
  Inode.is_last_entry tail = true ->
  0 <= curr < 2 ^ 52 -> 0 <= tail < 2 ^ 52 ->
  (u64 (Z.shiftl curr PAGE_SHIFT) =? u64 (Z.shiftl tail PAGE_SHIFT)) = false.
Proof.
  unfold Inode.page_aligned, Inode.is_last_entry, Hdr.ENTRY_LOC,
    Hdr.INVALID_MASK, Hdr.LAST_ENTRY, PAGE_SIZE, PAGE_SHIFT, u64.
  intros Ha Hl Hc Ht.
  apply Z.eqb_eq in Ha, Hl.
  change (4096 - 1) with (Z.ones 12) in Ha.
  change 4095 with (Z.ones 12) in Hl.
  rewrite Z.land_ones in Ha, Hl by lia.
  rewrite !Z.shiftl_mul_pow2 by lia.
  change (2 ^ 12) with 4096 in *.
  change (2 ^ 52) with 4503599627370496 in *.
  change (2 ^ 64) with 18446744073709551616.
  rewrite !Z.mod_small by lia.
  apply Z.eqb_neq. intros E.
  assert (curr = tail) by lia. subst. lia.
Qed.

(** X1: when the loop of pmfs_inode_log_garbage_collection stands on the
    page that holds [log_tail], the tail is at the last entry position, the
    page is not the head and all its entries are invalid, the guard on the
    tail page does not hold and the iteration frees the page: its block is
    handed to the allocator and the previous page's next_page takes over
    the page's next_page. *)
Theorem gc_step_frees_invalid_tail_page (s : fs) (pi : pmfs_inode)
    (v : Inode.gc_vars) :
  Inode.is_last_entry (log_tail pi) = true ->
  Inode.gc_curr v = log_tail pi - Hdr.LAST_ENTRY ->
  0 <= Inode.gc_curr v ->
  log_tail pi < 2 ^ 52 ->
  Inode.curr_page_invalid (pmem s) (Inode.gc_curr v) = true ->
  Inode.gc_curr v <> log_head pi ->
  let s1 := fst (match Inode.gc_step s pi v with inl r | inr r => r end) in
  freed s1
  = freed s ++ [(pmfs_get_blocknr (Inode.gc_curr v), i_blk_type pi)] /\
  pmem s1
  = store64 (pmem s) (Inode.gc_last_page v + Inode.page_next_off)
      (load64 (pmem s) (Inode.gc_curr v + Inode.page_next_off)).
Proof.
  intros Hl Hc H0 Ht Hinv Hne.
  assert (Ha : Inode.page_aligned (Inode.gc_curr v) = true).
  { unfold Inode.page_aligned, PAGE_SIZE. rewrite Hc.
    unfold Inode.is_last_entry, Hdr.ENTRY_LOC, Hdr.INVALID_MASK,
      Hdr.LAST_ENTRY in *.
    apply Z.eqb_eq in Hl. apply Z.eqb_eq.
    change (4096 - 1) with (Z.ones 12). change 4095 with (Z.ones 12) in Hl.
    rewrite Z.land_ones in * by lia. change (2 ^ 12) with 4096 in *.
    pose proof (Z.div_mod (log_tail pi) 4096 ltac:(lia)) as Hd.
    replace (log_tail pi - 4064) with (0 + (log_tail pi / 4096) * 4096) by lia.
    rewrite Z.mod_add by lia. reflexivity. }
  assert (Hg := gc_guard_false (Inode.gc_curr v) (log_tail pi) Ha Hl).
  unfold Hdr.LAST_ENTRY in Hc.
  specialize (Hg ltac:(lia) ltac:(lia)).
  cbv zeta. unfold Inode.gc_step. rewrite Hg, Hinv.
  destruct (Z.eqb_spec (Inode.gc_curr v) (log_head pi)); [contradiction|].
  destruct (_ =? 0); simpl; split; reflexivity.
Qed.

(* ====================================================================== *)
(** ** Runs *)

(** C1: on the freshly initialized directory [dir0], link("abcd") to inode 5
    followed by unlink("abcd") both succeed and leave an online index with
    "." and ".." only, while the index rebuilt from the log still maps
    "abcd" to inode 5.  The name of a log entry is not NUL-terminated when
    its length is a multiple of 4, and the replay hashes it as a C string:
    the add entry is followed by the type and name length of the remove
    entry, so the replayed node carries the hash of six bytes and the
    replayed removal, which hashes the four bytes of the last entry, does
    not find it. *)
Theorem replay_resurrects_removed_name :
  let ops := [Log.Add name_abcd 5; Log.Remove name_abcd] in
  run_succeeds ops = true /\
  logged_entries (run_ops ops)
  = [([46], 2); ([46; 46], 1); (name_abcd, 5); (name_abcd, 0)] /\
  online_mappings (run_ops ops) = [([46], 2); ([46; 46], 1)] /\
  replayed_mappings (run_ops ops)
  = Some [([46], 2); ([46; 46], 1); (name_abcd, 5)] /\
  Hdr.BKDRHash name_abcd <> Hdr.BKDRHash (name_abcd ++ [2; 4]).
Proof.
  cbv zeta.
  split; [vm_compute; reflexivity|].
  split; [vm_compute; reflexivity|].
  split; [vm_compute; reflexivity|].
  split; [vm_compute; reflexivity|].
  vm_compute. discriminate.
Qed.

(** C2: on the two-page log of [gc_fs] and [gc_pi] the tail stands at the
    last entry position of the page at 0x2000, whose entries are all dead.
    The collection pass run by the append of the next entry compares
    [curr << PAGE_SHIFT] with [log_tail << PAGE_SHIFT], which never holds
    for a page address and a tail at offset 4064: the tail page is unlinked
    from the chain and block 2, the tail page, goes back to the allocator.
    Afterwards only the old head page is reachable from [log_head]; neither
    the old tail page nor the new tail is. *)
Theorem gc_recycles_tail_page :
  Inode.log_chain 8 (pmem gc_fs) (log_head gc_pi) = Some [4096; 8192] /\
  Hdr.PAGE_TAIL (log_tail gc_pi) = 8192 + Hdr.LAST_ENTRY /\
  pmfs_get_blocknr 8192 = 2 /\
  collected (Inode.pmfs_inode_log_garbage_collection 2 gc_fs gc_pi 20480 2)
  = Some ([(2, 0)], 4096, 20480, Some [4096]) /\
  appended_log (Inode.pmfs_append_inode_entry 2 gc_fs gc_pi 9 1 1)
  = Some (20480, ([(2, 0)], 4096, 20480, Some [4096])).
Proof.
  split; [vm_compute; reflexivity|].
  split; [vm_compute; reflexivity|].
  split; [vm_compute; reflexivity|].
  split; vm_compute; reflexivity.
Qed.

(** C3: on the freshly initialized directory [dir0], link("a") to inode 5,
    a second link("a") to inode 6 and link("b") to inode 7 all return 0.
    The second link appends its DIR_LOG entry at 4192 and its insert into
    the index fails with -EINVAL; pmfs_add_entry does not read that result
    and writes no compensating entry: the log holds ("a", 5), ("a", 6),
    ("b", 7) and no entry with ino = 0, and the online index maps "a" to 5
    and "b" to 7.  The replay of this log fails at ("a", 6) with the same
    -EINVAL, leaves its loop there and still returns 0: the rebuilt index
    lacks "b", which the replay of the log without the failed link has. *)
Theorem failed_insert_is_not_rolled_back :
  let ops := [Log.Add name_a 5; Log.Add name_a 6; Log.Add name_b 7] in
  Dir.ap_curr_p appended_a6 = 4192 /\
  insert_ret
    (Dir.pmfs_insert_dir_node_by_name (Dir.ap_fs appended_a6)
       (Dir.ap_sih appended_a6) 6 name_a (Dir.ap_curr_p appended_a6))
  = Some (- EINVAL) /\
  run_succeeds ops = true /\
  logged_entries (run_ops ops)
  = [([46], 2); ([46; 46], 1); (name_a, 5); (name_a, 6); (name_b, 7)] /\
  ~ In (name_a, 0) (logged_entries (run_ops ops)) /\
  online_mappings (run_ops ops)
  = [([46], 2); (name_a, 5); (name_b, 7); ([46; 46], 1)] /\
  replayed_ret (run_ops ops) = Some 0 /\
  replayed_mappings (run_ops ops)
  = Some [([46], 2); (name_a, 5); ([46; 46], 1)] /\
  replayed_mappings (run_ops [Log.Add name_a 5; Log.Add name_b 7])
  = Some [([46], 2); (name_a, 5); (name_b, 7); ([46; 46], 1)].
Proof.
  cbv zeta.
  split; [vm_compute; reflexivity|].
  split; [vm_compute; reflexivity|].
  split; [vm_compute; reflexivity|].
  split; [vm_compute; reflexivity|].
  split.
  { vm_compute. intros H.
    repeat (destruct H as [H|H]; [discriminate H|]). exact H. }
  split; [vm_compute; reflexivity|].
  split; [vm_compute; reflexivity|].
  split; vm_compute; reflexivity.
Qed.

(** C5, counterexample: inserting "a" into the index of [dir_a], where "a"
    is present, returns -EINVAL, which is not -EEXIST. *)
Lemma insert_duplicate_is_einval_not_eexist :
  In (name_a, 5) (online_mappings dir_a) /\
  insert_ret
    (Dir.pmfs_insert_dir_node_by_name (Log.dir_fs dir_a) (Log.dir_sih dir_a)
       6 name_a 4192)
  = Some (- EINVAL) /\
  - EINVAL <> - EEXIST.
Proof.
  split; [|split].
  - vm_compute. right. left. reflexivity.
  - vm_compute. reflexivity.
  - vm_compute. discriminate.
Qed.

(* ====================================================================== *)
(** ** Instances *)

(** The second link("a") on [dir_a]: the insert fails, the add returns 0. *)
Lemma add_entry_ignores_failed_insert_on_dir_a :
  exists r,
    Dir.pmfs_add_entry (D := pmfs_def_x86)
      (Log.pmfs_get_append_head (D := pmfs_def_x86)) 8
      (Log.dir_fs dir_a) (Log.dir_pi dir_a) (Log.dir_inode dir_a)
      (Log.dir_sih dir_a) dentry_a false 6 0 0 (log_tail (Log.dir_pi dir_a))
    = Done r /\
    Dir.ed_ret r = 0 /\
    Dir.ed_new_tail r = Dir.ap_curr_tail appended_a6 /\
    Dir.ed_fs r = Dir.ap_fs appended_a6 /\
    Dir.ed_sih r = Dir.ap_sih appended_a6 /\
    Dir.ed_pidir r = Dir.ap_pidir appended_a6.
Proof.
  apply (add_entry_ignores_failed_insert (D := pmfs_def_x86)
           (Log.pmfs_get_append_head (D := pmfs_def_x86)) 8
           (Log.dir_fs dir_a) (Log.dir_pi dir_a) (Log.dir_inode dir_a)
           (Log.dir_sih dir_a) dentry_a false 6 0 0
           (log_tail (Log.dir_pi dir_a)) appended_a6 (- EINVAL)
           (Dir.ap_fs appended_a6) (Dir.ap_sih appended_a6)).
  - vm_compute. discriminate.
  - vm_compute. reflexivity.
  - vm_compute. reflexivity.
  - vm_compute. discriminate.
Defined.

(** Block index 2^27 = 512^3 on an empty file of 4 KiB blocks. *)
Lemma height_ceiling_enospc_witness :
  Inode.__pmfs_alloc_blocks (D := pmfs_def_x86) sb_4k fs_boot zero_inode
    (2 ^ 27) 1 0 = (- ENOSPC, (fs_boot, zero_inode)) /\
  Inode.__pmfs_assign_blocks (D := pmfs_def_x86) sb_4k fs_boot zero_inode
    (2 ^ 27) 1 0 = Done (- ENOSPC, (fs_boot, zero_inode)).
Proof.
  apply (height_ceiling_enospc (D := pmfs_def_x86) sb_4k fs_boot zero_inode
           (2 ^ 27) 1 0 0).
  - vm_compute. reflexivity.
  - vm_compute. reflexivity.
  - vm_compute. split; discriminate.
  - vm_compute. discriminate.
Defined.

(** "a" is in the index of [dir_a], at the entry logged at 4160. *)
Lemma insert_existing_name_fails_einval_witness :
  Dir.pmfs_insert_dir_node_by_name (Log.dir_fs dir_a) (Log.dir_sih dir_a) 6
    name_a 4192
  = Done (- EINVAL, Log.dir_fs dir_a, Log.dir_sih dir_a).
Proof.
  apply (insert_existing_name_fails_einval (Log.dir_fs dir_a)
           (Log.dir_sih dir_a) 6 name_a 4192 (Dir.mk_dir_node 4160 5 97)).
  - vm_compute. reflexivity.
  - vm_compute. reflexivity.
  - vm_compute. right. left. reflexivity.
  - vm_compute. reflexivity.
Defined.


(** The append on the two-page log of [gc_fs]: a batch of min(2, 256) = 2
    pages at block 5. *)
Lemma append_allocates_links_then_collects_witness :
  exists s1 s2 pi2,
    Inode.pmfs_allocate_inode_log_pages gc_fs 2 = ((0, 20480), s1) /\
    Inode.log_chain 3 (pmem s1) 20480 = Some [20480; 24576] /\
    Inode.next_log_page (pmem s1) (log_tail gc_pi) = 0 /\
    Inode.pmfs_inode_log_garbage_collection 2 s1 gc_pi 20480 2
    = Some (s2, pi2) /\
    log_tail pi2 = 20480 /\
    log_pages pi2 = 4 /\
    Inode.next_log_page (pmem s2) (log_tail gc_pi) = 20480.
Proof.
  destruct (append_allocates_links_then_collects gc_fs gc_pi 9 1 1 5 []
              [4096; 8192])
    as (s1 & s2 & pi2 & Ha & Hb & _ & Hn & Hg & Ht & Hp & Hx & _).
  - vm_compute. discriminate.
  - vm_compute. reflexivity.
  - vm_compute. reflexivity.
  - vm_compute. discriminate.
  - vm_compute. reflexivity.
  - vm_compute. reflexivity.
  - vm_compute. reflexivity.
  - vm_compute. discriminate.
  - vm_compute. reflexivity.
  - vm_compute. reflexivity.
  - vm_compute. reflexivity.
  - vm_compute. reflexivity.
  - vm_compute. reflexivity.
  - exists s1, s2, pi2.
    split; [exact Ha|]. split; [exact Hb|]. split; [exact Hn|].
    split; [exact Hg|]. split; [exact Ht|]. split; [exact Hp|]. exact Hx.
Defined.

(** Inode 7 joins the list [3] outside a transaction: the ten events, the
    lists afterwards, and every crash image reads [3] or [7; 3]. *)
Lemma truncate_add_persists_item_before_head_witness :
  let t' := Inode.pmfs_truncate_add truncate0 7 50 false in
  let evs := [Inode.Store (Inode.ItemNext 7) 3; Inode.Store (Inode.ItemSize 7) 50;
              Inode.Flush (Inode.ItemNext 7); Inode.Flush (Inode.ItemSize 7);
              Inode.Mark; Inode.Barrier;
              Inode.Store Inode.HeadNext 7; Inode.Flush Inode.HeadNext;
              Inode.Mark; Inode.Barrier] in
  Inode.ts_events t' = evs /\
  Inode.s_truncate t' = [7; 3] /\
  Persist.truncate_list 3 (Inode.ts_word t') (Inode.ts_word t' Inode.HeadNext)
  = Some [(7, 50); (3, 100)] /\
  Persist.durable (Persist.pm_run (Persist.mk_pm truncate_words []) evs)
    Inode.HeadNext = 7 /\
  (forall pre post img,
     evs = pre ++ post ->
     Persist.crash_image
       (Persist.pm_run (Persist.mk_pm truncate_words []) pre) img ->
     Persist.truncate_list 3 img (img Inode.HeadNext) = Some [(3, 100)] \/
     Persist.truncate_list 3 img (img Inode.HeadNext)
     = Some [(7, 50); (3, 100)]).
Proof.
  destruct (truncate_add_persists_item_before_head truncate0 7 50 false 2
              [(3, 100)])
    as (He & Hs & _ & _ & _ & _ & Hl & _ & Hd & _ & Hc).
  - vm_compute. reflexivity.
  - vm_compute. discriminate.
  - vm_compute. reflexivity.
  - vm_compute. intros [H | H]; [discriminate H | exact H].
  - split; [exact He|]. split; [exact Hs|]. split; [exact Hl|].
    split; [exact (proj1 (Hd eq_refl)) | exact Hc].
Defined.

(** unlink on a directory whose link count is already 0. *)
Lemma links_count_logged_without_wrap_witness :
  exists a,
    Dir.pmfs_append_dir_inode_entry (D := pmfs_def_x86)
      (Log.pmfs_get_append_head (D := pmfs_def_x86))
      (Log.dir_fs dir0) (Log.dir_pi dir0) (Dir.mk_vfs_inode 0 7 7 0 0)
      (Log.dir_sih dir0) false 0 dentry_a 32 0 (-1) 0 = Done a /\
    load16 (pmem (Dir.ap_fs a)) (4160 + Hdr.de_links_count) = 0.
Proof.
  destruct (links_count_logged_without_wrap (D := pmfs_def_x86)
              (Log.pmfs_get_append_head (D := pmfs_def_x86))
              (Log.dir_fs dir0) (Log.dir_pi dir0) (Dir.mk_vfs_inode 0 7 7 0 0)
              (Log.dir_sih dir0) false 0 dentry_a 32 0 (-1) 0
              4160 (Log.dir_fs dir0) (Log.dir_pi dir0) (Log.dir_sih dir0))
    as (a & Ha & _ & Hz & _).
  - vm_compute. reflexivity.
  - vm_compute. discriminate.
  - vm_compute. split; [discriminate | reflexivity].
  - exists a. split; [exact Ha|]. apply Hz. split; reflexivity.
Defined.

(** A collection step that stands on the dead tail page of [gc_fs]. *)
Lemma gc_step_frees_invalid_tail_page_witness :
  let v := Inode.mk_gc_vars 8192 4096 true 4096 false in
  let s1 := fst (match Inode.gc_step gc_fs gc_pi v with inl r | inr r => r end) in
  freed s1 = freed gc_fs ++ [(pmfs_get_blocknr 8192, i_blk_type gc_pi)] /\
  pmem s1
  = store64 (pmem gc_fs) (4096 + Inode.page_next_off)
      (load64 (pmem gc_fs) (8192 + Inode.page_next_off)).
Proof.
  apply (gc_step_frees_invalid_tail_page gc_fs gc_pi
           (Inode.mk_gc_vars 8192 4096 true 4096 false)).
  - vm_compute. reflexivity.
  - vm_compute. reflexivity.
  - vm_compute. discriminate.
  - vm_compute. reflexivity.
  - vm_compute. reflexivity.
  - vm_compute. discriminate.
Defined.

(** The first link("a") on [dir0]. *)
Lemma insert_fresh_hash_links_node_witness :
  exists t',
    Dir.pmfs_insert_dir_node_by_name (Log.dir_fs dir0) (Log.dir_sih dir0) 5
      name_a 4160
    = Done (0, set_dirnodes 13 (Log.dir_fs dir0),
            Dir.set_dir_tree t' (Log.dir_sih dir0)) /\
    In (Dir.mk_dir_node 4160 5 97) (Dir.rb_elements t').
Proof.
  destruct (insert_fresh_hash_links_node (Log.dir_fs dir0) (Log.dir_sih dir0)
              5 name_a 4160 13) as (t' & Hi & _ & _ & Hel).
  - vm_compute. reflexivity.
  - vm_compute. reflexivity.
  - vm_compute. intros x [<- | [<- | []]]; discriminate.
  - vm_compute. reflexivity.
  - discriminate.
  - exists t'. split; [exact Hi|]. apply Hel. left. vm_compute. reflexivity.
Defined.

(* ====================================================================== *)
(** ** dir.c: lookups and removals in the index *)

Lemma rb_mapped_node (l r : Dir.rb_root) (c : Dir.pmfs_dir_node) :
  Dir.rb_mapped (Dir.rb_node l c r) = true ->
  Dir.nvmm c <> 0 /\ Dir.rb_mapped l = true /\ Dir.rb_mapped r = true.
Proof.
  unfold Dir.rb_mapped. simpl. intros H.
  apply andb_prop in H as [H Hr]. apply andb_prop in H as [Hc Hl].
  apply negb_true_iff in Hc. apply Z.eqb_neq in Hc. auto.
Qed.

Lemma rb_ordered_node (l r : Dir.rb_root) (c : Dir.pmfs_dir_node) :
  Dir.rb_ordered (Dir.rb_node l c r) = true ->
  (forall x, In x (Dir.rb_elements l) -> Dir.hash x < Dir.hash c) /\
  (forall x, In x (Dir.rb_elements r) -> Dir.hash c < Dir.hash x) /\
  Dir.rb_ordered l = true /\ Dir.rb_ordered r = true.
Proof.
  simpl. intros H.
  apply andb_prop in H as [H Hor]. apply andb_prop in H as [H Hol].
  apply andb_prop in H as [Hlt Hgt].
  repeat split; try assumption.
  - intros x Hx. apply Z.ltb_lt. exact (proj1 (rb_all_forall _ _) Hlt x Hx).
  - intros x Hx. apply Z.ltb_lt. exact (proj1 (rb_all_forall _ _) Hgt x Hx).
Qed.

Lemma rb_ordered_build (l r : Dir.rb_root) (c : Dir.pmfs_dir_node) :
  (forall x, In x (Dir.rb_elements l) -> Dir.hash x < Dir.hash c) ->
  (forall x, In x (Dir.rb_elements r) -> Dir.hash c < Dir.hash x) ->
  Dir.rb_ordered l = true -> Dir.rb_ordered r = true ->
  Dir.rb_ordered (Dir.rb_node l c r) = true.
Proof.
  intros Hl Hr Hol Hor. simpl. rewrite Hol, Hor, !andb_true_r.
  apply andb_true_intro. split; apply rb_all_forall; intros x Hx;
    apply Z.ltb_lt; auto.
Qed.

Lemma find_walk_spec (t : Dir.rb_root) (h : Z) :
  Dir.rb_ordered t = true ->
  Dir.rb_mapped t = true ->
  exists o,
    Dir.find_walk t h = Done o /\
    match o with
    | Some n => In n (Dir.rb_elements t) /\ Dir.hash n = h
    | None => forall x, In x (Dir.rb_elements t) -> Dir.hash x <> h
    end.
Proof.
  induction t as [|l IHl c r IHr]; intros Ho Hm.
  - exists None. split; [reflexivity|]. intros x [].
  - apply rb_mapped_node in Hm as (Hc & Hml & Hmr).
    apply rb_ordered_node in Ho as (Hlt & Hgt & Hol & Hor).
    simpl Dir.find_walk. rewrite compare_mapped by exact Hc. simpl bind.
    destruct (Z.ltb_spec h (Dir.hash c)) as [H1|H1].
    + change (-1 =? -1) with true. cbv iota.
      destruct (IHl Hol Hml) as (o & Eo & Ho').
      exists o. split; [exact Eo|].
      destruct o as [n|].
      * destruct Ho' as [Hin Hh]. split; [|exact Hh].
        simpl. apply in_or_app. left. exact Hin.
      * intros x Hx. simpl in Hx. apply in_app_or in Hx as [Hx|[<-|Hx]].
        -- apply Ho'. exact Hx.
        -- lia.
        -- specialize (Hgt x Hx). lia.
    + destruct (Z.ltb_spec (Dir.hash c) h) as [H2|H2].
      * change (1 =? -1) with false. change (1 =? 1) with true. cbv iota.
        destruct (IHr Hor Hmr) as (o & Eo & Ho').
        exists o. split; [exact Eo|].
        destruct o as [n|].
        -- destruct Ho' as [Hin Hh]. split; [|exact Hh].
           simpl. apply in_or_app. right. right. exact Hin.
        -- intros x Hx. simpl in Hx. apply in_app_or in Hx as [Hx|[<-|Hx]].
           ++ specialize (Hlt x Hx). lia.
           ++ lia.
           ++ apply Ho'. exact Hx.
      * change (0 =? -1) with false. change (0 =? 1) with false. cbv iota.
        exists (Some c). split; [reflexivity|]. split; [|lia].
        simpl. apply in_or_app. right. left. reflexivity.
Qed.

(** In an ordered index a hash names at most one node. *)
Lemma ordered_hash_unique (t : Dir.rb_root) (x y : Dir.pmfs_dir_node) :
  Dir.rb_ordered t = true ->
  In x (Dir.rb_elements t) -> In y (Dir.rb_elements t) ->
  Dir.hash x = Dir.hash y -> x = y.
Proof.
  induction t as [|l IHl c r IHr]; intros Ho Hx Hy E; [contradiction|].
  apply rb_ordered_node in Ho as (Hlt & Hgt & Hol & Hor).
  simpl in Hx, Hy.
  apply in_app_or in Hx as [Hx|[Hx|Hx]];
    apply in_app_or in Hy as [Hy|[Hy|Hy]]; subst;
    try (apply IHl; assumption); try (apply IHr; assumption);
    try reflexivity;
    repeat match goal with
    | H : In ?z (Dir.rb_elements l) |- _ => apply Hlt in H
    | H : In ?z (Dir.rb_elements r) |- _ => apply Hgt in H
    end; lia.
Qed.

Lemma find_walk_present (t : Dir.rb_root) (n : Dir.pmfs_dir_node) :
  Dir.rb_ordered t = true ->
  Dir.rb_mapped t = true ->
  In n (Dir.rb_elements t) ->
  Dir.find_walk t (Dir.hash n) = Done (Some n).
Proof.
  intros Ho Hm Hin.
  destruct (find_walk_spec t (Dir.hash n) Ho Hm) as (o & Eo & Hspec).
  rewrite Eo. destruct o as [n'|].
  - destruct Hspec as [Hin' Hh'].
    rewrite (ordered_hash_unique _ n' n Ho Hin' Hin Hh'). reflexivity.
  - exfalso. exact (Hspec n Hin eq_refl).
Qed.

Lemma find_walk_absent (t : Dir.rb_root) (h : Z) :
  Dir.rb_ordered t = true ->
  Dir.rb_mapped t = true ->
  (forall n, In n (Dir.rb_elements t) -> Dir.hash n <> h) ->
  Dir.find_walk t h = Done None.
Proof.
  intros Ho Hm Hnone.
  destruct (find_walk_spec t h Ho Hm) as (o & Eo & Hspec).
  rewrite Eo. destruct o as [n'|]; [|reflexivity].
  destruct Hspec as [Hin' Hh']. exfalso. exact (Hnone n' Hin' Hh').
Qed.

(** X3: pmfs_find_dir_node_by_name on an index that is ordered by hash and
    whose nodes all point at a log entry returns the one node that carries
    the hash of the name when there is one, whatever name its log entry
    holds, and NULL when no node carries that hash; it never hits BUG. *)
Theorem find_dir_node_by_hash (sih : Dir.pmfs_inode_info_header)
    (name : list Z) :
  Dir.rb_ordered (Dir.dir_tree sih) = true ->
  Dir.rb_mapped (Dir.dir_tree sih) = true ->
  (forall n,
     In n (Dir.rb_elements (Dir.dir_tree sih)) ->
     Dir.hash n = Hdr.BKDRHash name ->
     Dir.pmfs_find_dir_node_by_name sih name = Done (Some n)) /\
  ((forall n, In n (Dir.rb_elements (Dir.dir_tree sih)) ->
              Dir.hash n <> Hdr.BKDRHash name) ->
   Dir.pmfs_find_dir_node_by_name sih name = Done None).
Proof.
  intros Ho Hm. unfold Dir.pmfs_find_dir_node_by_name. split.
  - intros n Hin Hh. rewrite <- Hh. apply find_walk_present; assumption.
  - intros Hnone. apply find_walk_absent; assumption.
Qed.

(** "a" is found in the index of [dir_a]; "abcd" is not. *)
Lemma find_dir_node_by_hash_witness :
  Dir.pmfs_find_dir_node_by_name (Log.dir_sih dir_a) name_a
  = Done (Some (Dir.mk_dir_node 4160 5 97)) /\
  Dir.pmfs_find_dir_node_by_name (Log.dir_sih dir_a) name_abcd = Done None.
Proof.
  destruct (find_dir_node_by_hash (Log.dir_sih dir_a) name_a) as [Hp _];
    [vm_compute; reflexivity | vm_compute; reflexivity |].
  destruct (find_dir_node_by_hash (Log.dir_sih dir_a) name_abcd) as [_ Ha];
    [vm_compute; reflexivity | vm_compute; reflexivity |].
  split.
  - apply Hp.
    + vm_compute. right. left. reflexivity.
    + vm_compute. reflexivity.
  - apply Ha. vm_compute.
    intros n [<- | [<- | [<- | []]]]; discriminate.
Defined.

Lemma rb_first_split_spec (t : Dir.rb_root) :
  match Dir.rb_first_split t with
  | None => t = Dir.RB_ROOT
  | Some (m, t') => Dir.rb_elements t = m :: Dir.rb_elements t'
  end.
Proof.
  induction t as [|l IHl c r IHr]; simpl; [reflexivity|].
  destruct (Dir.rb_first_split l) as [[m l']|].
  - simpl. rewrite IHl. reflexivity.
  - subst l. reflexivity.
Qed.

Lemma rb_first_split_ordered (t : Dir.rb_root) (m : Dir.pmfs_dir_node)
    (t' : Dir.rb_root) :
  Dir.rb_first_split t = Some (m, t') ->
  Dir.rb_ordered t = true ->
  Dir.rb_ordered t' = true /\
  (forall x, In x (Dir.rb_elements t') -> Dir.hash m < Dir.hash x).
Proof.
  revert m t'. induction t as [|l IHl c r IHr]; intros m t' H Ho;
    [discriminate|].
  apply rb_ordered_node in Ho as (Hlt & Hgt & Hol & Hor).
  simpl in H.
  destruct (Dir.rb_first_split l) as [[m1 l1]|] eqn:El.
  - inversion H; subst m1 t'. clear H.
    destruct (IHl m l1 eq_refl Hol) as [Hol1 Hm].
    pose proof (rb_first_split_spec l) as Hs. rewrite El in Hs.
    assert (Hml : Dir.hash m < Dir.hash c)
      by (apply Hlt; rewrite Hs; left; reflexivity).
    split.
    + apply rb_ordered_build; try assumption.
      intros x Hx. apply Hlt. rewrite Hs. right. exact Hx.
    + intros x Hx. simpl in Hx. apply in_app_or in Hx as [Hx|[<-|Hx]].
      * apply Hm. exact Hx.
      * exact Hml.
      * specialize (Hgt x Hx). lia.
  - inversion H; subst. split; assumption.
Qed.

Lemma rb_erase_root_elements (l r : Dir.rb_root) :
  Dir.rb_elements (Dir.rb_erase_root l r)
  = Dir.rb_elements l ++ Dir.rb_elements r.
Proof.
  unfold Dir.rb_erase_root. destruct l as [|ll lc lr].
  - reflexivity.
  - pose proof (rb_first_split_spec r) as Hs.
    destruct (Dir.rb_first_split r) as [[m r']|].
    + simpl. rewrite Hs. reflexivity.
    + subst r. simpl. rewrite app_nil_r. reflexivity.
Qed.

Lemma rb_erase_root_ordered (l r : Dir.rb_root) (c : Dir.pmfs_dir_node) :
  Dir.rb_ordered (Dir.rb_node l c r) = true ->
  Dir.rb_ordered (Dir.rb_erase_root l r) = true.
Proof.
  intros Ho. apply rb_ordered_node in Ho as (Hlt & Hgt & Hol & Hor).
  unfold Dir.rb_erase_root. destruct l as [|ll lc lr]; [exact Hor|].
  pose proof (rb_first_split_spec r) as Hs.
  destruct (Dir.rb_first_split r) as [[m r']|] eqn:Er; [|exact Hol].
  destruct (rb_first_split_ordered r m r' Er Hor) as [Hor' Hm].
  assert (Hcm : Dir.hash c < Dir.hash m)
    by (apply Hgt; rewrite Hs; left; reflexivity).
  apply rb_ordered_build; try assumption.
  intros x Hx. specialize (Hlt x Hx). lia.
Qed.

Lemma filter_other_hash_id (h : Z) (l : list Dir.pmfs_dir_node) :
  (forall x, In x l -> Dir.hash x <> h) -> filter (other_hash h) l = l.
Proof.
  induction l as [|a l IH]; intros H; simpl; [reflexivity|].
  unfold other_hash at 1.
  destruct (Z.eqb_spec (Dir.hash a) h) as [E|_].
  - exfalso. exact (H a (or_introl eq_refl) E).
  - simpl. rewrite IH; [reflexivity|]. intros x Hx. apply H. right. exact Hx.
Qed.

Lemma remove_walk_spec (t : Dir.rb_root) (h : Z) :
  Dir.rb_ordered t = true ->
  Dir.rb_mapped t = true ->
  exists o,
    Dir.remove_walk t h = Done o /\
    match o with
    | Some t' =>
        (exists n, In n (Dir.rb_elements t) /\ Dir.hash n = h) /\
        Dir.rb_elements t' = filter (other_hash h) (Dir.rb_elements t) /\
        Dir.rb_ordered t' = true
    | None => forall x, In x (Dir.rb_elements t) -> Dir.hash x <> h
    end.
Proof.
  induction t as [|l IHl c r IHr]; intros Ho Hm.
  - exists None. split; [reflexivity|]. intros x [].
  - pose proof Ho as Ho0.
    apply rb_mapped_node in Hm as (Hc & Hml & Hmr).
    apply rb_ordered_node in Ho as (Hlt & Hgt & Hol & Hor).
    simpl Dir.remove_walk. rewrite compare_mapped by exact Hc. simpl bind.
    destruct (Z.ltb_spec h (Dir.hash c)) as [H1|H1].
    + change (-1 =? -1) with true. cbv iota.
      destruct (IHl Hol Hml) as (o & Eo & Ho').
      rewrite Eo. simpl bind.
      destruct o as [l'|]; simpl option_map.
      * destruct Ho' as ((n & Hin & Hh) & Hel & Hol').
        eexists. split; [reflexivity|]. split; [|split].
        -- exists n. split; [|exact Hh]. simpl. apply in_or_app. left. exact Hin.
        -- simpl. rewrite filter_app. simpl. unfold other_hash at 2.
           destruct (Z.eqb_spec (Dir.hash c) h) as [E|_]; [lia|]. simpl.
           rewrite Hel. f_equal. f_equal. symmetry. apply filter_other_hash_id.
           intros x Hx. specialize (Hgt x Hx). lia.
        -- apply rb_ordered_build; try assumption.
           intros x Hx. apply Hlt. rewrite Hel in Hx.
           apply filter_In in Hx as [Hx _]. exact Hx.
      * exists None. split; [reflexivity|].
        intros x Hx. simpl in Hx. apply in_app_or in Hx as [Hx|[<-|Hx]].
        -- apply Ho'. exact Hx.
        -- lia.
        -- specialize (Hgt x Hx). lia.
    + destruct (Z.ltb_spec (Dir.hash c) h) as [H2|H2].
      * change (1 =? -1) with false. change (1 =? 1) with true. cbv iota.
        destruct (IHr Hor Hmr) as (o & Eo & Ho').
        rewrite Eo. simpl bind.
        destruct o as [r'|]; simpl option_map.
        -- destruct Ho' as ((n & Hin & Hh) & Hel & Hor').
           eexists. split; [reflexivity|]. split; [|split].
           ++ exists n. split; [|exact Hh]. simpl. apply in_or_app.
              right. right. exact Hin.
           ++ simpl. rewrite filter_app. simpl. unfold other_hash at 2.
              destruct (Z.eqb_spec (Dir.hash c) h) as [E|_]; [lia|]. simpl.
              rewrite Hel. f_equal. symmetry. apply filter_other_hash_id.
              intros x Hx. specialize (Hlt x Hx). lia.
           ++ apply rb_ordered_build; try assumption.
              intros x Hx. apply Hgt. rewrite Hel in Hx.
              apply filter_In in Hx as [Hx _]. exact Hx.
        -- exists None. split; [reflexivity|].
           intros x Hx. simpl in Hx. apply in_app_or in Hx as [Hx|[<-|Hx]].
           ++ specialize (Hlt x Hx). lia.
           ++ lia.
           ++ apply Ho'. exact Hx.
      * change (0 =? -1) with false. change (0 =? 1) with false. cbv iota.
        assert (Ec : Dir.hash c = h) by lia.
        eexists. split; [reflexivity|]. split; [|split].
        -- exists c. split; [|exact Ec]. simpl. apply in_or_app.
           right. left. reflexivity.
        -- rewrite rb_erase_root_elements. simpl. rewrite filter_app. simpl.
           unfold other_hash at 2. rewrite Ec, Z.eqb_refl. simpl.
           rewrite !filter_other_hash_id; [reflexivity | |].
           ++ intros x Hx. specialize (Hgt x Hx). lia.
           ++ intros x Hx. specialize (Hlt x Hx). lia.
        -- exact (rb_erase_root_ordered l r c Ho0).
Qed.

(** X4: pmfs_remove_dir_node_by_name on an ordered index whose nodes all
    point at a log entry.  When a node carries the hash of the name, that
    node and no other leaves the index, the order of the remaining nodes is
    kept and the node goes back to the slab cache; when none does, the index
    and the slab cache are left as they were.  Nothing else of the state
    changes and BUG is never hit. *)
Theorem remove_dir_node_by_hash (s : fs) (sih : Dir.pmfs_inode_info_header)
    (name : list Z) :
  Dir.rb_ordered (Dir.dir_tree sih) = true ->
  Dir.rb_mapped (Dir.dir_tree sih) = true ->
  let h := Hdr.BKDRHash name in
  ((exists n, In n (Dir.rb_elements (Dir.dir_tree sih)) /\ Dir.hash n = h) ->
   exists t',
     Dir.pmfs_remove_dir_node_by_name s sih name
     = Done (set_dirnodes (S (dirnodes s)) s, Dir.set_dir_tree t' sih) /\
     Dir.rb_elements t'
     = filter (other_hash h) (Dir.rb_elements (Dir.dir_tree sih)) /\
     Dir.rb_ordered t' = true /\ Dir.rb_mapped t' = true) /\
  ((forall n, In n (Dir.rb_elements (Dir.dir_tree sih)) -> Dir.hash n <> h) ->
   Dir.pmfs_remove_dir_node_by_name s sih name = Done (s, sih)).
Proof.
  intros Ho Hm h. unfold Dir.pmfs_remove_dir_node_by_name. fold h.
  destruct (remove_walk_spec (Dir.dir_tree sih) h Ho Hm) as (o & Eo & Hspec).
  rewrite Eo. simpl bind. split.
  - intros (n & Hin & Hh). destruct o as [t'|].
    + destruct Hspec as (_ & Hel & Hot).
      exists t'. split; [reflexivity|]. split; [exact Hel|]. split; [exact Hot|].
      unfold Dir.rb_mapped. apply rb_all_forall. intros x Hx.
      rewrite Hel in Hx. apply filter_In in Hx as [Hx _].
      exact (proj1 (rb_all_forall _ _) Hm x Hx).
    + exfalso. exact (Hspec n Hin Hh).
  - intros Hnone. destruct o as [t'|]; [|reflexivity].
    destruct Hspec as ((n & Hin & Hh) & _). exfalso. exact (Hnone n Hin Hh).
Qed.

(** unlink("a") on the index of [dir_a]. *)
Lemma remove_dir_node_by_hash_witness :
  exists t',
    Dir.pmfs_remove_dir_node_by_name (Log.dir_fs dir_a) (Log.dir_sih dir_a)
      name_a
    = Done (set_dirnodes (S (dirnodes (Log.dir_fs dir_a))) (Log.dir_fs dir_a),
            Dir.set_dir_tree t' (Log.dir_sih dir_a)) /\
    Dir.rb_elements t'
    = [Dir.mk_dir_node 4096 2 46; Dir.mk_dir_node 4128 1 6072].
Proof.
  destruct (remove_dir_node_by_hash (Log.dir_fs dir_a) (Log.dir_sih dir_a)
              name_a) as [Hp _];
    [vm_compute; reflexivity | vm_compute; reflexivity |].
  destruct Hp as (t' & Hr & Hel & _).
  - exists (Dir.mk_dir_node 4160 5 97). split.
    + vm_compute. right. left. reflexivity.
    + vm_compute. reflexivity.
  - exists t'. split; [exact Hr|]. rewrite Hel. vm_compute. reflexivity.
Defined.

(* ====================================================================== *)
(** ** dir.c: how the index operations compose *)

Lemma insert_walk_splits (t : Dir.rb_root) (h : Z) (new : Dir.pmfs_dir_node) :
  forall t',
    Dir.insert_walk t h new = Done (Some t') ->
    exists l1 l2,
      Dir.rb_elements t = l1 ++ l2 /\
      Dir.rb_elements t' = l1 ++ new :: l2.
Proof.
  induction t as [|l IHl c r IHr]; intros t' H.
  - simpl in H. inversion H; subst. exists [], []. split; reflexivity.
  - simpl in H.
    destruct (Dir.pmfs_rbtree_compare_find_by_name c h) as [cv|];
      simpl in H; [|discriminate].
    destruct (cv =? -1).
    + destruct (Dir.insert_walk l h new) as [[l'|]|] eqn:El; simpl in H;
        try discriminate.
      inversion H; subst.
      destruct (IHl l' eq_refl) as (l1 & l2 & E1 & E2).
      exists l1, (l2 ++ c :: Dir.rb_elements r). simpl.
      rewrite E1, E2, <- !app_assoc. split; reflexivity.
    + destruct (cv =? 1); [|discriminate].
      destruct (Dir.insert_walk r h new) as [[r'|]|] eqn:Er; simpl in H;
        try discriminate.
      inversion H; subst.
      destruct (IHr r' eq_refl) as (l1 & l2 & E1 & E2).
      exists (Dir.rb_elements l ++ c :: l1), l2. simpl.
      rewrite E1, E2, <- !app_assoc. split; reflexivity.
Qed.

(** What a successful insert leaves, for the proofs below. *)
Lemma insert_fresh_outcome (s : fs) (sih : Dir.pmfs_inode_info_header)
    (ino : Z) (name : list Z) (dir_entry : Z) (k : nat) :
  Dir.rb_ordered (Dir.dir_tree sih) = true ->
  Dir.rb_mapped (Dir.dir_tree sih) = true ->
  (forall x, In x (Dir.rb_elements (Dir.dir_tree sih)) ->
             Dir.hash x <> Hdr.BKDRHash name) ->
  dirnodes s = S k ->
  dir_entry <> 0 ->
  exists t',
    Dir.insert_walk (Dir.dir_tree sih) (Hdr.BKDRHash name)
      (Dir.mk_dir_node dir_entry ino (Hdr.BKDRHash name)) = Done (Some t') /\
    Dir.pmfs_insert_dir_node_by_name s sih ino name dir_entry
    = Done (0, set_dirnodes k s, Dir.set_dir_tree t' sih) /\
    Dir.rb_ordered t' = true /\
    Dir.rb_mapped t' = true.
Proof.
  intros Ho Hm Hfresh Hk Hde.
  set (new := Dir.mk_dir_node dir_entry ino (Hdr.BKDRHash name)).
  destruct (insert_walk_fresh (Dir.dir_tree sih) (Hdr.BKDRHash name) new Hm Hfresh)
    as (t' & Et).
  exists t'. split; [exact Et|].
  unfold Dir.pmfs_insert_dir_node_by_name. fold new.
  rewrite Et. simpl bind. rewrite Hk.
  split; [reflexivity|].
  split; [exact (insert_walk_ordered (Dir.dir_tree sih) (Hdr.BKDRHash name)
                   new t' eq_refl Hm Ho Et)|].
  unfold Dir.rb_mapped. apply rb_all_forall. intros x Hx.
  apply (insert_walk_elements _ _ _ _ Et) in Hx as [->|Hx].
  - simpl. apply negb_true_iff. apply Z.eqb_neq. exact Hde.
  - exact (proj1 (rb_all_forall _ _) Hm x Hx).
Qed.

(** X5: after pmfs_insert_dir_node_by_name has linked a node for a name,
    pmfs_find_dir_node_by_name on that name returns this node (log
    position, inode number and hash as inserted), and a lookup of any name
    with another hash answers as it did before the insert. *)
Theorem insert_then_find (s : fs) (sih : Dir.pmfs_inode_info_header)
    (ino : Z) (name : list Z) (dir_entry : Z) (k : nat) :
  Dir.rb_ordered (Dir.dir_tree sih) = true ->
  Dir.rb_mapped (Dir.dir_tree sih) = true ->
  (forall x, In x (Dir.rb_elements (Dir.dir_tree sih)) ->
             Dir.hash x <> Hdr.BKDRHash name) ->
  dirnodes s = S k ->
  dir_entry <> 0 ->
  exists s' sih',
    Dir.pmfs_insert_dir_node_by_name s sih ino name dir_entry
    = Done (0, s', sih') /\
    Dir.pmfs_find_dir_node_by_name sih' name
    = Done (Some (Dir.mk_dir_node dir_entry ino (Hdr.BKDRHash name))) /\
    (forall other,
       Hdr.BKDRHash other <> Hdr.BKDRHash name ->
       Dir.pmfs_find_dir_node_by_name sih' other
       = Dir.pmfs_find_dir_node_by_name sih other).
Proof.
  intros Ho Hm Hfresh Hk Hde.
  destruct (insert_fresh_outcome s sih ino name dir_entry k Ho Hm Hfresh Hk Hde)
    as (t' & Et & Hi & Hot & Hmt).
  pose proof (insert_walk_elements _ _ _ _ Et) as Hel.
  exists (set_dirnodes k s), (Dir.set_dir_tree t' sih).
  split; [exact Hi|].
  unfold Dir.pmfs_find_dir_node_by_name. simpl Dir.dir_tree. split.
  - change (Hdr.BKDRHash name)
      with (Dir.hash (Dir.mk_dir_node dir_entry ino (Hdr.BKDRHash name))) at 1.
    apply find_walk_present; try assumption. apply Hel. left. reflexivity.
  - intros other Hne.
    destruct (find_walk_spec (Dir.dir_tree sih) (Hdr.BKDRHash other) Ho Hm)
      as (o & Eo & Hspec).
    rewrite Eo. destruct o as [n|].
    + destruct Hspec as [Hin Hh]. rewrite <- Hh.
      apply find_walk_present; try assumption. apply Hel. right. exact Hin.
    + apply find_walk_absent; try assumption.
      intros n Hn. apply Hel in Hn as [->|Hn]; [|exact (Hspec n Hn)].
      simpl. congruence.
Qed.

(** The first link("a") on [dir0], then the lookup of "a". *)
Lemma insert_then_find_witness :
  exists s' sih',
    Dir.pmfs_insert_dir_node_by_name (Log.dir_fs dir0) (Log.dir_sih dir0) 5
      name_a 4160 = Done (0, s', sih') /\
    Dir.pmfs_find_dir_node_by_name sih' name_a
    = Done (Some (Dir.mk_dir_node 4160 5 97)).
Proof.
  destruct (insert_then_find (Log.dir_fs dir0) (Log.dir_sih dir0) 5 name_a
              4160 13) as (s' & sih' & Hi & Hf & _).
  - vm_compute. reflexivity.
  - vm_compute. reflexivity.
  - vm_compute. intros x [<- | [<- | []]]; discriminate.
  - vm_compute. reflexivity.
  - discriminate.
  - exists s', sih'. split; [exact Hi | exact Hf].
Defined.

(** X6: inserting a name with a fresh hash and then removing the same
    name gives back the index as a sequence of nodes and the slab cache as
    they were before the insert; both calls succeed. *)
Theorem insert_then_remove_restores (s : fs)
    (sih : Dir.pmfs_inode_info_header) (ino : Z) (name : list Z)
    (dir_entry : Z) (k : nat) :
  Dir.rb_ordered (Dir.dir_tree sih) = true ->
  Dir.rb_mapped (Dir.dir_tree sih) = true ->
  (forall x, In x (Dir.rb_elements (Dir.dir_tree sih)) ->
             Dir.hash x <> Hdr.BKDRHash name) ->
  dirnodes s = S k ->
  dir_entry <> 0 ->
  exists s1 sih1 s2 sih2,
    Dir.pmfs_insert_dir_node_by_name s sih ino name dir_entry
    = Done (0, s1, sih1) /\
    Dir.pmfs_remove_dir_node_by_name s1 sih1 name = Done (s2, sih2) /\
    Dir.rb_elements (Dir.dir_tree sih2) = Dir.rb_elements (Dir.dir_tree sih) /\
    s2 = s.
Proof.
  intros Ho Hm Hfresh Hk Hde.
  destruct (insert_fresh_outcome s sih ino name dir_entry k Ho Hm Hfresh Hk Hde)
    as (t' & Et & Hi & Hot & Hmt).
  destruct (insert_walk_splits _ _ _ _ Et) as (l1 & l2 & E1 & E2).
  destruct (remove_walk_spec t' (Hdr.BKDRHash name) Hot Hmt) as (o & Eo & Hspec).
  destruct o as [t''|].
  - destruct Hspec as (_ & Hel & _).
    exists (set_dirnodes k s), (Dir.set_dir_tree t' sih),
           (set_dirnodes (S k) (set_dirnodes k s)),
           (Dir.set_dir_tree t'' (Dir.set_dir_tree t' sih)).
    split; [exact Hi|].
    unfold Dir.pmfs_remove_dir_node_by_name. simpl Dir.dir_tree.
    rewrite Eo. simpl bind. split; [reflexivity|]. split.
    + simpl Dir.dir_tree. rewrite Hel, E2, E1, filter_app. simpl.
      unfold other_hash at 2. simpl Dir.hash. rewrite Z.eqb_refl. simpl.
      rewrite !filter_other_hash_id; [reflexivity | |];
        intros x Hx; apply Hfresh; rewrite E1; apply in_or_app; auto.
    + destruct s as [m b f d]. simpl in Hk. subst d. reflexivity.
  - exfalso. apply (Hspec (Dir.mk_dir_node dir_entry ino (Hdr.BKDRHash name))).
    + rewrite E2. apply in_or_app. right. left. reflexivity.
    + reflexivity.
Qed.

(** link("a") then unlink("a") on the index of [dir0]. *)
Lemma insert_then_remove_restores_witness :
  exists s1 sih1 sih2,
    Dir.pmfs_insert_dir_node_by_name (Log.dir_fs dir0) (Log.dir_sih dir0) 5
      name_a 4160 = Done (0, s1, sih1) /\
    Dir.pmfs_remove_dir_node_by_name s1 sih1 name_a
    = Done (Log.dir_fs dir0, sih2) /\
    Dir.rb_elements (Dir.dir_tree sih2)
    = Dir.rb_elements (Dir.dir_tree (Log.dir_sih dir0)).
Proof.
  destruct (insert_then_remove_restores (Log.dir_fs dir0) (Log.dir_sih dir0) 5
              name_a 4160 13) as (s1 & sih1 & s2 & sih2 & Hi & Hr & He & Hs).
  - vm_compute. reflexivity.
  - vm_compute. reflexivity.
  - vm_compute. intros x [<- | [<- | []]]; discriminate.
  - vm_compute. reflexivity.
  - discriminate.
  - exists s1, sih1, sih2. rewrite Hs in Hr.
    split; [exact Hi|]. split; [exact Hr | exact He].
Defined.

Lemma delete_loop_spec (fuel : nat) :
  forall (s : fs) (t : Dir.rb_root),
    (length (Dir.rb_elements t) < fuel)%nat ->
    Dir.delete_loop fuel s t
    = Some (set_dirnodes (dirnodes s + length (Dir.rb_elements t)) s,
            Dir.RB_ROOT).
Proof.
  induction fuel as [|k IH]; intros s t Hf; [lia|].
  simpl Dir.delete_loop.
  pose proof (rb_first_split_spec t) as Hs.
  destruct (Dir.rb_first_split t) as [[m t']|].
  - rewrite Hs in *. simpl length in *.
    rewrite IH by lia. simpl. f_equal. f_equal.
    unfold set_dirnodes. simpl. f_equal. lia.
  - subst t. simpl. rewrite Nat.add_0_r.
    destruct s; reflexivity.
Qed.

(** X7: pmfs_delete_dir_tree ends on every index: it leaves the tree
    empty and hands every node, once, back to the slab cache; the region,
    the allocator and the other fields of the header are not touched. *)
Theorem delete_dir_tree_empties (s : fs) (sih : Dir.pmfs_inode_info_header) :
  let n := length (Dir.rb_elements (Dir.dir_tree sih)) in
  Dir.pmfs_delete_dir_tree (S n) s sih
  = Some (set_dirnodes (dirnodes s + n) s, Dir.set_dir_tree Dir.RB_ROOT sih).
Proof.
  cbv zeta. unfold Dir.pmfs_delete_dir_tree.
  rewrite delete_loop_spec by lia. reflexivity.
Qed.

(* ====================================================================== *)
(** ** pmfs.h: record lengths, hashes and addresses *)

Lemma land_lnot_ones (x k : Z) :
  0 <= k -> Z.land x (Z.lnot (Z.ones k)) = x - x mod 2 ^ k.
Proof.
  intros Hk. rewrite <- Z.ldiff_land, Z.ldiff_ones_r by lia.
  rewrite Z.shiftr_div_pow2, Z.shiftl_mul_pow2 by lia.
  pose proof (Z.div_mod x (2 ^ k) ltac:(pose proof (Z.pow_pos_nonneg 2 k); lia)).
  lia.
Qed.

Lemma rec_len_eq (name_len : Z) :
  Hdr.PMFS_DIR_LOG_REC_LEN name_len
  = name_len + 31 - (name_len + 31) mod 4.
Proof.
  unfold Hdr.PMFS_DIR_LOG_REC_LEN, Hdr.PMFS_DIR_ROUND, Hdr.PMFS_DIR_PAD.
  change (4 - 1) with (Z.ones 2). rewrite land_lnot_ones by lia.
  change (2 ^ 2) with 4. replace (name_len + 28 + Z.ones 2) with (name_len + 31)
    by (change (Z.ones 2) with 3; lia).
  reflexivity.
Qed.

(** X8: PMFS_DIR_LOG_REC_LEN(n) is the least multiple of 4 that holds the
    28-byte header and the n name bytes: it leaves between 0 and 3 bytes
    after the name, and none exactly when n is a multiple of 4 (the name is
    then followed by the next record, not by padding).  For a name of at
    most 255 bytes it fits the 16-bit [de_len]. *)
Theorem dir_log_rec_len_bounds (n : Z) :
  0 <= n ->
  let len := Hdr.PMFS_DIR_LOG_REC_LEN n in
  len mod 4 = 0 /\
  n + 28 <= len <= n + 31 /\
  (len = n + 28 <-> n mod 4 = 0) /\
  (n <= 255 -> u16 len = len).
Proof.
  intros Hn len. unfold len. rewrite rec_len_eq.
  pose proof (Z.mod_pos_bound (n + 31) 4 ltac:(lia)) as Hb.
  pose proof (Z.div_mod (n + 31) 4 ltac:(lia)) as Hd.
  pose proof (Z.div_mod n 4 ltac:(lia)) as Hdn.
  pose proof (Z.mod_pos_bound n 4 ltac:(lia)) as Hbn.
  assert (Hm : (n + 31) mod 4 = (n mod 4 + 3) mod 4).
  { replace (n + 31) with (n mod 4 + 3 + (n / 4 + 7) * 4) by lia.
    apply Z.mod_add. lia. }
  assert (Hcase : (n mod 4 = 0 /\ (n + 31) mod 4 = 3) \/
                  (n mod 4 = 1 /\ (n + 31) mod 4 = 0) \/
                  (n mod 4 = 2 /\ (n + 31) mod 4 = 1) \/
                  (n mod 4 = 3 /\ (n + 31) mod 4 = 2)).
  { assert (Hc : n mod 4 = 0 \/ n mod 4 = 1 \/ n mod 4 = 2 \/ n mod 4 = 3) by lia.
    destruct Hc as [E|[E|[E|E]]]; rewrite Hm, E; simpl; auto 6. }
  split; [|split; [|split]].
  - replace (n + 31 - (n + 31) mod 4) with (0 + (n + 31) / 4 * 4) by lia.
    apply Z.mod_add. lia.
  - lia.
  - lia.
  - intros H255. unfold u16. apply Z.mod_small.
    change (2 ^ 16) with 65536. lia.
Qed.

(** A four-byte name: the record is 32 bytes, with no byte after the name. *)
Lemma dir_log_rec_len_bounds_witness :
  Hdr.PMFS_DIR_LOG_REC_LEN 4 mod 4 = 0 /\
  4 + 28 <= Hdr.PMFS_DIR_LOG_REC_LEN 4 <= 4 + 31 /\
  (Hdr.PMFS_DIR_LOG_REC_LEN 4 = 4 + 28 <-> 4 mod 4 = 0) /\
  (4 <= 255 -> u16 (Hdr.PMFS_DIR_LOG_REC_LEN 4) = Hdr.PMFS_DIR_LOG_REC_LEN 4).
Proof. apply (dir_log_rec_len_bounds 4). lia. Defined.

Lemma BKDR_loop_nul (a b : list Z) : forall h,
  Hdr.BKDR_loop h (a ++ 0 :: b) = Hdr.BKDR_loop h a.
Proof.
  induction a as [|c a IH]; intros h; simpl; [reflexivity|].
  destruct (c =? 0); [reflexivity | apply IH].
Qed.

(** X9: BKDRHash yields a 31-bit value, and it reads its argument as a C
    string: the bytes from the first NUL on have no part in the hash. *)
Theorem bkdr_hash_is_31_bit_and_stops_at_nul (a b : list Z) :
  0 <= Hdr.BKDRHash a < 2 ^ 31 /\
  Hdr.BKDRHash (a ++ 0 :: b) = Hdr.BKDRHash a.
Proof.
  unfold Hdr.BKDRHash. split.
  - change 2147483647 with (Z.ones 31). rewrite Z.land_ones by lia.
    apply Z.mod_pos_bound. lia.
  - rewrite BKDR_loop_nul. reflexivity.
Qed.

Lemma block_off_entry_loc (p : Z) :
  Hdr.BLOCK_OFF p + Hdr.ENTRY_LOC p = p /\
  0 <= Hdr.ENTRY_LOC p < 4096 /\
  Hdr.BLOCK_OFF p mod 4096 = 0.
Proof.
  unfold Hdr.BLOCK_OFF, Hdr.ENTRY_LOC, Hdr.INVALID_MASK.
  change 4095 with (Z.ones 12).
  rewrite land_lnot_ones, Z.land_ones by lia. change (2 ^ 12) with 4096.
  pose proof (Z.div_mod p 4096 ltac:(lia)) as Hd.
  pose proof (Z.mod_pos_bound p 4096 ltac:(lia)) as Hm.
  repeat split; try lia.
  replace (p - p mod 4096) with (0 + p / 4096 * 4096) by lia.
  apply Z.mod_add. lia.
Qed.

(** X10: block numbers and offsets.  A block number below 2^52 survives
    pmfs_get_block_off followed by pmfs_get_blocknr; an offset below 2^64 is
    the sum of BLOCK_OFF and ENTRY_LOC, its page being
    pmfs_get_block_off (pmfs_get_blocknr p) and its place in the page lying
    in [0, 4096). *)
Theorem block_address_round_trip (b p : Z) :
  0 <= b < 2 ^ 52 ->
  0 <= p < 2 ^ 64 ->
  pmfs_get_blocknr (pmfs_get_block_off b) = b /\
  pmfs_get_block_off (pmfs_get_blocknr p) = Hdr.BLOCK_OFF p /\
  Hdr.BLOCK_OFF p + Hdr.ENTRY_LOC p = p /\
  0 <= Hdr.ENTRY_LOC p < 4096.
Proof.
  intros Hb Hp.
  unfold pmfs_get_blocknr, pmfs_get_block_off, Hdr.BLOCK_OFF, Hdr.ENTRY_LOC,
    Hdr.INVALID_MASK, PAGE_SHIFT, u64.
  change 4095 with (Z.ones 12).
  rewrite land_lnot_ones, Z.land_ones by lia.
  rewrite !Z.shiftl_mul_pow2, !Z.shiftr_div_pow2 by lia.
  change (2 ^ 12) with 4096. change (2 ^ 52) with 4503599627370496 in Hb.
  change (2 ^ 64) with 18446744073709551616 in *.
  pose proof (Z.div_mod p 4096 ltac:(lia)) as Hd.
  pose proof (Z.mod_pos_bound p 4096 ltac:(lia)) as Hm.
  repeat split; try lia.
  - rewrite Z.mod_small by lia. apply Z.div_mul. lia.
  - rewrite Z.mod_small; [lia|].
    assert (0 <= p / 4096) by (apply Z.div_pos; lia). lia.
Qed.

Lemma block_address_round_trip_witness :
  pmfs_get_blocknr (pmfs_get_block_off 5) = 5 /\
  pmfs_get_block_off (pmfs_get_blocknr 12256) = Hdr.BLOCK_OFF 12256 /\
  Hdr.BLOCK_OFF 12256 + Hdr.ENTRY_LOC 12256 = 12256 /\
  0 <= Hdr.ENTRY_LOC 12256 < 4096.
Proof. apply (block_address_round_trip 5 12256); simpl; lia. Defined.

Section AlignFacts.
Context {D : PmfsDef}.

Lemma inode_align_spec (k p : Z) :
  0 <= k -> CACHELINE_SIZE = 2 ^ k -> 0 <= p ->
  p <= Hdr.inode_align p < p + CACHELINE_SIZE /\
  Hdr.inode_align p mod CACHELINE_SIZE = 0.
Proof.
  intros Hk Hc Hp. unfold Hdr.inode_align, Hdr.CACHE_ALIGN. rewrite Hc.
  replace (2 ^ k - 1) with (Z.ones k) by (rewrite Z.ones_equiv; lia).
  rewrite Z.land_ones, land_lnot_ones by lia.
  assert (Hpos : 0 < 2 ^ k) by (apply Z.pow_pos_nonneg; lia).
  pose proof (Z.div_mod p (2 ^ k) ltac:(lia)) as Hd.
  pose proof (Z.mod_pos_bound p (2 ^ k) Hpos) as Hm.
  destruct (Z.eqb_spec (p mod 2 ^ k) 0) as [E|E].
  - split; [lia | exact E].
  - split; [lia|].
    replace (p - p mod 2 ^ k + 2 ^ k) with (0 + (p / 2 ^ k + 1) * 2 ^ k) by lia.
    apply Z.mod_add. lia.
Qed.

(** is_last_entry without the wrap-around of its [unsigned int] locals. *)
Lemma is_last_entry_eq (k curr_p size new_inode : Z) :
  0 <= k -> CACHELINE_SIZE = 2 ^ k -> CACHELINE_SIZE <= 4096 ->
  0 <= PMFS_INODE_SIZE < 2 ^ 31 ->
  0 <= size < 2 ^ 31 ->
  let entry_end := Hdr.ENTRY_LOC curr_p + size in
  Hdr.is_last_entry curr_p size new_inode
  = (Hdr.LAST_ENTRY <? entry_end)
    || (negb (new_inode =? 0)
        && (Hdr.LAST_ENTRY <? Hdr.inode_align entry_end + PMFS_INODE_SIZE)).
Proof.
  intros Hk Hc Hc4 Hi Hs entry_end.
  assert (He : 0 <= Hdr.ENTRY_LOC curr_p < 4096).
  { unfold Hdr.ENTRY_LOC, Hdr.INVALID_MASK. change 4095 with (Z.ones 12).
    rewrite Z.land_ones by lia. apply Z.mod_pos_bound. lia. }
  change (2 ^ 31) with 2147483648 in *.
  assert (Hu : u32 entry_end = entry_end)
    by (unfold u32; change (2 ^ 32) with 4294967296; apply Z.mod_small;
        unfold entry_end; lia).
  pose proof (inode_align_spec k entry_end Hk Hc ltac:(unfold entry_end; lia))
    as [Hal _].
  unfold Hdr.is_last_entry. fold entry_end. rewrite Hu.
  unfold Hdr.LAST_ENTRY in *.
  destruct (Z.ltb_spec 4064 entry_end) as [H1|H1].
  - rewrite orb_true_r. reflexivity.
  - assert (Hu2 : u32 (Hdr.inode_align entry_end) = Hdr.inode_align entry_end)
      by (unfold u32; change (2 ^ 32) with 4294967296; apply Z.mod_small;
          unfold entry_end in *; lia).
    assert (Hu3 : u32 (Hdr.inode_align entry_end + PMFS_INODE_SIZE)
                  = Hdr.inode_align entry_end + PMFS_INODE_SIZE)
      by (unfold u32; change (2 ^ 32) with 4294967296; apply Z.mod_small;
          unfold entry_end in *; lia).
    rewrite Hu2, Hu3.
    destruct (new_inode =? 0); reflexivity.
Qed.

(** X11: is_last_entry(curr_p, size, new_inode), for a cacheline size that
    is a power of two, answers false exactly when the record of [size]
    bytes at [curr_p] ends at or before LAST_ENTRY and, with [new_inode]
    set, the inode placed at the next cacheline boundary ends there too: a
    record (and its inline inode) for which it answers false never reaches
    the page tail. *)
Theorem is_last_entry_false_fits (k curr_p size new_inode : Z) :
  0 <= k -> CACHELINE_SIZE = 2 ^ k -> CACHELINE_SIZE <= 4096 ->
  0 <= PMFS_INODE_SIZE < 2 ^ 31 ->
  0 <= size < 2 ^ 31 ->
  let entry_end := Hdr.ENTRY_LOC curr_p + size in
  Hdr.is_last_entry curr_p size new_inode = false <->
  entry_end <= Hdr.LAST_ENTRY /\
  (new_inode <> 0 ->
   Hdr.inode_align entry_end + PMFS_INODE_SIZE <= Hdr.LAST_ENTRY).
Proof.
  intros Hk Hc Hc4 Hi Hs entry_end.
  rewrite (is_last_entry_eq k curr_p size new_inode Hk Hc Hc4 Hi Hs).
  fold entry_end.
  destruct (Z.eqb_spec new_inode 0) as [E0|E0];
    destruct (Z.ltb_spec Hdr.LAST_ENTRY entry_end) as [H1|H1];
    destruct (Z.ltb_spec Hdr.LAST_ENTRY
                (Hdr.inode_align entry_end + PMFS_INODE_SIZE)) as [H2|H2];
    simpl; split; intros H; try discriminate; try reflexivity;
    try (split; [lia | intros; try contradiction; lia]);
    try (destruct H as [H3 H4]; try specialize (H4 E0); lia).
Qed.

End AlignFacts.

(** A 32-byte record at offset 4000 with an inline inode: the inode would
    start at 4032 and end at 4160, so this is the last entry of the page. *)
Lemma is_last_entry_false_fits_witness :
  Hdr.is_last_entry (D := pmfs_def_x86) 4000 32 0 = false /\
  (Hdr.is_last_entry (D := pmfs_def_x86) 4000 32 1 = false ->
   Hdr.inode_align (D := pmfs_def_x86) (Hdr.ENTRY_LOC 4000 + 32)
   + @PMFS_INODE_SIZE pmfs_def_x86 <= Hdr.LAST_ENTRY).
Proof.
  pose proof (is_last_entry_false_fits (D := pmfs_def_x86) 6 4000 32 0) as H0.
  pose proof (is_last_entry_false_fits (D := pmfs_def_x86) 6 4000 32 1) as H1.
  cbv zeta in H0, H1.
  assert (G1 : 0 <= 6) by lia.
  assert (G2 : @CACHELINE_SIZE pmfs_def_x86 = 2 ^ 6) by reflexivity.
  assert (G3 : @CACHELINE_SIZE pmfs_def_x86 <= 4096) by (vm_compute; discriminate).
  assert (G4 : 0 <= @PMFS_INODE_SIZE pmfs_def_x86 < 2 ^ 31)
    by (vm_compute; split; [discriminate | reflexivity]).
  assert (G5 : 0 <= 32 < 2 ^ 31) by (vm_compute; split; [discriminate | reflexivity]).
  specialize (H0 G1 G2 G3 G4 G5). specialize (H1 G1 G2 G3 G4 G5).
  split.
  - apply H0. split.
    + vm_compute. discriminate.
    + intros H. exfalso. apply H. reflexivity.
  - intros E. apply H1 in E. destruct E as [_ E]. apply E. discriminate.
Defined.

(* ====================================================================== *)
(** ** dir.c: the records of the directory log *)

Lemma load_bytes_ext (n : nat) : forall (m1 m2 : mem) (a : Z),
  (forall x, a <= x < a + Z.of_nat n -> m1 x = m2 x) ->
  load_bytes n m1 a = load_bytes n m2 a.
Proof.
  induction n as [|n IH]; intros m1 m2 a H; simpl; [reflexivity|].
  rewrite (H a) by lia. f_equal. apply IH. intros x Hx. apply H. lia.
Qed.

Lemma load_store_bytes_same (bs : list Z) : forall (m : mem) (a : Z),
  load_bytes (length bs) (store_bytes m a bs) a = map u8 bs.
Proof.
  induction bs as [|b bs IH]; intros m a; simpl; [reflexivity|].
  rewrite store_bytes_outside by lia. rewrite store8_same. f_equal. apply IH.
Qed.

Lemma name_bytes_length (name : list Z) (len : Z) :
  length (Dir.name_bytes name len) = Z.to_nat len.
Proof. unfold Dir.name_bytes. now rewrite length_map, length_seq. Qed.

Lemma name_bytes_all (name : list Z) :
  Dir.name_bytes name (Z.of_nat (length name)) = name.
Proof.
  unfold Dir.name_bytes. rewrite Nat2Z.id.
  induction name as [|a l IH]; [reflexivity|].
  simpl length. change (seq 0 (S (length l))) with (0%nat :: seq 1 (length l)).
  rewrite <- seq_shift, map_cons, map_map. simpl nth at 1. f_equal.
  exact IH.
Qed.

Lemma map_u8_bytes (bs : list Z) :
  Forall (fun b => 0 <= b < 256) bs -> map u8 bs = bs.
Proof.
  induction 1 as [|b bs Hb _ IH]; simpl; [reflexivity|].
  rewrite IH. f_equal. apply Z.mod_small. exact Hb.
Qed.

(** The record that pmfs_append_dir_inode_entry leaves at [curr_p]. *)
Lemma write_dir_logentry_fields (m : mem) (curr_p ino : Z) (d : Dir.dentry)
    (mtime size new_inode links_count de_len : Z) :
  Dir.d_len d = Z.of_nat (length (Dir.d_name d)) ->
  Dir.d_len d <= 255 ->
  Forall (fun b => 0 <= b < 256) (Dir.d_name d) ->
  let m' := Dir.write_dir_logentry m curr_p ino d mtime size new_inode
              links_count de_len in
  Hdr.pmfs_get_entry_type m' curr_p = Hdr.DIR_LOG /\
  load64 m' (curr_p + Hdr.de_ino) = u64 ino /\
  load8 m' (curr_p + Hdr.de_name_len) = Dir.d_len d /\
  load_bytes (length (Dir.d_name d)) m' (curr_p + Hdr.de_name) = Dir.d_name d /\
  load16 m' (curr_p + Hdr.de_de_len) = u16 de_len /\
  load32 m' (curr_p + Hdr.de_mtime) = u32 mtime /\
  load64 m' (curr_p + Hdr.de_size) = u64 size /\
  load8 m' (curr_p + Hdr.de_new_inode) = u8 new_inode /\
  load8 m' (curr_p + Hdr.de_file_type) = 0 /\
  (forall x, x < curr_p \/ curr_p + 28 + Dir.d_len d <= x -> m' x = m x).
Proof.
  intros Hlen H255 Hbytes m'. unfold m', Dir.write_dir_logentry.
  unfold Hdr.pmfs_get_entry_type, Hdr.de_entry_type, Hdr.de_ino,
    Hdr.de_name_len, Hdr.de_file_type, Hdr.de_new_inode, Hdr.de_de_len,
    Hdr.de_links_count, Hdr.de_mtime, Hdr.de_size, Hdr.de_name, Hdr.DIR_LOG.
  rewrite ?Z.add_0_r.
  assert (Hnl : length (Dir.name_bytes (Dir.d_name d) (Dir.d_len d))
                = length (Dir.d_name d))
    by (rewrite name_bytes_length, Hlen; apply Nat2Z.id).
  repeat split.
  - mem_simpl. reflexivity.
  - mem_simpl. reflexivity.
  - mem_simpl. unfold u8. apply Z.mod_small. lia.
  - match goal with
    | |- context [store_bytes ?mm ?aa ?bb] =>
        rewrite (load_bytes_ext _ _ (store_bytes mm aa bb))
    end.
    2:{ intros x Hx. mem_simpl. reflexivity. }
    rewrite <- Hnl at 1. rewrite load_store_bytes_same.
    rewrite Hlen, name_bytes_all. apply map_u8_bytes. exact Hbytes.
  - mem_simpl. reflexivity.
  - mem_simpl. reflexivity.
  - mem_simpl. reflexivity.
  - mem_simpl. reflexivity.
  - mem_simpl. reflexivity.
  - intros x Hx. mem_simpl. reflexivity.
Qed.

Section DirLogFacts.
Context {D : PmfsDef}.
Variable pmfs_get_append_head :
  fs -> pmfs_inode -> Dir.pmfs_inode_info_header -> Z -> Z -> Z -> Z ->
  Z * fs * pmfs_inode * Dir.pmfs_inode_info_header.

(** X12: the record that pmfs_append_dir_inode_entry writes at the
    position it got reads back field by field: type DIR_LOG, the inode
    number, the name length and the name bytes, de_len, mtime, size and the
    new_inode mark, with file_type 0; and no byte of the region outside the
    28-byte header and the name is written. *)
Theorem append_dir_entry_reads_back
    (s : fs) (pidir : pmfs_inode) (dir : Dir.vfs_inode)
    (sih : Dir.pmfs_inode_info_header) (want : bool) (ino : Z) (d : Dir.dentry)
    (de_len tail link_change new_inode : Z)
    (curr_p : Z) (s1 : fs) (pi1 : pmfs_inode) (sih1 : Dir.pmfs_inode_info_header) :
  pmfs_get_append_head s pidir sih tail de_len new_inode 0
  = (curr_p, s1, pi1, sih1) ->
  curr_p <> 0 ->
  Dir.d_len d = Z.of_nat (length (Dir.d_name d)) ->
  Dir.d_len d <= 255 ->
  Forall (fun b => 0 <= b < 256) (Dir.d_name d) ->
  exists a,
    Dir.pmfs_append_dir_inode_entry pmfs_get_append_head s pidir dir sih want
      ino d de_len tail link_change new_inode = Done a /\
    Dir.ap_curr_p a = curr_p /\
    let m := pmem (Dir.ap_fs a) in
    Hdr.pmfs_get_entry_type m curr_p = Hdr.DIR_LOG /\
    load64 m (curr_p + Hdr.de_ino) = u64 ino /\
    load8 m (curr_p + Hdr.de_name_len) = Dir.d_len d /\
    load_bytes (length (Dir.d_name d)) m (curr_p + Hdr.de_name) = Dir.d_name d /\
    load16 m (curr_p + Hdr.de_de_len) = u16 de_len /\
    load32 m (curr_p + Hdr.de_mtime) = u32 (Dir.vi_mtime dir) /\
    load64 m (curr_p + Hdr.de_size) = u64 (Dir.vi_size dir) /\
    load8 m (curr_p + Hdr.de_new_inode) = u8 new_inode /\
    load8 m (curr_p + Hdr.de_file_type) = 0 /\
    (forall x, x < curr_p \/ curr_p + 28 + Dir.d_len d <= x -> m x = pmem s1 x).
Proof.
  intros Hhead Hp Hlen H255 Hbytes.
  unfold Dir.pmfs_append_dir_inode_entry. rewrite Hhead.
  destruct (Z.eqb_spec curr_p 0) as [|_]; [contradiction|].
  eexists. split; [reflexivity|]. split; [reflexivity|].
  cbv zeta. simpl Dir.ap_fs. simpl pmem.
  apply (write_dir_logentry_fields (pmem s1) curr_p ino d (Dir.vi_mtime dir)
           (Dir.vi_size dir) new_inode
           (Dir.logged_links_count (Dir.i_nlink dir) link_change) de_len
           Hlen H255 Hbytes).
Qed.

End DirLogFacts.

(** link("a") to inode 6 appended to the log of [dir_a]. *)
Lemma append_dir_entry_reads_back_witness :
  exists a,
    Dir.pmfs_append_dir_inode_entry (D := pmfs_def_x86)
      (Log.pmfs_get_append_head (D := pmfs_def_x86))
      (Log.dir_fs dir_a) (Log.dir_pi dir_a) dir_a_inode (Log.dir_sih dir_a)
      false 6 dentry_a 32 (log_tail (Log.dir_pi dir_a)) 0 0 = Done a /\
    load64 (pmem (Dir.ap_fs a)) (4192 + Hdr.de_ino) = u64 6 /\
    load_bytes 1 (pmem (Dir.ap_fs a)) (4192 + Hdr.de_name) = name_a.
Proof.
  destruct (append_dir_entry_reads_back (D := pmfs_def_x86)
              (Log.pmfs_get_append_head (D := pmfs_def_x86))
              (Log.dir_fs dir_a) (Log.dir_pi dir_a) dir_a_inode
              (Log.dir_sih dir_a) false 6 dentry_a 32
              (log_tail (Log.dir_pi dir_a)) 0 0
              4192 (Log.dir_fs dir_a) (Log.dir_pi dir_a) (Log.dir_sih dir_a))
    as (a & Ha & _ & _ & Hino & _ & Hname & _).
  - vm_compute. reflexivity.
  - discriminate.
  - reflexivity.
  - vm_compute. discriminate.
  - repeat constructor; vm_compute; discriminate.
  - exists a. split; [exact Ha|]. split; [exact Hino | exact Hname].
Defined.

Section DirEntryFacts.
Context {D : PmfsDef}.
Variable pmfs_get_append_head :
  fs -> pmfs_inode -> Dir.pmfs_inode_info_header -> Z -> Z -> Z -> Z ->
  Z * fs * pmfs_inode * Dir.pmfs_inode_info_header.

Lemma inode_align_in_page (k p : Z) :
  0 <= k <= 12 -> CACHELINE_SIZE = 2 ^ k -> 0 <= p ->
  Hdr.inode_align p = Hdr.BLOCK_OFF p + Hdr.inode_align (Hdr.ENTRY_LOC p).
Proof.
  intros Hk Hc Hp.
  unfold Hdr.inode_align, Hdr.CACHE_ALIGN, Hdr.BLOCK_OFF, Hdr.ENTRY_LOC,
    Hdr.INVALID_MASK. rewrite Hc.
  replace (2 ^ k - 1) with (Z.ones k) by (rewrite Z.ones_equiv; lia).
  change 4095 with (Z.ones 12).
  rewrite !Z.land_ones, !land_lnot_ones by lia.
  assert (Hpos : 0 < 2 ^ k) by (apply Z.pow_pos_nonneg; lia).
  assert (H12 : 2 ^ 12 = 2 ^ k * 2 ^ (12 - k))
    by (rewrite <- Z.pow_add_r by lia; f_equal; lia).
  assert (Hmm : (p mod 2 ^ 12) mod 2 ^ k = p mod 2 ^ k).
  { rewrite H12. rewrite Z.rem_mul_r by (try apply Z.pow_pos_nonneg; lia).
    replace (p mod 2 ^ k + 2 ^ k * ((p / 2 ^ k) mod 2 ^ (12 - k)))
      with (p mod 2 ^ k + (p / 2 ^ k) mod 2 ^ (12 - k) * 2 ^ k) by lia.
    rewrite Z.mod_add by lia. apply Z.mod_mod. lia. }
  rewrite Hmm.
  destruct (p mod 2 ^ k =? 0); lia.
Qed.

(** X13: when the record is to be followed by a new inode and
    is_last_entry answers false, pmfs_append_dir_inode_entry puts the inode
    at the first cacheline boundary at or after the end of the record: the
    address handed back in [*pi_addr] is cacheline-aligned and less than
    one cacheline behind the record, [*curr_tail] is the end of the inode,
    and the inode ends in the same page at or before LAST_ENTRY. *)
Theorem append_dir_entry_places_inode
    (s : fs) (pidir : pmfs_inode) (dir : Dir.vfs_inode)
    (sih : Dir.pmfs_inode_info_header) (ino : Z) (d : Dir.dentry)
    (de_len tail link_change new_inode k : Z)
    (curr_p : Z) (s1 : fs) (pi1 : pmfs_inode) (sih1 : Dir.pmfs_inode_info_header) :
  pmfs_get_append_head s pidir sih tail de_len new_inode 0
  = (curr_p, s1, pi1, sih1) ->
  0 < curr_p -> curr_p + 8192 < 2 ^ 64 ->
  new_inode <> 0 ->
  0 <= k <= 12 -> CACHELINE_SIZE = 2 ^ k ->
  0 <= PMFS_INODE_SIZE < 2 ^ 31 ->
  0 <= de_len < 2 ^ 16 ->
  Hdr.is_last_entry curr_p de_len new_inode = false ->
  exists a p,
    Dir.pmfs_append_dir_inode_entry pmfs_get_append_head s pidir dir sih true
      ino d de_len tail link_change new_inode = Done a /\
    Dir.ap_pi_addr a = Some p /\
    curr_p + de_len <= p < curr_p + de_len + CACHELINE_SIZE /\
    p mod CACHELINE_SIZE = 0 /\
    Dir.ap_curr_tail a = p + PMFS_INODE_SIZE /\
    Dir.ap_curr_tail a <= Hdr.BLOCK_OFF curr_p + Hdr.LAST_ENTRY.
Proof.
  intros Hhead Hp Hp64 Hni Hk Hc Hi Hde Hlast.
  assert (Hc4 : CACHELINE_SIZE <= 4096).
  { rewrite Hc. change 4096 with (2 ^ 12). apply Z.pow_le_mono_r; lia. }
  assert (Hcpos : 0 < CACHELINE_SIZE)
    by (rewrite Hc; apply Z.pow_pos_nonneg; lia).
  change (2 ^ 16) with 65536 in Hde. change (2 ^ 31) with 2147483648 in Hi.
  change (2 ^ 64) with 18446744073709551616 in Hp64.
  pose proof (is_last_entry_eq k curr_p de_len new_inode ltac:(lia) Hc Hc4
                ltac:(change (2 ^ 31) with 2147483648; lia)
                ltac:(change (2 ^ 31) with 2147483648; lia)) as Heq.
  cbv zeta in Heq. rewrite Hlast in Heq. symmetry in Heq.
  apply orb_false_elim in Heq as [Hend Hin].
  apply Z.ltb_ge in Hend.
  destruct (Z.eqb_spec new_inode 0) as [|_]; [contradiction|].
  simpl in Hin. apply Z.ltb_ge in Hin.
  unfold Hdr.LAST_ENTRY in *.
  destruct (block_off_entry_loc curr_p) as (Hsum & Hloc & Hbmod).
  assert (Hb0 : 0 <= Hdr.BLOCK_OFF curr_p)
    by (pose proof (Z.div_mod (Hdr.BLOCK_OFF curr_p) 4096 ltac:(lia)); lia).
  (* the end of the record, in the page and as an offset *)
  assert (Hloc2 : Hdr.ENTRY_LOC (curr_p + de_len) = Hdr.ENTRY_LOC curr_p + de_len
                  /\ Hdr.BLOCK_OFF (curr_p + de_len) = Hdr.BLOCK_OFF curr_p).
  { unfold Hdr.ENTRY_LOC, Hdr.BLOCK_OFF, Hdr.INVALID_MASK in *.
    change 4095 with (Z.ones 12) in *.
    rewrite !Z.land_ones, !land_lnot_ones in * by lia.
    change (2 ^ 12) with 4096 in *.
    assert (E : (curr_p + de_len) mod 4096 = curr_p mod 4096 + de_len).
    { pose proof (Z.div_mod curr_p 4096 ltac:(lia)).
      replace (curr_p + de_len)
        with (curr_p mod 4096 + de_len + curr_p / 4096 * 4096) by lia.
      rewrite Z.mod_add by lia. apply Z.mod_small. lia. }
    rewrite E. lia. }
  destruct Hloc2 as [Hl2 Hb2].
  pose proof (inode_align_in_page k (curr_p + de_len) Hk Hc ltac:(lia)) as Hal.
  rewrite Hl2, Hb2 in Hal.
  pose proof (inode_align_spec k (curr_p + de_len) ltac:(lia) Hc ltac:(lia))
    as [Hr Hm].
  unfold Dir.pmfs_append_dir_inode_entry. rewrite Hhead.
  destruct (Z.eqb_spec curr_p 0) as [|_]; [lia|].
  destruct (Z.eqb_spec new_inode 0) as [|_]; [contradiction|].
  simpl negb. cbv iota. rewrite Hlast.
  assert (Hu : u64 (curr_p + de_len) = curr_p + de_len)
    by (unfold u64; change (2 ^ 64) with 18446744073709551616;
        apply Z.mod_small; lia).
  cbv zeta. rewrite Hu.
  eexists. exists (Hdr.inode_align (curr_p + de_len)).
  split; [reflexivity|]. simpl Dir.ap_pi_addr. simpl Dir.ap_curr_tail.
  assert (Hu2 : u64 (Hdr.inode_align (curr_p + de_len) + PMFS_INODE_SIZE)
                = Hdr.inode_align (curr_p + de_len) + PMFS_INODE_SIZE)
    by (unfold u64; change (2 ^ 64) with 18446744073709551616;
        apply Z.mod_small; lia).
  rewrite Hu2.
  split; [reflexivity|]. split; [exact Hr|]. split; [exact Hm|].
  split; [reflexivity|]. lia.
Qed.

(** Both halves of a successful pmfs_add_entry on a fresh name. *)
Lemma add_entry_outcome (now : Z) (s : fs) (pidir : pmfs_inode)
    (dir : Dir.vfs_inode) (sih : Dir.pmfs_inode_info_header) (d : Dir.dentry)
    (want : bool) (ino inc_link new_inode tail : Z)
    (curr_p : Z) (s1 : fs) (pi1 : pmfs_inode)
    (sih1 : Dir.pmfs_inode_info_header) (k : nat) :
  Dir.d_len d <> 0 ->
  pmfs_get_append_head s pidir sih tail
    (u16 (Hdr.PMFS_DIR_LOG_REC_LEN (Dir.d_len d))) new_inode 0
  = (curr_p, s1, pi1, sih1) ->
  curr_p <> 0 ->
  Dir.rb_ordered (Dir.dir_tree sih1) = true ->
  Dir.rb_mapped (Dir.dir_tree sih1) = true ->
  (forall x, In x (Dir.rb_elements (Dir.dir_tree sih1)) ->
             Dir.hash x <> Hdr.BKDRHash (Dir.d_name d)) ->
  dirnodes s1 = S k ->
  exists a t',
    Dir.pmfs_append_dir_inode_entry pmfs_get_append_head s pidir
      (Dir.mk_vfs_inode (Dir.i_nlink dir) now now (Dir.vi_size dir)
         (Dir.vi_blocks dir))
      sih want ino d (u16 (Hdr.PMFS_DIR_LOG_REC_LEN (Dir.d_len d))) tail
      inc_link new_inode = Done a /\
    Dir.ap_curr_p a = curr_p /\
    Dir.ap_sih a = sih1 /\
    pmem (Dir.ap_fs a)
    = Dir.write_dir_logentry (pmem s1) curr_p ino d now (Dir.vi_size dir)
        new_inode (Dir.logged_links_count (Dir.i_nlink dir) inc_link)
        (u16 (Hdr.PMFS_DIR_LOG_REC_LEN (Dir.d_len d))) /\
    Dir.insert_walk (Dir.dir_tree sih1) (Hdr.BKDRHash (Dir.d_name d))
      (Dir.mk_dir_node curr_p ino (Hdr.BKDRHash (Dir.d_name d)))
    = Done (Some t') /\
    Dir.rb_ordered t' = true /\ Dir.rb_mapped t' = true /\
    Dir.pmfs_add_entry pmfs_get_append_head now s pidir dir sih d want ino
      inc_link new_inode tail
    = Done (Dir.mk_entry_done 0 (Dir.ap_pi_addr a) (Dir.ap_curr_tail a)
              (set_dirnodes k (Dir.ap_fs a)) (Dir.ap_pidir a) (Dir.ap_dir a)
              (Dir.set_dir_tree t' sih1)).
Proof.
  intros Hlen Hhead Hp Ho Hm Hfresh Hk.
  unfold Dir.pmfs_add_entry.
  destruct (Z.eqb_spec (Dir.d_len d) 0); [contradiction|]. cbv zeta.
  unfold Dir.pmfs_append_dir_inode_entry at 1 2. rewrite Hhead.
  destruct (Z.eqb_spec curr_p 0) as [|_]; [contradiction|].
  cbv zeta. eexists. 
  match goal with
  | |- exists t', Done ?a = Done _ /\ _ =>
      destruct (insert_fresh_outcome (Dir.ap_fs a) sih1 ino (Dir.d_name d)
                  curr_p k Ho Hm Hfresh Hk Hp) as (t' & Et & Hi & Hot & Hmt)
  end.
  exists t'. split; [reflexivity|]. split; [reflexivity|].
  split; [reflexivity|]. split; [reflexivity|].
  split; [exact Et|]. split; [exact Hot|].
  split; [exact Hmt|].
  simpl bind. simpl Dir.ap_fs in *. simpl Dir.ap_sih. simpl Dir.ap_curr_p.
  rewrite Hi. reflexivity.
Qed.

(** X14: a pmfs_add_entry that gets a log position, on a name whose hash
    is not in the index and with a tree node available, returns 0; after it
    pmfs_find_dir_node_by_name on the name yields a node that points at the
    record just appended, and that record holds the name and the inode
    number. *)
Theorem add_entry_then_find (now : Z) (s : fs) (pidir : pmfs_inode)
    (dir : Dir.vfs_inode) (sih : Dir.pmfs_inode_info_header) (d : Dir.dentry)
    (want : bool) (ino inc_link new_inode tail : Z)
    (curr_p : Z) (s1 : fs) (pi1 : pmfs_inode)
    (sih1 : Dir.pmfs_inode_info_header) (k : nat) :
  Dir.d_len d <> 0 ->
  Dir.d_len d = Z.of_nat (length (Dir.d_name d)) ->
  Dir.d_len d <= 255 ->
  Forall (fun b => 0 <= b < 256) (Dir.d_name d) ->
  pmfs_get_append_head s pidir sih tail
    (u16 (Hdr.PMFS_DIR_LOG_REC_LEN (Dir.d_len d))) new_inode 0
  = (curr_p, s1, pi1, sih1) ->
  curr_p <> 0 ->
  Dir.rb_ordered (Dir.dir_tree sih1) = true ->
  Dir.rb_mapped (Dir.dir_tree sih1) = true ->
  (forall x, In x (Dir.rb_elements (Dir.dir_tree sih1)) ->
             Dir.hash x <> Hdr.BKDRHash (Dir.d_name d)) ->
  dirnodes s1 = S k ->
  exists r n,
    Dir.pmfs_add_entry pmfs_get_append_head now s pidir dir sih d want ino
      inc_link new_inode tail = Done r /\
    Dir.ed_ret r = 0 /\
    Dir.pmfs_find_dir_node_by_name (Dir.ed_sih r) (Dir.d_name d)
    = Done (Some n) /\
    Dir.nvmm n = curr_p /\ Dir.ino n = ino /\
    let m := pmem (Dir.ed_fs r) in
    load64 m (Dir.nvmm n + Hdr.de_ino) = u64 ino /\
    load8 m (Dir.nvmm n + Hdr.de_name_len) = Dir.d_len d /\
    load_bytes (length (Dir.d_name d)) m (Dir.nvmm n + Hdr.de_name)
    = Dir.d_name d.
Proof.
  intros Hlen Hl H255 Hbytes Hhead Hp Ho Hm Hfresh Hk.
  destruct (add_entry_outcome now s pidir dir sih d want ino inc_link
              new_inode tail curr_p s1 pi1 sih1 k Hlen Hhead Hp Ho Hm Hfresh Hk)
    as (a & t' & Ha & Hcp & Hsih & Hmem & Et & Hot & Hmt & Hadd).
  destruct (write_dir_logentry_fields (pmem s1) curr_p ino d now
              (Dir.vi_size dir) new_inode
              (Dir.logged_links_count (Dir.i_nlink dir) inc_link)
              (u16 (Hdr.PMFS_DIR_LOG_REC_LEN (Dir.d_len d))) Hl H255 Hbytes)
    as (_ & Hino & Hnl & Hname & _).
  rewrite <- Hmem in Hino, Hnl, Hname.
  eexists. exists (Dir.mk_dir_node curr_p ino (Hdr.BKDRHash (Dir.d_name d))).
  split; [exact Hadd|]. split; [reflexivity|].
  simpl Dir.ed_sih. simpl Dir.ed_fs. simpl Dir.nvmm. simpl Dir.ino.
  split.
  - unfold Dir.pmfs_find_dir_node_by_name. simpl Dir.dir_tree.
    change (Hdr.BKDRHash (Dir.d_name d))
      with (Dir.hash (Dir.mk_dir_node curr_p ino (Hdr.BKDRHash (Dir.d_name d))))
      at 1.
    apply find_walk_present; try assumption.
    apply (insert_walk_elements _ _ _ _ Et). left. reflexivity.
  - split; [reflexivity|]. split; [reflexivity|].
    cbv zeta. simpl pmem. auto.
Qed.

End DirEntryFacts.

(** link("a") with a new inode behind the record, on [dir0]: the record
    ends at 4192 and the inode is placed at 4224. *)
Lemma append_dir_entry_places_inode_witness :
  exists a,
    Dir.pmfs_append_dir_inode_entry (D := pmfs_def_x86)
      (Log.pmfs_get_append_head (D := pmfs_def_x86))
      (Log.dir_fs dir0) (Log.dir_pi dir0) (Log.dir_inode dir0)
      (Log.dir_sih dir0) true 5 dentry_a 32 0 1 1 = Done a /\
    Dir.ap_pi_addr a = Some 4224 /\
    Dir.ap_curr_tail a = 4224 + 128.
Proof.
  destruct (append_dir_entry_places_inode (D := pmfs_def_x86)
              (Log.pmfs_get_append_head (D := pmfs_def_x86))
              (Log.dir_fs dir0) (Log.dir_pi dir0) (Log.dir_inode dir0)
              (Log.dir_sih dir0) 5 dentry_a 32 0 1 1 6
              4160 (Log.dir_fs dir0) (Log.dir_pi dir0) (Log.dir_sih dir0))
    as (a & p & Ha & Hp & Hr & Hm & Ht & _).
  - vm_compute. reflexivity.
  - reflexivity.
  - reflexivity.
  - discriminate.
  - split; discriminate.
  - reflexivity.
  - vm_compute. split; [discriminate | reflexivity].
  - vm_compute. split; [discriminate | reflexivity].
  - vm_compute. reflexivity.
  - exists a. split; [exact Ha|].
    assert (Ep : p = 4224).
    { change (@CACHELINE_SIZE pmfs_def_x86) with 64 in Hr, Hm.
      pose proof (Z.div_mod p 64 ltac:(lia)). lia. }
    subst p. split; [exact Hp | exact Ht].
Defined.

(** The first link("a") on [dir0], then the lookup of "a". *)
Lemma add_entry_then_find_witness :
  exists r n,
    Dir.pmfs_add_entry (D := pmfs_def_x86)
      (Log.pmfs_get_append_head (D := pmfs_def_x86)) 8
      (Log.dir_fs dir0) (Log.dir_pi dir0) (Log.dir_inode dir0)
      (Log.dir_sih dir0) dentry_a false 5 0 0 (log_tail (Log.dir_pi dir0))
    = Done r /\
    Dir.pmfs_find_dir_node_by_name (Dir.ed_sih r) name_a = Done (Some n) /\
    Dir.nvmm n = 4160 /\
    load64 (pmem (Dir.ed_fs r)) (Dir.nvmm n + Hdr.de_ino) = u64 5.
Proof.
  destruct (add_entry_then_find (D := pmfs_def_x86)
              (Log.pmfs_get_append_head (D := pmfs_def_x86)) 8
              (Log.dir_fs dir0) (Log.dir_pi dir0) (Log.dir_inode dir0)
              (Log.dir_sih dir0) dentry_a false 5 0 0
              (log_tail (Log.dir_pi dir0))
              4160 (Log.dir_fs dir0) (Log.dir_pi dir0) (Log.dir_sih dir0) 13)
    as (r & n & Hadd & _ & Hfind & Hn & _ & Hino & _).
  - discriminate.
  - reflexivity.
  - vm_compute. discriminate.
  - repeat constructor; vm_compute; discriminate.
  - vm_compute. reflexivity.
  - discriminate.
  - vm_compute. reflexivity.
  - vm_compute. reflexivity.
  - vm_compute. intros x [<- | [<- | []]]; discriminate.
  - vm_compute. reflexivity.
  - exists r, n. split; [exact Hadd|]. split; [exact Hfind|].
    split; [exact Hn | exact Hino].
Defined.

Section DirRemoveFacts.
Context {D : PmfsDef}.
Variable pmfs_get_append_head :
  fs -> pmfs_inode -> Dir.pmfs_inode_info_header -> Z -> Z -> Z -> Z ->
  Z * fs * pmfs_inode * Dir.pmfs_inode_info_header.

(** X15: a pmfs_remove_entry that gets a log position returns 0 and
    appends a record for the name whose inode number is 0; after it no node
    of the index carries the hash of the name, so the lookup of the name
    answers NULL, whether the name was in the index or not, and the nodes
    of other hashes stay in their order. *)
Theorem remove_entry_logs_tombstone (now : Z) (s : fs) (pidir : pmfs_inode)
    (dir : Dir.vfs_inode) (sih : Dir.pmfs_inode_info_header) (d : Dir.dentry)
    (dec_link tail : Z)
    (curr_p : Z) (s1 : fs) (pi1 : pmfs_inode)
    (sih1 : Dir.pmfs_inode_info_header) :
  Dir.d_len d <> 0 ->
  Dir.d_len d = Z.of_nat (length (Dir.d_name d)) ->
  Dir.d_len d <= 255 ->
  Forall (fun b => 0 <= b < 256) (Dir.d_name d) ->
  pmfs_get_append_head s pidir sih tail
    (u16 (Hdr.PMFS_DIR_LOG_REC_LEN (Dir.d_len d))) 0 0
  = (curr_p, s1, pi1, sih1) ->
  curr_p <> 0 ->
  Dir.rb_ordered (Dir.dir_tree sih1) = true ->
  Dir.rb_mapped (Dir.dir_tree sih1) = true ->
  exists r,
    Dir.pmfs_remove_entry pmfs_get_append_head now s pidir dir sih d dec_link
      tail = Done r /\
    Dir.ed_ret r = 0 /\
    Dir.ed_new_tail r
    = u64 (curr_p + u16 (Hdr.PMFS_DIR_LOG_REC_LEN (Dir.d_len d))) /\
    Dir.pmfs_find_dir_node_by_name (Dir.ed_sih r) (Dir.d_name d) = Done None /\
    Dir.rb_elements (Dir.dir_tree (Dir.ed_sih r))
    = filter (other_hash (Hdr.BKDRHash (Dir.d_name d)))
        (Dir.rb_elements (Dir.dir_tree sih1)) /\
    let m := pmem (Dir.ed_fs r) in
    Hdr.pmfs_get_entry_type m curr_p = Hdr.DIR_LOG /\
    load64 m (curr_p + Hdr.de_ino) = 0 /\
    load_bytes (length (Dir.d_name d)) m (curr_p + Hdr.de_name) = Dir.d_name d.
Proof.
  intros Hlen Hl H255 Hbytes Hhead Hp Ho Hm.
  unfold Dir.pmfs_remove_entry.
  destruct (Z.eqb_spec (Dir.d_len d) 0); [contradiction|]. cbv zeta.
  unfold Dir.pmfs_append_dir_inode_entry. rewrite Hhead.
  destruct (Z.eqb_spec curr_p 0) as [|_]; [contradiction|].
  cbv zeta. simpl bind. simpl Dir.ap_fs. simpl Dir.ap_sih.
  change (negb (0 =? 0)) with false. cbv iota. simpl snd. simpl fst.
  set (h := Hdr.BKDRHash (Dir.d_name d)).
  match goal with
  | |- context [Dir.write_dir_logentry ?m0 ?cp ?i ?dd ?mt ?sz ?ni ?lc ?dl] =>
      destruct (write_dir_logentry_fields m0 cp i dd mt sz ni lc dl
                  Hl H255 Hbytes)
        as (Hty & Hino & _ & Hname & _);
      set (m' := Dir.write_dir_logentry m0 cp i dd mt sz ni lc dl) in *
  end.
  unfold Dir.pmfs_remove_dir_node_by_name. simpl Dir.dir_tree. fold h.
  destruct (remove_walk_spec (Dir.dir_tree sih1) h Ho Hm) as (o & Eo & Hspec).
  rewrite Eo. simpl bind.
  destruct o as [t'|].
  - destruct Hspec as (_ & Hel & Hot).
    eexists. split; [reflexivity|]. split; [reflexivity|].
    split; [reflexivity|].
    simpl Dir.ed_sih. simpl Dir.ed_fs. simpl pmem. split; [|split].
    + unfold Dir.pmfs_find_dir_node_by_name. simpl Dir.dir_tree. fold h.
      apply find_walk_absent; try assumption.
      * unfold Dir.rb_mapped. apply rb_all_forall. intros x Hx.
        rewrite Hel in Hx. apply filter_In in Hx as [Hx _].
        exact (proj1 (rb_all_forall _ _) Hm x Hx).
      * intros x Hx. rewrite Hel in Hx. apply filter_In in Hx as [_ Hx].
        unfold other_hash in Hx. apply negb_true_iff, Z.eqb_neq in Hx. exact Hx.
    + simpl Dir.dir_tree. exact Hel.
    + cbv zeta. split; [exact Hty|]. split; [exact Hino | exact Hname].
  - eexists. split; [reflexivity|]. split; [reflexivity|].
    split; [reflexivity|].
    simpl Dir.ed_sih. simpl Dir.ed_fs. split; [|split].
    + unfold Dir.pmfs_find_dir_node_by_name. fold h.
      apply find_walk_absent; assumption.
    + symmetry. apply filter_other_hash_id. exact Hspec.
    + cbv zeta. split; [exact Hty|]. split; [exact Hino | exact Hname].
Qed.

End DirRemoveFacts.

(** unlink("a") on [dir_a]: the tombstone goes to 4192. *)
Lemma remove_entry_logs_tombstone_witness :
  exists r,
    Dir.pmfs_remove_entry (D := pmfs_def_x86)
      (Log.pmfs_get_append_head (D := pmfs_def_x86)) 8
      (Log.dir_fs dir_a) (Log.dir_pi dir_a) (Log.dir_inode dir_a)
      (Log.dir_sih dir_a) dentry_a 0 (log_tail (Log.dir_pi dir_a)) = Done r /\
    Dir.pmfs_find_dir_node_by_name (Dir.ed_sih r) name_a = Done None /\
    load64 (pmem (Dir.ed_fs r)) (4192 + Hdr.de_ino) = 0.
Proof.
  destruct (remove_entry_logs_tombstone (D := pmfs_def_x86)
              (Log.pmfs_get_append_head (D := pmfs_def_x86)) 8
              (Log.dir_fs dir_a) (Log.dir_pi dir_a) (Log.dir_inode dir_a)
              (Log.dir_sih dir_a) dentry_a 0 (log_tail (Log.dir_pi dir_a))
              4192 (Log.dir_fs dir_a) (Log.dir_pi dir_a) (Log.dir_sih dir_a))
    as (r & Hr & _ & _ & Hfind & _ & _ & Hino & _).
  - discriminate.
  - reflexivity.
  - vm_compute. discriminate.
  - repeat constructor; vm_compute; discriminate.
  - vm_compute. reflexivity.
  - discriminate.
  - vm_compute. reflexivity.
  - vm_compute. reflexivity.
  - exists r. split; [exact Hr|]. split; [exact Hfind | exact Hino].
Defined.

(* ====================================================================== *)
(** ** dir.c: the replay *)



Section ReplayFacts.
Context {D : PmfsDef}.
Variable pmfs_apply_setattr_entry : mem -> pmfs_inode -> Z -> pmfs_inode.
Variable pmfs_apply_link_change_entry : mem -> pmfs_inode -> Z -> pmfs_inode.







End ReplayFacts.


(* ====================================================================== *)
(** ** inode.c: appending to and freeing the inode log *)

Lemma free_log_loop_chain (pages : list Z) :
  forall (s : fs) (btype curr : Z),
    Inode.log_chain (S (length pages)) (pmem s) curr = Some pages ->
    Inode.free_log_loop (S (length pages)) s btype curr
    = Some (set_freed
              (freed s ++ map (fun p => (pmfs_get_blocknr p, btype)) pages) s).
Proof.
  induction pages as [|p rest IH]; intros s btype curr H.
  - simpl in H. simpl. destruct (curr =? 0); [|discriminate].
    rewrite app_nil_r. destruct s; reflexivity.
  - change (Inode.log_chain (S (length (p :: rest))) (pmem s) curr)
      with (if curr =? 0 then Some []
            else option_map (cons curr)
                   (Inode.log_chain (S (length rest)) (pmem s)
                      (load64 (pmem s) (curr + Inode.page_next_off)))) in H.
    change (Inode.free_log_loop (S (length (p :: rest))) s btype curr)
      with (if curr =? 0 then Some s
            else Inode.free_log_loop (S (length rest))
                   (Inode.__pmfs_free_log_block s (pmfs_get_blocknr curr) btype)
                   btype (load64 (pmem s) (curr + Inode.page_next_off))).
    destruct (curr =? 0); [discriminate|].
    destruct (Inode.log_chain (S (length rest)) (pmem s) _) as [l|] eqn:E;
      simpl in H; [|discriminate].
    inversion H; subst p l. clear H.
    rewrite (IH (Inode.__pmfs_free_log_block s (pmfs_get_blocknr curr) btype)
               btype _ E).
    unfold Inode.__pmfs_free_log_block, pmfs_free_data_block, set_freed.
    simpl. rewrite <- app_assoc. reflexivity.
Qed.

(** X17: pmfs_free_inode_log on a log whose head and tail are set walks
    the page chain from log_head to its end and hands every page of it,
    once and in chain order, to the allocator; it writes nothing to the
    region and leaves log_head, log_tail and log_pages at 0.  When log_head
    or log_tail is 0 it does nothing at all: a log whose tail was never
    published keeps its pages. *)
Theorem free_inode_log_frees_chain (s : fs) (pi : pmfs_inode)
    (pages : list Z) :
  Inode.log_chain (S (length pages)) (pmem s) (log_head pi) = Some pages ->
  (log_head pi <> 0 -> log_tail pi <> 0 ->
   Inode.pmfs_free_inode_log (S (length pages)) s pi
   = Some (set_freed
             (freed s
              ++ map (fun p => (pmfs_get_blocknr p, i_blk_type pi)) pages) s,
           set_log_pages 0 (set_log_tail 0 (set_log_head 0 pi)))) /\
  (log_head pi = 0 \/ log_tail pi = 0 ->
   Inode.pmfs_free_inode_log (S (length pages)) s pi = Some (s, pi)).
Proof.
  intros Hc. unfold Inode.pmfs_free_inode_log. split.
  - intros Hh Ht.
    destruct (Z.eqb_spec (log_head pi) 0); [contradiction|].
    destruct (Z.eqb_spec (log_tail pi) 0); [contradiction|].
    simpl orb. cbv iota. rewrite (free_log_loop_chain pages s _ _ Hc).
    reflexivity.
  - intros [H|H]; rewrite H; rewrite ?orb_true_r; reflexivity.
Qed.

(** The two-page log of [gc_fs]: blocks 1 and 2 go back to the allocator. *)
Lemma free_inode_log_frees_chain_witness :
  Inode.pmfs_free_inode_log 3 gc_fs gc_pi
  = Some (set_freed [(1, 0); (2, 0)] gc_fs,
          set_log_pages 0 (set_log_tail 0 (set_log_head 0 gc_pi))).
Proof.
  destruct (free_inode_log_frees_chain gc_fs gc_pi [4096; 8192]) as [H _].
  - vm_compute. reflexivity.
  - apply H; discriminate.
Defined.

Lemma write_inode_entry_fields (m : mem) (p start_blk num_blocks block : Z) :
  let m' := Inode.write_inode_entry m p start_blk num_blocks block in
  load32 m' (p + Inode.ie_pgoff) = u32 start_blk /\
  load32 m' (p + Inode.ie_num_pages) = u32 num_blocks /\
  load64 m' (p + Inode.ie_block) = u64 block /\
  (forall x, x < p \/ p + 16 <= x -> m' x = m x).
Proof.
  cbv zeta. unfold Inode.write_inode_entry, Inode.ie_pgoff, Inode.ie_num_pages,
    Inode.ie_block.
  rewrite ?Z.add_0_r.
  repeat split.
  - mem_simpl. reflexivity.
  - mem_simpl. reflexivity.
  - mem_simpl. reflexivity.
  - intros x Hx. mem_simpl. reflexivity.
Qed.

Lemma page_start_not_last (b : Z) : Inode.is_last_entry (b * 4096) = false.
Proof.
  unfold Inode.is_last_entry, Hdr.ENTRY_LOC, Hdr.INVALID_MASK.
  change 4095 with (Z.ones 12). rewrite Z.land_ones by lia.
  change (2 ^ 12) with 4096. rewrite Z.mod_mul by lia. reflexivity.
Qed.

(** X18: the first append to an inode without a log (log_tail == 0) asks
    for one page.  When the allocator has none the call returns 0 and
    leaves the inode and the region alone.  When it grants block [b] the
    record is written at the start of that page and reads back (pgoff,
    num_pages, block), log_head is the page and log_pages is 1, while
    log_tail is still 0: publishing the tail is left to the caller. *)
Theorem append_inode_entry_first (fuel : nat) (s : fs) (pi : pmfs_inode)
    (blocknr start_blk num_blocks : Z) :
  log_tail pi = 0 ->
  (forall b rest,
     balloc s = Some b :: rest -> 0 < b -> (b + 1) * 4096 < 2 ^ 64 ->
     exists s',
       Inode.pmfs_append_inode_entry fuel s pi blocknr start_blk num_blocks
       = Some (b * 4096, s', set_log_pages 1 (set_log_head (b * 4096) pi)) /\
       balloc s' = rest /\ freed s' = freed s /\
       load32 (pmem s') (b * 4096 + Inode.ie_pgoff) = u32 start_blk /\
       load32 (pmem s') (b * 4096 + Inode.ie_num_pages) = u32 num_blocks /\
       load64 (pmem s') (b * 4096 + Inode.ie_block)
       = pmfs_get_block_off blocknr /\
       Inode.next_log_page (pmem s') (b * 4096 + Hdr.LAST_ENTRY) = 0 /\
       (forall x, x < b * 4096 \/ (b + 1) * 4096 <= x ->
                  pmem s' x = pmem s x)) /\
  (balloc s = [] \/ (exists rest, balloc s = None :: rest) ->
   exists s',
     Inode.pmfs_append_inode_entry fuel s pi blocknr start_blk num_blocks
     = Some (0, s', pi) /\
     pmem s' = pmem s /\ freed s' = freed s).
Proof.
  intros Ht. unfold Inode.pmfs_append_inode_entry. rewrite Ht.
  simpl orb. cbv iota. split.
  - intros b rest Hb Hb0 Hb1.
    destruct (allocate_links_batch s 1 b rest Hb ltac:(lia) Hb0 Hb1)
      as (s1 & Halloc & Hrest & Hfreed & Hchain & Hout).
    rewrite Halloc. simpl negb. cbv iota.
    rewrite page_start_not_last.
    destruct (write_inode_entry_fields (pmem s1) (b * 4096) start_blk
                num_blocks (pmfs_get_block_off blocknr))
      as (H1 & H2 & H3 & H4).
    eexists. split; [reflexivity|]. simpl pmem. simpl balloc. simpl freed.
    split; [exact Hrest|]. split; [exact Hfreed|].
    split; [exact H1|]. split; [exact H2|]. split.
    + rewrite H3. unfold pmfs_get_block_off, u64. apply Z.mod_mod. lia.
    + split.
      * unfold Inode.next_log_page, load64. rewrite (load_le_ext 8 _ (pmem s1)).
        2:{ intros x Hx. apply H4.
            unfold Hdr.LAST_ENTRY, Hdr.off_next_page in Hx. simpl in Hx. lia. }
        replace (b * 4096 + Hdr.LAST_ENTRY + Hdr.off_next_page)
          with (b * 4096 + Inode.page_next_off)
          by (unfold Inode.page_next_off; lia).
        fold (load64 (pmem s1) (b * 4096 + Inode.page_next_off)).
        set (nx := load64 (pmem s1) (b * 4096 + Inode.page_next_off)) in *.
        change (Inode.log_chain (S (Z.to_nat 1)) (pmem s1) (b * 4096))
          with (if b * 4096 =? 0 then Some []
                else option_map (cons (b * 4096))
                       (if nx =? 0 then Some []
                        else option_map (cons nx)
                               (Inode.log_chain 0 (pmem s1)
                                  (load64 (pmem s1) (nx + Inode.page_next_off)))))
          in Hchain.
        destruct (Z.eqb_spec (b * 4096) 0); [lia|].
        destruct (Z.eqb_spec nx 0) as [E|E]; [exact E|].
        simpl in Hchain. discriminate.
      * intros x Hx. rewrite H4 by lia. apply Hout. lia.
  - intros Hnone.
    assert (Ha : exists s1,
              Inode.pmfs_allocate_inode_log_pages s 1 = ((- ENOSPC, 0), s1) /\
              pmem s1 = pmem s /\ freed s1 = freed s).
    { unfold Inode.pmfs_allocate_inode_log_pages, pmfs_new_data_blocks.
      destruct Hnone as [E|[rest E]]; rewrite E; simpl;
        eexists; split; try reflexivity; split; reflexivity. }
    destruct Ha as (s1 & Ha & Hp & Hf). rewrite Ha. simpl.
    exists s1. split; [reflexivity|]. split; assumption.
Qed.

(** The first write to an inode without a log, the allocator granting
    block 5. *)
Lemma append_inode_entry_first_witness :
  exists s',
    Inode.pmfs_append_inode_entry 1 gc_fs zero_inode 9 1 1
    = Some (5 * 4096, s', set_log_pages 1 (set_log_head (5 * 4096) zero_inode))
    /\ load64 (pmem s') (5 * 4096 + Inode.ie_block) = pmfs_get_block_off 9.
Proof.
  destruct (append_inode_entry_first 1 gc_fs zero_inode 9 1 1) as [H _].
  - reflexivity.
  - destruct (H 5 []) as (s' & Ha & _ & _ & _ & _ & Hb & _).
    + reflexivity.
    + reflexivity.
    + reflexivity.
    + exists s'. split; [exact Ha | exact Hb].
Defined.

(** X19: an append to a log that needs no new page (the tail is set and
    is not at the last entry position of a page without successor) takes
    nothing from the allocator, runs no collection and leaves the inode as
    it is, log_tail included.  The record goes to log_tail, or to the next
    page when log_tail is at the last entry position; its pgoff, num_pages
    and block read back, and only its first 16 bytes are written. *)
Theorem append_inode_entry_in_log (fuel : nat) (s : fs) (pi : pmfs_inode)
    (blocknr start_blk num_blocks : Z) :
  log_tail pi <> 0 ->
  Inode.is_last_entry (log_tail pi)
  && (Inode.next_log_page (pmem s) (log_tail pi) =? 0) = false ->
  let p := if Inode.is_last_entry (log_tail pi)
           then Inode.next_log_page (pmem s) (log_tail pi)
           else log_tail pi in
  exists s',
    Inode.pmfs_append_inode_entry fuel s pi blocknr start_blk num_blocks
    = Some (p, s', pi) /\
    balloc s' = balloc s /\ freed s' = freed s /\
    load32 (pmem s') (p + Inode.ie_pgoff) = u32 start_blk /\
    load32 (pmem s') (p + Inode.ie_num_pages) = u32 num_blocks /\
    load64 (pmem s') (p + Inode.ie_block) = pmfs_get_block_off blocknr /\
    (forall x, x < p \/ p + 16 <= x -> pmem s' x = pmem s x).
Proof.
  intros Ht Hroom p. unfold Inode.pmfs_append_inode_entry.
  destruct (Z.eqb_spec (log_tail pi) 0); [contradiction|].
  rewrite Hroom. simpl orb. cbv iota. fold p.
  destruct (write_inode_entry_fields (pmem s) p start_blk num_blocks
              (pmfs_get_block_off blocknr)) as (H1 & H2 & H3 & H4).
  eexists. split; [reflexivity|]. simpl.
  split; [reflexivity|]. split; [reflexivity|].
  split; [exact H1|]. split; [exact H2|]. split; [|exact H4].
  rewrite H3. unfold pmfs_get_block_off, u64. apply Z.mod_mod. lia.
Qed.

(** An append in the middle of the head page of the log of [gc_fs]. *)
Lemma append_inode_entry_in_log_witness :
  exists s',
    Inode.pmfs_append_inode_entry 1 gc_fs (set_log_tail (4096 + 64) gc_pi) 9 1 1
    = Some (4096 + 64, s', set_log_tail (4096 + 64) gc_pi) /\
    load64 (pmem s') (4096 + 64 + Inode.ie_block) = pmfs_get_block_off 9.
Proof.
  destruct (append_inode_entry_in_log 1 gc_fs (set_log_tail (4096 + 64) gc_pi)
              9 1 1) as (s' & Ha & _ & _ & _ & _ & Hb & _).
  - discriminate.
  - reflexivity.
  - exists s'. split; [exact Ha | exact Hb].
Defined.

(* ====================================================================== *)
(** ** inode.c: what the collection pass gives back *)

Lemma forallb_agree {A : Type} (f g : A -> bool) (l : list A) :
  (forall x, In x l -> f x = g x) -> forallb f l = forallb g l.
Proof.
  induction l as [|a l IH]; intros H; simpl; [reflexivity|].
  rewrite (H a (or_introl eq_refl)), IH; [reflexivity|].
  intros x Hx. apply H. right. exact Hx.
Qed.

Lemma curr_page_invalid_frame (m1 m2 : mem) (q : Z) :
  (forall x, q <= x < q + Hdr.LAST_ENTRY -> m1 x = m2 x) ->
  Inode.curr_page_invalid m1 q = Inode.curr_page_invalid m2 q.
Proof.
  intros H. unfold Inode.curr_page_invalid. apply forallb_agree.
  intros i Hi. apply in_seq in Hi.
  change (Z.to_nat Hdr.ENTRIES_PER_PAGE) with 127%nat in Hi. unfold Inode.entry_invalid, load32, load64,
    Inode.ie_num_pages, Inode.ie_block, Inode.sizeof_inode_entry.
  unfold Hdr.LAST_ENTRY in H.
  rewrite (load_le_ext 4 m1 m2), (load_le_ext 8 m1 m2); [reflexivity | |];
    intros x Hx; apply H; lia.
Qed.

(** The loop of the collection over the pages behind the head. *)
Lemma gc_loop_behind_head (pi : pmfs_inode) (dead : Z -> bool)
    (rest : list Z) :
  Inode.is_last_entry (log_tail pi) = true ->
  0 <= log_tail pi < 2 ^ 52 ->
  forall (s : fs) (v : Inode.gc_vars),
    rest <> [] ->
    Inode.log_chain (S (length rest)) (pmem s) (Inode.gc_curr v) = Some rest ->
    forallb Inode.page_aligned rest = true ->
    Inode.distinct rest = true ->
    Forall (fun p => 0 <= p < 2 ^ 52) rest ->
    ~ In (log_head pi) rest ->
    Inode.page_aligned (Inode.gc_last_page v) = true ->
    ~ In (Inode.gc_last_page v) rest ->
    (forall q, In q rest -> Inode.curr_page_invalid (pmem s) q = dead q) ->
    exists s' v',
      Inode.gc_loop (length rest) s pi v = Some (s', v') /\
      freed s'
      = freed s ++ map (fun p => (pmfs_get_blocknr p, i_blk_type pi))
                       (filter dead rest) /\
      balloc s' = balloc s /\
      Inode.gc_first_need_free v' = Inode.gc_first_need_free v /\
      Inode.gc_possible_head v'
      = (if Inode.gc_found_head v then Inode.gc_possible_head v
         else match find (fun p => negb (dead p)) rest with
              | Some p => p
              | None => Inode.gc_possible_head v
              end).
Proof.
  intros Hlast Htail.
  induction rest as [|p rest IH];
    intros s v Hne Hchain Hal Hd Hb Hnh Hlp Hnin Hdead; [contradiction|].
  simpl length. simpl Inode.gc_loop.
  change (Inode.log_chain (S (length (p :: rest))) (pmem s) (Inode.gc_curr v))
    with (if Inode.gc_curr v =? 0 then Some []
          else option_map (cons (Inode.gc_curr v))
                 (Inode.log_chain (S (length rest)) (pmem s)
                    (load64 (pmem s) (Inode.gc_curr v + Inode.page_next_off))))
    in Hchain.
  destruct (Z.eqb_spec (Inode.gc_curr v) 0) as [|Hc0]; [discriminate|].
  destruct (Inode.log_chain (S (length rest)) (pmem s) _) as [l1|] eqn:Erest;
    simpl in Hchain; [|discriminate].
  inversion Hchain as [[Hcur Hl1]]. subst l1. clear Hchain.
  simpl in Hal. apply andb_prop in Hal as [Hap Har].
  simpl in Hd. apply andb_prop in Hd as [Hpn Hdr].
  apply negb_true_iff in Hpn. apply existsb_eqb_In in Hpn.
  apply Forall_cons_iff in Hb as [Hbp Hbr].
  unfold Inode.gc_step. rewrite Hcur. rewrite Hcur in Erest.
  rewrite (gc_guard_false p (log_tail pi) Hap Hlast Hbp Htail).
  set (next := load64 (pmem s) (p + Inode.page_next_off)) in *.
  rewrite (Hdead p (or_introl eq_refl)).
  assert (Hph : (p =? log_head pi) = false).
  { apply Z.eqb_neq. intros E. apply Hnh. left. exact E. }
  destruct (dead p) eqn:Edp.
  - (* the page is given back *)
    rewrite Hph.
    set (s1 := Inode.free_curr_page s pi p (Inode.gc_last_page v) p).
    assert (Hf1 : freed s1 = freed s ++ [(pmfs_get_blocknr p, i_blk_type pi)])
      by reflexivity.
    assert (Hb1 : balloc s1 = balloc s) by reflexivity.
    destruct (Z.eqb_spec next 0) as [En|En].
    + destruct rest as [|q rest'].
      * exists s1. eexists. split; [reflexivity|]. simpl.
        rewrite Edp. simpl. split; [exact Hf1|]. split; [exact Hb1|].
        split; [reflexivity|]. destruct (Inode.gc_found_head v); reflexivity.
      * exfalso. simpl in Erest. rewrite En in Erest. simpl in Erest.
        discriminate.
    + destruct rest as [|q rest'].
      { simpl in Erest. destruct (Z.eqb_spec next 0); [contradiction | discriminate]. }
      assert (Hfr : forall q0, In q0 (q :: rest') ->
                forall x, q0 <= x < q0 + 4096 -> pmem s1 x = pmem s x).
      { intros q0 Hq0 x Hx. unfold s1. apply free_curr_page_mem.
        assert (Hq0a : Inode.page_aligned q0 = true)
          by (rewrite forallb_forall in Har; apply Har; exact Hq0).
        assert (Hq0n : q0 <> Inode.gc_last_page v)
          by (intros ->; apply Hnin; right; exact Hq0).
        destruct (aligned_apart _ _ Hq0a Hlp Hq0n);
          unfold Inode.page_next_off, Hdr.LAST_ENTRY, Hdr.off_next_page; lia. }
      destruct (IH s1 (Inode.mk_gc_vars next (Inode.gc_possible_head v)
                         (Inode.gc_found_head v) (Inode.gc_last_page v)
                         (Inode.gc_first_need_free v)))
        as (s' & v' & Hl & Hf & Hba & Hfn & Hpo); try assumption;
        try discriminate.
      * simpl Inode.gc_curr.
        apply (log_chain_frame _ (pmem s)); [exact Erest|].
        intros q0 Hq0. unfold load64. apply load_le_ext. intros x Hx.
        apply (Hfr q0 Hq0).
        unfold Inode.page_next_off, Hdr.LAST_ENTRY, Hdr.off_next_page in Hx.
        simpl in Hx. lia.
      * intros Hin. apply Hnh. right. exact Hin.
      * simpl. intros Hin. apply Hnin. right. exact Hin.
      * intros q0 Hq0. rewrite <- (Hdead q0 (or_intror Hq0)).
        apply curr_page_invalid_frame. intros x Hx. apply (Hfr q0 Hq0).
        unfold Hdr.LAST_ENTRY in Hx. lia.
      * exists s', v'. split; [exact Hl|]. simpl filter.
        rewrite Edp. simpl map.
        split; [rewrite Hf, Hf1, <- app_assoc; reflexivity|].
        split; [rewrite Hba; exact Hb1|]. split; [exact Hfn|].
        simpl find. rewrite Edp. simpl negb. cbv iota.
        simpl in Hpo. exact Hpo.
  - (* the page holds a live entry *)
    destruct (Z.eqb_spec next 0) as [En|En].
    + destruct rest as [|q rest'].
      * exists s. eexists. split; [reflexivity|]. simpl.
        rewrite Edp. simpl. rewrite app_nil_r. split; [reflexivity|].
        split; [reflexivity|]. split; [reflexivity|].
        destruct (Inode.gc_found_head v); reflexivity.
      * exfalso. simpl in Erest. rewrite En in Erest. simpl in Erest.
        discriminate.
    + destruct rest as [|q rest'].
      { simpl in Erest. destruct (Z.eqb_spec next 0); [contradiction | discriminate]. }
      destruct (IH s (Inode.mk_gc_vars next
                        (if Inode.gc_found_head v
                         then Inode.gc_possible_head v else p)
                        true p (Inode.gc_first_need_free v)))
        as (s' & v' & Hl & Hf & Hba & Hfn & Hpo); try assumption;
        try discriminate.
      * intros Hin. apply Hnh. right. exact Hin.
      * intros q0 Hq0. apply Hdead. right. exact Hq0.
      * exists s', v'. split; [exact Hl|]. simpl filter.
        rewrite Edp. simpl find. rewrite Edp. simpl negb. cbv iota.
        split; [exact Hf|]. split; [exact Hba|].
        split; [exact Hfn|]. simpl in Hpo. exact Hpo.
Qed.

(** X20: on a log whose pages are page-aligned and distinct and whose tail
    stands at the last entry position of a page, the collection pass gives
    back to the allocator every page of the chain all of whose entries are
    invalid, the tail page like any other, and no page that holds a live
    entry: the pages behind the head go first, in chain order, the head
    page last.  log_head becomes the first page with a live entry, or 0 when
    none has one, log_tail the new block, and log_pages grows by the batch
    although pages were given back. *)
Theorem gc_frees_every_invalid_page (s : fs) (pi : pmfs_inode)
    (new_block num_pages : Z) (pages : list Z) :
  log_head pi <> 0 ->
  Inode.log_chain (S (length pages)) (pmem s) (log_head pi) = Some pages ->
  forallb Inode.page_aligned pages = true ->
  Inode.distinct pages = true ->
  Forall (fun p => 0 <= p < 2 ^ 52) pages ->
  Inode.is_last_entry (log_tail pi) = true ->
  0 <= log_tail pi < 2 ^ 52 ->
  let dead := Inode.curr_page_invalid (pmem s) in
  exists s' pi',
    Inode.pmfs_inode_log_garbage_collection (length pages) s pi new_block
      num_pages = Some (s', pi') /\
    freed s'
    = freed s ++ map (fun p => (pmfs_get_blocknr p, i_blk_type pi))
                     (filter dead (tl pages) ++ filter dead (firstn 1 pages)) /\
    balloc s' = balloc s /\
    log_head pi'
    = match find (fun p => negb (dead p)) pages with
      | Some p => p
      | None => 0
      end /\
    log_tail pi' = new_block /\
    log_pages pi' = log_pages pi + num_pages.
Proof.
  intros Hh Hchain Hal Hd Hb Hlast Htail dead.
  destruct pages as [|p0 rest].
  { simpl in Hchain. destruct (Z.eqb_spec (log_head pi) 0);
      [contradiction | discriminate]. }
  change (Inode.log_chain (S (length (p0 :: rest))) (pmem s) (log_head pi))
    with (if log_head pi =? 0 then Some []
          else option_map (cons (log_head pi))
                 (Inode.log_chain (S (length rest)) (pmem s)
                    (load64 (pmem s) (log_head pi + Inode.page_next_off))))
    in Hchain.
  destruct (Z.eqb_spec (log_head pi) 0) as [|_]; [contradiction|].
  destruct (Inode.log_chain (S (length rest)) (pmem s) _) as [l1|] eqn:Erest;
    simpl in Hchain; [|discriminate].
  inversion Hchain as [[Hcur Hl1]]. subst l1. clear Hchain.
  simpl in Hal. apply andb_prop in Hal as [Hap Har].
  simpl in Hd. apply andb_prop in Hd as [Hpn Hdr].
  apply negb_true_iff in Hpn. apply existsb_eqb_In in Hpn.
  apply Forall_cons_iff in Hb as [Hbp Hbr].
  unfold Inode.pmfs_inode_log_garbage_collection.
  simpl length. simpl Inode.gc_loop. unfold Inode.gc_step.
  simpl Inode.gc_curr. rewrite Hcur in *.
  rewrite (gc_guard_false p0 (log_tail pi) Hap Hlast Hbp Htail).
  set (next := load64 (pmem s) (p0 + Inode.page_next_off)) in *.
  fold (dead p0). rewrite Z.eqb_refl.
  simpl tl. simpl firstn. simpl find. simpl filter.
  destruct (dead p0) eqn:Edp; simpl negb; cbv iota.
  - (* the head page is dead: it is given back at the end *)
    simpl Inode.gc_possible_head. simpl Inode.gc_found_head.
    simpl Inode.gc_last_page. simpl Inode.gc_first_need_free.
    destruct (Z.eqb_spec next 0) as [En|En].
    + destruct rest as [|q rest'].
      * eexists. eexists. split; [reflexivity|]. simpl.
        repeat split; reflexivity.
      * exfalso. simpl in Erest. rewrite En in Erest. simpl in Erest.
        discriminate.
    + destruct rest as [|q rest'].
      { simpl in Erest. destruct (Z.eqb_spec next 0); [contradiction | discriminate]. }
      destruct (gc_loop_behind_head pi dead (q :: rest') Hlast Htail s
                  (Inode.mk_gc_vars next 0 false p0 true))
        as (s' & v' & Hl & Hf & Hba & Hfn & Hpo); try assumption;
        try discriminate; try (intros; reflexivity);
        try (rewrite Hcur; exact Hpn).
      rewrite Hl. simpl in Hfn, Hpo. rewrite Hfn.
      eexists. eexists. split; [reflexivity|].
      simpl freed. simpl balloc. simpl log_head. simpl log_tail.
      simpl log_pages. unfold pmfs_free_data_block. simpl freed.
      rewrite Hf, map_app, app_assoc, ?Hcur. simpl map.
      split; [reflexivity|]. split; [exact Hba|].
      split; [|split; reflexivity].
      rewrite Hpo. reflexivity.
  - (* the head page holds a live entry *)
    simpl Inode.gc_possible_head. simpl Inode.gc_found_head.
    simpl Inode.gc_last_page. simpl Inode.gc_first_need_free.
    destruct (Z.eqb_spec next 0) as [En|En].
    + destruct rest as [|q rest'].
      * eexists. eexists. split; [reflexivity|]. simpl.
        rewrite app_nil_r. repeat split; reflexivity.
      * exfalso. simpl in Erest. rewrite En in Erest. simpl in Erest.
        discriminate.
    + destruct rest as [|q rest'].
      { simpl in Erest. destruct (Z.eqb_spec next 0); [contradiction | discriminate]. }
      destruct (gc_loop_behind_head pi dead (q :: rest') Hlast Htail s
                  (Inode.mk_gc_vars next p0 true p0 false))
        as (s' & v' & Hl & Hf & Hba & Hfn & Hpo); try assumption;
        try discriminate; try (intros; reflexivity);
        try (rewrite Hcur; exact Hpn).
      rewrite Hl. simpl in Hfn, Hpo. rewrite Hfn.
      eexists. eexists. split; [reflexivity|].
      simpl freed. simpl balloc. simpl log_head. simpl log_tail.
      simpl log_pages.
      rewrite Hf, app_nil_r.
      split; [reflexivity|]. split; [exact Hba|].
      split; [|split; reflexivity].
      rewrite Hpo. reflexivity.
Qed.

(** The two-page log of [gc_fs]: the tail page is given back, the head
    page, which holds a live entry, is kept. *)
Lemma gc_frees_every_invalid_page_witness :
  exists s' pi',
    Inode.pmfs_inode_log_garbage_collection 2 gc_fs gc_pi 20480 2
    = Some (s', pi') /\
    freed s' = [(2, 0)] /\ log_head pi' = 4096.
Proof.
  destruct (gc_frees_every_invalid_page gc_fs gc_pi 20480 2 [4096; 8192])
    as (s' & pi' & Hg & Hf & _ & Hh & _).
  - discriminate.
  - vm_compute. reflexivity.
  - vm_compute. reflexivity.
  - vm_compute. reflexivity.
  - repeat constructor; vm_compute; discriminate.
  - vm_compute. reflexivity.
  - vm_compute. split; [discriminate | reflexivity].
  - exists s', pi'. split; [exact Hg|]. split.
    + rewrite Hf. vm_compute. reflexivity.
    + rewrite Hh. vm_compute. reflexivity.
Defined.

(* ====================================================================== *)
(** ** inode.c: leaving the truncate list *)

Section TruncateDelFacts.
Import Inode Persist.

Lemma pm_loc_eqb_refl (a : pm_loc) : pm_loc_eqb a a = true.
Proof. apply pm_loc_eqb_eq. reflexivity. Qed.

Lemma pm_loc_eqb_neq (a b : pm_loc) : a <> b -> pm_loc_eqb a b = false.
Proof.
  intros H. destruct (pm_loc_eqb a b) eqn:E; [|reflexivity].
  apply pm_loc_eqb_eq in E. contradiction.
Qed.

Lemma truncate_prev_in (i : Z) (l : list Z) : forall a,
  In i l ->
  exists q, truncate_prev (Some a) l i = Some q /\ In q (a :: l).
Proof.
  induction l as [|b l IH]; intros a Hin; [contradiction|].
  simpl truncate_prev. destruct (Z.eqb_spec b i) as [->|Hb].
  - exists a. split; [reflexivity | left; reflexivity].
  - destruct Hin as [E|Hin]; [contradiction|].
    destruct (IH b Hin) as (q & Hq & Hqin).
    exists q. split; [exact Hq | right; exact Hqin].
Qed.

Lemma filter_not_in (i : Z) (L : list (Z * Z)) :
  ~ In i (map fst L) -> filter (fun e => negb (fst e =? i)) L = L.
Proof.
  induction L as [|[a z] L IH]; intros H; simpl; [reflexivity|].
  destruct (Z.eqb_spec a i) as [->|Ha].
  - exfalso. apply H. left. reflexivity.
  - simpl. rewrite IH; [reflexivity|]. intros Hin. apply H. right. exact Hin.
Qed.

Lemma list_del_init_filter (i : Z) (L : list (Z * Z)) :
  NoDup (map fst L) ->
  list_del_init (map fst L) i
  = map fst (filter (fun e => negb (fst e =? i)) L).
Proof.
  induction L as [|[a z] L IH]; intros Hnd; simpl; [reflexivity|].
  inversion Hnd as [|? ? Hnin Hnd']; subst.
  destruct (Z.eqb_spec a i) as [->|Ha]; simpl.
  - rewrite filter_not_in by exact Hnin. reflexivity.
  - rewrite IH by exact Hnd'. reflexivity.
Qed.

(** The walk of the list after the store of the unlink. *)
Lemma unlink_walk (i : Z) (w : pm_loc -> Z) :
  forall (fuel : nat) (start : Z) (L : list (Z * Z)) (prev : option Z),
    truncate_list fuel w start = Some L ->
    NoDup (map fst L) -> In i (map fst L) ->
    (forall p, prev = Some p -> ~ In p (map fst L)) ->
    truncate_list fuel
      (fun x => if pm_loc_eqb x
                     (truncate_link (truncate_prev prev (map fst L) i))
                then w (ItemNext i) else w x)
      (if start =? i then w (ItemNext i) else start)
    = Some (filter (fun e => negb (fst e =? i)) L).
Proof.
  induction fuel as [|k IH]; intros start L prev H Hnd Hin Hprev;
    [discriminate|].
  simpl in H.
  destruct (Z.eqb_spec start 0) as [|Hs0].
  { inversion H; subst L. contradiction. }
  destruct (truncate_list k w (w (ItemNext start))) as [L1|] eqn:E;
    simpl in H; [|discriminate].
  inversion H; subst L. clear H.
  simpl map in *. inversion Hnd as [|? ? Hnin Hnd1]; subst.
  simpl truncate_prev. simpl filter.
  destruct (Z.eqb_spec start i) as [->|Hsi].
  - (* the item is the first of the walk *)
    simpl negb. cbv iota. rewrite filter_not_in by exact Hnin.
    apply (truncate_list_frame _ w); [apply truncate_list_fuel; exact E|].
    intros j Hj.
    assert (Hne : pm_loc_eqb (ItemNext j) (truncate_link prev) = false).
    { destruct prev as [p|]; simpl; [|reflexivity].
      apply Z.eqb_neq. intros ->.
      apply (Hprev p eq_refl). right. exact Hj. }
    rewrite Hne.
    assert (Hne2 : pm_loc_eqb (ItemSize j) (truncate_link prev) = false)
      by (destruct prev; reflexivity).
    rewrite Hne2. split; reflexivity.
  - (* the item is further down *)
    destruct Hin as [Hin|Hin]; [contradiction|].
    simpl negb. cbv iota.
    set (tgt := truncate_prev (Some start) (map fst L1) i).
    set (w' := fun x => if pm_loc_eqb x (truncate_link tgt)
                        then w (ItemNext i) else w x).
    assert (IH1 := IH (w (ItemNext start)) L1 (Some start) E Hnd1 Hin).
    fold tgt in IH1. fold w' in IH1.
    assert (IH2 : truncate_list k w'
                    (if w (ItemNext start) =? i then w (ItemNext i)
                     else w (ItemNext start))
                  = Some (filter (fun e => negb (fst e =? i)) L1)).
    { apply IH1. intros p Hp. inversion Hp; subst p. exact Hnin. }
    clear IH1.
    change (truncate_list (S k) w' start)
      with (if start =? 0 then Some []
            else option_map (cons (start, w' (ItemSize start)))
                   (truncate_list k w' (w' (ItemNext start)))).
    destruct (Z.eqb_spec start 0) as [|_]; [contradiction|].
    assert (Hsz : w' (ItemSize start) = w (ItemSize start)).
    { unfold w'. destruct (truncate_link tgt) eqn:El; try reflexivity.
      unfold truncate_link in El. destruct tgt; discriminate. }
    assert (Hnx : w' (ItemNext start)
                  = if w (ItemNext start) =? i then w (ItemNext i)
                    else w (ItemNext start)).
    { destruct k as [|k']; [discriminate|]. simpl in E.
      destruct (Z.eqb_spec (w (ItemNext start)) 0) as [|Hn0].
      { inversion E; subst L1. contradiction. }
      destruct (truncate_list k' w _) as [L2|]; simpl in E; [|discriminate].
      inversion E; subst L1. clear E.
      unfold w', tgt. simpl map. simpl truncate_prev.
      destruct (Z.eqb_spec (w (ItemNext start)) i) as [Hn|Hn].
      - simpl. rewrite Z.eqb_refl. reflexivity.
      - simpl in Hin. destruct Hin as [Hin|Hin]; [contradiction|].
        destruct (truncate_prev_in i (map fst L2) (w (ItemNext start)) Hin)
          as (q & Hq & Hqin).
        rewrite Hq. simpl.
        assert (Hqs : q <> start).
        { intros ->. apply Hnin. simpl. exact Hqin. }
        destruct (Z.eqb_spec start q); [congruence | reflexivity]. }
    rewrite Hsz, Hnx, IH2. reflexivity.
Qed.

(** What a crash can leave of the unlink: the old words, or the old words
    with the one store applied. *)
Lemma crash_unlink (w : pm_loc -> Z) (X : pm_loc) (v : Z) (k : nat)
    (img : pm_loc -> Z) :
  crash_image
    (pm_run (mk_pm w [])
       (firstn k [Mark; Barrier; Store X v; Flush X; Mark; Barrier])) img ->
  (forall l, img l = w l) \/
  (forall l, img l = if pm_loc_eqb l X then v else w l).
Proof.
  intros H.
  assert (Hpend : forall f,
            crash_image (mk_pm w [(X, v, f)]) img ->
            (forall l, img l = w l) \/
            (forall l, img l = if pm_loc_eqb l X then v else w l)).
  { intros f Hc. unfold crash_image in Hc. simpl in Hc.
    destruct (Hc X) as [HX|(v0 & f0 & [E|[]] & HX)].
    - left. intros l. destruct (Hc l) as [Hl|(v1 & f1 & [E|[]] & Hl)];
        [exact Hl|]. injection E as E1 E2 E3. congruence.
    - injection E as E1 E2. right. intros l.
      destruct (pm_loc_eqb l X) eqn:El.
      + apply pm_loc_eqb_eq in El. congruence.
      + destruct (Hc l) as [Hl|(v1 & f1 & [E3|[]] & Hl)]; [exact Hl|].
        injection E3 as E3 E4 E5. rewrite <- E3, pm_loc_eqb_refl in El.
        discriminate. }
  assert (Hold : crash_image (mk_pm w []) img -> forall l, img l = w l).
  { intros Hc l. destruct (Hc l) as [Hl|(v1 & f1 & [] & _)]. exact Hl. }
  assert (Hnew : crash_image
                   (mk_pm (fun x => if pm_loc_eqb x X then v else w x) []) img ->
                 forall l, img l = if pm_loc_eqb l X then v else w l).
  { intros Hc l. destruct (Hc l) as [Hl|(v1 & f1 & [] & _)]. exact Hl. }
  do 3 (destruct k as [|k]; [left; apply Hold; exact H|]).
  destruct k as [|k]; [apply (Hpend false); exact H|].
  destruct k as [|k].
  { apply (Hpend true). cbn in H. rewrite pm_loc_eqb_refl in H. exact H. }
  destruct k as [|k].
  { apply (Hpend true). cbn in H. rewrite pm_loc_eqb_refl in H. exact H. }
  right. apply Hnew. cbn [firstn] in H. rewrite firstn_nil in H.
  cbn in H. rewrite pm_loc_eqb_refl in H. exact H.
Qed.

Lemma truncate_list_pointwise (fuel : nat) (img w : pm_loc -> Z)
    (L : list (Z * Z)) :
  (forall l, img l = w l) ->
  truncate_list fuel w (w HeadNext) = Some L ->
  truncate_list fuel img (img HeadNext) = Some L.
Proof.
  intros Hp H. rewrite (Hp HeadNext).
  apply (truncate_list_frame _ w); [exact H|].
  intros j _. split; apply Hp.
Qed.

Lemma In_on_truncate_list (t : truncate_state) (ino : Z) :
  In ino (s_truncate t) -> on_truncate_list t ino = true.
Proof.
  intros H. unfold on_truncate_list. apply existsb_exists.
  exists ino. split; [exact H | apply Z.eqb_refl].
Qed.

Lemma truncate_del_on (t : truncate_state) (i : Z) :
  on_truncate_list t i = true ->
  pmfs_truncate_del t i
  = mk_ts (fun x => if pm_loc_eqb x
                         (truncate_link (truncate_prev None (s_truncate t) i))
                    then ts_word t (ItemNext i) else ts_word t x)
          (list_del_init (s_truncate t) i)
          (ts_events t
           ++ truncate_del_events (truncate_prev None (s_truncate t) i)
                (ts_word t (ItemNext i))).
Proof.
  intros H. unfold pmfs_truncate_del. rewrite H. simpl negb. cbv iota.
  unfold truncate_del_events, ts_store, ts_emit. simpl.
  destruct (truncate_prev None (s_truncate t) i); simpl;
    repeat rewrite <- app_assoc; reflexivity.
Qed.

(** X21: pmfs_truncate_del on an inode that is on the truncate list, when
    the list read from the persistent words mirrors the DRAM list, takes
    the inode off both: the DRAM list loses its node, and the list read
    from the head on is the old one without the item.  The function issues
    exactly one store, to the [next] word in front of the item (the head's
    or the previous item's), between two barriers; whatever prefix of its
    events a crash cuts, recovery reads the old list or the old list
    without the item, nothing in between. *)
Theorem truncate_del_unlinks_with_one_store (t : truncate_state)
    (i_ino : Z) (fuel : nat) (L : list (Z * Z)) :
  truncate_list fuel (ts_word t) (ts_word t HeadNext) = Some L ->
  map fst L = s_truncate t ->
  NoDup (s_truncate t) ->
  In i_ino (s_truncate t) ->
  let t' := pmfs_truncate_del t i_ino in
  let L' := filter (fun e => negb (fst e =? i_ino)) L in
  s_truncate t' = map fst L' /\
  truncate_list fuel (ts_word t') (ts_word t' HeadNext) = Some L' /\
  exists link,
    ts_events t'
    = ts_events t ++ [Mark; Barrier; Store link (ts_word t (ItemNext i_ino));
                      Flush link; Mark; Barrier] /\
    (forall l, l <> link -> ts_word t' l = ts_word t l) /\
    (forall pre post img,
       [Mark; Barrier; Store link (ts_word t (ItemNext i_ino));
        Flush link; Mark; Barrier] = pre ++ post ->
       crash_image (pm_run (mk_pm (ts_word t) []) pre) img ->
       truncate_list fuel img (img HeadNext) = Some L \/
       truncate_list fuel img (img HeadNext) = Some L').
Proof.
  intros HL Hmirror Hnd Hin t' L'.
  set (w := ts_word t) in *.
  set (tgt := truncate_prev None (s_truncate t) i_ino).
  set (w' := fun x => if pm_loc_eqb x (truncate_link tgt)
                      then w (ItemNext i_ino) else w x).
  assert (Hdel := truncate_del_on t i_ino (In_on_truncate_list t i_ino Hin)).
  fold t' in Hdel. fold tgt in Hdel. fold w in Hdel. fold w' in Hdel.
  assert (Hw' : ts_word t' = w') by (rewrite Hdel; reflexivity).
  assert (Hl' : s_truncate t' = list_del_init (s_truncate t) i_ino)
    by (rewrite Hdel; reflexivity).
  assert (Hev : ts_events t'
                = ts_events t ++ truncate_del_events tgt (w (ItemNext i_ino)))
    by (rewrite Hdel; reflexivity).
  assert (Hwalk : truncate_list fuel w' (w' HeadNext) = Some L').
  { pose proof (unlink_walk i_ino w fuel (w HeadNext) L None HL) as Hu.
    rewrite Hmirror in Hu. fold tgt in Hu. fold w' in Hu.
    assert (Hhead : w' HeadNext
                    = if w HeadNext =? i_ino then w (ItemNext i_ino)
                      else w HeadNext).
    { destruct fuel as [|k]; [discriminate|]. simpl in HL.
      destruct (Z.eqb_spec (w HeadNext) 0) as [|Hn0].
      { inversion HL; subst L. rewrite <- Hmirror in Hin. contradiction. }
      destruct (truncate_list k w _) as [L1|]; simpl in HL; [|discriminate].
      inversion HL; subst L. clear HL.
      unfold w', tgt. rewrite <- Hmirror. simpl map. simpl truncate_prev.
      destruct (Z.eqb_spec (w HeadNext) i_ino) as [Hh|Hh];
        [reflexivity|].
      rewrite <- Hmirror in Hin. simpl in Hin.
      destruct Hin as [Hin|Hin]; [contradiction|].
      destruct (truncate_prev_in i_ino (map fst L1) (w HeadNext) Hin)
        as (q & Hq & _).
      rewrite Hq. reflexivity. }
    rewrite Hhead. apply Hu; [exact Hnd | exact Hin |].
    intros p Hp. discriminate Hp. }
  split.
  { rewrite Hl', <- Hmirror. apply list_del_init_filter.
    rewrite Hmirror. exact Hnd. }
  split; [rewrite Hw'; exact Hwalk|].
  exists (truncate_link tgt).
  split; [exact Hev|].
  split.
  { intros l Hl. rewrite Hw'. unfold w'.
    rewrite (pm_loc_eqb_neq _ _ Hl). reflexivity. }
  intros pre post img E Hc.
  rewrite (prefix_firstn _ pre post E) in Hc.
  destruct (crash_unlink w (truncate_link tgt) (w (ItemNext i_ino))
              (length pre) img Hc) as [Ho|Hn].
  - left. apply (truncate_list_pointwise fuel img w L Ho HL).
  - right. apply (truncate_list_pointwise fuel img w' L' Hn Hwalk).
Qed.

(** Inode 3, the only one on the list of [truncate0], leaves it. *)
Lemma truncate_del_unlinks_with_one_store_witness :
  s_truncate (pmfs_truncate_del truncate0 3) = [] /\
  truncate_list 2 (ts_word (pmfs_truncate_del truncate0 3))
    (ts_word (pmfs_truncate_del truncate0 3) HeadNext) = Some [].
Proof.
  destruct (truncate_del_unlinks_with_one_store truncate0 3 2 [(3, 100)])
    as (H1 & H2 & _).
  - vm_compute. reflexivity.
  - vm_compute. reflexivity.
  - vm_compute. constructor; [intros [] | constructor].
  - vm_compute. left. reflexivity.
  - split; [exact H1 | exact H2].
Defined.

(** X22: pmfs_truncate_add followed by pmfs_truncate_del of the same inode
    gives back the DRAM list and the head's [next] as they were, writes the
    words of no other inode, and the list recovery reads from the head is
    the one from before the add.  The item of the inode keeps what the add
    stored in it. *)
Theorem truncate_add_then_del_restores (t : truncate_state)
    (i_ino truncate_size : Z) (in_transaction : bool) :
  on_truncate_list t i_ino = false ->
  let t' := pmfs_truncate_del
              (pmfs_truncate_add t i_ino truncate_size in_transaction)
              i_ino in
  s_truncate t' = s_truncate t /\
  ts_word t' HeadNext = ts_word t HeadNext /\
  (forall j, j <> i_ino ->
     ts_word t' (ItemNext j) = ts_word t (ItemNext j) /\
     ts_word t' (ItemSize j) = ts_word t (ItemSize j)) /\
  ts_word t' (ItemNext i_ino) = ts_word t HeadNext /\
  ts_word t' (ItemSize i_ino) = u64 truncate_size /\
  (forall fuel L,
     truncate_list fuel (ts_word t) (ts_word t HeadNext) = Some L ->
     ~ In i_ino (map fst L) ->
     truncate_list fuel (ts_word t') (ts_word t' HeadNext) = Some L).
Proof.
  intros Hoff t'.
  assert (Hon : on_truncate_list
                  (pmfs_truncate_add t i_ino truncate_size in_transaction)
                  i_ino = true).
  { unfold pmfs_truncate_add. rewrite Hoff. unfold on_truncate_list.
    simpl. rewrite Z.eqb_refl. reflexivity. }
  assert (Hlist : s_truncate t' = s_truncate t).
  { unfold t', pmfs_truncate_del. rewrite Hon. simpl negb. cbv iota.
    unfold pmfs_truncate_add. rewrite Hoff.
    destruct in_transaction; simpl; rewrite Z.eqb_refl; reflexivity. }
  assert (Hword : forall l,
            ts_word t' l
            = match l with
              | HeadNext => ts_word t HeadNext
              | ItemNext j => if j =? i_ino then ts_word t HeadNext
                              else ts_word t (ItemNext j)
              | ItemSize j => if j =? i_ino then u64 truncate_size
                              else ts_word t (ItemSize j)
              end).
  { intros l. unfold t', pmfs_truncate_del. rewrite Hon. simpl negb.
    cbv iota. unfold pmfs_truncate_add. rewrite Hoff.
    destruct in_transaction; simpl; rewrite !Z.eqb_refl; simpl;
      rewrite ?Z.eqb_refl; destruct l; simpl; try reflexivity;
      destruct (ino =? i_ino); reflexivity. }
  split; [exact Hlist|].
  split; [apply (Hword HeadNext)|].
  split.
  { intros j Hj. rewrite (Hword (ItemNext j)), (Hword (ItemSize j)).
    destruct (Z.eqb_spec j i_ino); [contradiction|]. split; reflexivity. }
  split; [rewrite (Hword (ItemNext i_ino)), Z.eqb_refl; reflexivity|].
  split; [rewrite (Hword (ItemSize i_ino)), Z.eqb_refl; reflexivity|].
  intros fuel L HL Hnin. rewrite (Hword HeadNext).
  apply (truncate_list_frame _ (ts_word t)); [exact HL|].
  intros j Hj. rewrite (Hword (ItemNext j)), (Hword (ItemSize j)).
  destruct (Z.eqb_spec j i_ino) as [->|]; [contradiction|].
  split; reflexivity.
Qed.

(** Inode 7 joins the list of [truncate0] and leaves it again. *)
Lemma truncate_add_then_del_restores_witness :
  s_truncate (pmfs_truncate_del (pmfs_truncate_add truncate0 7 50 false) 7)
  = [3].
Proof.
  destruct (truncate_add_then_del_restores truncate0 7 50 false) as [H _].
  - vm_compute. reflexivity.
  - exact H.
Defined.

End TruncateDelFacts.

(* ====================================================================== *)
(** ** inode.c: growing and shrinking the block tree *)

Lemma load_le_zero (n : nat) : forall (m : mem) (a : Z),
  (forall x, a <= x < a + Z.of_nat n -> m x = 0) -> load_le n m a = 0.
Proof.
  induction n as [|n IH]; intros m a H; simpl; [reflexivity|].
  rewrite (H a) by lia. rewrite IH; [reflexivity|].
  intros x Hx. apply H. lia.
Qed.

Lemma stacked_frame (m m' : mem) (nodes : list Z) : forall below,
  (forall a, In a nodes -> forall x, a <= x < a + 4096 -> m' x = m x) ->
  stacked m below nodes -> stacked m' below nodes.
Proof.
  induction nodes as [|a tl IH]; intros below Hf H; simpl in *; [exact I|].
  destruct H as (H0 & Hz & Ht).
  assert (Hl : forall i, 0 <= i < 512 ->
            load64 m' (Inode.node_slot a i) = load64 m (Inode.node_slot a i)).
  { intros i Hi. unfold load64. apply load_le_ext. intros x Hx.
    apply (Hf a (or_introl eq_refl)). unfold Inode.node_slot in Hx. lia. }
  split; [rewrite Hl by lia; exact H0|].
  split; [intros i Hi; rewrite Hl by lia; apply Hz; exact Hi|].
  apply IH; [|exact Ht]. intros b Hb. apply Hf. right. exact Hb.
Qed.

Lemma last_cons_default (l : list Z) : forall a d,
  last (a :: l) d = last l a.
Proof.
  induction l as [|b l IH]; intros a d; [reflexivity|].
  change (last (a :: b :: l) d) with (last (b :: l) d).
  rewrite !IH. reflexivity.
Qed.

Lemma stacked_app (m : mem) (l : list Z) : forall below z,
  stacked m below (l ++ [z]) ->
  stacked m below l /\ load64 m (Inode.node_slot z 0) = last l below.
Proof.
  induction l as [|a tl IH]; intros below z H; simpl in H.
  - destruct H as (H0 & _ & _). split; [exact I | exact H0].
  - destruct H as (H0 & Hz & Ht). destruct (IH a z Ht) as [Hs Hl].
    split; [simpl; auto|]. rewrite Hl. symmetry. apply last_cons_default.
Qed.

Section HeightFacts.
Context {D : PmfsDef}.

(** What the loop of pmfs_increase_btree_height does with the answers of
    the allocator: [nodes] are the pages it is granted before the loop ends
    or the allocator refuses. *)
Lemma increase_loop_outcome (nodes : list Z) :
  forall (n : nat) (s : fs) (prev h : Z) (rest : list (option Z)),
    balloc s = map Some nodes ++ rest ->
    length nodes = n \/
    ((length nodes < n)%nat /\ (rest = [] \/ exists r, rest = None :: r)) ->
    ForallOrdPairs apart nodes ->
    Forall (fun a => 0 <= a < 2 ^ 64) nodes ->
    0 <= prev < 2 ^ 64 ->
    exists s',
      Inode.increase_height_loop n s prev h
      = ((if (length nodes =? n)%nat then 0 else - ENOSPC), s',
         last nodes prev, h + Z.of_nat (length nodes)) /\
      balloc s' = (if (length nodes =? n)%nat then rest else tl rest) /\
      freed s' = freed s /\
      stacked (pmem s') prev nodes /\
      (forall x, (forall a, In a nodes -> x < a \/ a + 4096 <= x) ->
                 pmem s' x = pmem s x).
Proof.
  induction nodes as [|a tl IH]; intros n s prev h rest Hb Hn Hsep Hr Hp.
  - simpl in Hb. destruct Hn as [Hn|[Hn Hrest]].
    + simpl in Hn. subst n. exists s. simpl.
      rewrite Z.add_0_r. repeat split; auto.
    + destruct n as [|k]; [simpl in Hn; lia|].
      simpl Inode.increase_height_loop. unfold pmfs_new_meta_blocks.
      rewrite Hb. destruct Hrest as [->|(r & ->)]; simpl;
        rewrite Z.add_0_r; eexists; (split; [reflexivity|]);
        simpl; repeat split; auto.
  - destruct n as [|k]; [destruct Hn as [Hn|[Hn _]]; simpl in Hn; lia|].
    simpl in Hb. simpl Inode.increase_height_loop.
    unfold pmfs_new_meta_blocks. rewrite Hb.
    change (1 =? 0) with false. cbv iota. change (0 =? 0) with true.
    simpl negb. cbv iota.
    inversion Hsep as [|? ? Hsa Hst]; subst.
    inversion Hr as [|? ? Hra Hrt]; subst.
    set (m1 := store64 (mem_zero (pmem s) a (1 * PAGE_SIZE)) a prev).
    destruct (IH k (set_pmem m1
                      (set_pmem (mem_zero (pmem s) a (1 * PAGE_SIZE))
                         (set_balloc (map Some tl ++ rest) s)))
                 a (h + 1) rest)
      as (s' & Hloop & Hbal & Hfr & Hst' & Hout); try assumption.
    + reflexivity.
    + destruct Hn as [Hn|[Hn Hrest]]; [left | right; split; [|exact Hrest]];
        simpl in Hn; lia.
    + exists s'. simpl pmem in *.
      assert (Ha : forall x, a <= x < a + 4096 -> pmem s' x = m1 x).
      { intros x Hx. apply Hout. intros b Hb'.
        rewrite Forall_forall in Hsa. specialize (Hsa b Hb').
        unfold apart, PAGE_SIZE in Hsa. lia. }
      split.
      { unfold Inode.pmfs_increase_btree_height.
        match goal with |- ?L = _ => match type of Hloop with ?L' = _ =>
          change L with L' end end.
        rewrite Hloop. simpl length.
        replace (h + 1 + Z.of_nat (length tl))
          with (h + Z.of_nat (S (length tl))) by lia.
        rewrite (last_cons_default tl a prev).
        reflexivity. }
      split; [exact Hbal|]. split; [exact Hfr|]. split.
      { simpl. split; [|split].
        - unfold load64, Inode.node_slot.
          rewrite (load_le_ext 8 (pmem s') m1)
            by (intros x Hx; apply Ha; lia).
          unfold m1, store64. replace (a + 8 * 0) with a by lia.
          rewrite load_store_same.
          change (2 ^ (8 * Z.of_nat 8)) with (2 ^ 64).
          apply Z.mod_small. lia.
        - intros i Hi. unfold load64, Inode.node_slot.
          rewrite (load_le_ext 8 (pmem s') m1)
            by (intros x Hx; apply Ha; lia).
          apply load_le_zero. intros x Hx. unfold m1, store64.
          rewrite store_le_outside by lia.
          unfold mem_zero, PAGE_SIZE.
          destruct (Z.leb_spec a x); [|lia].
          destruct (Z.ltb_spec x (a + 1 * 4096)); [reflexivity|].
          lia.
        - exact Hst'. }
      intros x Hx. rewrite Hout by (intros b Hb'; apply Hx; right; exact Hb').
      unfold m1, store64.
      destruct (Hx a (or_introl eq_refl)) as [Hlo|Hhi].
      * rewrite store_le_outside by lia.
        unfold mem_zero. destruct (Z.leb_spec a x); [lia | reflexivity].
      * rewrite store_le_outside by lia.
        unfold mem_zero, PAGE_SIZE. destruct (Z.leb_spec a x); [|reflexivity].
        destruct (Z.ltb_spec x (a + 1 * 4096)); [lia | reflexivity].
Qed.

(** X23: pmfs_increase_btree_height stacks one new interior node per level
    over the old root: slot 0 of each new node holds the node (or the old
    root) under it, its other slots are empty, and nothing outside the new
    nodes is written.  When the allocator grants every level the call
    returns 0 with the requested height.  When it refuses after some levels
    the call returns -ENOSPC and the inode keeps the levels built so far:
    root and height describe a valid taller tree over the old root. *)
Theorem increase_height_stacks_nodes (s : fs) (pi : pmfs_inode)
    (new_height : Z) (nodes : list Z) (rest : list (option Z)) :
  balloc s = map Some nodes ++ rest ->
  Z.of_nat (length nodes) = new_height - height pi \/
  (Z.of_nat (length nodes) < new_height - height pi /\
   (rest = [] \/ exists r, rest = None :: r)) ->
  ForallOrdPairs apart nodes ->
  Forall (fun a => 0 <= a < 2 ^ 64) nodes ->
  0 <= root pi < 2 ^ 64 ->
  exists s',
    Inode.pmfs_increase_btree_height s pi new_height
    = ((if Z.of_nat (length nodes) =? new_height - height pi
        then 0 else - ENOSPC), s',
       set_height (height pi + Z.of_nat (length nodes))
         (set_root (last nodes (root pi)) pi)) /\
    stacked (pmem s') (root pi) nodes /\
    (forall x, (forall a, In a nodes -> x < a \/ a + 4096 <= x) ->
               pmem s' x = pmem s x) /\
    freed s' = freed s.
Proof.
  intros Hb Hn Hsep Hr Hp.
  destruct (increase_loop_outcome nodes (Z.to_nat (new_height - height pi))
              s (root pi) (height pi) rest Hb) as (s' & Hl & _ & Hf & Hs & Ho);
    try assumption.
  { destruct Hn as [Hn|[Hn Hrest]]; [left; lia | right; split; [lia|exact Hrest]]. }
  exists s'. unfold Inode.pmfs_increase_btree_height. rewrite Hl.
  assert (Hc : (length nodes =? Z.to_nat (new_height - height pi))%nat
               = (Z.of_nat (length nodes) =? new_height - height pi)).
  { destruct Hn as [Hn|[Hn _]].
    - rewrite (proj2 (Nat.eqb_eq _ _)) by lia.
      rewrite (proj2 (Z.eqb_eq _ _)) by lia. reflexivity.
    - rewrite (proj2 (Nat.eqb_neq _ _)) by lia.
      rewrite (proj2 (Z.eqb_neq _ _)) by lia. reflexivity. }
  rewrite Hc. split; [reflexivity|]. split; [exact Hs|].
  split; [exact Ho | exact Hf].
Qed.

(** The loop of pmfs_decrease_btree_height over a stack of nodes. *)
Lemma decrease_loop_stack (l : list Z) : forall (s : fs) (below : Z),
  stacked (pmem s) below l ->
  Inode.decrease_height_loop (length l) s (last l below)
  = (set_freed (freed s ++ map (fun a => (a, -1)) (rev l)) s, below).
Proof.
  induction l as [|z l IH] using rev_ind; intros s below H.
  - simpl. rewrite app_nil_r. destruct s; reflexivity.
  - apply stacked_app in H as [Hs Hz].
    rewrite length_app, Nat.add_comm. simpl length.
    rewrite last_last. simpl Inode.decrease_height_loop.
    rewrite Hz. rewrite IH by exact Hs.
    rewrite rev_app_distr. simpl. unfold pmfs_free_meta_block.
    simpl. rewrite <- app_assoc. reflexivity.
Qed.

(** X24: growing a tree and shrinking it again is a round trip.  After
    pmfs_increase_btree_height has stacked [nodes] over the root of an
    inode that owns blocks, pmfs_decrease_btree_height, called with the new
    root and a size that calls for the old height, gives the nodes back to
    the allocator from the top down, writes nothing, and leaves the inode
    exactly as it was before the growth. *)
Theorem increase_then_decrease_height (s : fs) (pi : pmfs_inode)
    (new_height newsize : Z) (nodes : list Z) (rest : list (option Z)) :
  balloc s = map Some nodes ++ rest ->
  Z.of_nat (length nodes) = new_height - height pi ->
  ForallOrdPairs apart nodes ->
  Forall (fun a => 0 <= a < 2 ^ 64) nodes ->
  0 <= root pi < 2 ^ 64 ->
  0 <= height pi < 2 ^ 8 ->
  i_blocks pi <> 0 -> newsize <> 0 ->
  Inode.height_loop 64
    (u64 (Z.shiftr (u64 (newsize + blk_type_to_size (i_blk_type pi) - 1))
                   (blk_type_to_shift (i_blk_type pi)) - 1)) 0
  = height pi ->
  exists s1 pi1,
    Inode.pmfs_increase_btree_height s pi new_height = (0, s1, pi1) /\
    Inode.pmfs_decrease_btree_height s1 pi1 newsize (root pi1)
    = Done (set_freed (freed s ++ map (fun a => (a, -1)) (rev nodes)) s1, pi).
Proof.
  intros Hb Hn Hsep Hr Hp Hh Hblocks Hsize Hneed.
  destruct (increase_loop_outcome nodes (Z.to_nat (new_height - height pi))
              s (root pi) (height pi) rest Hb) as (s' & Hl & _ & Hf & Hs & Ho);
    try assumption.
  { left. lia. }
  rewrite (proj2 (Nat.eqb_eq _ _)) in Hl by lia.
  exists s'. eexists. unfold Inode.pmfs_increase_btree_height. rewrite Hl.
  split; [reflexivity|].
  unfold Inode.pmfs_decrease_btree_height.
  destruct pi as [m0 lc fl sz bl ct mt dt hg rt bt lh lt lp x]; simpl in *.
  destruct (Z.eqb_spec bl 0); [contradiction|].
  destruct (Z.eqb_spec newsize 0); [contradiction|].
  simpl orb. cbv iota. rewrite Hneed.
  destruct (Z.eqb_spec (hg + Z.of_nat (length nodes)) hg) as [E|E].
  - assert (nodes = []) by (destruct nodes; [reflexivity | simpl in E; lia]).
    subst nodes. simpl. rewrite Z.add_0_r, app_nil_r.
    destruct s'; simpl in *. subst. reflexivity.
  - replace (Z.to_nat (hg + Z.of_nat (length nodes) - hg))
      with (length nodes) by lia.
    rewrite (decrease_loop_stack nodes s' rt Hs).
    rewrite Hf. unfold set_height, set_root. simpl.
    unfold u8. rewrite Z.mod_small by lia. reflexivity.
Qed.

End HeightFacts.

(** Two levels over the block of [grow_pi]. *)
Lemma increase_height_stacks_nodes_witness :
  exists s',
    Inode.pmfs_increase_btree_height grow_fs grow_pi 2
    = (0, s', set_height 2 (set_root 16384 grow_pi)) /\
    stacked (pmem s') 4096 [8192; 16384].
Proof.
  destruct (increase_height_stacks_nodes grow_fs grow_pi 2 [8192; 16384] [])
    as (s' & H1 & H2 & _).
  - reflexivity.
  - left. reflexivity.
  - repeat constructor; vm_compute; intros H; discriminate H.
  - repeat constructor; vm_compute; try discriminate; reflexivity.
  - vm_compute. split; [discriminate | reflexivity].
  - exists s'. split; [exact H1 | exact H2].
Defined.

(** The same two levels, given back. *)
Lemma increase_then_decrease_height_witness :
  exists s1 pi1 s2,
    Inode.pmfs_increase_btree_height grow_fs grow_pi 2 = (0, s1, pi1) /\
    Inode.pmfs_decrease_btree_height (D := pmfs_def_x86) s1 pi1 4096 (root pi1)
    = Done (s2, grow_pi) /\
    freed s2 = [(16384, -1); (8192, -1)].
Proof.
  destruct (increase_then_decrease_height (D := pmfs_def_x86) grow_fs grow_pi
              2 4096 [8192; 16384] [])
    as (s1 & pi1 & H1 & H2).
  - reflexivity.
  - reflexivity.
  - repeat constructor; vm_compute; intros H; discriminate H.
  - repeat constructor; vm_compute; try discriminate; reflexivity.
  - vm_compute. split; [discriminate | reflexivity].
  - vm_compute. split; [discriminate | reflexivity].
  - vm_compute. discriminate.
  - discriminate.
  - vm_compute. reflexivity.
  - exists s1, pi1. eexists. split; [exact H1|]. split; [exact H2|].
    reflexivity.
Defined.

(* ====================================================================== *)
(** ** pmfs.h: the flags a new inode inherits *)

Lemma land3_idem (f a b : Z) :
  Z.land (Z.land (Z.land (Z.land f a) b) a) b = Z.land (Z.land f a) b.
Proof.
  apply Z.bits_inj'. intros n _. rewrite !Z.land_spec.
  destruct (Z.testbit f n), (Z.testbit a n), (Z.testbit b n); reflexivity.
Qed.

Lemma land_keeps (f a : Z) : Z.land (Z.land f a) f = Z.land f a.
Proof.
  apply Z.bits_inj'. intros n _. rewrite !Z.land_spec.
  destruct (Z.testbit f n), (Z.testbit a n); reflexivity.
Qed.

(** X25: pmfs_mask_flags only ever clears flags, and masking twice is
    masking once.  Whatever the mode, the result carries none of
    FS_IMMUTABLE_FL, FS_APPEND_FL, FS_TOPDIR_FL and PMFS_EOFBLOCKS_FL; for
    a regular file it carries no FS_DIRSYNC_FL; for a mode that is neither
    directory nor regular file it carries nothing but FS_NODUMP_FL and
    FS_NOATIME_FL. *)
Theorem mask_flags_only_clears (mode flags : Z) :
  let r := Inode.pmfs_mask_flags mode flags in
  Z.land r flags = r /\
  Inode.pmfs_mask_flags mode r = r /\
  Z.testbit r 4 = false /\ Z.testbit r 5 = false /\
  Z.testbit r 17 = false /\ Z.testbit r 29 = false /\
  (Z.land mode Inode.S_IFMT = Inode.S_IFREG -> Z.testbit r 16 = false) /\
  (Z.land mode Inode.S_IFMT <> Inode.S_IFDIR ->
   Z.land mode Inode.S_IFMT <> Inode.S_IFREG ->
   Z.land r (Z.lor 64 128) = r).
Proof.
  intros r.
  assert (Hin : r = Z.land flags Inode.PMFS_FL_INHERITED \/
                r = Z.land (Z.land flags Inode.PMFS_FL_INHERITED)
                      Inode.PMFS_REG_FLMASK \/
                r = Z.land (Z.land flags Inode.PMFS_FL_INHERITED)
                      Inode.PMFS_OTHER_FLMASK).
  { unfold r, Inode.pmfs_mask_flags.
    destruct (_ =? Inode.S_IFDIR); [left; reflexivity|].
    destruct (_ =? Inode.S_IFREG); [right; left | right; right]; reflexivity. }
  assert (Hbit : forall n,
            Z.testbit Inode.PMFS_FL_INHERITED n = false -> Z.testbit r n = false).
  { intros n Hn. destruct Hin as [E | [E | E]]; rewrite E, !Z.land_spec, Hn;
      rewrite ?andb_false_r; reflexivity. }
  split.
  { destruct Hin as [E | [E | E]]; rewrite E.
    - apply land_keeps.
    - apply Z.bits_inj'. intros n _. rewrite !Z.land_spec.
      destruct (Z.testbit flags n), (Z.testbit Inode.PMFS_FL_INHERITED n),
        (Z.testbit Inode.PMFS_REG_FLMASK n); reflexivity.
    - apply Z.bits_inj'. intros n _. rewrite !Z.land_spec.
      destruct (Z.testbit flags n), (Z.testbit Inode.PMFS_FL_INHERITED n),
        (Z.testbit Inode.PMFS_OTHER_FLMASK n); reflexivity. }
  split.
  { unfold r, Inode.pmfs_mask_flags.
    destruct (_ =? Inode.S_IFDIR).
    - rewrite <- Z.land_assoc, Z.land_diag. reflexivity.
    - destruct (_ =? Inode.S_IFREG); apply land3_idem. }
  split; [apply Hbit; reflexivity|].
  split; [apply Hbit; reflexivity|].
  split; [apply Hbit; reflexivity|].
  split; [apply Hbit; reflexivity|].
  split.
  { intros Hreg. unfold r, Inode.pmfs_mask_flags. rewrite Hreg.
    change (Inode.S_IFREG =? Inode.S_IFDIR) with false.
    rewrite Z.eqb_refl. cbv iota.
    rewrite Z.land_spec.
    replace (Z.testbit Inode.PMFS_REG_FLMASK 16) with false by reflexivity.
    apply andb_false_r. }
  intros Hd Hr. unfold r, Inode.pmfs_mask_flags.
  destruct (Z.eqb_spec (Z.land mode Inode.S_IFMT) Inode.S_IFDIR);
    [contradiction|].
  destruct (Z.eqb_spec (Z.land mode Inode.S_IFMT) Inode.S_IFREG);
    [contradiction|].
  unfold Inode.PMFS_OTHER_FLMASK.
  rewrite <- Z.land_assoc, Z.land_diag. reflexivity.
Qed.

(* ====================================================================== *)
(** ** inode.c: the flags of the VFS inode and of the persistent inode *)

Lemma mask_test (f k : Z) :
  0 <= k -> negb (Z.land f (2 ^ k) =? 0) = Z.testbit f k.
Proof.
  intros Hk. destruct (Z.testbit f k) eqn:E.
  - destruct (Z.eqb_spec (Z.land f (2 ^ k)) 0) as [H0|]; [|reflexivity].
    assert (Hb : Z.testbit (Z.land f (2 ^ k)) k = true)
      by (rewrite Z.land_spec, E, Z.pow2_bits_eqb, Z.eqb_refl by lia;
          reflexivity).
    rewrite H0, Z.bits_0 in Hb. discriminate.
  - assert (H0 : Z.land f (2 ^ k) = 0).
    { apply Z.bits_inj'. intros n Hn.
      rewrite Z.land_spec, Z.pow2_bits_eqb, Z.bits_0 by lia.
      destruct (Z.eqb_spec k n) as [<-|]; [rewrite E; reflexivity|].
      apply andb_false_r. }
    rewrite H0. reflexivity.
Qed.

Lemma cond_lor_bit (c : bool) (acc j n : Z) :
  0 <= j ->
  Z.testbit (if c then Z.lor acc (2 ^ j) else acc) n
  = Z.testbit acc n || (c && (j =? n)).
Proof.
  intros Hj. destruct c; simpl.
  - rewrite Z.lor_spec, Z.pow2_bits_eqb by lia. reflexivity.
  - rewrite orb_false_r. reflexivity.
Qed.

Lemma u32_lnot_bit (M n : Z) :
  0 <= n ->
  Z.testbit (u32 (Z.lnot M)) n = (n <? 32) && negb (Z.testbit M n).
Proof.
  intros Hn. unfold u32. rewrite Z.testbit_mod_pow2 by lia.
  rewrite Z.lnot_spec by lia. reflexivity.
Qed.

Lemma lor5_bit (a b c d e n : Z) :
  0 <= a -> 0 <= b -> 0 <= c -> 0 <= d -> 0 <= e ->
  Z.testbit (Z.lor (2 ^ a) (Z.lor (2 ^ b) (Z.lor (2 ^ c)
               (Z.lor (2 ^ d) (2 ^ e))))) n
  = (a =? n) || ((b =? n) || ((c =? n) || ((d =? n) || (e =? n)))).
Proof.
  intros. rewrite !Z.lor_spec, !Z.pow2_bits_eqb by lia. reflexivity.
Qed.

(** The bits of the value pmfs_set_inode_flags computes before it looks at
    [i_xattr]. *)
Lemma set_flags_form (h : Z -> Z) (v : Z) (pi : pmfs_inode) (x : Z) :
  exists F,
    Inode.pmfs_set_inode_flags h v pi x
    = Z.lor (if x =? 0 then h F else F) (2 ^ 13) /\
    forall n, 0 <= n ->
      Z.testbit F n
      = Z.testbit v n
        && ((n <? 32)
            && negb ((0 =? n) || ((2 =? n) || ((3 =? n)
                                  || ((1 =? n) || (6 =? n))))))
        || (Z.testbit (i_flags pi) 3 && (0 =? n))
        || (Z.testbit (i_flags pi) 5 && (2 =? n))
        || (Z.testbit (i_flags pi) 4 && (3 =? n))
        || (Z.testbit (i_flags pi) 7 && (1 =? n))
        || (Z.testbit (i_flags pi) 16 && (6 =? n)).
Proof.
  eexists. split.
  - unfold Inode.pmfs_set_inode_flags.
    change Inode.S_DAX with (2 ^ 13). reflexivity.
  - intros n Hn.
    change Inode.FS_SYNC_FL with (2 ^ 3).
    change Inode.FS_APPEND_FL with (2 ^ 5).
    change Inode.FS_IMMUTABLE_FL with (2 ^ 4).
    change Inode.FS_NOATIME_FL with (2 ^ 7).
    change Inode.FS_DIRSYNC_FL with (2 ^ 16).
    change Inode.S_SYNC with (2 ^ 0).
    change Inode.S_APPEND with (2 ^ 2).
    change Inode.S_IMMUTABLE with (2 ^ 3).
    change Inode.S_NOATIME with (2 ^ 1).
    change Inode.S_DIRSYNC with (2 ^ 6).
    rewrite !mask_test by lia.
    rewrite !cond_lor_bit by lia.
    rewrite Z.land_spec, u32_lnot_bit, lor5_bit by lia.
    reflexivity.
Qed.

Lemma get_flags_form (v : Z) (pi : pmfs_inode) (n : Z) :
  0 <= n ->
  Z.testbit (i_flags (Inode.pmfs_get_inode_flags v pi)) n
  = Z.testbit (i_flags pi) n
    && ((n <? 32)
        && negb ((3 =? n) || ((5 =? n) || ((4 =? n)
                              || ((7 =? n) || (16 =? n))))))
    || (Z.testbit v 0 && (3 =? n))
    || (Z.testbit v 2 && (5 =? n))
    || (Z.testbit v 3 && (4 =? n))
    || (Z.testbit v 1 && (7 =? n))
    || (Z.testbit v 6 && (16 =? n)).
Proof.
  intros Hn. unfold Inode.pmfs_get_inode_flags, set_i_flags. cbn [i_flags].
  change Inode.FS_SYNC_FL with (2 ^ 3).
  change Inode.FS_APPEND_FL with (2 ^ 5).
  change Inode.FS_IMMUTABLE_FL with (2 ^ 4).
  change Inode.FS_NOATIME_FL with (2 ^ 7).
  change Inode.FS_DIRSYNC_FL with (2 ^ 16).
  change Inode.S_SYNC with (2 ^ 0).
  change Inode.S_APPEND with (2 ^ 2).
  change Inode.S_IMMUTABLE with (2 ^ 3).
  change Inode.S_NOATIME with (2 ^ 1).
  change Inode.S_DIRSYNC with (2 ^ 6).
  rewrite !mask_test by lia.
  rewrite !cond_lor_bit by lia.
  rewrite Z.land_spec, u32_lnot_bit, lor5_bit by lia.
  reflexivity.
Qed.

Ltac bool_numerals :=
  cbn [Z.eqb Pos.eqb Z.ltb Z.compare Pos.compare Pos.compare_cont];
  rewrite ?andb_true_r, ?andb_false_r, ?orb_false_r, ?orb_false_l,
    ?orb_true_r; cbn [negb andb orb].

(** The five flags as pmfs_set_inode_flags leaves them. *)
Lemma set_flags_bits (h : Z -> Z) (v : Z) (pi : pmfs_inode) (x : Z) :
  (forall f k, 0 <= k -> k <> 12 -> Z.testbit (h f) k = Z.testbit f k) ->
  let r := Inode.pmfs_set_inode_flags h v pi x in
  Z.testbit r 0 = Z.testbit (i_flags pi) 3 /\
  Z.testbit r 2 = Z.testbit (i_flags pi) 5 /\
  Z.testbit r 3 = Z.testbit (i_flags pi) 4 /\
  Z.testbit r 1 = Z.testbit (i_flags pi) 7 /\
  Z.testbit r 6 = Z.testbit (i_flags pi) 16.
Proof.
  intros Hh r. destruct (set_flags_form h v pi x) as (F & HF & Hbits).
  assert (Hk : forall k, 0 <= k -> k <> 12 -> k <> 13 ->
            Z.testbit r k = Z.testbit F k).
  { intros k Hk H12 H13. unfold r. rewrite HF.
    rewrite Z.lor_spec, Z.pow2_bits_eqb by lia.
    destruct (Z.eqb_spec 13 k); [lia|]. rewrite orb_false_r.
    destruct (x =? 0); [apply Hh; assumption | reflexivity]. }
  repeat split.
  - rewrite Hk, Hbits by lia. bool_numerals.
    destruct (Z.testbit v 0), (Z.testbit (i_flags pi) 3); reflexivity.
  - rewrite Hk, Hbits by lia. bool_numerals.
    destruct (Z.testbit v 2), (Z.testbit (i_flags pi) 5); reflexivity.
  - rewrite Hk, Hbits by lia. bool_numerals.
    destruct (Z.testbit v 3), (Z.testbit (i_flags pi) 4); reflexivity.
  - rewrite Hk, Hbits by lia. bool_numerals.
    destruct (Z.testbit v 1), (Z.testbit (i_flags pi) 7); reflexivity.
  - rewrite Hk, Hbits by lia. bool_numerals.
    destruct (Z.testbit v 6), (Z.testbit (i_flags pi) 16); reflexivity.
Qed.

(** X26: the flags survive the trip through the VFS inode in both
    directions, provided inode_has_no_xattr touches no flag but S_NOSEC.
    Writing back with pmfs_get_inode_flags what pmfs_set_inode_flags has
    loaded leaves the persistent inode as it was; loading what
    pmfs_get_inode_flags has written back gives the VFS inode its S_SYNC,
    S_NOATIME, S_APPEND, S_IMMUTABLE and S_DIRSYNC as they were; and
    pmfs_set_inode_flags always sets S_DAX. *)
Theorem inode_flags_round_trip (h : Z -> Z) (v : Z) (pi : pmfs_inode)
    (x : Z) :
  (forall f k, 0 <= k -> k <> 12 -> Z.testbit (h f) k = Z.testbit f k) ->
  0 <= i_flags pi < 2 ^ 32 ->
  Inode.pmfs_get_inode_flags (Inode.pmfs_set_inode_flags h v pi x) pi = pi /\
  (forall v0 k, In k [0; 1; 2; 3; 6] ->
     Z.testbit
       (Inode.pmfs_set_inode_flags h v0 (Inode.pmfs_get_inode_flags v pi) x) k
     = Z.testbit v k) /\
  Z.testbit (Inode.pmfs_set_inode_flags h v pi x) 13 = true.
Proof.
  intros Hh Hr. split; [|split].
  - assert (E : i_flags (Inode.pmfs_get_inode_flags
                           (Inode.pmfs_set_inode_flags h v pi x) pi)
                = i_flags pi).
    { apply Z.bits_inj'. intros n Hn. rewrite get_flags_form by exact Hn.
      destruct (set_flags_bits h v pi x Hh) as (B0 & B2 & B3 & B1 & B6).
      rewrite B0, B2, B3, B1, B6.
      assert (Hhigh : Z.testbit (i_flags pi) n
                      = (n <? 32) && Z.testbit (i_flags pi) n).
      { rewrite <- (Z.testbit_mod_pow2 (i_flags pi) 32 n) by lia.
        rewrite Z.mod_small by lia. reflexivity. }
      destruct (Z.eqb_spec 3 n) as [<-|]; [bool_numerals;
        destruct (Z.testbit (i_flags pi) 3); reflexivity|].
      destruct (Z.eqb_spec 5 n) as [<-|]; [bool_numerals;
        destruct (Z.testbit (i_flags pi) 5); reflexivity|].
      destruct (Z.eqb_spec 4 n) as [<-|]; [bool_numerals;
        destruct (Z.testbit (i_flags pi) 4); reflexivity|].
      destruct (Z.eqb_spec 7 n) as [<-|]; [bool_numerals;
        destruct (Z.testbit (i_flags pi) 7); reflexivity|].
      destruct (Z.eqb_spec 16 n) as [<-|]; [bool_numerals;
        destruct (Z.testbit (i_flags pi) 16); reflexivity|].
      rewrite ?andb_false_r, ?orb_false_r. cbn [orb negb].
      rewrite andb_true_r. rewrite (andb_comm (Z.testbit (i_flags pi) n)).
      symmetry. exact Hhigh. }
    change (Inode.pmfs_get_inode_flags
              (Inode.pmfs_set_inode_flags h v pi x) pi)
      with (set_i_flags
              (i_flags (Inode.pmfs_get_inode_flags
                          (Inode.pmfs_set_inode_flags h v pi x) pi)) pi).
    rewrite E. destruct pi; reflexivity.
  - intros v0 k Hk.
    destruct (set_flags_bits h v0 (Inode.pmfs_get_inode_flags v pi) x Hh)
      as (B0 & B2 & B3 & B1 & B6).
    simpl in Hk.
    destruct Hk as [<-|[<-|[<-|[<-|[<-|[]]]]]].
    + rewrite B0, get_flags_form by lia. bool_numerals.
      destruct (Z.testbit (i_flags pi) 3), (Z.testbit v 0); reflexivity.
    + rewrite B1, get_flags_form by lia. bool_numerals.
      destruct (Z.testbit (i_flags pi) 7), (Z.testbit v 1); reflexivity.
    + rewrite B2, get_flags_form by lia. bool_numerals.
      destruct (Z.testbit (i_flags pi) 5), (Z.testbit v 2); reflexivity.
    + rewrite B3, get_flags_form by lia. bool_numerals.
      destruct (Z.testbit (i_flags pi) 4), (Z.testbit v 3); reflexivity.
    + rewrite B6, get_flags_form by lia. bool_numerals.
      destruct (Z.testbit (i_flags pi) 16), (Z.testbit v 6); reflexivity.
  - destruct (set_flags_form h v pi x) as (F & HF & _). rewrite HF.
    rewrite Z.lor_spec, Z.pow2_bits_eqb by lia. apply orb_true_r.
Qed.

(** An inode with FS_SYNC_FL and FS_NOATIME_FL, loaded and written back. *)
Lemma inode_flags_round_trip_witness :
  Inode.pmfs_get_inode_flags
    (Inode.pmfs_set_inode_flags (fun f => Z.lor f 4096) 0
       (set_i_flags 136 zero_inode) 0)
    (set_i_flags 136 zero_inode)
  = set_i_flags 136 zero_inode.
Proof.
  destruct (inode_flags_round_trip (fun f => Z.lor f 4096) 0
              (set_i_flags 136 zero_inode) 0) as [H _].
  - intros f k Hk H12. rewrite Z.lor_spec.
    change 4096 with (2 ^ 12). rewrite Z.pow2_bits_eqb by lia.
    destruct (Z.eqb_spec 12 k); [lia | apply orb_false_r].
  - vm_compute. split; [discriminate | reflexivity].
  - exact H.
Defined.

(* ====================================================================== *)
(** ** inode.c: freeing an inode and taking its slot again *)


Section FreeInodeFacts.
Context {D : PmfsDef}.


End FreeInodeFacts.


(* ====================================================================== *)
(** ** inode.c: superseding the pages of a log entry *)

Lemma range_S (a : Z) (n : nat) :
  map (fun k => a + Z.of_nat k) (seq 0 (S n))
  = a :: map (fun k => (a + 1) + Z.of_nat k) (seq 0 n).
Proof.
  simpl. rewrite Z.add_0_r. f_equal.
  rewrite <- seq_shift, map_map. apply map_ext. intros k. lia.
Qed.

Lemma aligned_block_parts (B c : Z) :
  B mod 4096 = 0 -> 0 <= B -> 0 <= c < 4096 ->
  Z.shiftr (B + c) PAGE_SHIFT = pmfs_get_blocknr B /\
  Inode.GET_INVALID (B + c) = c.
Proof.
  intros HB HB0 Hc. unfold pmfs_get_blocknr, Inode.GET_INVALID,
    Hdr.INVALID_MASK, PAGE_SHIFT.
  rewrite !Z.shiftr_div_pow2 by lia.
  change 4095 with (Z.ones 12). rewrite Z.land_ones by lia.
  change (2 ^ 12) with 4096.
  pose proof (Z.div_mod B 4096 ltac:(lia)) as Hd. rewrite HB in Hd.
  split.
  - replace (B + c) with (c + (B / 4096) * 4096) by lia.
    rewrite Z.div_add by lia. rewrite Z.div_small by lia. lia.
  - replace (B + c) with (c + (B / 4096) * 4096) by lia.
    rewrite Z.mod_add by lia. apply Z.mod_small. lia.
Qed.

Section AssignFacts.
Context {D : PmfsDef}.

(** The leaf loop of recursive_assign_blocks over [n] slots that all point
    at the entry [E], [c] pages of which have been superseded before. *)
Lemma assign_leaf_loop (R E E' B pg np : Z) (pi0 : pmfs_inode)
    (body : Z -> fs * pmfs_inode -> result (option Z * (fs * pmfs_inode))) :
  (forall i s pi,
     body i (s, pi)
     = (r <- (if negb (load64 (pmem s) (Inode.node_slot R i) =? 0)
              then Inode.supersede_entry s pi
                     (load64 (pmem s) (Inode.node_slot R i)) 0 i
              else Done (s, pi)) ;;
        let '(s, pi) := r in
        Done (None,
              (set_pmem (store64 (pmem s) (Inode.node_slot R i) E') s, pi)))) ->
  B mod 4096 = 0 -> 0 <= B -> B + 4096 <= 2 ^ 64 ->
  E <> 0 -> 0 <= E' < 2 ^ 64 -> 0 <= pg ->
  forall (n : nat) (a c ib : Z) (s : fs),
    0 <= c -> c + Z.of_nat n <= 4000 ->
    pg <= a -> a + Z.of_nat n <= pg + np ->
    Z.of_nat n <= ib < 2 ^ 64 ->
    E + 16 <= R + 8 * a \/ R + 8 * (a + Z.of_nat n) <= E ->
    load64 (pmem s) (E + Inode.ie_block) = B + c ->
    load32 (pmem s) (E + Inode.ie_pgoff) = pg ->
    load32 (pmem s) (E + Inode.ie_num_pages) = np ->
    (forall i, a <= i < a + Z.of_nat n ->
       load64 (pmem s) (Inode.node_slot R i) = E) ->
    exists s',
      Inode.for_each_r (map (fun k => a + Z.of_nat k) (seq 0 n)) body
        (s, set_i_blocks ib pi0)
      = Done (None, (s', set_i_blocks (ib - Z.of_nat n) pi0)) /\
      load64 (pmem s') (E + Inode.ie_block) = B + c + Z.of_nat n /\
      (forall i, a <= i < a + Z.of_nat n ->
         load64 (pmem s') (Inode.node_slot R i) = E') /\
      freed s'
      = freed s ++ map (fun i => (pmfs_get_blocknr B + (i - pg),
                                  i_blk_type pi0))
                       (map (fun k => a + Z.of_nat k) (seq 0 n)) /\
      balloc s' = balloc s /\
      (forall x, (x < E \/ E + 8 <= x) ->
                 (x < R + 8 * a \/ R + 8 * (a + Z.of_nat n) <= x) ->
                 pmem s' x = pmem s x).
Proof.
  intros Hbody HB HB0 HB64 HE HE' Hpg.
  induction n as [|n IH]; intros a c ib s Hc Hcn Ha Han Hib Hdis Hblk Hpgoff
    Hnp Hslots.
  - exists s. change (Z.of_nat 0) with 0. cbn [seq map Inode.for_each_r].
    rewrite Z.sub_0_r, app_nil_r.
    split; [reflexivity|]. split; [rewrite Hblk; lia|].
    split; [intros i Hi; lia|]. split; [reflexivity|].
    split; reflexivity.
  - rewrite range_S. simpl Inode.for_each_r. rewrite Hbody.
    rewrite (Hslots a) by lia.
    destruct (Z.eqb_spec E 0) as [|_]; [contradiction|]. simpl negb. cbv iota.
    unfold Inode.supersede_entry. rewrite Hblk, Hpgoff, Hnp.
    destruct (aligned_block_parts B c HB HB0 ltac:(lia)) as [Hshift Hinv].
    rewrite Hshift, Hinv.
    destruct (Z.ltb_spec (0 + a) pg) as [|_]; [lia|].
    destruct (Z.leb_spec (pg + np) (0 + a)) as [|_]; [lia|].
    simpl orb. cbv iota.
    destruct (Z.ltb_spec c 4000) as [_|]; [|lia].
    simpl bind. cbv iota.
    set (m1 := store64 (pmem s) (E + Inode.ie_block) (B + c + 1)).
    set (s1 := pmfs_free_data_block (set_pmem m1 s)
                 (pmfs_get_blocknr B + (a - pg)) (i_blk_type pi0)).
    set (m2 := store64 m1 (Inode.node_slot R a) E').
    assert (Hm1 : forall x, x < E \/ E + 8 <= x -> m1 x = pmem s x).
    { intros x Hx. unfold m1, store64. apply store_le_outside.
      unfold Inode.ie_block. lia. }
    assert (Hm2 : forall x, x < R + 8 * a \/ R + 8 * a + 8 <= x ->
                            m2 x = m1 x).
    { intros x Hx. unfold m2, store64.
      apply store_le_outside. unfold Inode.node_slot. lia. }
    assert (Hpi : set_i_blocks (u64 (ib - 1)) (set_i_blocks ib pi0)
                  = set_i_blocks (ib - 1) pi0).
    { unfold set_i_blocks. simpl. unfold u64.
      rewrite Z.mod_small by lia. reflexivity. }
    rewrite Hpi.
    destruct (IH (a + 1) (c + 1) (ib - 1) (set_pmem m2 s1))
      as (s' & Hloop & Hblk' & Hslots' & Hfreed' & Hbal' & Hframe');
      try lia.
    + simpl pmem. unfold load64.
      rewrite (load_le_ext 8 m2 m1)
        by (intros x Hx; apply Hm2; unfold Inode.ie_block in Hx; lia).
      unfold m1, store64. rewrite load_store_same.
      change (2 ^ (8 * Z.of_nat 8)) with (2 ^ 64).
      rewrite Z.mod_small by lia. lia.
    + simpl pmem. unfold load32.
      rewrite (load_le_ext 4 m2 m1)
        by (intros x Hx; apply Hm2; unfold Inode.ie_pgoff in Hx; lia).
      rewrite (load_le_ext 4 m1 (pmem s))
        by (intros x Hx; apply Hm1; unfold Inode.ie_pgoff in Hx; lia).
      exact Hpgoff.
    + simpl pmem. unfold load32.
      rewrite (load_le_ext 4 m2 m1)
        by (intros x Hx; apply Hm2; unfold Inode.ie_num_pages in Hx; lia).
      rewrite (load_le_ext 4 m1 (pmem s))
        by (intros x Hx; apply Hm1; unfold Inode.ie_num_pages in Hx; lia).
      exact Hnp.
    + intros i Hi. simpl pmem. unfold load64.
      rewrite (load_le_ext 8 m2 m1)
        by (intros x Hx; apply Hm2; unfold Inode.node_slot in Hx; lia).
      rewrite (load_le_ext 8 m1 (pmem s))
        by (intros x Hx; apply Hm1; unfold Inode.node_slot in Hx; lia).
      apply Hslots. lia.
    + exists s'.
      replace (ib - Z.of_nat (S n)) with (ib - 1 - Z.of_nat n) by lia.
      split; [exact Hloop|].
      split; [rewrite Hblk'; lia|].
      split.
      { intros i Hi. destruct (Z.eq_dec i a) as [->|Hia].
        - unfold load64.
          rewrite (load_le_ext 8 (pmem s') m2).
          + unfold m2, store64. rewrite load_store_same.
            change (2 ^ (8 * Z.of_nat 8)) with (2 ^ 64).
            apply Z.mod_small. lia.
          + intros x Hx. apply Hframe'; unfold Inode.node_slot in Hx; lia.
        - apply Hslots'. lia. }
      split.
      { rewrite Hfreed'. unfold s1, pmfs_free_data_block. simpl freed.
        rewrite <- app_assoc. reflexivity. }
      split; [rewrite Hbal'; reflexivity|].
      intros x Hx1 Hx2. rewrite Hframe' by lia. simpl pmem.
      rewrite Hm2 by lia. apply Hm1. exact Hx1.
Qed.

(** X28: writing a new log entry over every page of an old one reclaims
    the old one.  On a file of height 1 with 4 KiB blocks whose slots
    [pgoff .. pgoff + num_pages - 1] all point at the entry [E], a
    __pmfs_assign_blocks of exactly that range returns 0, points every slot
    of the range at the new entry, hands the num_pages blocks of [E] back
    to the allocator, each once and in page order, lowers i_blocks by
    num_pages and counts num_pages invalidations in the low bits of
    [E]'s block word: with at most 4000 pages the entry then passes the
    test curr_page_invalid applies to it. *)
Theorem assign_over_entry_invalidates_it (sb : super_block) (s : fs)
    (pi : pmfs_inode) (E E' B pg np : Z) :
  s_blocksize_bits sb = 12 -> i_blk_type pi = PMFS_BLOCK_TYPE_4K ->
  height pi = 1 -> root pi <> 0 ->
  0 < META_BLK_SHIFT < 32 ->
  0 <= pg -> 0 < np <= 4000 -> pg + np <= 2 ^ META_BLK_SHIFT ->
  np <= i_blocks pi < 2 ^ 64 ->
  B mod 4096 = 0 -> 0 <= B -> B + 4096 <= 2 ^ 64 ->
  E <> 0 -> 0 <= E' < 2 ^ 64 ->
  E + 16 <= root pi + 8 * pg \/ root pi + 8 * (pg + np) <= E ->
  load64 (pmem s) (E + Inode.ie_block) = B ->
  load32 (pmem s) (E + Inode.ie_pgoff) = pg ->
  load32 (pmem s) (E + Inode.ie_num_pages) = np ->
  (forall i, pg <= i < pg + np ->
     load64 (pmem s) (Inode.node_slot (root pi) i) = E) ->
  exists s',
    Inode.__pmfs_assign_blocks sb s pi pg np E'
    = Done (0, (s', set_i_blocks (i_blocks pi - np) pi)) /\
    (forall i, pg <= i < pg + np ->
       load64 (pmem s') (Inode.node_slot (root pi) i) = E') /\
    freed s'
    = freed s ++ map (fun k => (pmfs_get_blocknr B + Z.of_nat k,
                                PMFS_BLOCK_TYPE_4K))
                     (seq 0 (Z.to_nat np)) /\
    balloc s' = balloc s /\
    Inode.entry_invalid (pmem s') E = true /\
    (forall x, (x < E \/ E + 8 <= x) ->
               (x < root pi + 8 * pg \/ root pi + 8 * (pg + np) <= x) ->
               pmem s' x = pmem s x).
Proof.
  intros Hsb Hbt Hh Hroot Hmeta Hpg Hnp Hfit Hib HB HB0 HB64 HE HE' Hdis
    Hblk Hpgoff Hnum Hslots.
  assert (Hpow : 2 ^ META_BLK_SHIFT < 2 ^ 32)
    by (apply Z.pow_lt_mono_r; lia).
  assert (Hpow1 : 2 <= 2 ^ META_BLK_SHIFT).
  { change 2 with (2 ^ 1) at 1. apply Z.pow_le_mono_r; lia. }
  unfold Inode.__pmfs_assign_blocks.
  rewrite Hbt, Hsb. change (blk_type_to_shift PMFS_BLOCK_TYPE_4K - 12) with 0.
  rewrite !Z.shiftr_0_r.
  assert (Hlast : u64 (pg + np - 1) = pg + np - 1).
  { unfold u64. apply Z.mod_small.
    assert (2 ^ 32 < 2 ^ 64) by (apply Z.pow_lt_mono_r; lia). lia. }
  rewrite Hlast.
  assert (Hgrow : Inode.grown_height pi (pg + np - 1) = Some 1).
  { unfold Inode.grown_height. rewrite Hh, Z.mul_1_l.
    rewrite Z.shiftl_1_l.
    assert (Hu : u64 (2 ^ META_BLK_SHIFT) = 2 ^ META_BLK_SHIFT).
    { unfold u64. apply Z.mod_small.
      assert (2 ^ 32 < 2 ^ 64) by (apply Z.pow_lt_mono_r; lia). lia. }
    rewrite Hu.
    assert (Hu1 : u64 (2 ^ META_BLK_SHIFT - 1) = 2 ^ META_BLK_SHIFT - 1).
    { unfold u64. apply Z.mod_small.
      assert (2 ^ 32 < 2 ^ 64) by (apply Z.pow_lt_mono_r; lia). lia. }
    rewrite Hu1.
    destruct (Z.ltb_spec (2 ^ META_BLK_SHIFT - 1) (pg + np - 1)); [lia|].
    reflexivity. }
  rewrite Hgrow.
  destruct (Z.eqb_spec (root pi) 0) as [|_]; [contradiction|].
  change (1 =? 0) with false. cbv iota. rewrite Hh.
  change (1 <? 1) with false. cbv iota.
  change (negb (0 =? 0)) with false. cbv iota.
  change (Z.to_nat (1 - 1)) with 0%nat.
  unfold Inode.recursive_assign_blocks.
  rewrite Z.mul_0_l, !Z.shiftr_0_r.
  assert (Hu32a : u32 pg = pg) by (unfold u32; apply Z.mod_small; lia).
  assert (Hu32b : u32 (pg + np - 1) = pg + np - 1)
    by (unfold u32; apply Z.mod_small; lia).
  rewrite Hu32a, Hu32b. unfold Inode.index_range.
  replace (pg + np - 1 - pg + 1) with np by lia.
  match goal with
  | |- context [Inode.for_each_r _ ?b _] => set (body := b)
  end.
  replace (s, pi) with (s, set_i_blocks (i_blocks pi) pi)
    by (destruct pi; reflexivity).
  destruct (assign_leaf_loop (root pi) E E' B pg np pi body)
    with (n := Z.to_nat np) (a := pg) (c := 0) (ib := i_blocks pi) (s := s)
    as (s' & Hloop & Hblk' & Hslots' & Hfreed' & Hbal' & Hframe');
    try assumption; try lia.
  { intros i s0 pi1. reflexivity. }
  { intros i Hi. apply Hslots. lia. }
  rewrite Z2Nat.id in * by lia.
  exists s'. rewrite Hloop. simpl bind. cbv iota.
  split; [reflexivity|].
  split; [exact Hslots'|].
  split.
  { rewrite Hfreed', Hbt, map_map. f_equal. apply map_ext. intros k.
    f_equal. f_equal. lia. }
  split; [exact Hbal'|].
  split.
  { unfold Inode.entry_invalid. rewrite Hblk'.
    assert (Hnp' : load32 (pmem s') (E + Inode.ie_num_pages) = np).
    { unfold load32. rewrite (load_le_ext 4 (pmem s') (pmem s)); [exact Hnum|].
      intros x Hx. apply Hframe'; unfold Inode.ie_num_pages in Hx; lia. }
    rewrite Hnp'.
    destruct (aligned_block_parts B (0 + np) HB HB0 ltac:(lia)) as [_ Hinv].
    rewrite <- Z.add_assoc, Hinv. apply Z.eqb_eq. lia. }
  exact Hframe'.
Qed.

End AssignFacts.

(** The two pages of the file of [cow_fs] are written anew: blocks 16 and
    17 come back and the old entry is invalid. *)
Lemma assign_over_entry_invalidates_it_witness :
  exists s',
    Inode.__pmfs_assign_blocks (D := pmfs_def_x86) sb_4k cow_fs cow_pi 0 2 4128
    = Done (0, (s', set_i_blocks 0 cow_pi)) /\
    freed s' = [(16, 0); (17, 0)] /\
    Inode.entry_invalid (pmem s') 4096 = true.
Proof.
  destruct (assign_over_entry_invalidates_it (D := pmfs_def_x86) sb_4k cow_fs
              cow_pi 4096 4128 65536 0 2)
    as (s' & H1 & _ & H2 & _ & H3 & _).
  - reflexivity.
  - reflexivity.
  - reflexivity.
  - vm_compute. discriminate.
  - vm_compute. split; reflexivity.
  - vm_compute. discriminate.
  - vm_compute. split; [reflexivity | discriminate].
  - vm_compute. discriminate.
  - vm_compute. split; [discriminate | reflexivity].
  - vm_compute. reflexivity.
  - vm_compute. discriminate.
  - vm_compute. discriminate.
  - discriminate.
  - vm_compute. split; [discriminate | reflexivity].
  - left. vm_compute. discriminate.
  - vm_compute. reflexivity.
  - vm_compute. reflexivity.
  - vm_compute. reflexivity.
  - intros i Hi. assert (Hc : i = 0 \/ i = 1) by lia.
    destruct Hc as [-> | ->]; vm_compute; reflexivity.
  - exists s'. split; [exact H1|]. split; [exact H2 | exact H3].
Defined.

(* ====================================================================== *)
(** ** inode.c: allocating the blocks of a range *)

Lemma in_range (a : Z) (n : nat) (i : Z) :
  In i (map (fun k => a + Z.of_nat k) (seq 0 n)) <-> a <= i < a + Z.of_nat n.
Proof.
  rewrite in_map_iff. split.
  - intros (k & <- & Hk). apply in_seq in Hk. lia.
  - intros Hi. exists (Z.to_nat (i - a)). split; [lia|].
    apply in_seq. lia.
Qed.

Section AllocFacts.
Context {D : PmfsDef}.

(** The leaf loop of recursive_alloc_blocks over [n] slots, when the
    allocator grants a block for every empty slot. *)
Lemma alloc_leaf_loop (sb : super_block) (R zero : Z) (pi0 : pmfs_inode)
    (body : Z -> fs * pmfs_inode -> option Z * (fs * pmfs_inode)) :
  (forall i s pi,
     body i (s, pi)
     = if load64 (pmem s) (Inode.node_slot R i) =? 0 then
         let '((errval, blocknr), (s, pi)) :=
           Inode.pmfs_new_data_block sb s pi zero in
         if negb (errval =? 0) then
           (Some errval,
            (s, set_i_flags (Z.lor (i_flags pi) Inode.PMFS_EOFBLOCKS_FL) pi))
         else
           (None,
            (set_pmem (store64 (pmem s) (Inode.node_slot R i)
                         (pmfs_get_block_off blocknr)) s, pi))
       else (None, (s, pi))) ->
  s_blocksize_bits sb = 12 -> i_blk_type pi0 = PMFS_BLOCK_TYPE_4K ->
  forall (n : nat) (a ib : Z) (s : fs) (blocks : list Z)
         (rest : list (option Z)),
    balloc s = map Some blocks ++ rest ->
    length blocks
    = length (filter (fun i => load64 (pmem s) (Inode.node_slot R i) =? 0)
                (map (fun k => a + Z.of_nat k) (seq 0 n))) ->
    Forall (fun b => 0 < b < 2 ^ 52 /\
                     (b * 4096 + 4096 <= R + 8 * a \/
                      R + 8 * (a + Z.of_nat n) <= b * 4096)) blocks ->
    0 <= ib -> ib + Z.of_nat (length blocks) < 2 ^ 64 ->
    exists s',
      Inode.for_each (map (fun k => a + Z.of_nat k) (seq 0 n)) body
        (s, set_i_blocks ib pi0)
      = (None, (s', set_i_blocks (ib + Z.of_nat (length blocks)) pi0)) /\
      balloc s' = rest /\ freed s' = freed s /\
      map (fun i => load64 (pmem s') (Inode.node_slot R i))
        (filter (fun i => load64 (pmem s) (Inode.node_slot R i) =? 0)
           (map (fun k => a + Z.of_nat k) (seq 0 n)))
      = map pmfs_get_block_off blocks /\
      (forall i, a <= i < a + Z.of_nat n ->
         load64 (pmem s) (Inode.node_slot R i) <> 0 ->
         load64 (pmem s') (Inode.node_slot R i)
         = load64 (pmem s) (Inode.node_slot R i)) /\
      (forall i, a <= i < a + Z.of_nat n ->
         load64 (pmem s') (Inode.node_slot R i) <> 0) /\
      (forall x, x < R + 8 * a \/ R + 8 * (a + Z.of_nat n) <= x ->
         (forall b, In b blocks -> x < b * 4096 \/ b * 4096 + 4096 <= x) ->
         pmem s' x = pmem s x).
Proof.
  intros Hbody Hsb Hbt.
  induction n as [|n IH]; intros a ib s blocks rest Hbal Hlen Hok Hib Hib64.
  - simpl in Hlen. destruct blocks; [|discriminate]. simpl in Hbal.
    exists s. cbn [seq map filter Inode.for_each length].
    change (Z.of_nat 0) with 0. rewrite Z.add_0_r.
    split; [reflexivity|]. split; [exact Hbal|]. split; [reflexivity|].
    split; [reflexivity|]. split; [intros; reflexivity|].
    split; [intros i Hi; lia|]. intros; reflexivity.
  - rewrite range_S in *. cbn [filter] in Hlen |- *.
    cbn [Inode.for_each]. rewrite Hbody.
    destruct (Z.eqb_spec (load64 (pmem s) (Inode.node_slot R a)) 0)
      as [Hhole|Hfull].
    + (* the slot is empty: one block is taken *)
      destruct blocks as [|b bl]; [discriminate|].
      simpl in Hlen. injection Hlen as Hlen.
      apply Forall_cons_iff in Hok as [[Hb Hbd] Hok].
      simpl in Hbal.
      unfold Inode.pmfs_new_data_block, pmfs_new_data_blocks.
      rewrite Hbal. cbn [i_blk_type set_i_blocks]. rewrite Hbt, Hsb.
      change (0 =? 0) with true. cbv iota.
      change (negb true) with false. cbv iota.
      change (blk_type_to_shift PMFS_BLOCK_TYPE_4K - 12) with 0.
      change (Z.shiftl 1 0) with 1.
      change (1 * blk_type_to_size PMFS_BLOCK_TYPE_4K) with 4096.
      assert (Hoff : pmfs_get_block_off b = b * 4096)
        by (apply get_block_off_small; lia).
      rewrite Hoff.
      set (mz := if zero =? 0 then pmem s
                 else mem_zero (pmem s) (b * 4096) 4096).
      change (negb (0 =? 0)) with false. cbv iota.
      change (i_blocks (set_i_blocks ib pi0)) with ib.
      change (pmem (set_pmem mz (set_balloc (map Some bl ++ rest) s)))
        with mz.
      set (m1 := store64 mz (Inode.node_slot R a) (b * 4096)).
      assert (Hmz : forall x, x < b * 4096 \/ b * 4096 + 4096 <= x ->
                              mz x = pmem s x).
      { intros x Hx. unfold mz. destruct (zero =? 0); [reflexivity|].
        unfold mem_zero. destruct (Z.leb_spec (b * 4096) x); [|reflexivity].
        destruct (Z.ltb_spec x (b * 4096 + 4096)); [lia | reflexivity]. }
      assert (Hm1 : forall x, x < R + 8 * a \/ R + 8 * a + 8 <= x ->
                              m1 x = mz x).
      { intros x Hx. unfold m1, store64. apply store_le_outside.
        unfold Inode.node_slot. lia. }
      assert (Hslot1 : forall i, a + 1 <= i < a + 1 + Z.of_nat n ->
                load64 m1 (Inode.node_slot R i)
                = load64 (pmem s) (Inode.node_slot R i)).
      { intros i Hi. unfold load64. apply load_le_ext. intros x Hx.
        unfold Inode.node_slot in Hx.
        rewrite Hm1 by lia. apply Hmz. lia. }
      assert (Hpi : set_i_blocks (u64 (ib + 1)) (set_i_blocks ib pi0)
                    = set_i_blocks (ib + 1) pi0).
      { unfold set_i_blocks. simpl. unfold u64.
        rewrite Z.mod_small by (simpl length in Hib64; lia). reflexivity. }
      rewrite Hpi.
      assert (Hfil : filter (fun i => load64 m1 (Inode.node_slot R i) =? 0)
                       (map (fun k => a + 1 + Z.of_nat k) (seq 0 n))
                     = filter (fun i => load64 (pmem s) (Inode.node_slot R i)
                                        =? 0)
                         (map (fun k => a + 1 + Z.of_nat k) (seq 0 n))).
      { apply filter_ext_in. intros i Hi. apply in_range in Hi.
        rewrite Hslot1 by lia. reflexivity. }
      destruct (IH (a + 1) (ib + 1)
                  (set_pmem m1 (set_pmem mz
                     (set_balloc (map Some bl ++ rest) s))) bl rest)
        as (s' & Hloop & Hbal' & Hfr' & Hmap' & Hkeep' & Hnz' & Hframe').
      * reflexivity.
      * cbn [pmem set_pmem]. rewrite Hfil. exact Hlen.
      * eapply Forall_impl; [|exact Hok]. cbv beta. intros c [Hc Hcd].
        split; [exact Hc | lia].
      * lia.
      * simpl length in Hib64. lia.
      * cbn [pmem set_pmem] in *.
        assert (Hsa : load64 (pmem s') (Inode.node_slot R a) = b * 4096).
        { unfold load64. rewrite (load_le_ext 8 (pmem s') m1).
          - unfold m1, store64. rewrite load_store_same.
            change (2 ^ (8 * Z.of_nat 8)) with (2 ^ 64).
            apply Z.mod_small. lia.
          - intros x Hx. unfold Inode.node_slot in Hx. apply Hframe'; [lia|].
            intros c Hc. rewrite Forall_forall in Hok.
            destruct (Hok c Hc) as [_ Hcd]. lia. }
        exists s'. simpl length.
        replace (ib + Z.of_nat (S (length bl)))
          with (ib + 1 + Z.of_nat (length bl)) by lia.
        split; [exact Hloop|]. split; [exact Hbal'|].
        split; [exact Hfr'|].
        split.
        { cbn [map]. rewrite Hsa, Hoff. f_equal.
          rewrite <- Hfil. exact Hmap'. }
        split.
        { intros i Hi Hnz. destruct (Z.eq_dec i a) as [->|Hia];
            [contradiction|].
          rewrite Hkeep' by (try rewrite Hslot1 by lia; try assumption; lia).
          apply Hslot1. lia. }
        split.
        { intros i Hi. destruct (Z.eq_dec i a) as [->|Hia];
            [rewrite Hsa; lia | apply Hnz'; lia]. }
        intros x Hx Hxb. rewrite Hframe'.
        -- rewrite Hm1 by lia. apply Hmz. apply Hxb. left. reflexivity.
        -- lia.
        -- intros c Hc. apply Hxb. right. exact Hc.
    + (* the slot is mapped: nothing happens *)
      destruct (IH (a + 1) ib s blocks rest)
        as (s' & Hloop & Hbal' & Hfr' & Hmap' & Hkeep' & Hnz' & Hframe');
        try assumption.
      * eapply Forall_impl; [|exact Hok]. cbv beta. intros c [Hc Hcd].
        split; [exact Hc | lia].
      * assert (Hsa : load64 (pmem s') (Inode.node_slot R a)
                      = load64 (pmem s) (Inode.node_slot R a)).
        { unfold load64. apply load_le_ext. intros x Hx.
          unfold Inode.node_slot in Hx. apply Hframe'; [lia|].
          intros c Hc. rewrite Forall_forall in Hok.
          destruct (Hok c Hc) as [_ Hcd]. lia. }
        exists s'. split; [exact Hloop|]. split; [exact Hbal'|].
        split; [exact Hfr'|]. split; [exact Hmap'|].
        split.
        { intros i Hi Hnz. destruct (Z.eq_dec i a) as [->|Hia];
            [exact Hsa | apply Hkeep'; [lia | exact Hnz]]. }
        split.
        { intros i Hi. destruct (Z.eq_dec i a) as [->|Hia];
            [rewrite Hsa; exact Hfull | apply Hnz'; lia]. }
        intros x Hx Hxb. apply Hframe'; [lia | exact Hxb].
Qed.

(** The same loop when every slot of the range is mapped. *)
Lemma alloc_leaf_loop_full (R : Z)
    (body : Z -> fs * pmfs_inode -> option Z * (fs * pmfs_inode)) :
  (forall i s pi,
     load64 (pmem s) (Inode.node_slot R i) <> 0 ->
     body i (s, pi) = (None, (s, pi))) ->
  forall (idx : list Z) (s : fs) (pi : pmfs_inode),
    (forall i, In i idx -> load64 (pmem s) (Inode.node_slot R i) <> 0) ->
    Inode.for_each idx body (s, pi) = (None, (s, pi)).
Proof.
  intros Hbody. induction idx as [|i tl IH]; intros s pi Hall;
    [reflexivity|].
  cbn [Inode.for_each]. rewrite Hbody by (apply Hall; left; reflexivity).
  apply IH. intros j Hj. apply Hall. right. exact Hj.
Qed.

(** X29: on a file of height 1 with 4 KiB blocks, __pmfs_alloc_blocks
    over a range of slots fills the holes and nothing else.  When the
    allocator grants one block per empty slot the call returns 0, the empty
    slots of the range receive the granted blocks in order, the slots that
    were mapped keep their block, i_blocks grows by the number of holes,
    and nothing but the holes (and the granted blocks, zeroed on request)
    is written.  Afterwards no slot of the range is empty, and repeating
    the call takes no block and changes nothing. *)
Theorem alloc_blocks_fills_only_holes (sb : super_block) (s : fs)
    (pi : pmfs_inode) (pg np zero : Z) (blocks : list Z)
    (rest : list (option Z)) :
  let holes := filter (fun i => load64 (pmem s)
                                  (Inode.node_slot (root pi) i) =? 0)
                 (Inode.index_range pg (pg + np - 1)) in
  s_blocksize_bits sb = 12 -> i_blk_type pi = PMFS_BLOCK_TYPE_4K ->
  height pi = 1 -> root pi <> 0 ->
  0 < META_BLK_SHIFT < 32 ->
  0 <= pg -> 0 < np -> pg + np <= 2 ^ META_BLK_SHIFT ->
  balloc s = map Some blocks ++ rest ->
  length blocks = length holes ->
  Forall (fun b => 0 < b < 2 ^ 52 /\
                   (b * 4096 + 4096 <= root pi + 8 * pg \/
                    root pi + 8 * (pg + np) <= b * 4096)) blocks ->
  0 <= i_blocks pi -> i_blocks pi + Z.of_nat (length blocks) < 2 ^ 64 ->
  exists s',
    let pi' := set_i_blocks (i_blocks pi + Z.of_nat (length blocks)) pi in
    Inode.__pmfs_alloc_blocks sb s pi pg np zero = (0, (s', pi')) /\
    balloc s' = rest /\ freed s' = freed s /\
    map (fun i => load64 (pmem s') (Inode.node_slot (root pi) i)) holes
    = map pmfs_get_block_off blocks /\
    (forall i, pg <= i < pg + np ->
       load64 (pmem s) (Inode.node_slot (root pi) i) <> 0 ->
       load64 (pmem s') (Inode.node_slot (root pi) i)
       = load64 (pmem s) (Inode.node_slot (root pi) i)) /\
    (forall i, pg <= i < pg + np ->
       load64 (pmem s') (Inode.node_slot (root pi) i) <> 0) /\
    (forall x, x < root pi + 8 * pg \/ root pi + 8 * (pg + np) <= x ->
       (forall b, In b blocks -> x < b * 4096 \/ b * 4096 + 4096 <= x) ->
       pmem s' x = pmem s x) /\
    Inode.__pmfs_alloc_blocks sb s' pi' pg np zero = (0, (s', pi')).
Proof.
  intros holes Hsb Hbt Hh Hroot Hmeta Hpg Hnp Hfit Hbal Hlen Hok Hib Hib64.
  assert (Hpow : 2 ^ META_BLK_SHIFT < 2 ^ 32)
    by (apply Z.pow_lt_mono_r; lia).
  assert (H3264 : 2 ^ 32 < 2 ^ 64) by (apply Z.pow_lt_mono_r; lia).
  (* the head of __pmfs_alloc_blocks, for any state of this file *)
  assert (Hhead : forall s0 pi0,
            i_blk_type pi0 = PMFS_BLOCK_TYPE_4K -> height pi0 = 1 ->
            root pi0 = root pi ->
            Inode.__pmfs_alloc_blocks sb s0 pi0 pg np zero
            = (let '(errval, st) :=
                 Inode.recursive_alloc_blocks 0 sb (root pi) pg (pg + np - 1)
                   zero (s0, pi0) in
               if errval <? 0 then (errval, st) else (0, st))).
  { intros s0 pi0 Hbt0 Hh0 Hr0. unfold Inode.__pmfs_alloc_blocks.
    rewrite Hbt0, Hsb.
    change (blk_type_to_shift PMFS_BLOCK_TYPE_4K - 12) with 0.
    rewrite !Z.shiftr_0_r.
    assert (Hlast : u64 (pg + np - 1) = pg + np - 1)
      by (unfold u64; apply Z.mod_small; lia).
    rewrite Hlast.
    assert (Hgrow : Inode.grown_height pi0 (pg + np - 1) = Some 1).
    { unfold Inode.grown_height. rewrite Hh0, Z.mul_1_l, Z.shiftl_1_l.
      assert (Hu : u64 (2 ^ META_BLK_SHIFT) = 2 ^ META_BLK_SHIFT)
        by (unfold u64; apply Z.mod_small; lia).
      rewrite Hu.
      assert (Hp1 : 0 < 2 ^ META_BLK_SHIFT) by (apply Z.pow_pos_nonneg; lia).
      assert (Hu1 : u64 (2 ^ META_BLK_SHIFT - 1) = 2 ^ META_BLK_SHIFT - 1)
        by (unfold u64; apply Z.mod_small; lia).
      rewrite Hu1.
      destruct (Z.ltb_spec (2 ^ META_BLK_SHIFT - 1) (pg + np - 1)); [lia|].
      reflexivity. }
    rewrite Hgrow, Hr0.
    destruct (Z.eqb_spec (root pi) 0) as [|_]; [contradiction|].
    change (1 =? 0) with false. cbv iota. rewrite Hh0.
    change (1 <? 1) with false. cbv iota.
    change (negb (0 =? 0)) with false. cbv iota.
    change (Z.to_nat (1 - 1)) with 0%nat. rewrite Hr0. reflexivity. }
  assert (Hrec : exists body,
            (forall s0 pi0,
               Inode.recursive_alloc_blocks 0 sb (root pi) pg (pg + np - 1)
                 zero (s0, pi0)
               = match Inode.for_each
                         (map (fun k => pg + Z.of_nat k)
                            (seq 0 (Z.to_nat np))) body (s0, pi0) with
                 | (Some errval, st) => (errval, st)
                 | (None, st) => (0, st)
                 end) /\
            (forall i s1 pi1,
               body i (s1, pi1)
               = if load64 (pmem s1) (Inode.node_slot (root pi) i) =? 0 then
                   let '((errval, blocknr), (s1, pi1)) :=
                     Inode.pmfs_new_data_block sb s1 pi1 zero in
                   if negb (errval =? 0) then
                     (Some errval,
                      (s1, set_i_flags
                             (Z.lor (i_flags pi1) Inode.PMFS_EOFBLOCKS_FL)
                             pi1))
                   else
                     (None,
                      (set_pmem
                         (store64 (pmem s1) (Inode.node_slot (root pi) i)
                            (pmfs_get_block_off blocknr)) s1, pi1))
                 else (None, (s1, pi1)))).
  { eexists. split.
    - intros s0 pi0. unfold Inode.recursive_alloc_blocks.
      rewrite Z.mul_0_l, !Z.shiftr_0_r.
      assert (Hu32a : u32 pg = pg) by (unfold u32; apply Z.mod_small; lia).
      assert (Hu32b : u32 (pg + np - 1) = pg + np - 1)
        by (unfold u32; apply Z.mod_small; lia).
      rewrite Hu32a, Hu32b. unfold Inode.index_range.
      replace (pg + np - 1 - pg + 1) with np by lia.
      reflexivity.
    - intros i s1 pi1. reflexivity. }
  destruct Hrec as (body & Hrec & Hbody).
  assert (Hholes : holes
                   = filter (fun i => load64 (pmem s)
                                        (Inode.node_slot (root pi) i) =? 0)
                       (map (fun k => pg + Z.of_nat k)
                          (seq 0 (Z.to_nat np)))).
  { unfold holes, Inode.index_range.
    replace (pg + np - 1 - pg + 1) with np by lia. reflexivity. }
  destruct (alloc_leaf_loop sb (root pi) zero pi body)
    with (n := Z.to_nat np) (a := pg) (ib := i_blocks pi) (s := s)
         (blocks := blocks) (rest := rest)
    as (s' & Hloop & Hbal' & Hfr' & Hmap' & Hkeep' & Hnz' & Hframe');
    try assumption.
  { rewrite <- Hholes. exact Hlen. }
  { rewrite Z2Nat.id by lia. exact Hok. }
  rewrite Z2Nat.id in * by lia.
  exists s'. cbv zeta.
  assert (Hpi0 : (s, pi) = (s, set_i_blocks (i_blocks pi) pi))
    by (destruct pi; reflexivity).
  split.
  { rewrite (Hhead s pi Hbt Hh eq_refl).
    assert (Hr : Inode.recursive_alloc_blocks 0 sb (root pi) pg (pg + np - 1)
                   zero (s, pi)
                 = (0, (s', set_i_blocks
                              (i_blocks pi + Z.of_nat (length blocks)) pi))).
    { rewrite Hrec, Hpi0, Hloop. reflexivity. }
    rewrite Hr. reflexivity. }
  split; [exact Hbal'|]. split; [exact Hfr'|].
  split; [rewrite Hholes; exact Hmap'|].
  split; [exact Hkeep'|]. split; [exact Hnz'|]. split; [exact Hframe'|].
  rewrite Hhead by (destruct pi; assumption || reflexivity).
  assert (Hr2 : Inode.recursive_alloc_blocks 0 sb (root pi) pg (pg + np - 1)
                  zero
                  (s', set_i_blocks
                         (i_blocks pi + Z.of_nat (length blocks)) pi)
                = (0, (s', set_i_blocks
                             (i_blocks pi + Z.of_nat (length blocks)) pi))).
  { rewrite Hrec.
    rewrite (alloc_leaf_loop_full (root pi)); [reflexivity| |].
    - intros i s0 pi1 Hnz. rewrite Hbody.
      destruct (Z.eqb_spec (load64 (pmem s0) (Inode.node_slot (root pi) i)) 0);
        [contradiction | reflexivity].
    - intros i Hi. apply in_range in Hi. apply Hnz'.
      rewrite Z2Nat.id in Hi by lia. exact Hi. }
  rewrite Hr2. reflexivity.
Qed.

(** The leaf loop when the allocator refuses before every empty slot has
    its block. *)
Lemma alloc_leaf_loop_enospc (sb : super_block) (R zero : Z)
    (pi0 : pmfs_inode)
    (body : Z -> fs * pmfs_inode -> option Z * (fs * pmfs_inode)) :
  (forall i s pi,
     body i (s, pi)
     = if load64 (pmem s) (Inode.node_slot R i) =? 0 then
         let '((errval, blocknr), (s, pi)) :=
           Inode.pmfs_new_data_block sb s pi zero in
         if negb (errval =? 0) then
           (Some errval,
            (s, set_i_flags (Z.lor (i_flags pi) Inode.PMFS_EOFBLOCKS_FL) pi))
         else
           (None,
            (set_pmem (store64 (pmem s) (Inode.node_slot R i)
                         (pmfs_get_block_off blocknr)) s, pi))
       else (None, (s, pi))) ->
  s_blocksize_bits sb = 12 -> i_blk_type pi0 = PMFS_BLOCK_TYPE_4K ->
  forall (n : nat) (a ib : Z) (s : fs) (blocks : list Z)
         (rest : list (option Z)),
    balloc s = map Some blocks ++ rest ->
    rest = [] \/ (exists r, rest = None :: r) ->
    (length blocks
     < length (filter (fun i => (load64 (pmem s) (Inode.node_slot R i)
                                 =? 0)%Z)
                 (map (fun k => (a + Z.of_nat k)%Z) (seq 0 n))))%nat ->
    Forall (fun b => 0 < b < 2 ^ 52 /\
                     (b * 4096 + 4096 <= R + 8 * a \/
                      R + 8 * (a + Z.of_nat n) <= b * 4096)) blocks ->
    0 <= ib -> ib + Z.of_nat (length blocks) < 2 ^ 64 ->
    exists s',
      Inode.for_each (map (fun k => a + Z.of_nat k) (seq 0 n)) body
        (s, set_i_blocks ib pi0)
      = (Some (- ENOSPC),
         (s', set_i_flags (Z.lor (i_flags pi0) Inode.PMFS_EOFBLOCKS_FL)
                (set_i_blocks (ib + Z.of_nat (length blocks)) pi0))) /\
      balloc s' = tl rest /\ freed s' = freed s /\
      map (fun i => load64 (pmem s') (Inode.node_slot R i))
        (firstn (length blocks)
           (filter (fun i => load64 (pmem s) (Inode.node_slot R i) =? 0)
              (map (fun k => a + Z.of_nat k) (seq 0 n))))
      = map pmfs_get_block_off blocks /\
      (forall i,
         In i (skipn (length blocks)
                 (filter (fun i => load64 (pmem s) (Inode.node_slot R i) =? 0)
                    (map (fun k => a + Z.of_nat k) (seq 0 n)))) ->
         load64 (pmem s') (Inode.node_slot R i) = 0) /\
      (forall i, a <= i < a + Z.of_nat n ->
         load64 (pmem s) (Inode.node_slot R i) <> 0 ->
         load64 (pmem s') (Inode.node_slot R i)
         = load64 (pmem s) (Inode.node_slot R i)) /\
      (forall x, x < R + 8 * a \/ R + 8 * (a + Z.of_nat n) <= x ->
         (forall b, In b blocks -> x < b * 4096 \/ b * 4096 + 4096 <= x) ->
         pmem s' x = pmem s x).
Proof.
  intros Hbody Hsb Hbt.
  induction n as [|n IH]; intros a ib s blocks rest Hbal Hrest Hlen Hok Hib
    Hib64.
  - simpl in Hlen. lia.
  - rewrite range_S in *. cbn [filter] in Hlen |- *.
    cbn [Inode.for_each]. rewrite Hbody.
    destruct (Z.eqb_spec (load64 (pmem s) (Inode.node_slot R a)) 0)
      as [Hhole|Hfull].
    + destruct blocks as [|b bl].
      * (* the allocator refuses here *)
        simpl in Hbal.
        assert (Hnew : exists s1,
                  Inode.pmfs_new_data_block sb s (set_i_blocks ib pi0) zero
                  = ((- ENOSPC, 0), (s1, set_i_blocks ib pi0)) /\
                  pmem s1 = pmem s /\ balloc s1 = tl rest /\
                  freed s1 = freed s).
        { unfold Inode.pmfs_new_data_block, pmfs_new_data_blocks.
          rewrite Hbal. destruct Hrest as [->|(r & ->)];
            eexists; (split; [reflexivity|]); simpl; auto. }
        destruct Hnew as (s1 & Hnew & Hm1 & Hb1 & Hf1).
        rewrite Hnew. change (negb (- ENOSPC =? 0)) with true. cbv iota.
        exists s1. cbn [length firstn skipn map].
        change (Z.of_nat 0) with 0. rewrite Z.add_0_r.
        split; [reflexivity|]. split; [exact Hb1|]. split; [exact Hf1|].
        split; [reflexivity|].
        split.
        { intros i Hi. rewrite Hm1. destruct Hi as [<-|Hi]; [exact Hhole|].
          apply filter_In in Hi as [_ Hi]. apply Z.eqb_eq in Hi. exact Hi. }
        split; [intros i Hi Hnz; rewrite Hm1; reflexivity|].
        intros x _ _. rewrite Hm1. reflexivity.
      * (* one more block is granted *)
        simpl in Hlen. apply PeanoNat.lt_S_n in Hlen.
        apply Forall_cons_iff in Hok as [[Hb Hbd] Hok].
        simpl in Hbal.
        unfold Inode.pmfs_new_data_block, pmfs_new_data_blocks.
        rewrite Hbal. cbn [i_blk_type set_i_blocks]. rewrite Hbt, Hsb.
        change (0 =? 0) with true. cbv iota.
        change (negb true) with false. cbv iota.
        change (blk_type_to_shift PMFS_BLOCK_TYPE_4K - 12) with 0.
        change (Z.shiftl 1 0) with 1.
        change (1 * blk_type_to_size PMFS_BLOCK_TYPE_4K) with 4096.
        assert (Hoff : pmfs_get_block_off b = b * 4096)
          by (apply get_block_off_small; lia).
        rewrite Hoff.
        set (mz := if zero =? 0 then pmem s
                   else mem_zero (pmem s) (b * 4096) 4096).
        change (negb (0 =? 0)) with false. cbv iota.
        change (i_blocks (set_i_blocks ib pi0)) with ib.
        change (pmem (set_pmem mz (set_balloc (map Some bl ++ rest) s)))
          with mz.
        set (m1 := store64 mz (Inode.node_slot R a) (b * 4096)).
        assert (Hmz : forall x, x < b * 4096 \/ b * 4096 + 4096 <= x ->
                                mz x = pmem s x).
        { intros x Hx. unfold mz. destruct (zero =? 0); [reflexivity|].
          unfold mem_zero. destruct (Z.leb_spec (b * 4096) x); [|reflexivity].
          destruct (Z.ltb_spec x (b * 4096 + 4096)); [lia | reflexivity]. }
        assert (Hm1 : forall x, x < R + 8 * a \/ R + 8 * a + 8 <= x ->
                                m1 x = mz x).
        { intros x Hx. unfold m1, store64. apply store_le_outside.
          unfold Inode.node_slot. lia. }
        assert (Hslot1 : forall i, a + 1 <= i < a + 1 + Z.of_nat n ->
                  load64 m1 (Inode.node_slot R i)
                  = load64 (pmem s) (Inode.node_slot R i)).
        { intros i Hi. unfold load64. apply load_le_ext. intros x Hx.
          unfold Inode.node_slot in Hx.
          rewrite Hm1 by lia. apply Hmz. lia. }
        assert (Hpi : set_i_blocks (u64 (ib + 1)) (set_i_blocks ib pi0)
                      = set_i_blocks (ib + 1) pi0).
        { unfold set_i_blocks. simpl. unfold u64.
          rewrite Z.mod_small by (simpl length in Hib64; lia). reflexivity. }
        rewrite Hpi.
        assert (Hfil : filter (fun i => load64 m1 (Inode.node_slot R i) =? 0)
                         (map (fun k => a + 1 + Z.of_nat k) (seq 0 n))
                       = filter (fun i => load64 (pmem s)
                                            (Inode.node_slot R i) =? 0)
                           (map (fun k => a + 1 + Z.of_nat k) (seq 0 n))).
        { apply filter_ext_in. intros i Hi. apply in_range in Hi.
          rewrite Hslot1 by lia. reflexivity. }
        destruct (IH (a + 1) (ib + 1)
                    (set_pmem m1 (set_pmem mz
                       (set_balloc (map Some bl ++ rest) s))) bl rest)
          as (s' & Hloop & Hbal' & Hfr' & Hmap' & Hzero' & Hkeep' & Hframe').
        -- reflexivity.
        -- exact Hrest.
        -- cbn [pmem set_pmem]. rewrite Hfil. exact Hlen.
        -- eapply Forall_impl; [|exact Hok]. cbv beta. intros c [Hc Hcd].
           split; [exact Hc | lia].
        -- lia.
        -- simpl length in Hib64. lia.
        -- cbn [pmem set_pmem] in *.
           assert (Hsa : load64 (pmem s') (Inode.node_slot R a) = b * 4096).
           { unfold load64. rewrite (load_le_ext 8 (pmem s') m1).
             - unfold m1, store64. rewrite load_store_same.
               change (2 ^ (8 * Z.of_nat 8)) with (2 ^ 64).
               apply Z.mod_small. lia.
             - intros x Hx. unfold Inode.node_slot in Hx.
               apply Hframe'; [lia|].
               intros c Hc. rewrite Forall_forall in Hok.
               destruct (Hok c Hc) as [_ Hcd]. lia. }
           exists s'. simpl length.
           replace (ib + Z.of_nat (S (length bl)))
             with (ib + 1 + Z.of_nat (length bl)) by lia.
           split; [exact Hloop|]. split; [exact Hbal'|].
           split; [exact Hfr'|].
           split.
           { cbn [firstn map]. rewrite Hsa, Hoff. f_equal.
             rewrite <- Hfil. exact Hmap'. }
           split.
           { cbn [skipn]. intros i Hi. apply Hzero'. rewrite Hfil. exact Hi. }
           split.
           { intros i Hi Hnz. destruct (Z.eq_dec i a) as [->|Hia];
               [contradiction|].
             rewrite Hkeep' by (try rewrite Hslot1 by lia; try assumption; lia).
             apply Hslot1. lia. }
           intros x Hx Hxb. rewrite Hframe'.
           ++ rewrite Hm1 by lia. apply Hmz. apply Hxb. left. reflexivity.
           ++ lia.
           ++ intros c Hc. apply Hxb. right. exact Hc.
    + (* the slot is mapped: nothing happens *)
      destruct (IH (a + 1) ib s blocks rest)
        as (s' & Hloop & Hbal' & Hfr' & Hmap' & Hzero' & Hkeep' & Hframe');
        try assumption.
      * eapply Forall_impl; [|exact Hok]. cbv beta. intros c [Hc Hcd].
        split; [exact Hc | lia].
      * assert (Hsa : load64 (pmem s') (Inode.node_slot R a)
                      = load64 (pmem s) (Inode.node_slot R a)).
        { unfold load64. apply load_le_ext. intros x Hx.
          unfold Inode.node_slot in Hx. apply Hframe'; [lia|].
          intros c Hc. rewrite Forall_forall in Hok.
          destruct (Hok c Hc) as [_ Hcd]. lia. }
        exists s'. split; [exact Hloop|]. split; [exact Hbal'|].
        split; [exact Hfr'|]. split; [exact Hmap'|].
        split; [exact Hzero'|].
        split.
        { intros i Hi Hnz. destruct (Z.eq_dec i a) as [->|Hia];
            [exact Hsa | apply Hkeep'; [lia | exact Hnz]]. }
        intros x Hx Hxb. apply Hframe'; [lia | exact Hxb].
Qed.

(** X30: when the allocator refuses before every hole of the range has its
    block, __pmfs_alloc_blocks on a file of height 1 returns -ENOSPC and
    sets PMFS_EOFBLOCKS_FL on the inode.  Nothing is rolled back: the holes
    served before the refusal keep the blocks they were given and i_blocks
    counts them, the remaining holes stay empty, and the mapped slots keep
    their block. *)
Theorem alloc_blocks_enospc_keeps_partial (sb : super_block) (s : fs)
    (pi : pmfs_inode) (pg np zero : Z) (blocks : list Z)
    (rest : list (option Z)) :
  let holes := filter (fun i => load64 (pmem s)
                                  (Inode.node_slot (root pi) i) =? 0)
                 (Inode.index_range pg (pg + np - 1)) in
  s_blocksize_bits sb = 12 -> i_blk_type pi = PMFS_BLOCK_TYPE_4K ->
  height pi = 1 -> root pi <> 0 ->
  0 < META_BLK_SHIFT < 32 ->
  0 <= pg -> 0 < np -> pg + np <= 2 ^ META_BLK_SHIFT ->
  balloc s = map Some blocks ++ rest ->
  rest = [] \/ (exists r, rest = None :: r) ->
  (length blocks < length holes)%nat ->
  Forall (fun b => 0 < b < 2 ^ 52 /\
                   (b * 4096 + 4096 <= root pi + 8 * pg \/
                    root pi + 8 * (pg + np) <= b * 4096)) blocks ->
  0 <= i_blocks pi -> i_blocks pi + Z.of_nat (length blocks) < 2 ^ 64 ->
  exists s',
    Inode.__pmfs_alloc_blocks sb s pi pg np zero
    = (- ENOSPC,
       (s', set_i_flags (Z.lor (i_flags pi) Inode.PMFS_EOFBLOCKS_FL)
              (set_i_blocks (i_blocks pi + Z.of_nat (length blocks)) pi))) /\
    balloc s' = tl rest /\ freed s' = freed s /\
    map (fun i => load64 (pmem s') (Inode.node_slot (root pi) i))
      (firstn (length blocks) holes)
    = map pmfs_get_block_off blocks /\
    (forall i, In i (skipn (length blocks) holes) ->
       load64 (pmem s') (Inode.node_slot (root pi) i) = 0) /\
    (forall i, pg <= i < pg + np ->
       load64 (pmem s) (Inode.node_slot (root pi) i) <> 0 ->
       load64 (pmem s') (Inode.node_slot (root pi) i)
       = load64 (pmem s) (Inode.node_slot (root pi) i)).
Proof.
  intros holes Hsb Hbt Hh Hroot Hmeta Hpg Hnp Hfit Hbal Hrest Hlen Hok Hib
    Hib64.
  assert (Hpow : 2 ^ META_BLK_SHIFT < 2 ^ 32)
    by (apply Z.pow_lt_mono_r; lia).
  assert (H3264 : 2 ^ 32 < 2 ^ 64) by (apply Z.pow_lt_mono_r; lia).
  assert (Hp1 : 0 < 2 ^ META_BLK_SHIFT) by (apply Z.pow_pos_nonneg; lia).
  unfold Inode.__pmfs_alloc_blocks.
  rewrite Hbt, Hsb.
  change (blk_type_to_shift PMFS_BLOCK_TYPE_4K - 12) with 0.
  rewrite !Z.shiftr_0_r.
  assert (Hlast : u64 (pg + np - 1) = pg + np - 1)
    by (unfold u64; apply Z.mod_small; lia).
  rewrite Hlast.
  assert (Hgrow : Inode.grown_height pi (pg + np - 1) = Some 1).
  { unfold Inode.grown_height. rewrite Hh, Z.mul_1_l, Z.shiftl_1_l.
    assert (Hu : u64 (2 ^ META_BLK_SHIFT) = 2 ^ META_BLK_SHIFT)
      by (unfold u64; apply Z.mod_small; lia).
    rewrite Hu.
    assert (Hu1 : u64 (2 ^ META_BLK_SHIFT - 1) = 2 ^ META_BLK_SHIFT - 1)
      by (unfold u64; apply Z.mod_small; lia).
    rewrite Hu1.
    destruct (Z.ltb_spec (2 ^ META_BLK_SHIFT - 1) (pg + np - 1)); [lia|].
    reflexivity. }
  rewrite Hgrow.
  destruct (Z.eqb_spec (root pi) 0) as [|_]; [contradiction|].
  change (1 =? 0) with false. cbv iota. rewrite Hh.
  change (1 <? 1) with false. cbv iota.
  change (negb (0 =? 0)) with false. cbv iota.
  change (Z.to_nat (1 - 1)) with 0%nat.
  unfold Inode.recursive_alloc_blocks.
  rewrite Z.mul_0_l, !Z.shiftr_0_r.
  assert (Hu32a : u32 pg = pg) by (unfold u32; apply Z.mod_small; lia).
  assert (Hu32b : u32 (pg + np - 1) = pg + np - 1)
    by (unfold u32; apply Z.mod_small; lia).
  rewrite Hu32a, Hu32b.
  assert (Hholes : holes
                   = filter (fun i => load64 (pmem s)
                                        (Inode.node_slot (root pi) i) =? 0)
                       (map (fun k => pg + Z.of_nat k)
                          (seq 0 (Z.to_nat np)))).
  { unfold holes, Inode.index_range.
    replace (pg + np - 1 - pg + 1) with np by lia. reflexivity. }
  unfold Inode.index_range.
  replace (pg + np - 1 - pg + 1) with np by lia.
  match goal with
  | |- context [Inode.for_each _ ?b _] => set (body := b)
  end.
  replace (s, pi) with (s, set_i_blocks (i_blocks pi) pi)
    by (destruct pi; reflexivity).
  destruct (alloc_leaf_loop_enospc sb (root pi) zero pi body)
    with (n := Z.to_nat np) (a := pg) (ib := i_blocks pi) (s := s)
         (blocks := blocks) (rest := rest)
    as (s' & Hloop & Hbal' & Hfr' & Hmap' & Hzero' & Hkeep' & _);
    try assumption.
  { intros i s0 pi1. reflexivity. }
  { rewrite <- Hholes. exact Hlen. }
  { rewrite Z2Nat.id by lia. exact Hok. }
  rewrite Z2Nat.id in * by lia.
  exists s'. rewrite Hloop. cbv iota beta.
  change (- ENOSPC <? 0) with true. cbv iota.
  split; [reflexivity|]. split; [exact Hbal'|]. split; [exact Hfr'|].
  split; [rewrite Hholes; exact Hmap'|].
  split; [rewrite Hholes; exact Hzero' | exact Hkeep'].
Qed.

End AllocFacts.

(** The three first blocks of the file of [sparse_fs]: slots 1 and 2 get
    the blocks 20 and 21, slot 0 keeps its block. *)
Lemma alloc_blocks_fills_only_holes_witness :
  exists s',
    Inode.__pmfs_alloc_blocks (D := pmfs_def_x86) sb_4k sparse_fs sparse_pi
      0 3 0
    = (0, (s', set_i_blocks 3 sparse_pi)) /\
    map (fun i => load64 (pmem s') (Inode.node_slot (root sparse_pi) i))
      [0; 1; 2]
    = [65536; 81920; 86016].
Proof.
  pose proof (alloc_blocks_fills_only_holes (D := pmfs_def_x86) sb_4k
                sparse_fs sparse_pi 0 3 0 [20; 21] []) as H.
  cbv zeta in H.
  destruct H as (s' & H1 & _ & _ & H2 & H3 & _).
  - reflexivity.
  - reflexivity.
  - reflexivity.
  - vm_compute. discriminate.
  - vm_compute. split; reflexivity.
  - vm_compute. discriminate.
  - vm_compute. reflexivity.
  - vm_compute. discriminate.
  - reflexivity.
  - vm_compute. reflexivity.
  - repeat constructor; vm_compute; try reflexivity; discriminate.
  - vm_compute. discriminate.
  - vm_compute. reflexivity.
  - exists s'. split; [exact H1|].
    assert (H0 : load64 (pmem s') (Inode.node_slot (root sparse_pi) 0)
                 = 65536).
    { rewrite (H3 0); [vm_compute; reflexivity | lia |].
      vm_compute. discriminate. }
    assert (Hh : filter (fun i => load64 (pmem sparse_fs)
                                    (Inode.node_slot (root sparse_pi) i) =? 0)
                   (Inode.index_range 0 (0 + 3 - 1)) = [1; 2])
      by (vm_compute; reflexivity).
    rewrite Hh in H2. rewrite map_cons, H0, H2. vm_compute. reflexivity.
Defined.

(** The allocator of [sparse_fs] cut down to one block: slot 1 is served,
    slot 2 stays a hole and the inode is flagged. *)
Lemma alloc_blocks_enospc_keeps_partial_witness :
  exists s',
    Inode.__pmfs_alloc_blocks (D := pmfs_def_x86) sb_4k
      (set_balloc [Some 20] sparse_fs) sparse_pi 0 3 0
    = (- ENOSPC,
       (s', set_i_flags 536870912 (set_i_blocks 2 sparse_pi))) /\
    load64 (pmem s') (Inode.node_slot (root sparse_pi) 2) = 0.
Proof.
  pose proof (alloc_blocks_enospc_keeps_partial (D := pmfs_def_x86) sb_4k
                (set_balloc [Some 20] sparse_fs) sparse_pi 0 3 0 [20] [])
    as H.
  cbv zeta in H.
  destruct H as (s' & H1 & _ & _ & _ & H2 & _).
  - reflexivity.
  - reflexivity.
  - reflexivity.
  - vm_compute. discriminate.
  - vm_compute. split; reflexivity.
  - vm_compute. discriminate.
  - vm_compute. reflexivity.
  - vm_compute. discriminate.
  - reflexivity.
  - left. reflexivity.
  - vm_compute. apply le_n.
  - repeat constructor; vm_compute; try reflexivity; discriminate.
  - vm_compute. discriminate.
  - vm_compute. reflexivity.
  - exists s'. split; [exact H1|]. apply H2. vm_compute. left. reflexivity.
Defined.
